(** * MySQL storage adapter: query and update compilers

    A shallow embedding of the JavaScript sources of the adapter
    (the utilities file with [toParseSchema], [toMySQLSchema],
    [handleDotFields], [validateKeys], [joinTablesForSchema], the regex
    helpers, [buildWhereClause] and [transformUpdate], and, of
    [MySQLStorageAdapter.js], its own [buildWhereClause] in the module
    [Adapter] and the error handling of [find], [count] and
    [deleteObjectsByQuery]).

    JavaScript values are modelled as JSON-shaped trees.  Objects are
    association lists in enumeration order (own properties only: members
    inherited from [Object.prototype] are not modelled), strings are
    sequences of 8-bit code units.  Numbers are IEEE doubles in the source;
    the development is parametric in the number type and in the few
    operations the code applies to it (class [JsNumber]).  Exceptions are
    an error monad; in-place mutation of the arguments is modelled by
    returning the mutated argument next to the result. *)

From Stdlib Require Import String Ascii List Arith Lia Bool.
From Stdlib Require Import DecimalString DecimalNat.
From Equations Require Import Equations.
Import ListNotations.
Open Scope list_scope.
Open Scope nat_scope.
Open Scope string_scope.

Set Implicit Arguments.
Local Set Warnings "-register-all,-abstract-large-number".

(** ** Strings *)

Definition show_nat (n : nat) : string :=
  NilEmpty.string_of_uint (Nat.to_uint n).

Definition chars (s : string) : list ascii := list_ascii_of_string s.

Fixpoint starts_with (p s : string) : bool :=
  match p, s with
  | EmptyString, _ => true
  | String a p', String b s' => if Ascii.eqb a b then starts_with p' s' else false
  | String _ _, EmptyString => false
  end.

Fixpoint str_rev_onto (s acc : string) : string :=
  match s with
  | EmptyString => acc
  | String c r => str_rev_onto r (String c acc)
  end.

Definition str_rev (s : string) : string := str_rev_onto s "".

Definition ends_with (p s : string) : bool :=
  starts_with (str_rev p) (str_rev s).

Fixpoint str_take (n : nat) (s : string) : string :=
  match n, s with
  | S n', String c r => String c (str_take n' r)
  | _, _ => ""
  end.

Fixpoint str_drop (n : nat) (s : string) : string :=
  match n, s with
  | S n', String _ r => str_drop n' r
  | _, _ => s
  end.

(** [s.indexOf(p)]: position of the first occurrence of [p] in [s]. *)
Fixpoint index_of (p s : string) : option nat :=
  if starts_with p s then Some 0
  else match s with
       | EmptyString => None
       | String _ r => option_map S (index_of p r)
       end.

Definition includes (p s : string) : bool :=
  match index_of p s with Some _ => true | None => false end.

(** [s.split(c)] for a one-character separator. *)
Fixpoint split_on (c : ascii) (s : string) : list string :=
  match s with
  | EmptyString => [""]
  | String a r =>
      if Ascii.eqb a c then "" :: split_on c r
      else match split_on c r with
           | [] => [String a ""]
           | h :: t => String a h :: t
           end
  end.

(** [l.push(x)]. *)
Definition snoc {A} (l : list A) (x : A) : list A := (l ++ [x])%list.

(** [l.join(sep)] on a list of strings. *)
Fixpoint join (sep : string) (l : list string) : string :=
  match l with
  | [] => ""
  | [x] => x
  | x :: r => x ++ sep ++ join sep r
  end.

(** [s.replace(p, r)] with a string pattern: only the first occurrence
    is replaced (the replacements used in the source contain no [$]). *)
Definition replace_first (p r s : string) : string :=
  match index_of p s with
  | Some i => str_take i s ++ r ++ str_drop (i + String.length p) s
  | None => s
  end.

(** ** Errors *)

(** The [Parse.Error] codes the adapter raises. *)
Inductive parse_code :=
| OPERATION_FORBIDDEN
| INVALID_JSON
| INVALID_NESTED_KEY
| OBJECT_NOT_FOUND
| DUPLICATE_VALUE.

Inductive js_error :=
| ParseError (code : parse_code) (message : string)
| TypeError
| Error (message : string).

(** Outcome of a call: a value, a thrown exception, exhaustion of the
    recursion budget of the model, or a JavaScript behaviour the tree
    model of values cannot express (a named property on an array, a
    sparse array). *)
Inductive result (A : Type) :=
| Ok (a : A)
| Throw (e : js_error)
| OutOfFuel
| Unmodelled.
Arguments Ok {A} a.
Arguments Throw {A} e.
Arguments OutOfFuel {A}.
Arguments Unmodelled {A}.

Definition bind {A B} (m : result A) (k : A -> result B) : result B :=
  match m with
  | Ok a => k a
  | Throw e => Throw e
  | OutOfFuel => OutOfFuel
  | Unmodelled => Unmodelled
  end.

Notation "x <- m ;; k" := (bind m (fun x => k))
  (at level 61, m at next level, right associativity).
Notation "' pat <- m ;; k" := (bind m (fun x => match x with pat => k end))
  (at level 61, pat pattern, m at next level, right associativity).

(** ** Values *)

Class JsNumber := {
  num : Type;
  (** [ToBoolean]: false exactly on [+0], [-0] and [NaN]. *)
  num_truthy : num -> bool;
  (** [Number::toString], as used by template literals. *)
  num_to_string : num -> string;
  (** [JSON.stringify] of a number. *)
  num_to_json : num -> string;
  (** [===] on numbers. *)
  num_eqb : num -> num -> bool;
  num_mul : num -> num -> num;
  num_of_nat : nat -> num;
  num_nan : num;
  (** [StringToNumber], the coercion of a string operand of [*]. *)
  string_to_num : string -> num;
}.

Section Values.
Context `{JsNumber}.

Inductive jsval :=
| JUndef
| JNull
| JBool (b : bool)
| JNum (n : num)
| JStr (s : string)
| JArr (l : list jsval)
| JObj (kvs : list (string * jsval)).

Definition truthy (v : jsval) : bool :=
  match v with
  | JUndef | JNull => false
  | JBool b => b
  | JNum n => num_truthy n
  | JStr s => negb (String.eqb s "")
  | JArr _ | JObj _ => true
  end.

Definition is_undefined (v : jsval) : bool :=
  match v with JUndef => true | _ => false end.

Definition is_null (v : jsval) : bool :=
  match v with JNull => true | _ => false end.

(** [typeof v === 'object'] (true of [null] as well). *)
Definition typeof_object (v : jsval) : bool :=
  match v with JNull | JArr _ | JObj _ => true | _ => false end.

Definition is_array (v : jsval) : bool :=
  match v with JArr _ => true | _ => false end.

Definition is_string (v : jsval) : bool :=
  match v with JStr _ => true | _ => false end.

(** [v === 'lit'] against a string literal. *)
Definition str_is (v : jsval) (lit : string) : bool :=
  match v with JStr s => String.eqb s lit | _ => false end.

(** [v === false]. *)
Definition is_false (v : jsval) : bool :=
  match v with JBool false => true | _ => false end.

(** [a !== b] negated: strict equality.  Two objects or arrays read from
    different places of a document are different references. *)
Definition strict_eq (a b : jsval) : bool :=
  match a, b with
  | JUndef, JUndef | JNull, JNull => true
  | JBool x, JBool y => Bool.eqb x y
  | JNum x, JNum y => num_eqb x y
  | JStr x, JStr y => String.eqb x y
  | _, _ => false
  end.

(** [ToString], as applied by a template literal [`${v}`], of a value
    whose conversion returns (see [renders] below). *)
Fixpoint to_string (v : jsval) : string :=
  match v with
  | JUndef => "undefined"
  | JNull => "null"
  | JBool true => "true"
  | JBool false => "false"
  | JNum n => num_to_string n
  | JStr s => s
  | JArr l =>
      join "," (map (fun x => match x with
                              | JUndef | JNull => ""
                              | _ => to_string x
                              end) l)
  | JObj _ => "[object Object]"
  end.

(** [ToNumber], as applied to an operand of [*], of a value whose
    conversion returns. *)
Definition to_number (v : jsval) : num :=
  match v with
  | JUndef => num_nan
  | JNull => num_of_nat 0
  | JBool true => num_of_nat 1
  | JBool false => num_of_nat 0
  | JNum n => n
  | JStr s => string_to_num s
  | JArr _ => string_to_num (to_string v)
  | JObj _ => num_nan
  end.

Fixpoint assoc (k : string) (kvs : list (string * jsval)) : option jsval :=
  match kvs with
  | [] => None
  | (k', v) :: r => if String.eqb k k' then Some v else assoc k r
  end.

Fixpoint assoc_set (k : string) (v : jsval) (kvs : list (string * jsval))
  : list (string * jsval) :=
  match kvs with
  | [] => [(k, v)]
  | (k', v') :: r =>
      if String.eqb k k' then (k', v) :: r else (k', v') :: assoc_set k v r
  end.

Definition assoc_del (k : string) (kvs : list (string * jsval))
  : list (string * jsval) :=
  filter (fun kv => negb (String.eqb k (fst kv))) kvs.

(** [ToString] and [ToNumber] of an object call its members [toString]
    and [valueOf].  In a JSON-shaped tree an own property [toString] is
    not callable, and the inherited [valueOf] returns the object itself,
    so the conversion of an object that has such a property throws a
    [TypeError]; an array converts its elements, [null] and [undefined]
    excepted, in the same way.  [renders v]: the conversion of [v]
    returns, with the string [to_string v]. *)
Fixpoint renders (v : jsval) : bool :=
  match v with
  | JObj kvs => match assoc "toString" kvs with Some _ => false | None => true end
  | JArr l => forallb renders l
  | _ => true
  end.

(** A substitution [${v}] of a template literal. *)
Definition template (v : jsval) : result string :=
  if renders v then Ok (to_string v) else Throw TypeError.

Fixpoint indexed_from {A} (i : nat) (l : list A) : list (string * A) :=
  match l with
  | [] => []
  | x :: r => (show_nat i, x) :: indexed_from (S i) r
  end.

(** The enumerable own properties of a value, in the order [for ... in],
    [Object.keys] and object spread visit them. *)
Definition entries (v : jsval) : list (string * jsval) :=
  match v with
  | JObj kvs => kvs
  | JArr l => indexed_from 0 l
  | JStr s => indexed_from 0 (map (fun c => JStr (String c "")) (chars s))
  | _ => []
  end.

Definition is_digit (c : ascii) : bool :=
  let n := nat_of_ascii c in ((48 <=? n) && (n <=? 57))%nat.

(** The names of array indices are strings of decimal digits. *)
Definition all_digits (k : string) : bool := forallb is_digit (chars k).

(** Property read [o.k] / [o[k]].  Reading a property of [null] or
    [undefined] throws; the method names of the built-in prototypes are
    not properties of the model. *)
Definition get (o : jsval) (k : string) : result jsval :=
  match o with
  | JUndef | JNull => Throw TypeError
  | JObj kvs => Ok (match assoc k kvs with Some v => v | None => JUndef end)
  | JArr l =>
      if String.eqb k "length" then Ok (JNum (num_of_nat (List.length l)))
      else if all_digits k
      then Ok (match assoc k (entries o) with Some v => v | None => JUndef end)
      else Ok JUndef
  | JStr s =>
      if String.eqb k "length" then Ok (JNum (num_of_nat (String.length s)))
      else if all_digits k
      then Ok (match assoc k (entries o) with Some v => v | None => JUndef end)
      else Ok JUndef
  | JBool _ | JNum _ => Ok JUndef
  end.

Fixpoint list_set {A} (i : nat) (x : A) (l : list A) : list A :=
  match i, l with
  | 0, _ :: r => x :: r
  | S i', y :: r => y :: list_set i' x r
  | _, [] => []
  end.

Fixpoint find_index (k : string) (i n : nat) : option nat :=
  match n with
  | 0 => None
  | S n' => if String.eqb k (show_nat i) then Some i else find_index k (S i) n'
  end.

(** Property write [o.k = v] in strict mode (the sources are modules).
    Returns the mutated object. *)
Definition set (o : jsval) (k : string) (v : jsval) : result jsval :=
  match o with
  | JUndef | JNull => Throw TypeError
  | JObj kvs => Ok (JObj (assoc_set k v kvs))
  | JArr l =>
      match find_index k 0 (List.length l) with
      | Some i => Ok (JArr (list_set i v l))
      | None => Unmodelled
      end
  | JStr _ | JBool _ | JNum _ => Throw TypeError
  end.

(** [delete o.k] in strict mode.  Returns the mutated object. *)
Definition delete (o : jsval) (k : string) : result jsval :=
  match o with
  | JUndef | JNull => Throw TypeError
  | JObj kvs => Ok (JObj (assoc_del k kvs))
  | JArr l =>
      match find_index k 0 (List.length l) with
      | Some _ => Unmodelled
      | None => if String.eqb k "length" then Throw TypeError else Ok o
      end
  | JStr s =>
      match find_index k 0 (String.length s) with
      | Some _ => Throw TypeError
      | None => if String.eqb k "length" then Throw TypeError else Ok o
      end
  | JBool _ | JNum _ => Ok o
  end.

(** Model-level write-back of a mutated child: the object [o] holds a
    reference to the child stored under [k], so a mutation of the child is
    seen through [o].  Primitives hold no references. *)
Definition put (o : jsval) (k : string) (v : jsval) : jsval :=
  match o with
  | JObj kvs => JObj (assoc_set k v kvs)
  | JArr l =>
      match find_index k 0 (List.length l) with
      | Some i => JArr (list_set i v l)
      | None => o
      end
  | _ => o
  end.

(** The names of the members every object inherits from
    [Object.prototype].  In the source a read of such a name on an object
    that has no own property of that name returns the inherited member,
    and an assignment to [__proto__] replaces the prototype and creates no
    property.  [get] and [set] model own properties only: the properties
    below that depend on such a read or write ask for a name that is none
    of these. *)
Definition inherited_name (k : string) : bool :=
  existsb (String.eqb k)
    ["constructor"; "__defineGetter__"; "__defineSetter__"; "hasOwnProperty";
     "__lookupGetter__"; "__lookupSetter__"; "isPrototypeOf";
     "propertyIsEnumerable"; "toString"; "valueOf"; "__proto__";
     "toLocaleString"].

(** The parts of the Parse SDK the sources call. *)
Class ParseSDK := {
  (** [Parse._encode(new Date(value)).iso]; [None] when it throws. *)
  encode_date_iso : jsval -> option string;
  (** [Parse.GeoPoint._validate(latitude, longitude)] returns normally. *)
  geopoint_valid : jsval -> jsval -> bool;
}.
Context `{ParseSDK}.

(** ** Value conversions *)

Definition formatDateToMySQL (value : jsval) : result jsval :=
  match encode_date_iso value with
  | None => Throw (Error "Tried to encode an invalid date.")
  | Some iso =>
      let iso := replace_first "Z" "" (replace_first "T" " " iso) in
      viso <- get value "iso" ;;
      if negb (truthy viso) then Ok (JStr iso)
      else Ok (JObj [("__type", JStr "Date"); ("iso", JStr iso)])
  end.

Definition toMySQLValue (value : jsval) : result jsval :=
  if typeof_object value then
    ty <- get value "__type" ;;
    if str_is ty "Date" then
      iso <- get value "iso" ;;
      if negb (truthy iso) then Ok JNull else formatDateToMySQL iso
    else if str_is ty "File" then get value "name"
    else Ok value
  else Ok value.

Definition transformValue (value : jsval) : result jsval :=
  if typeof_object value then
    ty <- get value "__type" ;;
    if str_is ty "Pointer" then get value "objectId" else Ok value
  else Ok value.

(** ** Schema view *)

Definition emptyCLPS : list (string * jsval) :=
  [("find", JObj []); ("get", JObj []); ("create", JObj []);
   ("update", JObj []); ("delete", JObj []); ("addField", JObj [])].

Definition allow_all : jsval := JObj [("*", JBool true)].

Definition defaultCLPS : list (string * jsval) :=
  [("find", allow_all); ("get", allow_all); ("create", allow_all);
   ("update", allow_all); ("delete", allow_all); ("addField", allow_all)].

(** Object spread [{...a, ...b}] onto the properties [a]. *)
Definition spread (a : list (string * jsval)) (b : jsval)
  : list (string * jsval) :=
  fold_left (fun acc kv => assoc_set (fst kv) (snd kv) acc) (entries b) a.

(** [toParseSchema] deletes the implicit fields from the field map of its
    argument in place and returns a fresh object sharing that map; the
    returned object is the result modelled here. *)
Definition toParseSchema (schema : jsval) : result jsval :=
  className <- get schema "className" ;;
  fields <- get schema "fields" ;;
  fields <- (if str_is className "_User"
             then delete fields "_hashed_password" else Ok fields) ;;
  fields <- (if truthy fields
             then (f <- delete fields "_wperm" ;; delete f "_rperm")
             else Ok fields) ;;
  clp <- get schema "classLevelPermissions" ;;
  let clps := if truthy clp then spread emptyCLPS clp else defaultCLPS in
  Ok (JObj [("className", className); ("fields", fields);
            ("classLevelPermissions", JObj clps)]).

Definition array_of_string : jsval :=
  JObj [("type", JStr "Array"); ("contents", JObj [("type", JStr "String")])].

(** [toMySQLSchema] mutates its argument and returns it. *)
Definition toMySQLSchema (schema : jsval) : result jsval :=
  if negb (truthy schema) then Ok schema
  else
    fields <- get schema "fields" ;;
    let fields := if truthy fields then fields else JObj [] in
    schema <- set schema "fields" fields ;;
    fields <- set fields "_wperm" array_of_string ;;
    fields <- set fields "_rperm" array_of_string ;;
    className <- get schema "className" ;;
    fields <- (if str_is className "_User"
               then (f <- set fields "_hashed_password"
                            (JObj [("type", JStr "String")]) ;;
                     set f "_password_history" (JObj [("type", JStr "Array")]))
               else Ok fields) ;;
    Ok (put schema "fields" fields).

End Values.

(** ** Regex literalizer *)

Definition backslash : ascii := "\"%char.

Definition is_alnum (c : ascii) : bool :=
  let n := nat_of_ascii c in
  (((48 <=? n) && (n <=? 57)) || ((65 <=? n) && (n <=? 90))
   || ((97 <=? n) && (n <=? 122)))%nat.

(** The characters [.] does not match. *)
Definition is_line_terminator (c : ascii) : bool :=
  let n := nat_of_ascii c in ((n =? 10) || (n =? 13))%nat.

(** The characters [\s] matches and [trim] removes. *)
Definition is_space (c : ascii) : bool :=
  let n := nat_of_ascii c in
  (((9 <=? n) && (n <=? 13)) || (n =? 32) || (n =? 160))%nat.

Fixpoint no_line_terminator (s : string) : bool :=
  match s with
  | EmptyString => true
  | String c r => negb (is_line_terminator c) && no_line_terminator r
  end.

Definition createLiteralRegex (remaining : string) : string :=
  String.concat ""
    (map (fun c => if is_alnum c then String c ""
                   else if Ascii.eqb c "'" then "''"
                   else String backslash (String c ""))
         (chars remaining)).

(** [matcher1] anchored at the start of [s]: a literal [\Q], not followed
    at once by [\E], then a greedy run without line terminators, then a
    literal [\E] at the end of the input.  Returns the captured run. *)
Definition matcher1_here (s : string) : option string :=
  let body := str_drop 2 s in
  if starts_with "\Q" s && negb (starts_with "\E" body)
     && ends_with "\E" body
     && no_line_terminator (str_take (String.length body - 2) body)
  then Some (str_take (String.length body - 2) body)
  else None.

(** [matcher2] anchored at the start of [s]: a literal [\Q], not followed
    at once by [\E], then a run without line terminators up to the end of
    the input.  Returns the captured run. *)
Definition matcher2_here (s : string) : option string :=
  let body := str_drop 2 s in
  if starts_with "\Q" s && negb (starts_with "\E" body)
     && no_line_terminator body
  then Some body
  else None.

(** [s.match(re)]: the leftmost position where the pattern matches, with
    its capture. *)
Fixpoint search (here : string -> option string) (s : string)
  : option (nat * string) :=
  match here s with
  | Some cap => Some (0, cap)
  | None =>
      match s with
      | EmptyString => None
      | String _ r =>
          match search here r with
          | Some (i, cap) => Some (S i, cap)
          | None => None
          end
      end
  end.

(** [s.replace(/([^\\])(m)/, '$1')] for a two-character [m]. *)
Fixpoint drop_marker (m : string) (s : string) : string :=
  match s with
  | EmptyString => ""
  | String c r =>
      if negb (Ascii.eqb c backslash) && starts_with m r
      then String c (str_drop 2 r)
      else String c (drop_marker m r)
  end.

(** [s.replace(/^m/, '')]. *)
Definition drop_leading (m : string) (s : string) : string :=
  if starts_with m s then str_drop (String.length m) s else s.

(** [s.replace(/([^'])'/, `$1''`)]. *)
Fixpoint double_quote_after (s : string) : string :=
  match s with
  | EmptyString => ""
  | String c r =>
      if negb (Ascii.eqb c "'") && starts_with "'" r
      then String c ("''" ++ str_drop 1 r)
      else String c (double_quote_after r)
  end.

(** [s.replace(/^'([^'])/, `''$1`)]. *)
Definition double_leading_quote (s : string) : string :=
  match s with
  | String a (String b r) =>
      if Ascii.eqb a "'" && negb (Ascii.eqb b "'")
      then "''" ++ String b r else s
  | _ => s
  end.

(** The last return of [literalizeRegexPart]: no literal span is left. *)
Definition strip_markers (s : string) : string :=
  replace_first "\w" "[0-9a-zA-Z]"
    (double_leading_quote
       (double_quote_after
          (drop_leading "\Q"
             (drop_leading "\E"
                (drop_marker "\Q" (drop_marker "\E" s)))))).

Lemma search_index_lt here s i cap :
  (forall t c, here t = Some c -> t <> "") ->
  search here s = Some (i, cap) -> i < String.length s.
Proof.
  intros Hne. revert i cap.
  induction s as [|a r IH]; intros i cap; simpl.
  - destruct (here "") eqn:E; [|discriminate].
    apply Hne in E. congruence.
  - destruct (here (String a r)); [intros [= <- _]; lia|].
    destruct (search here r) as [[j c]|]; [|discriminate].
    intros [= <- _]. specialize (IH j c eq_refl). lia.
Qed.

Lemma str_take_length n s : n <= String.length s -> String.length (str_take n s) = n.
Proof.
  revert s; induction n as [|n IH]; intros [|c r]; simpl; intros Hn; try lia.
  rewrite IH; lia.
Qed.

Lemma matcher1_here_nonempty t c : matcher1_here t = Some c -> t <> "".
Proof. intros E ->. discriminate. Qed.

Lemma matcher2_here_nonempty t c : matcher2_here t = Some c -> t <> "".
Proof. intros E ->. discriminate. Qed.

Definition inspect {A} (a : A) : {b | a = b} := exist _ a eq_refl.

Equations? literalizeRegexPart (s : string) : string
  by wf (String.length s) lt :=
  literalizeRegexPart s with inspect (search matcher1_here s) := {
    | exist _ (Some (i, remaining)) _ =>
        literalizeRegexPart (str_take i s) ++ createLiteralRegex remaining
    | exist _ None _ with inspect (search matcher2_here s) := {
        | exist _ (Some (i, remaining)) _ =>
            literalizeRegexPart (str_take i s) ++ createLiteralRegex remaining
        | exist _ None _ => strip_markers s } }.
Proof.
  all: match goal with
       | e : search _ _ = Some _ |- _ =>
           apply search_index_lt in e;
           [ rewrite str_take_length; lia
           | first [ exact matcher1_here_nonempty
                   | exact matcher2_here_nonempty ] ]
       end.
Qed.

Definition processRegexPattern (s : string) : string :=
  if negb (String.eqb s "") && starts_with "^" s then
    "^" ++ literalizeRegexPart (str_drop 1 s)
  else if negb (String.eqb s "") && ends_with "$" s then
    literalizeRegexPart (str_take (String.length s - 1) s) ++ "$"
  else literalizeRegexPart s.

(** *** Extended mode: [removeWhiteSpace] *)

(** The first line terminator of [s] is a newline. *)
Fixpoint runs_to_newline (s : string) : bool :=
  match s with
  | EmptyString => false
  | String c r =>
      if is_line_terminator c then Ascii.eqb c "010" else runs_to_newline r
  end.

(** First replacement of [removeWhiteSpace], global: a character other
    than a backslash, [#], a run without line terminators and a newline
    are replaced by that character; [skipping] while inside a match. *)
Fixpoint strip_comments (skipping : bool) (s : string) : string :=
  match s with
  | EmptyString => ""
  | String c r =>
      if skipping then strip_comments (negb (Ascii.eqb c "010")) r
      else if negb (Ascii.eqb c backslash) && starts_with "#" r
              && runs_to_newline (str_drop 1 r)
      then String c (strip_comments true r)
      else String c (strip_comments false r)
  end.

(** Second replacement, global and multi-line: a [#] at the beginning of
    a line, a run without line terminators and a newline are removed;
    [bol] at the beginning of a line. *)
Fixpoint strip_comment_lines (bol skipping : bool) (s : string) : string :=
  match s with
  | EmptyString => ""
  | String c r =>
      if skipping then
        if Ascii.eqb c "010" then strip_comment_lines true false r
        else strip_comment_lines false true r
      else if bol && Ascii.eqb c "#" && runs_to_newline r
      then strip_comment_lines false true r
      else String c (strip_comment_lines (is_line_terminator c) false r)
  end.

(** [s.replace(/([^\\])\s+/gmi, '$1')]; [skipping] while inside a matched
    run of whitespace. *)
Fixpoint strip_spaces (skipping : bool) (s : string) : string :=
  match s with
  | EmptyString => ""
  | String c r =>
      if skipping && is_space c then strip_spaces true r
      else
        match r with
        | String d _ =>
            if negb (Ascii.eqb c backslash) && is_space d
            then String c (strip_spaces true r)
            else String c (strip_spaces false r)
        | EmptyString => String c ""
        end
  end.

Fixpoint trim_start (s : string) : string :=
  match s with
  | String c r => if is_space c then trim_start r else s
  | EmptyString => ""
  end.

Definition trim (s : string) : string :=
  str_rev (trim_start (str_rev (trim_start s))).

Definition removeWhiteSpace (regex : string) : string :=
  let regex := if ends_with "
" regex then regex else regex ++ "
" in
  trim (trim_start
          (strip_spaces false
             (strip_comment_lines true false
                (strip_comments false regex)))).

(** ** Placeholder tokens of a text *)

(** A placeholder token is a dollar sign followed by decimal digits; the
    scanner is idle, has just read a dollar sign, or is reading the
    digits of an index. *)
Inductive scan_state :=
| Idle
| Dollar
| Digits (n : nat).

Definition digit_value (c : ascii) : nat := nat_of_ascii c - 48.

Definition flush (st : scan_state) : list nat :=
  match st with Digits n => [n] | _ => [] end.

Fixpoint scan (st : scan_state) (s : string) : list nat :=
  match s with
  | EmptyString => flush st
  | String c r =>
      if is_digit c then
        match st with
        | Idle => scan Idle r
        | Dollar => scan (Digits (digit_value c)) r
        | Digits n => scan (Digits (10 * n + digit_value c)) r
        end
      else
        (flush st ++ (if Ascii.eqb c "$" then scan Dollar r else scan Idle r))%list
  end.

(** The indices of the placeholder tokens of a text, in the order they
    occur. *)
Definition tokens (s : string) : list nat := scan Idle s.

(** The distinct elements of a list, in the order of their first
    occurrence. *)
Fixpoint dedup (l : list nat) : list nat :=
  match l with
  | [] => []
  | x :: r => x :: filter (fun y => negb (Nat.eqb y x)) (dedup r)
  end.

(** [walk s k t n]: reading [t] from the left with [k] indices already
    seen, every element is one of the [k] indices seen, [s .. s + k - 1],
    or the next one, [s + k]; at the end [n] indices have been seen. *)
Fixpoint walk (s k : nat) (t : list nat) (n : nat) : Prop :=
  match t with
  | [] => k = n
  | x :: r =>
      (s <= x < s + k /\ walk s k r n) \/ (x = s + k /\ walk s (S k) r n)
  end.

(** ** The predicate compiler *)

Section Compiler.
Context `{JsNumber} `{!ParseSDK}.

(** *** [JSON.stringify] *)

Definition dquote : string := String (ascii_of_nat 34) "".

Definition hex_digit (n : nat) : ascii :=
  if Nat.ltb n 10 then ascii_of_nat (48 + n) else ascii_of_nat (87 + n).

Definition json_escape (c : ascii) : string :=
  let n := nat_of_ascii c in
  if Nat.eqb n 34 then String backslash dquote
  else if Nat.eqb n 92 then "\\"
  else if Nat.eqb n 8 then "\b"
  else if Nat.eqb n 12 then "\f"
  else if Nat.eqb n 10 then "\n"
  else if Nat.eqb n 13 then "\r"
  else if Nat.eqb n 9 then "\t"
  else if Nat.ltb n 32 then
    "\u00" ++ String (hex_digit (n / 16)) (String (hex_digit (n mod 16)) "")
  else String c "".

Definition json_quote (s : string) : string :=
  dquote ++ String.concat "" (map json_escape (chars s)) ++ dquote.

(** [None] stands for the result [undefined]. *)
Fixpoint json (v : jsval) : option string :=
  match v with
  | JUndef => None
  | JNull => Some "null"
  | JBool true => Some "true"
  | JBool false => Some "false"
  | JNum n => Some (num_to_json n)
  | JStr s => Some (json_quote s)
  | JArr l =>
      Some ("[" ++ join "," (map (fun x => match json x with
                                           | Some s => s
                                           | None => "null"
                                           end) l) ++ "]")
  | JObj kvs =>
      Some ("{" ++ join "," (flat_map (fun kv =>
                                match kv with
                                | (k, x) =>
                                    match json x with
                                    | Some s => [json_quote k ++ ":" ++ s]
                                    | None => []
                                    end
                                end) kvs) ++ "}")
  end.

Definition JSON_stringify (v : jsval) : jsval :=
  match json v with Some s => JStr s | None => JUndef end.

(** *** Compiler state *)

(** The locals [patterns], [values], [sorts] and [index] of
    [buildWhereClause]. *)
Record bw := mk_bw {
  patterns : list string;
  values : list jsval;
  sorts : list string;
  index : nat;
}.

(** [patterns.push(p); values.push(...vs); index += n]. *)
Definition emit (p : string) (vs : list jsval) (n : nat) (s : bw) : bw :=
  {| patterns := snoc (patterns s) p; values := (values s ++ vs)%list;
     sorts := sorts s; index := index s + n |}.

Definition push_sort (p : string) (s : bw) : bw :=
  {| patterns := patterns s; values := values s;
     sorts := snoc (sorts s) p; index := index s |}.

(** The placeholder token of index [i], as the templates write it. *)
Definition tok (i : nat) : string := "$" ++ show_nat i ++ ":name".

(** The result of [buildWhereClause], with its two arguments as the call
    leaves them. *)
Record bw_out := mk_out {
  pattern : string;
  out_values : list jsval;
  out_sorts : list string;
  schema_after : jsval;
  query_after : jsval;
}.

Fixpoint mapM {A B} (f : A -> result B) (l : list A) : result (list B) :=
  match l with
  | [] => Ok []
  | x :: r => y <- f x ;; ys <- mapM f r ;; Ok (y :: ys)
  end.

(** *** The branches of the loop body *)

(** The JSON path expression of a dotted field name. *)
Definition dotted_name (fieldName : string) : string :=
  let components := split_on "." fieldName in
  (fix go (i : nat) (cs : list string) (name : string) : string :=
     match cs with
     | [] => name
     | cmpt :: r =>
         go (S i) r
            (match i with
             | 0 => "`" ++ cmpt ++ "`->>"
             | 1 => name ++ "'$." ++ cmpt
             | _ => name ++ "." ++ cmpt
             end)
     end) 0 components "" ++ "'".

(** [_.flatMap(collection, elt => elt)]. *)
Definition flatMap_id (collection : jsval) : list jsval :=
  flat_map (fun kv => match snd kv with JArr l => l | x => [x] end)
           (entries collection).

(** The [$in] branch of a field declared as an array of strings. *)
Fixpoint in_string_array (i : nat) (elems : list jsval) (listIndex : nat)
    (allowNull : bool) (vals : list jsval) (inPatterns : list string)
  : bool * list jsval * list string :=
  match elems with
  | [] => (allowNull, vals, inPatterns)
  | listElem :: r =>
      if is_null listElem
      then in_string_array i r (S listIndex) true vals inPatterns
      else in_string_array i r (S listIndex) allowNull
             (snoc vals listElem)
             (snoc inPatterns
                ("JSON_CONTAINS(`" ++ tok i ++ "`, JSON_ARRAY('"
                 ++ tok (i + 1 + listIndex - (if allowNull then 1 else 0))
                 ++ "')) = 1"))
  end.

Definition createConstraint (fieldName : string) (isArrayField : bool)
    (baseArray : list jsval) (notIn : bool) (s : bw) : bw :=
  let i := index s in
  let n := List.length baseArray in
  if Nat.ltb 0 n then
    let not := if notIn then " NOT " else "" in
    if isArrayField then
      let operator := if notIn then " != " else " = " in
      let inPatterns :=
        map (fun listIndex =>
               "JSON_CONTAINS(`" ++ tok i ++ "`, '" ++ tok (i + 1 + listIndex)
               ++ "') " ++ operator ++ " 1") (seq 0 n) in
      emit (join " || " inPatterns)
           (JStr fieldName :: map JSON_stringify baseArray) (1 + n) s
    else
      let inPatterns :=
        map (fun listIndex => "'" ++ tok (i + 1 + listIndex) ++ "'")
            (seq 0 n) in
      emit ("`" ++ tok i ++ "` " ++ not ++ " IN (" ++ join "," inPatterns ++ ")")
           (JStr fieldName :: baseArray) (1 + n) s
  else if negb notIn then
    emit ("`" ++ tok i ++ "` IS NULL") [JStr fieldName] 1 s
  else s.

Definition bad_json {A} (msg : string) : result A :=
  Throw (ParseError INVALID_JSON msg).

(** The validation of [$text.$search]. *)
Definition check_text (search : jsval) : result jsval :=
  if negb (typeof_object search) then
    bad_json "bad $text: $search, should be object"
  else
    term <- get search "$term" ;;
    if negb (truthy term) || negb (is_string term) then
      bad_json "bad $text: $term, should be string"
    else
      language <- get search "$language" ;;
      if truthy language && negb (is_string language) then
        bad_json "bad $text: $language, should be string"
      else
        cs <- get search "$caseSensitive" ;;
        if truthy cs && negb (match cs with JBool _ => true | _ => false end)
        then bad_json "bad $text: $caseSensitive, should be boolean"
        else if truthy cs then
          bad_json "bad $text: $caseSensitive not supported, please use $regex or create a separate lower case column."
        else
          ds <- get search "$diacriticSensitive" ;;
          if truthy ds && negb (match ds with JBool _ => true | _ => false end)
          then bad_json "bad $text: $diacriticSensitive, should be boolean"
          else if is_false ds then
            bad_json "bad $text: $diacriticSensitive - false not supported, install MySQL Unaccent Extension"
          else Ok term.

(** [opts.indexOf('x') >= 0]. *)
Definition has_x (opts : jsval) : result bool :=
  match opts with
  | JStr o => Ok (includes "x" o)
  | JArr l => Ok (existsb (fun e => str_is e "x") l)
  | _ => Throw TypeError
  end.

(** The text of one polygon vertex. *)
Definition polygon_point (point : jsval) : result string :=
  if negb (typeof_object point) then bad_json "bad $geoWithin value"
  else
    ty <- get point "__type" ;;
    if negb (str_is ty "GeoPoint") then bad_json "bad $geoWithin value"
    else
      lat <- get point "latitude" ;;
      lon <- get point "longitude" ;;
      if geopoint_valid lat lon
      then lon <- template lon ;; lat <- template lat ;; Ok (lon ++ " " ++ lat)
      else Throw TypeError.

Definition ParseToMySQLComparator : list (string * string) :=
  [("$gt", ">"); ("$lt", "<"); ("$gte", ">="); ("$lte", "<=")].


(** [schema.fields && schema.fields[fieldName]
     && schema.fields[fieldName].type === 'Array'], used as a condition. *)
Definition is_array_field (schema : jsval) (fieldName : string)
  : result bool :=
  fields <- get schema "fields" ;;
  if negb (truthy fields) then Ok false
  else
    field <- get fields fieldName ;;
    if negb (truthy field) then Ok false
    else ty <- get field "type" ;; Ok (str_is ty "Array").

(** The recursive calls of the [$or] / [$and] branch, one per element of
    the list, each starting at the running index. *)
Fixpoint sub_clauses (rec : jsval -> jsval -> nat -> result bw_out)
    (schema : jsval) (subs : list jsval) (i : nat)
  : result (list string * list jsval * nat * jsval * list jsval) :=
  match subs with
  | [] => Ok ([], [], i, schema, [])
  | subQuery :: r =>
      clause <- rec schema subQuery i ;;
      let keep := Nat.ltb 0 (String.length (pattern clause)) in
      let i' := if keep then i + List.length (out_values clause) else i in
      ' (clauses, clauseValues, i'', schema', r') <-
        sub_clauses rec (schema_after clause) r i' ;;
      Ok ((if keep then pattern clause :: clauses else clauses),
          (if keep then (out_values clause ++ clauseValues)%list
           else clauseValues),
          i'', schema', query_after clause :: r')
  end.

(** The first chain of alternatives: dotted name, [null], bare scalar,
    [$or] / [$and].  The boolean is [true] when the iteration ends with
    [continue]. *)
Definition scalar_branch (rec : jsval -> jsval -> nat -> result bw_out)
    (fieldName : string) (fieldValue schema : jsval) (s : bw)
  : result (bool * bw * jsval * jsval) :=
  let i := index s in
  if includes "." fieldName then
    let name := dotted_name fieldName in
    if is_null fieldValue
    then Ok (false, emit ("`" ++ name ++ "` IS NULL") [] 0 s,
             fieldValue, schema)
    else
      text <- template fieldValue ;;
      Ok (false, emit (name ++ " = '" ++ text ++ "'") [] 0 s,
          fieldValue, schema)
  else
    match fieldValue with
    | JNull =>
        Ok (true, emit ("`" ++ tok i ++ "` IS NULL") [JStr fieldName] 1 s,
            fieldValue, schema)
    | JStr _ =>
        Ok (false,
            emit ("`" ++ tok i ++ "` = '" ++ tok (i + 1) ++ "'")
                 [JStr fieldName; fieldValue] 2 s,
            fieldValue, schema)
    | JBool _ | JNum _ =>
        Ok (false,
            emit ("`" ++ tok i ++ "` = " ++ tok (i + 1))
                 [JStr fieldName; fieldValue] 2 s,
            fieldValue, schema)
    | _ =>
        if String.eqb fieldName "$or" || String.eqb fieldName "$and" then
          match fieldValue with
          | JArr subs =>
              ' (clauses, clauseValues, i', schema', subs') <-
                sub_clauses rec schema subs i ;;
              let orOrAnd :=
                if String.eqb fieldName "$or" then " OR " else " AND " in
              Ok (false,
                  {| patterns := snoc (patterns s)
                                      ("(" ++ join orOrAnd clauses ++ ")");
                     values := (values s ++ clauseValues)%list;
                     sorts := sorts s;
                     index := i' |},
                  JArr subs', schema')
          | _ => Throw TypeError
          end
        else Ok (false, s, fieldValue, schema)
    end.

Definition ne_branch (fieldName : string) (isArrayField : bool)
    (fieldValue : jsval) (s : bw) : result (bool * bw * jsval) :=
  let i := index s in
  ne <- get fieldValue "$ne" ;;
  if negb (is_undefined ne) then
    if isArrayField then
      fieldValue <- set fieldValue "$ne" (JSON_stringify (JArr [ne])) ;;
      ne <- get fieldValue "$ne" ;;
      Ok (false,
          emit ("JSON_CONTAINS(`" ++ tok i ++ "`, '" ++ tok (i + 1) ++ "') != 1")
               [JStr fieldName; ne] 2 s,
          fieldValue)
    else if is_null ne then
      Ok (true, emit ("`" ++ tok i ++ "` IS NOT NULL") [JStr fieldName] 1 s,
          fieldValue)
    else
      Ok (false,
          emit ("(`" ++ tok i ++ "` <> '" ++ tok (i + 1) ++ "' OR `" ++ tok i
                ++ "` IS NULL)")
               [JStr fieldName; ne] 2 s,
          fieldValue)
  else Ok (false, s, fieldValue).

Definition eq_branch (fieldName : string) (fieldValue : jsval) (s : bw)
  : result bw :=
  let i := index s in
  eq <- get fieldValue "$eq" ;;
  if truthy eq then
    Ok (emit ("`" ++ tok i ++ "` = '" ++ tok (i + 1) ++ "'")
             [JStr fieldName; eq] 2 s)
  else Ok s.

Definition in_branch (fieldName : string) (isArrayField : bool)
    (schema fieldValue : jsval) (s : bw) : result bw :=
  let i := index s in
  vin <- get fieldValue "$in" ;;
  vnin <- get fieldValue "$nin" ;;
  let isInOrNin := is_array vin || is_array vnin in
  stringArray <-
    (if is_array vin && isArrayField then
       fields <- get schema "fields" ;;
       field <- get fields fieldName ;;
       contents <- get field "contents" ;;
       if truthy contents
       then ty <- get contents "type" ;; Ok (str_is ty "String")
       else Ok false
     else Ok false) ;;
  if stringArray then
    match vin with
    | JArr elems =>
        let '(allowNull, vals, inPatterns) :=
          in_string_array i elems 0 false [JStr fieldName] [] in
        let tempInPattern := join " OR " inPatterns in
        Ok {| patterns :=
                snoc (patterns s)
                  (if allowNull
                   then "(`" ++ tok i ++ "` IS NULL OR " ++ tempInPattern ++ ")"
                   else "`" ++ tok i ++ "` && " ++ tempInPattern);
              values := (values s ++ vals)%list;
              sorts := sorts s;
              index := i + 1 + List.length inPatterns |}
    | _ => Ok s
    end
  else if isInOrNin then
    let s := if truthy vin
             then createConstraint fieldName isArrayField (flatMap_id vin) false s
             else s in
    let s := if truthy vnin
             then createConstraint fieldName isArrayField (flatMap_id vnin) true s
             else s in
    Ok s
  else Ok s.

Definition all_branch (fieldName : string) (isArrayField : bool)
    (fieldValue : jsval) (s : bw) : result bw :=
  let i := index s in
  all <- get fieldValue "$all" ;;
  if is_array all && isArrayField then
    Ok (emit ("JSON_CONTAINS(`" ++ tok i ++ "`, '" ++ tok (i + 1) ++ "') = 1")
             [JStr fieldName; JSON_stringify all] 2 s)
  else Ok s.

Definition exists_branch (fieldName : string) (fieldValue : jsval) (s : bw)
  : result bw :=
  let i := index s in
  ex <- get fieldValue "$exists" ;;
  if negb (is_undefined ex) then
    if truthy ex
    then Ok (emit (tok i ++ " IS NOT NULL") [JStr fieldName] 1 s)
    else Ok (emit ("`" ++ tok i ++ "` IS NULL") [JStr fieldName] 1 s)
  else Ok s.

Definition text_branch (fieldName : string) (fieldValue : jsval) (s : bw)
  : result bw :=
  let i := index s in
  text <- get fieldValue "$text" ;;
  if truthy text then
    search <- get text "$search" ;;
    term <- check_text search ;;
    Ok (emit ("MATCH (`" ++ tok i ++ "`) AGAINST ('" ++ tok (i + 1) ++ "')")
             [JStr fieldName; term] 2 s)
  else Ok s.

Definition distance_sphere (i : nat) : string :=
  "ST_Distance_Sphere(`" ++ tok i ++ "`, ST_GeomFromText('POINT("
  ++ tok (i + 1) ++ " " ++ tok (i + 2) ++ ")'))".

Definition nearSphere_branch (fieldName : string) (fieldValue : jsval)
    (s : bw) : result bw :=
  let i := index s in
  point <- get fieldValue "$nearSphere" ;;
  if truthy point then
    let s := push_sort (distance_sphere i ++ " ASC") s in
    distance <- get fieldValue "$maxDistance" ;;
    if truthy distance && negb (renders distance) then Throw TypeError
    else if truthy distance then
      let distanceInKM :=
        num_mul (num_mul (to_number distance) (num_of_nat 6371))
                (num_of_nat 1000) in
      longitude <- get point "longitude" ;;
      latitude <- get point "latitude" ;;
      Ok (emit (distance_sphere i ++ " <= " ++ tok (i + 3))
               [JStr fieldName; longitude; latitude; JNum distanceInKM] 4 s)
    else
      longitude <- get point "longitude" ;;
      latitude <- get point "latitude" ;;
      Ok (emit (distance_sphere i) [JStr fieldName; longitude; latitude] 3 s)
  else Ok s.

Definition mbr_covers (i : nat) : string :=
  "MBRCovers(ST_GeomFromText('Polygon(" ++ tok i ++ ")'), `" ++ tok (i + 1)
  ++ "`)".

Definition within_branch (fieldName : string) (fieldValue : jsval) (s : bw)
  : result bw :=
  let i := index s in
  within <- get fieldValue "$within" ;;
  if truthy within then
    box <- get within "$box" ;;
    if truthy box then
      box0 <- get box "0" ;;
      left <- get box0 "longitude" ;;
      bottom <- get box0 "latitude" ;;
      box1 <- get box "1" ;;
      right <- get box1 "longitude" ;;
      top <- get box1 "latitude" ;;
      l <- template left ;;
      b <- template bottom ;;
      t <- template top ;;
      r <- template right ;;
      Ok (emit (mbr_covers i)
               [JStr ("(" ++ l ++ " " ++ b ++ ", " ++ l ++ " " ++ t ++ ", "
                      ++ t ++ " " ++ r ++ ", " ++ r ++ " " ++ b ++ ", "
                      ++ l ++ " " ++ b ++ ")");
                JStr fieldName] 2 s)
    else Ok s
  else Ok s.

Definition geoWithin_branch (fieldName : string) (fieldValue : jsval)
    (s : bw) : result (bw * jsval) :=
  let i := index s in
  geoWithin <- get fieldValue "$geoWithin" ;;
  if truthy geoWithin then
    polygon <- get geoWithin "$polygon" ;;
    if truthy polygon then
      match polygon with
      | JArr pts =>
          if Nat.ltb (List.length pts) 3 then
            bad_json "bad $geoWithin value; $polygon should contain at least 3 GeoPoints"
          else
            let first := nth 0 pts JUndef in
            let last := nth (List.length pts - 1) pts JUndef in
            lat0 <- get first "latitude" ;;
            lat1 <- get last "latitude" ;;
            open <- (if negb (strict_eq lat0 lat1) then Ok true
                     else lon0 <- get first "longitude" ;;
                          lon1 <- get last "longitude" ;;
                          Ok (negb (strict_eq lon0 lon1))) ;;
            let pts := if open then snoc pts first else pts in
            points <- mapM polygon_point pts ;;
            Ok (emit (mbr_covers i)
                     [JStr ("(" ++ join ", " points ++ ")"); JStr fieldName] 2 s,
                put fieldValue "$geoWithin"
                    (put geoWithin "$polygon" (JArr pts)))
      | _ =>
          bad_json "bad $geoWithin value; $polygon should contain at least 3 GeoPoints"
      end
    else Ok (s, fieldValue)
  else Ok (s, fieldValue).

Definition regex_branch (fieldName : string) (fieldValue : jsval) (s : bw)
  : result bw :=
  let i := index s in
  regex <- get fieldValue "$regex" ;;
  if truthy regex then
    opts <- get fieldValue "$options" ;;
    x <- (if truthy opts then has_x opts else Ok false) ;;
    match regex with
    | JStr r =>
        let r := if x then removeWhiteSpace r else r in
        Ok (emit ("`" ++ tok i ++ "` REGEXP '" ++ tok (i + 1) ++ "'")
                 [JStr fieldName; JStr (processRegexPattern r)] 2 s)
    | _ => Throw TypeError
    end
  else Ok s.

Definition pointer_branch (fieldName : string) (isArrayField : bool)
    (fieldValue : jsval) (s : bw) : result bw :=
  let i := index s in
  ty <- get fieldValue "__type" ;;
  if str_is ty "Pointer" then
    if isArrayField then
      Ok (emit ("JSON_CONTAINS(`" ++ tok i ++ "`, '" ++ tok (i + 1) ++ "') = 1")
               [JStr fieldName; JSON_stringify (JArr [fieldValue])] 2 s)
    else
      objectId <- get fieldValue "objectId" ;;
      Ok (emit (tok i ++ " = '" ++ tok (i + 1) ++ "'")
               [JStr fieldName; objectId] 2 s)
  else Ok s.

Definition date_branch (fieldName : string) (fieldValue : jsval) (s : bw)
  : result bw :=
  let i := index s in
  ty <- get fieldValue "__type" ;;
  if str_is ty "Date" then
    v <- toMySQLValue fieldValue ;;
    Ok (emit ("`" ++ tok i ++ "` = '" ++ tok (i + 1) ++ "'")
             [JStr fieldName; v] 2 s)
  else Ok s.

Definition geopoint_branch (fieldName : string) (fieldValue : jsval) (s : bw)
  : result bw :=
  let i := index s in
  ty <- get fieldValue "__type" ;;
  if str_is ty "GeoPoint" then
    longitude <- get fieldValue "longitude" ;;
    latitude <- get fieldValue "latitude" ;;
    Ok (emit ("`" ++ tok i ++ "` = ST_GeomFromText('POINT(" ++ tok (i + 1)
              ++ " " ++ tok (i + 2) ++ ")')")
             [JStr fieldName; longitude; latitude] 3 s)
  else Ok s.

(** [Object.keys(ParseToMySQLComparator).forEach(...)]. *)
Fixpoint comparators (cmps : list (string * string)) (fieldName : string)
    (fieldValue : jsval) (s : bw) : result bw :=
  match cmps with
  | [] => Ok s
  | (cmp, mysqlComparator) :: r =>
      let i := index s in
      operand <- get fieldValue cmp ;;
      s <- (if truthy operand then
              v <- toMySQLValue operand ;;
              Ok (emit ("`" ++ tok i ++ "` " ++ mysqlComparator ++ " '"
                        ++ tok (i + 1) ++ "'")
                       [JStr fieldName; v] 2 s)
            else Ok s) ;;
      comparators r fieldName fieldValue s
  end.

(** The error of the guard that closes the iteration.  The message is a
    template literal over the value, so it is the conversion of the value
    that throws when that does not return. *)
Definition unsupported_query (fieldValue : jsval) : js_error :=
  if renders fieldValue
  then ParseError OPERATION_FORBIDDEN
         ("MySQL does not support this query type yet " ++ to_string fieldValue)
  else TypeError.

(** One iteration of [for (const fieldName in query)].  Returns the
    locals, the value of the field and the schema as the iteration leaves
    them. *)
Definition body (rec : jsval -> jsval -> nat -> result bw_out)
    (fieldName : string) (fieldValue schema : jsval) (s : bw)
  : result (bw * jsval * jsval) :=
  isArrayField <- is_array_field schema fieldName ;;
  let initialPatternsLength := List.length (patterns s) in
  fields <- get schema "fields" ;;
  declared <- get fields fieldName ;;
  skip <- (if negb (truthy declared) && truthy fieldValue
           then ex <- get fieldValue "$exists" ;; Ok (is_false ex)
           else Ok false) ;;
  if skip then Ok (s, fieldValue, schema)
  else
    ' (continue, s, fieldValue, schema) <-
      scalar_branch rec fieldName fieldValue schema s ;;
    if continue then Ok (s, fieldValue, schema)
    else
      ' (continue, s, fieldValue) <-
        ne_branch fieldName isArrayField fieldValue s ;;
      if continue then Ok (s, fieldValue, schema)
      else
        s <- eq_branch fieldName fieldValue s ;;
        s <- in_branch fieldName isArrayField schema fieldValue s ;;
        s <- all_branch fieldName isArrayField fieldValue s ;;
        s <- exists_branch fieldName fieldValue s ;;
        s <- text_branch fieldName fieldValue s ;;
        s <- nearSphere_branch fieldName fieldValue s ;;
        s <- within_branch fieldName fieldValue s ;;
        ' (s, fieldValue) <- geoWithin_branch fieldName fieldValue s ;;
        s <- regex_branch fieldName fieldValue s ;;
        s <- pointer_branch fieldName isArrayField fieldValue s ;;
        s <- date_branch fieldName fieldValue s ;;
        s <- geopoint_branch fieldName fieldValue s ;;
        s <- comparators ParseToMySQLComparator fieldName fieldValue s ;;
        if Nat.eqb initialPatternsLength (List.length (patterns s))
        then Throw (unsupported_query fieldValue)
        else Ok (s, fieldValue, schema).

(** The loop over the enumerable properties of the query.  Returns the
    properties with the values the iterations left in them. *)
Fixpoint loop (rec : jsval -> jsval -> nat -> result bw_out)
    (fields : list (string * jsval)) (schema : jsval) (s : bw)
  : result (bw * list (string * jsval) * jsval) :=
  match fields with
  | [] => Ok (s, [], schema)
  | (fieldName, fieldValue) :: r =>
      ' (s, fieldValue', schema) <- body rec fieldName fieldValue schema s ;;
      ' (s, r', schema) <- loop rec r schema s ;;
      Ok (s, (fieldName, fieldValue') :: r', schema)
  end.

(** The query with its properties replaced by [fields]. *)
Definition rebuild (query : jsval) (fields : list (string * jsval)) : jsval :=
  match query with
  | JObj _ => JObj fields
  | JArr _ => JArr (map snd fields)
  | _ => query
  end.

Fixpoint bwc (fuel : nat) (schema query : jsval) (index : nat)
  : result bw_out :=
  match fuel with
  | 0 => OutOfFuel
  | S fuel' =>
      schema <- toMySQLSchema schema ;;
      ' (s, fields, schema) <-
        loop (bwc fuel') (entries query) schema
             {| patterns := []; values := []; sorts := []; index := index |} ;;
      values <- mapM transformValue (values s) ;;
      Ok {| pattern := join " AND " (patterns s);
            out_values := values;
            out_sorts := sorts s;
            schema_after := schema;
            query_after := rebuild query fields |}
  end.

(** Nesting depth of a value. *)
Fixpoint depth (v : jsval) : nat :=
  match v with
  | JArr l => S (list_max (map depth l))
  | JObj kvs => S (list_max (map (fun kv => match kv with
                                            | (_, x) => depth x
                                            end) kvs))
  | _ => 0
  end.

(** [buildWhereClause({ schema, query, index })]. *)
Definition buildWhereClause (schema query : jsval) (index : nat)
  : result bw_out :=
  bwc (S (depth query)) schema query index.

(** ** The update compiler *)

(** [Object.keys(o)]. *)
Definition object_keys (o : jsval) : result (list string) :=
  match o with
  | JUndef | JNull => Throw TypeError
  | _ => Ok (map fst (entries o))
  end.

(** The [while] loop of [handleDotFields]: writes [value] at the path
    [components] below [currentObj], creating the objects on the way.  The
    loop stops at an empty component. *)
Fixpoint set_path (currentObj : jsval) (components : list string)
    (value : jsval) : result jsval :=
  match components with
  | [] => Ok currentObj
  | next :: rest =>
      if String.eqb next "" then Ok currentObj
      else
        child <- get currentObj next ;;
        let child := if truthy child then child else JObj [] in
        currentObj <- set currentObj next child ;;
        match rest with
        | [] => set currentObj next value
        | _ :: _ =>
            child <- set_path child rest value ;;
            Ok (put currentObj next child)
        end
  end.

Definition handleDotField (object : jsval) (fieldName : string)
  : result jsval :=
  if includes "." fieldName then
    match split_on "." fieldName with
    | [] => Ok object
    | first :: components =>
        top <- get object first ;;
        let top := if truthy top then top else JObj [] in
        object <- set object first top ;;
        value <- get object fieldName ;;
        value <- (if truthy value
                  then op <- get value "__op" ;;
                       Ok (if str_is op "Delete" then JUndef else value)
                  else Ok value) ;;
        top <- set_path top components value ;;
        delete (put object first top) fieldName
    end
  else Ok object.

Fixpoint foldM {A B} (f : A -> B -> result A) (l : list B) (a : A)
  : result A :=
  match l with
  | [] => Ok a
  | x :: r => a <- f a x ;; foldM f r a
  end.

(** [handleDotFields] mutates its argument and returns it. *)
Definition handleDotFields (object : jsval) : result jsval :=
  keys <- object_keys object ;;
  foldM handleDotField keys object.

Definition is_word_char (c : ascii) : bool :=
  is_alnum c || Ascii.eqb c "_".

(** The capture of the auth-data key pattern: the name starts with
    [_auth_data_] and continues with one or more letters, digits or
    underscores up to its end. *)
Definition authDataMatch (fieldName : string) : option string :=
  let provider := str_drop 11 fieldName in
  if starts_with "_auth_data_" fieldName
     && negb (String.eqb provider "")
     && forallb is_word_char (chars provider)
  then Some provider else None.

(** The first loop of [transformUpdate], one key. *)
Definition foldAuthData (update : jsval) (fieldName : string)
  : result jsval :=
  match authDataMatch fieldName with
  | Some provider =>
      value <- get update fieldName ;;
      update <- delete update fieldName ;;
      authData <- get update "authData" ;;
      let authData := if truthy authData then authData else JObj [] in
      update <- set update "authData" authData ;;
      authData <- set authData provider value ;;
      Ok (put update "authData" authData)
  | None => Ok update
  end.

(** The locals [updatePatterns], [values] and [index]. *)
Record tu := mk_tu {
  updatePatterns : list string;
  tu_values : list jsval;
  tu_index : nat;
}.

Definition tu_emit (p : list string) (vs : list jsval) (n : nat) (s : tu)
  : tu :=
  {| updatePatterns := (updatePatterns s ++ p)%list;
     tu_values := (tu_values s ++ vs)%list;
     tu_index := tu_index s + n |}.

(** The [authData] branch: the reduction over the provider keys keeps
    the text generated for the last key. *)
Fixpoint authData_keys (fieldName : string) (providers : list (string * jsval))
    (lastKey : string) (s : tu) : string * tu :=
  match providers with
  | [] => (lastKey, s)
  | (key, value) :: r =>
      let i := tu_index s in
      let str :=
        "JSON_SET(COALESCE(`" ++ fieldName ++ "`, '{}'), '$." ++ tok i
        ++ "', CAST('" ++ tok (i + 1) ++ "' AS JSON))" in
      let value :=
        if truthy value then
          match get value "__op" with
          | Ok op => if str_is op "Delete" then JNull else JSON_stringify value
          | _ => JSON_stringify value
          end
        else value in
      authData_keys fieldName r str (tu_emit [] [JStr key; value] 2 s)
  end.

(** The [Remove] and [AddUnique] branches: one assignment per object. *)
Fixpoint per_object (text : nat -> string) (fieldName : string)
    (objects : list jsval) (s : tu) : tu :=
  match objects with
  | [] => s
  | obj :: r =>
      per_object text fieldName r
        (tu_emit [text (tu_index s)]
           [JStr fieldName;
            if typeof_object obj then JSON_stringify obj else obj] 2 s)
  end.

Definition remove_text (i : nat) : string :=
  "`" ++ tok i ++ "` = JSON_REMOVE(`" ++ tok i
  ++ "`, REPLACE(JSON_SEARCH(COALESCE(`" ++ tok i ++ "`,'[]'), 'one', '"
  ++ tok (i + 1) ++ "'),'" ++ dquote ++ "',''))".

Definition addUnique_text (i : nat) : string :=
  "`" ++ tok i ++ "` = if (JSON_CONTAINS(`" ++ tok i ++ "`, '" ++ tok (i + 1)
  ++ "') = 0, JSON_MERGE(`" ++ tok i ++ "`,'" ++ tok (i + 1) ++ "'),`"
  ++ tok i ++ "`)".

Fixpoint filterM {A} (f : A -> result bool) (l : list A) : result (list A) :=
  match l with
  | [] => Ok []
  | x :: r =>
      b <- f x ;; r' <- filterM f r ;; Ok (if b then x :: r' else r')
  end.

(** [k.split('.').length === 2 && k.split('.')[0] === fieldName]. *)
Definition nested_under (fieldName k : string) : bool :=
  match split_on "." k with
  | [first; _] => String.eqb first fieldName
  | _ => false
  end.

(** [k.split('.')[1]]. *)
Definition second_component (k : string) : string :=
  nth 1 (split_on "." k) "".

(** The branch of an object value on a field declared [Object].
    [originalUpdate] is the copy of the update taken before
    [handleDotFields]. *)
Definition object_branch (originalUpdate : list (string * jsval))
    (fieldName : string) (fieldValue : jsval) (s : tu)
  : result (tu * jsval) :=
  let i := tu_index s in
  let op_of (kv : string * jsval) := get (snd kv) "__op" in
  keysToSet <-
    filterM (fun kv => op <- op_of kv ;;
                       Ok (negb (truthy op) && negb (includes "." (fst kv))
                           && negb (String.eqb (fst kv) "updatedAt")))
            originalUpdate ;;
  let setPattern :=
    if Nat.ltb 0 (List.length keysToSet) then
      join "," (map (fun _ => "CAST('" ++ to_string (JSON_stringify fieldValue)
                              ++ "' AS JSON)") keysToSet)
    else "" in
  keysToReplace <-
    filterM (fun kv => op <- op_of kv ;;
                       Ok (negb (truthy op) && nested_under fieldName (fst kv)))
            originalUpdate ;;
  let keysToReplace := map (fun kv => second_component (fst kv)) keysToReplace in
  replacePattern <-
    mapM (fun c => v <- get fieldValue c ;;
                   Ok (if typeof_object v
                       then "'$." ++ c ++ "', CAST('"
                            ++ to_string (JSON_stringify v) ++ "' AS JSON)"
                       else "'$." ++ c ++ "', '" ++ to_string v ++ "'"))
         keysToReplace ;;
  fieldValue <- foldM delete keysToReplace fieldValue ;;
  keysToIncrement <-
    filterM (fun kv => op <- op_of kv ;;
                       Ok (str_is op "Increment"
                           && nested_under fieldName (fst kv)))
            originalUpdate ;;
  let keysToIncrement :=
    map (fun kv => second_component (fst kv)) keysToIncrement in
  incrementPatterns <-
    mapM (fun c => v <- get fieldValue c ;;
                   amount <- get v "amount" ;;
                   amount <- template amount ;;
                   Ok ("'$." ++ c ++ "', COALESCE(`" ++ tok i ++ "`->>'$." ++ c
                       ++ "','0') + " ++ amount))
         keysToIncrement ;;
  fieldValue <- foldM delete keysToIncrement fieldValue ;;
  keysToDelete <-
    filterM (fun kv => op <- op_of kv ;;
                       Ok (str_is op "Delete"
                           && nested_under fieldName (fst kv)))
            originalUpdate ;;
  let keysToDelete := map (fun kv => second_component (fst kv)) keysToDelete in
  let deletePatterns :=
    match List.length keysToDelete with
    | 0 => ", "
    | S last => "'$." ++ tok (i + 1 + last) ++ "'"
    end in
  let column := "`" ++ tok i ++ "`" in
  let deleteText :=
    column ++ " = JSON_REMOVE(" ++ column ++ ", " ++ deletePatterns ++ ")" in
  let incrementText :=
    column ++ " = JSON_SET(COALESCE(" ++ column ++ ", '{}'), "
    ++ join " || " incrementPatterns ++ ")" in
  let replaceText :=
    column ++ " = JSON_SET(COALESCE(" ++ column ++ ", '{}'), "
    ++ join " || " replacePattern ++ ")" in
  let setText := column ++ " = " ++ setPattern in
  let when (l : list string) (text : string) : list string :=
    if Nat.ltb 0 (List.length l) then [text] else [] in
  let pats :=
    (when keysToDelete deleteText ++ when keysToIncrement incrementText
     ++ when keysToReplace replaceText
     ++ when (map fst keysToSet) setText)%list in
  Ok (tu_emit pats
        (JStr fieldName :: map JStr keysToDelete ++ [JSON_stringify fieldValue])%list
        (2 + List.length keysToDelete) s,
      fieldValue).

Definition unsupported_update (fieldValue : jsval) : js_error :=
  ParseError OPERATION_FORBIDDEN
    ("MySQL doesn't support update " ++ to_string (JSON_stringify fieldValue)
     ++ " yet").

(** [schema.fields[fieldName] && schema.fields[fieldName].type === ty]. *)
Definition declared_as (schema : jsval) (fieldName ty : string)
  : result bool :=
  fields <- get schema "fields" ;;
  field <- get fields fieldName ;;
  if truthy field then t <- get field "type" ;; Ok (str_is t ty)
  else Ok false.

(** One iteration of the second loop of [transformUpdate]: either the
    locals and the value of the field as the iteration leaves them, or the
    error of the rejected promise the function returns. *)
Definition update_field (schema : jsval)
    (originalUpdate : list (string * jsval))
    (fieldName : string) (fieldValue : jsval) (s : tu)
  : result (tu * jsval + js_error) :=
  let i := tu_index s in
  let col_eq_quoted := "`" ++ tok i ++ "` = '" ++ tok (i + 1) ++ "'" in
  let done (s : tu) : result (tu * jsval + js_error) :=
    Ok (inl (s, fieldValue)) in
  if is_null fieldValue then
    done (tu_emit [tok i ++ " = NULL"] [JStr fieldName] 1 s)
  else if String.eqb fieldName "authData" then
    keys <- object_keys fieldValue ;;
    let s1 := tu_emit [] [JStr ("`" ++ fieldName ++ "`")] 1 s in
    let '(update, s2) :=
      authData_keys fieldName (entries fieldValue) (tok i) s1 in
    done (tu_emit [tok i ++ " = " ++ update] [] 0 s2)
  else
    op <- get fieldValue "__op" ;;
    if str_is op "Increment" then
      amount <- get fieldValue "amount" ;;
      done (tu_emit ["`" ++ tok i ++ "` = COALESCE(`" ++ tok i ++ "`, 0) + "
                     ++ tok (i + 1)]
                    [JStr fieldName; amount] 2 s)
    else if str_is op "Add" then
      objects <- get fieldValue "objects" ;;
      done (tu_emit ["`" ++ tok i ++ "`= JSON_ARRAY_INSERT(COALESCE(`" ++ tok i
                     ++ "`, '[]'), CONCAT('$[',JSON_LENGTH(`" ++ tok i
                     ++ "`),']'), '" ++ tok (i + 1) ++ "')"]
                    [JStr fieldName; JSON_stringify objects] 2 s)
    else if str_is op "Delete" then
      done (tu_emit ["`" ++ tok i ++ "` = $" ++ show_nat (i + 1)]
                    [JStr fieldName; JNull] 2 s)
    else if str_is op "Remove" then
      objects <- get fieldValue "objects" ;;
      match objects with
      | JArr l => done (per_object remove_text fieldName l s)
      | _ => Throw TypeError
      end
    else if str_is op "AddUnique" then
      objects <- get fieldValue "objects" ;;
      match objects with
      | JArr l => done (per_object addUnique_text fieldName l s)
      | _ => Throw TypeError
      end
    else if String.eqb fieldName "updatedAt"
            || String.eqb fieldName "finishedAt" then
      v <- formatDateToMySQL fieldValue ;;
      done (tu_emit [col_eq_quoted] [JStr fieldName; v] 2 s)
    else
      ty <- get fieldValue "__type" ;;
      match fieldValue with
      | JStr _ => done (tu_emit [col_eq_quoted] [JStr fieldName; fieldValue] 2 s)
      | JBool _ =>
          done (tu_emit ["`" ++ tok i ++ "` = " ++ tok (i + 1)]
                        [JStr fieldName; fieldValue] 2 s)
      | _ =>
          if str_is ty "Pointer" then
            objectId <- get fieldValue "objectId" ;;
            done (tu_emit [col_eq_quoted] [JStr fieldName; objectId] 2 s)
          else if str_is ty "Date" then
            v <- toMySQLValue fieldValue ;;
            done (tu_emit [col_eq_quoted] [JStr fieldName; v] 2 s)
          else if str_is ty "File" then
            v <- toMySQLValue fieldValue ;;
            done (tu_emit [col_eq_quoted] [JStr fieldName; v] 2 s)
          else if str_is ty "GeoPoint" then
            longitude <- get fieldValue "longitude" ;;
            latitude <- get fieldValue "latitude" ;;
            done (tu_emit ["`" ++ tok i ++ "` = POINT($" ++ show_nat (i + 1)
                           ++ ", $" ++ show_nat (i + 2) ++ ")"]
                          [JStr fieldName; longitude; latitude] 3 s)
          else if str_is ty "Relation" then done s
          else
            match fieldValue with
            | JNum _ =>
                done (tu_emit ["`" ++ tok i ++ "` = $" ++ show_nat (i + 1)]
                              [JStr fieldName; fieldValue] 2 s)
            | _ =>
                isObject <- (if typeof_object fieldValue
                             then declared_as schema fieldName "Object"
                             else Ok false) ;;
                if isObject then
                  r <- object_branch originalUpdate fieldName fieldValue s ;;
                  Ok (inl r)
                else
                  isArray <- (if is_array fieldValue
                              then declared_as schema fieldName "Array"
                              else Ok false) ;;
                  if isArray then
                    done (tu_emit [tok i ++ " = '" ++ tok (i + 1) ++ "'"]
                                  [JStr fieldName; JSON_stringify fieldValue]
                                  2 s)
                  else Ok (inr (unsupported_update fieldValue))
            end
      end.

(** The second loop; it ends at the first field whose iteration returns
    the rejected promise. *)
Fixpoint update_loop (schema : jsval) (originalUpdate fields : list (string * jsval))
    (s : tu) : result (tu * list (string * jsval) + js_error * list (string * jsval)) :=
  match fields with
  | [] => Ok (inl (s, []))
  | (fieldName, fieldValue) :: r =>
      o <- update_field schema originalUpdate fieldName fieldValue s ;;
      match o with
      | inr e => Ok (inr (e, fields))
      | inl (s, fieldValue') =>
          o <- update_loop schema originalUpdate r s ;;
          match o with
          | inl (s, r') => Ok (inl (s, (fieldName, fieldValue') :: r'))
          | inr (e, r') => Ok (inr (e, (fieldName, fieldValue') :: r'))
          end
      end
  end.

(** What [transformUpdate] returns. *)
Inductive tu_out :=
| Compiled (pattern : string) (index : nat) (values : list jsval)
| RejectedPromise (e : js_error).

(** [originalUpdate] holds references to the values of the update, so
    it sees a later write to one of them.  Its [__op] properties, the only
    thing read from it, can change only when a dotted key or an auth-data
    key names a component [__op]; such updates are outside the model. *)
Definition writes_op (fieldName : string) : bool :=
  existsb (fun c => String.eqb c "__op") (tl (split_on "." fieldName))
  || String.eqb fieldName "_auth_data___op".

(** [transformUpdate(schema, update)].  Returns what the call returns
    and the update document as the call leaves it; the schema is only
    read. *)
Definition transformUpdate (schema update : jsval)
  : result (tu_out * jsval) :=
  let originalUpdate := entries update in
  if existsb (fun kv => writes_op (fst kv)) originalUpdate then Unmodelled
  else
    update <- handleDotFields update ;;
    update <- foldM foldAuthData (map fst (entries update)) update ;;
    o <- update_loop schema originalUpdate (entries update)
           {| updatePatterns := []; tu_values := []; tu_index := 2 |} ;;
    match o with
    | inl (s, fields) =>
        Ok (Compiled (join "," (updatePatterns s)) (tu_index s) (tu_values s),
            rebuild update fields)
    | inr (e, fields) => Ok (RejectedPromise e, rebuild update fields)
    end.

(** ** Backend errors on the read and write paths of the adapter *)

Definition PostgresRelationDoesNotExistError : string := "42P01".
Definition MySQLRelationDoesNotExistError : string := "ER_NO_SUCH_TABLE".

(** How the promise of [this.database.query(qs, values)] settles: it
    resolves to an array whose first element is [first], or it rejects
    with a driver error carrying [code]. *)
Inductive db_outcome :=
| DbResolved (first : jsval)
| DbRejected (code : string).

Inductive rejection :=
| DriverError (code : string)
| Raised (e : js_error).

Inductive settled (A : Type) :=
| Resolved (a : A)
| Rejected (r : rejection).
Arguments Resolved {A} a.
Arguments Rejected {A} r.

(** A [then] or [catch] callback that throws rejects the promise. *)
Definition settle {A} (r : result A) : settled A :=
  match r with
  | Ok a => Resolved a
  | Throw e => Rejected (Raised e)
  | OutOfFuel | Unmodelled => Rejected (Raised TypeError)
  end.

(** The promise chain of [find] after the statement is sent; [convert]
    is the callback that turns a row into a Parse object. *)
Definition find (convert : jsval -> jsval) (db : db_outcome)
  : settled (list jsval) :=
  let caught :=
    match db with
    | DbResolved first => Resolved first
    | DbRejected code =>
        if String.eqb code MySQLRelationDoesNotExistError
        then Resolved (JArr [])
        else Rejected (DriverError code)
    end in
  match caught with
  | Resolved (JArr results) => Resolved (map convert results)
  | Resolved _ => Rejected (Raised TypeError)
  | Rejected r => Rejected r
  end.

(** The promise chain of [count] after the statement is sent. *)
Definition count (db : db_outcome) : settled jsval :=
  let counted :=
    match db with
    | DbResolved result =>
        settle (row <- get result "0" ;; get row "count(*)")
    | DbRejected code => Rejected (DriverError code)
    end in
  match counted with
  | Resolved n => Resolved n
  | Rejected (DriverError code) =>
      if String.eqb code PostgresRelationDoesNotExistError
      then Resolved (JNum (num_of_nat 0))
      else Rejected (DriverError code)
  | Rejected r => Rejected r
  end.

(** The promise chain of [deleteObjectsByQuery] after the statement is
    sent. *)
Definition deleteObjectsByQuery (db : db_outcome) : settled jsval :=
  match db with
  | DbResolved result =>
      settle (affectedRows <- get result "affectedRows" ;;
              if strict_eq affectedRows (JNum (num_of_nat 0))
              then Throw (ParseError OBJECT_NOT_FOUND "Object not found.")
              else Ok affectedRows)
  | DbRejected code => Rejected (DriverError code)
  end.

(** ** Shapes of query documents *)

Definition count_nulls (l : list jsval) : nat :=
  List.length (filter is_null l).

Definition at_most_one_null (v : jsval) : bool :=
  match v with
  | JArr l => Nat.leb (count_nulls l) 1
  | _ => true
  end.

Definition lookup (k : string) (kvs : list (string * jsval)) : jsval :=
  match assoc k kvs with Some v => v | None => JUndef end.

(** No property name of the document, at any depth, contains a dot, and
    no [$in] list holds more than one [null]. *)
Fixpoint regular (v : jsval) : bool :=
  match v with
  | JObj kvs =>
      forallb (fun kv => match kv with
                         | (k, x) => negb (includes "." k) && regular x
                         end) kvs
      && at_most_one_null (lookup "$in" kvs)
  | JArr l => forallb regular l
  | _ => true
  end.

(** No object of the document, at any depth, has a property [$ne] or
    [$geoWithin]. *)
Fixpoint frozen (v : jsval) : bool :=
  match v with
  | JObj kvs =>
      forallb (fun kv => match kv with
                         | (k, x) =>
                             negb (String.eqb k "$ne")
                             && negb (String.eqb k "$geoWithin") && frozen x
                         end) kvs
  | JArr l => forallb frozen l
  | _ => true
  end.

(** The field map [toMySQLSchema] leaves in a schema of class
    [className] whose field map was [fs]. *)
Definition with_implicit_fields (className : jsval)
    (fs : list (string * jsval)) : list (string * jsval) :=
  let fs := assoc_set "_rperm" array_of_string
              (assoc_set "_wperm" array_of_string fs) in
  if str_is className "_User"
  then assoc_set "_password_history" (JObj [("type", JStr "Array")])
         (assoc_set "_hashed_password" (JObj [("type", JStr "String")]) fs)
  else fs.

(** The value of the property [k] of a value that is neither [null] nor
    [undefined]. *)
Definition prop (fv : jsval) (k : string) : jsval :=
  match get fv k with Ok v => v | _ => JUndef end.

(** Neither [null] nor [undefined]. *)
Definition present (fv : jsval) : bool :=
  negb (is_null fv) && negb (is_undefined fv).

(** The [$in] / [$nin] branch pushes no fragment for the value. *)
Definition in_passes (fv : jsval) : bool :=
  negb (is_array (prop fv "$in"))
  && (negb (is_array (prop fv "$nin"))
      || (negb (truthy (prop fv "$in"))
          && Nat.eqb (List.length (flatMap_id (prop fv "$nin"))) 0)).

(** No branch of the loop body after the first chain of alternatives,
    other than the [$in] / [$nin] branch, pushes a fragment for the value:
    every operator key is absent or holds an operand its branch passes
    over. *)
Definition others_pass (fv : jsval) : bool :=
  is_undefined (prop fv "$ne")
  && negb (truthy (prop fv "$eq"))
  && negb (is_array (prop fv "$all"))
  && is_undefined (prop fv "$exists")
  && negb (truthy (prop fv "$text"))
  && negb (truthy (prop fv "$nearSphere"))
  && negb (truthy (prop fv "$within"))
  && negb (truthy (prop fv "$geoWithin"))
  && negb (truthy (prop fv "$regex"))
  && negb (str_is (prop fv "__type") "Pointer")
  && negb (str_is (prop fv "__type") "Date")
  && negb (str_is (prop fv "__type") "GeoPoint")
  && forallb (fun c => negb (truthy (prop fv (fst c)))) ParseToMySQLComparator.

(** A value of none of the supported shapes: an object or an array on
    which no branch pushes a fragment. *)
Definition no_operator_applies (fv : jsval) : bool :=
  typeof_object fv && present fv && others_pass fv && in_passes fv.

(** The operators whose branches test their operand for truthiness
    before comparing with it. *)
Definition comparison_operators : list string :=
  ["$eq"; "$gt"; "$lt"; "$gte"; "$lte"].

(** An operator object made of comparisons with falsy operands only. *)
Definition falsy_comparisons (kvs : list (string * jsval)) : bool :=
  forallb (fun kv => existsb (String.eqb (fst kv)) comparison_operators
                     && negb (truthy (snd kv))) kvs.

(** A bare string, number or boolean. *)
Definition is_scalar (fv : jsval) : bool :=
  match fv with JStr _ | JNum _ | JBool _ => true | _ => false end.


(** No key of the update contains a dot or is an auth-data key. *)
Definition plain_keys (update : jsval) : bool :=
  forallb (fun kv => negb (includes "." (fst kv))
                     && match authDataMatch (fst kv) with
                        | None => true
                        | Some _ => false
                        end)
          (entries update).

(** The tokens of all the patterns pushed so far. *)
Definition all_tokens (s : bw) : list nat := concat (map tokens (patterns s)).

(** The bookkeeping invariant of the loop of [buildWhereClause] started
    at index [s0]: the tokens pushed so far walk through the indices of
    the values pushed so far, and [index] is the next free index. *)
Definition Inv (s0 : nat) (s : bw) : Prop :=
  walk s0 0 (all_tokens s) (List.length (values s))
  /\ index s = s0 + List.length (values s).

(** A schema object with a field map. *)
Definition has_fields (sch : jsval) : Prop :=
  exists kvs fs, sch = JObj kvs /\ assoc "fields" kvs = Some (JObj fs).

(** The recursive calls, made on the schema [sch1], hand it back as it
    is, and hand back unchanged a query without [$ne] and [$geoWithin]. *)
Definition rec_frame (rec : jsval -> jsval -> nat -> result bw_out)
    (sch1 : jsval) : Prop :=
  forall q i out,
    rec sch1 q i = Ok out ->
    schema_after out = sch1 /\ (frozen q = true -> query_after out = q).

(** Every value of the properties [fields] is frozen. *)
Definition frozen_fields (fields : list (string * jsval)) : Prop :=
  forall k v, In (k, v) fields -> frozen v = true.

End Compiler.

Arguments Resolved {A} a.
Arguments Rejected {A} r.

(** ** A concrete instance: integer-valued numbers *)

From Stdlib Require Import ZArith.

Definition show_Z (z : Z) : string :=
  match z with
  | Z0 => "0"
  | Zpos p => show_nat (Pos.to_nat p)
  | Zneg p => "-" ++ show_nat (Pos.to_nat p)
  end.

#[export] Instance int_number : JsNumber := {|
  num := Z;
  num_truthy := fun z => negb (Z.eqb z 0);
  num_to_string := show_Z;
  num_to_json := show_Z;
  num_eqb := Z.eqb;
  num_mul := Z.mul;
  num_of_nat := Z.of_nat;
  num_nan := 0%Z;
  string_to_num := fun _ => 0%Z;
|}.

#[export] Instance int_sdk : ParseSDK := {|
  encode_date_iso := fun v => match v with JStr s => Some s | _ => None end;
  geopoint_valid := fun lat lon =>
    match lat, lon with
    | JNum a, JNum b =>
        ((-90 <=? a) && (a <=? 90) && (-180 <=? b) && (b <=? 180))%Z
    | _, _ => false
    end;
|}.

Definition ex_fields : list (string * jsval) :=
  [("name", JObj [("type", JStr "String")]);
   ("tags", array_of_string);
   ("nums", JObj [("type", JStr "Array")])].

Definition ex_schema_props : list (string * jsval) :=
  [("className", JStr "Item"); ("fields", JObj ex_fields)].

Definition ex_schema : jsval := JObj ex_schema_props.


Definition ex_query_ne : jsval := JObj [("name", JObj [("$ne", JStr "x")])].

Definition ex_query_or : jsval :=
  JObj [("$or", JArr [JObj [("name", JStr "a")];
                      JObj [("tags", JObj [("$in", JArr [JNull; JStr "x"])])]]);
        ("nums", JObj [("$nin", JArr [JNum 1%Z; JNum 2%Z])])].

Definition ex_unknown_op : jsval := JObj [("$unknownOp", JNum 1%Z)].

Definition ex_query_unknown : jsval := JObj [("field", ex_unknown_op)].

Definition ex_gt_zero : list (string * jsval) := [("$gt", JNum 0%Z)].

Definition ex_eq_zero : jsval := JObj [("$eq", JNum 0%Z)].

Definition ex_query_dotted : jsval :=
  JObj [("a.b", JStr "x"); ("c", JStr "y")].

Definition ex_query_dotted_eq : jsval :=
  JObj [("a.b", JObj [("$eq", JNum 0%Z)])].

Definition ex_query_in : jsval := JObj [("name", JObj [("$in", JArr [])])].

Definition ex_query_nin : jsval := JObj [("name", JObj [("$nin", JArr [])])].

Definition ex_query_ne_array : jsval :=
  JObj [("nums", JObj [("$ne", JNum 3%Z)])].

Definition ex_query_nulls : jsval :=
  JObj [("nums", JObj [("$in", JArr [JNull; JNull; JStr "x"])])].

Definition ex_query_tag_nulls : jsval :=
  JObj [("tags", JObj [("$in", JArr [JNull; JNull; JStr "x"])])].

Definition ex_query_dotted_token : jsval := JObj [("a.b", JStr "$9:name")].

Definition ex_query_gt_zero : jsval := JObj [("name", JObj ex_gt_zero)].

Definition ex_update_plain : jsval := JObj [("name", JStr "n")].

Definition ex_update_auth : jsval :=
  JObj [("_auth_data_facebook", JObj [("id", JStr "1")])].

Definition ex_user_plain : list (string * jsval) :=
  [("className", JStr "_User");
   ("fields", JObj [("username", JObj [("type", JStr "String")])])].

Definition ex_relation_fields : list (string * jsval) :=
  [("name", JObj [("type", JStr "String")]);
   ("friends", JObj [("type", JStr "Relation");
                     ("targetClass", JStr "_User")])].

Definition ex_relation_schema : list (string * jsval) :=
  [("className", JStr "Team"); ("fields", JObj ex_relation_fields)].

Definition ex_exists_false : jsval :=
  JObj [("$exists", JBool false); ("$gt", JNum 5%Z)].


Definition ex_by_name : jsval := JObj [("name", JStr "a")].

Definition ex_by_tags : jsval :=
  JObj [("tags", JObj [("$in", JArr [JNull; JStr "x"])])].

Definition ex_name_field : list (string * jsval) := [("name", JStr "a")].

Definition ex_nums_field : list (string * jsval) :=
  [("nums", JObj [("$nin", JArr [JNum 1%Z; JNum 2%Z])])].

Definition ex_dotted_update : list (string * jsval) := [("a.b", JStr "v")].

Definition ex_text : jsval :=
  JObj [("$text", JObj [("$search", JObj [("$term", JStr "hello")])])].

Definition ex_point (latitude longitude : Z) : jsval :=
  JObj [("__type", JStr "GeoPoint"); ("latitude", JNum latitude);
        ("longitude", JNum longitude)].

Definition ex_polygon : list jsval :=
  [ex_point 0 0; ex_point 0 1; ex_point 1 1].

Definition ex_state : bw :=
  {| patterns := []; values := []; sorts := []; index := 2 |}.

(** The six actions of a class-level permission map. *)
Definition clp_actions : list string :=
  ["find"; "get"; "create"; "update"; "delete"; "addField"].

Definition ex_user_schema : list (string * jsval) :=
  [("className", JStr "_User");
   ("fields", JObj [("username", JObj [("type", JStr "String")]);
                    ("_hashed_password", JObj [("type", JStr "String")]);
                    ("_wperm", array_of_string);
                    ("_rperm", array_of_string)]);
   ("classLevelPermissions",
    JObj [("find", JObj [("role:admin", JBool true)])])].

Unset Implicit Arguments.

(** ** Further functions of the utilities file, and shapes of texts *)

(** A text without backslash and without single quote. *)
Definition plain_text (s : string) : bool :=
  forallb (fun c => negb (Ascii.eqb c backslash) && negb (Ascii.eqb c "'"))
          (chars s).

(** A text without whitespace and without [#]. *)
Definition dense_text (s : string) : bool :=
  forallb (fun c => negb (is_space c) && negb (Ascii.eqb c "#")) (chars s).

Section Helpers.
Context `{JsNumber} `{!ParseSDK}.

(** ** Key validation *)

Definition invalid_nested_key : js_error :=
  ParseError INVALID_NESTED_KEY
    "Nested keys should not contain the '$' or '.' characters".

(** The body of the loop of [validateKeys] for the key [key] holding
    [v]; [rec] is the recursive call. *)
Definition validate_key (rec : jsval -> result unit) (key : string) (v : jsval)
  : result unit :=
  u <- (if typeof_object v then rec v else Ok tt) ;;
  if includes "$" key || includes "." key then Throw invalid_nested_key
  else Ok tt.

(** [for (const key in object)] over the properties of an object. *)
Fixpoint validate_properties (rec : jsval -> result unit)
    (kvs : list (string * jsval)) : result unit :=
  match kvs with
  | [] => Ok tt
  | (key, v) :: r =>
      u <- validate_key rec key v ;; validate_properties rec r
  end.

(** [for (const key in object)] over the elements of an array, whose
    keys are the indices from [i] on. *)
Fixpoint validate_elements (rec : jsval -> result unit) (i : nat)
    (l : list jsval) : result unit :=
  match l with
  | [] => Ok tt
  | v :: r =>
      u <- validate_key rec (show_nat i) v ;; validate_elements rec (S i) r
  end.

Fixpoint validateKeys (object : jsval) : result unit :=
  match object with
  | JObj kvs => validate_properties validateKeys kvs
  | JArr l => validate_elements validateKeys 0 l
  | _ => Ok tt
  end.

(** [k] is a key of an object found in [v], at any depth below objects
    and arrays. *)
Inductive nested_key : jsval -> string -> Prop :=
| nested_key_here kvs k v : In (k, v) kvs -> nested_key (JObj kvs) k
| nested_key_below kvs k v k' :
    In (k, v) kvs -> nested_key v k' -> nested_key (JObj kvs) k'
| nested_key_element l v k' :
    In v l -> nested_key v k' -> nested_key (JArr l) k'.

Definition key_ok (k : string) : bool :=
  negb (includes "$" k || includes "." k).

(** What [validateKeys] decides about a value. *)
Definition validated (v : jsval) : Prop :=
  (validateKeys v = Ok tt
   /\ forall k, nested_key v k -> key_ok k = true)
  \/ (validateKeys v = Throw invalid_nested_key
      /\ exists k, nested_key v k /\ key_ok k = false).

(** The locals of [buildWhereClause] with the patterns, values and sort
    expressions of [s0] in front of those of [s]. *)
Definition after_state (s0 s : bw) : bw :=
  {| patterns := (patterns s0 ++ patterns s)%list;
     values := (values s0 ++ values s)%list;
     sorts := (sorts s0 ++ sorts s)%list;
     index := index s |}.

Definition rmap {A B} (g : A -> B) (r : result A) : result B :=
  match r with
  | Ok a => Ok (g a)
  | Throw e => Throw e
  | OutOfFuel => OutOfFuel
  | Unmodelled => Unmodelled
  end.



(** ** Join tables *)

(** The callback of the [forEach] of [joinTablesForSchema] for the key
    [field]; [tables] is the list pushed so far. *)
Definition join_table (schema fields : jsval) (tables : list string)
    (field : string) : result (list string) :=
  decl <- get fields field ;;
  ty <- get decl "type" ;;
  if str_is ty "Relation" then
    className <- get schema "className" ;;
    className <- template className ;;
    Ok (snoc tables ("_Join:" ++ field ++ ":" ++ className))
  else Ok tables.

Definition joinTablesForSchema (schema : jsval) : result (list string) :=
  if truthy schema then
    fields <- get schema "fields" ;;
    keys <- object_keys fields ;;
    foldM (join_table schema fields) keys []
  else Ok [].

(** [after_state] applied to the locals that an iteration returns. *)
Definition after_body (s0 : bw) (r : bw * jsval * jsval) : bw * jsval * jsval :=
  match r with (s', fv', sch') => (after_state s0 s', fv', sch') end.

(** [after_state] applied to the locals that the loop returns. *)
Definition after_loop (s0 : bw) (r : bw * list (string * jsval) * jsval)
  : bw * list (string * jsval) * jsval :=
  match r with (s', fields', sch') => (after_state s0 s', fields', sch') end.

(** The keys of the object are without dot or still to be visited. *)
Definition dots_pending (o : jsval) (pending : list string) : Prop :=
  exists kvs, o = JObj kvs
              /\ forall k v, In (k, v) kvs ->
                             includes "." k = false \/ In k pending.

(** ** The arguments as a call leaves them *)

(** [buildWhereClause] and [transformUpdate] write into their arguments
    while they run, so a call that throws leaves behind what it wrote up
    to the throw.  The functions below follow a call and give its
    arguments as the call leaves them, whether it returns or throws.
    (They have no meaning for a call the model does not follow, whose
    result is [Unmodelled] or [OutOfFuel].) *)

(** What the step [m] hands on, or [left] when it throws. *)
Definition or_leave {A B} (m : result A) (left : B) (k : A -> B) : B :=
  match m with Ok a => k a | _ => left end.

(** The stored form of a schema: what [toMySQLSchema] leaves of it. *)
Definition stored (schema : jsval) : jsval :=
  or_leave (toMySQLSchema schema) schema (fun schema => schema).

(** The [forEach] of the [$or] / [$and] branch.  The sub-queries before
    the one whose call throws are as their calls left them, that one is as
    its call left it, and the ones after it are not visited. *)
Fixpoint sub_clauses_leaves (rec : jsval -> jsval -> nat -> result bw_out)
    (rec_leaves : jsval -> jsval -> nat -> jsval * jsval)
    (schema : jsval) (subs : list jsval) (i : nat) : jsval * list jsval :=
  match subs with
  | [] => (schema, [])
  | subQuery :: r =>
      or_leave (rec schema subQuery i)
        (match rec_leaves schema subQuery i with
         | (schema, subQuery) => (schema, subQuery :: r)
         end)
        (fun clause =>
           let keep := Nat.ltb 0 (String.length (pattern clause)) in
           let i := if keep then i + List.length (out_values clause) else i in
           match sub_clauses_leaves rec rec_leaves (schema_after clause) r i with
           | (schema, r) => (schema, query_after clause :: r)
           end)
  end.

(** The first chain of alternatives writes through the recursive calls
    only. *)
Definition scalar_branch_leaves (rec : jsval -> jsval -> nat -> result bw_out)
    (rec_leaves : jsval -> jsval -> nat -> jsval * jsval)
    (fieldName : string) (fieldValue schema : jsval) (s : bw)
  : jsval * jsval :=
  if includes "." fieldName then (fieldValue, schema)
  else
    match fieldValue with
    | JArr subs =>
        if String.eqb fieldName "$or" || String.eqb fieldName "$and" then
          match sub_clauses_leaves rec rec_leaves schema subs (index s) with
          | (schema, subs) => (JArr subs, schema)
          end
        else (fieldValue, schema)
    | _ => (fieldValue, schema)
    end.

(** The test of the [$geoWithin] branch on the first and the last point
    of the polygon. *)
Definition polygon_open (pts : list jsval) : result bool :=
  let first := nth 0 pts JUndef in
  let last := nth (List.length pts - 1) pts JUndef in
  lat0 <- get first "latitude" ;;
  lat1 <- get last "latitude" ;;
  if negb (strict_eq lat0 lat1) then Ok true
  else lon0 <- get first "longitude" ;;
       lon1 <- get last "longitude" ;;
       Ok (negb (strict_eq lon0 lon1)).

(** The [$geoWithin] branch pushes the first point onto an open polygon
    before it validates the points. *)
Definition geoWithin_branch_leaves (fieldValue : jsval) : jsval :=
  or_leave (get fieldValue "$geoWithin") fieldValue (fun geoWithin =>
  if truthy geoWithin then
    or_leave (get geoWithin "$polygon") fieldValue (fun polygon =>
    match polygon with
    | JArr pts =>
        if Nat.ltb (List.length pts) 3 then fieldValue
        else
          or_leave (polygon_open pts) fieldValue (fun open =>
          let pts := if open then snoc pts (nth 0 pts JUndef) else pts in
          put fieldValue "$geoWithin" (put geoWithin "$polygon" (JArr pts)))
    | _ => fieldValue
    end)
  else fieldValue).

(** One iteration of the loop.  The value of the field is written by the
    recursive calls of the first chain, by the [$ne] branch (before
    anything in it can throw) and by the [$geoWithin] branch; the branches
    after that one write nothing. *)
Definition body_leaves (rec : jsval -> jsval -> nat -> result bw_out)
    (rec_leaves : jsval -> jsval -> nat -> jsval * jsval)
    (fieldName : string) (fieldValue schema : jsval) (s : bw)
  : jsval * jsval :=
  let here := (fieldValue, schema) in
  or_leave (is_array_field schema fieldName) here (fun isArrayField =>
  or_leave (fields <- get schema "fields" ;;
            declared <- get fields fieldName ;;
            if negb (truthy declared) && truthy fieldValue
            then ex <- get fieldValue "$exists" ;; Ok (is_false ex)
            else Ok false) here (fun skip =>
  if skip then here
  else
    or_leave (scalar_branch rec fieldName fieldValue schema s)
      (scalar_branch_leaves rec rec_leaves fieldName fieldValue schema s)
      (fun r =>
         match r with
         | (continue, s, fieldValue, schema) =>
             if continue then (fieldValue, schema)
             else
               or_leave (ne_branch fieldName isArrayField fieldValue s)
                 (fieldValue, schema)
                 (fun r =>
                    match r with
                    | (continue, s, fieldValue) =>
                        if continue then (fieldValue, schema)
                        else
                          or_leave
                            (s <- eq_branch fieldName fieldValue s ;;
                             s <- in_branch fieldName isArrayField schema
                                    fieldValue s ;;
                             s <- all_branch fieldName isArrayField
                                    fieldValue s ;;
                             s <- exists_branch fieldName fieldValue s ;;
                             s <- text_branch fieldName fieldValue s ;;
                             s <- nearSphere_branch fieldName fieldValue s ;;
                             within_branch fieldName fieldValue s)
                            (fieldValue, schema)
                            (fun _ =>
                               (geoWithin_branch_leaves fieldValue, schema))
                    end)
         end))).

(** The loop: the fields before the one whose iteration throws are as
    their iterations left them, the ones after it are not visited. *)
Fixpoint loop_leaves (rec : jsval -> jsval -> nat -> result bw_out)
    (rec_leaves : jsval -> jsval -> nat -> jsval * jsval)
    (fields : list (string * jsval)) (schema : jsval) (s : bw)
  : list (string * jsval) * jsval :=
  match fields with
  | [] => ([], schema)
  | (fieldName, fieldValue) :: r =>
      or_leave (body rec fieldName fieldValue schema s)
        (match body_leaves rec rec_leaves fieldName fieldValue schema s with
         | (fieldValue, schema) => ((fieldName, fieldValue) :: r, schema)
         end)
        (fun b =>
           match b with
           | (s, fieldValue, schema) =>
               match loop_leaves rec rec_leaves r schema s with
               | (r, schema) => ((fieldName, fieldValue) :: r, schema)
               end
           end)
  end.

Fixpoint bwc_leaves (fuel : nat) (schema query : jsval) (index : nat)
  : jsval * jsval :=
  match fuel with
  | 0 => (schema, query)
  | S fuel' =>
      or_leave (toMySQLSchema schema) (schema, query) (fun schema =>
      match loop_leaves (bwc fuel') (bwc_leaves fuel') (entries query) schema
              {| patterns := []; values := []; sorts := []; index := index |}
      with
      | (fields, schema) => (schema, rebuild query fields)
      end)
  end.

(** The schema and the query as a call of [buildWhereClause] leaves
    them. *)
Definition buildWhereClause_leaves (schema query : jsval) (index : nat)
  : jsval * jsval :=
  bwc_leaves (S (depth query)) schema query index.

(** *** Queries the loop does not write into *)

(** The [$ne] branch replaces the operand: the field is declared as an
    array and the value has a [$ne]. *)
Definition ne_written (schema : jsval) (fieldName : string)
    (fieldValue : jsval) : bool :=
  match is_array_field schema fieldName with
  | Ok true => negb (is_undefined (prop fieldValue "$ne"))
  | _ => false
  end.

(** The [$geoWithin] branch pushes a point: the polygon is a list of at
    least three points whose first and last points differ. *)
Definition polygon_written (fieldValue : jsval) : bool :=
  match prop (prop fieldValue "$geoWithin") "$polygon" with
  | JArr pts =>
      Nat.leb 3 (List.length pts)
      && match polygon_open pts with Ok open => open | _ => false end
  | _ => false
  end.

(** No field of the query, nor of the sub-queries of its [$or] and
    [$and] lists, holds a [$ne] on a field that the schema declares as an
    array, or an open polygon. *)
Fixpoint stable (schema query : jsval) : bool :=
  match query with
  | JObj kvs =>
      forallb (fun kv =>
                 match kv with
                 | (fieldName, fieldValue) =>
                     negb (ne_written schema fieldName fieldValue)
                     && negb (polygon_written fieldValue)
                     && (if String.eqb fieldName "$or"
                            || String.eqb fieldName "$and"
                         then match fieldValue with
                              | JArr subs => forallb (stable schema) subs
                              | _ => true
                              end
                         else true)
                 end) kvs
  | JArr l =>
      forallb (fun kv => negb (ne_written schema (fst kv) (snd kv))
                         && negb (polygon_written (snd kv)))
              (indexed_from 0 l)
  | _ => true
  end.

(** *** The update compiler *)

(** The value of a field as an iteration of the second loop of
    [transformUpdate] leaves it.  The only writes of an iteration are the
    deletions of the branch of an [Object] field, of the components named
    by the keys of [originalUpdate] nested under the field; [None] when
    the iteration throws and there are such keys. *)
Definition update_field_leaves (schema : jsval)
    (originalUpdate : list (string * jsval))
    (fieldName : string) (fieldValue : jsval) (s : tu) : option jsval :=
  match update_field schema originalUpdate fieldName fieldValue s with
  | Ok (inl (_, fieldValue')) => Some fieldValue'
  | Ok (inr _) => Some fieldValue
  | _ =>
      if existsb (fun kv => nested_under fieldName (fst kv)) originalUpdate
      then None else Some fieldValue
  end.

Fixpoint update_loop_leaves (schema : jsval)
    (originalUpdate fields : list (string * jsval)) (s : tu)
  : option (list (string * jsval)) :=
  match fields with
  | [] => Some []
  | (fieldName, fieldValue) :: r =>
      match update_field schema originalUpdate fieldName fieldValue s with
      | Ok (inl (s, fieldValue')) =>
          option_map (cons (fieldName, fieldValue'))
                     (update_loop_leaves schema originalUpdate r s)
      | _ =>
          option_map (fun fieldValue' => (fieldName, fieldValue') :: r)
                     (update_field_leaves schema originalUpdate fieldName
                        fieldValue s)
      end
  end.

(** The update document as a call of [transformUpdate] leaves it, whether
    the call returns or throws; [None] where the model does not follow the
    call: a throw inside [handleDotFields], the auth-data loop or the
    branch of an [Object] field, which write into the document step by
    step. *)
Definition transformUpdate_leaves (schema update : jsval) : option jsval :=
  let originalUpdate := entries update in
  if existsb (fun kv => writes_op (fst kv)) originalUpdate then None
  else
    match object_keys update with
    | Ok keys =>
        match foldM handleDotField keys update with
        | Ok update =>
            match foldM foldAuthData (map fst (entries update)) update with
            | Ok update =>
                option_map (rebuild update)
                  (update_loop_leaves schema originalUpdate (entries update)
                     {| updatePatterns := []; tu_values := [];
                        tu_index := 2 |})
            | _ => None
            end
        | _ => None
        end
    | _ => Some update
    end.

(** *** Queries whose placeholders are numbered in step *)

(** The schema declares the field as an array of strings: the [$in]
    branch takes its first alternative on a list. *)
Definition string_array_field (schema : jsval) (fieldName : string) : bool :=
  match is_array_field schema fieldName with
  | Ok true =>
      let contents := prop (prop (prop schema "fields") fieldName) "contents" in
      truthy contents && str_is (prop contents "type") "String"
  | _ => false
  end.

(** After [n] elements [null], the list holds an element other than
    [null] that comes after two [null] or more.  The first alternative of
    the [$in] branch numbers such an element one too high. *)
Fixpoint after_nulls (n : nat) (elems : list jsval) : bool :=
  match elems with
  | [] => false
  | listElem :: r =>
      if is_null listElem then after_nulls (S n) r
      else Nat.leb 2 n || after_nulls n r
  end.

(** The [$in] list of the field is numbered in step. *)
Definition in_indexed (schema : jsval) (fieldName : string)
    (fieldValue : jsval) : bool :=
  negb (string_array_field schema fieldName
        && match prop fieldValue "$in" with
           | JArr elems => after_nulls 0 elems
           | _ => false
           end).

(** What the first branch writes into the pattern for a dotted field
    name from the name and the value; around the path of a field compared
    with [null] the two files put fixed texts of their own. *)
Definition inlined_text (fieldName : string) (fieldValue : jsval) : string :=
  if is_null fieldValue then dotted_name fieldName
  else dotted_name fieldName ++ " = '" ++ to_string fieldValue ++ "'".

(** The field name has no dot, or the text written for it holds no
    placeholder. *)
Definition inlined_quiet (fieldName : string) (fieldValue : jsval) : bool :=
  negb (includes "." fieldName)
  || match tokens (inlined_text fieldName fieldValue) with
     | [] => true
     | _ => false
     end.

(** In the query and in the sub-queries of its [$or] and [$and] lists,
    the text written for a dotted field name holds no placeholder, and no
    [$in] list on a field that the schema declares as an array of strings
    holds an element other than [null] after two [null]. *)
Fixpoint indexable (schema query : jsval) : bool :=
  match query with
  | JObj kvs =>
      forallb (fun kv =>
                 match kv with
                 | (fieldName, fieldValue) =>
                     inlined_quiet fieldName fieldValue
                     && in_indexed schema fieldName fieldValue
                     && (if String.eqb fieldName "$or"
                            || String.eqb fieldName "$and"
                         then match fieldValue with
                              | JArr subs => forallb (indexable schema) subs
                              | _ => true
                              end
                         else true)
                 end) kvs
  | JArr l =>
      forallb (fun kv => in_indexed schema (fst kv) (snd kv)) (indexed_from 0 l)
  | _ => true
  end.

End Helpers.

(** ** The predicate compiler of the adapter file *)

(** [MySQLStorageAdapter.js] has a [buildWhereClause] of its own, with
    the helpers [toPostgresValue] and [toPostgresSchema].  It has the loop
    of the one of the utilities file; it differs in the text of most
    fragments, in the [$in], [$text], [$nearSphere], [$within] and
    [$geoWithin] branches, in the conversion of dates and in the message
    of the guard that closes an iteration.  The branches whose text is the
    same in both files ([$eq], [$all], [$regex], pointers and the
    recursive calls of [$or] / [$and]) are shared. *)
Module Adapter.
Section AdapterCompiler.
Context `{JsNumber} `{!ParseSDK}.

Definition ParseToPosgresComparator : list (string * string) :=
  [("$gt", ">"); ("$lt", "<"); ("$gte", ">="); ("$lte", "<=")].

(** [new Date(value.iso).toISOString()] is the text [encode_date_iso]
    gives for a valid date, and throws a [RangeError], modelled as an
    error with its message, for an invalid one. *)
Definition toPostgresValue (value : jsval) : result jsval :=
  if typeof_object value then
    ty <- get value "__type" ;;
    if str_is ty "Date" then
      iso <- get value "iso" ;;
      match encode_date_iso iso with
      | Some text => Ok (JStr (replace_first "T" " " (str_take 19 text)))
      | None => Throw (Error "Invalid time value")
      end
    else if str_is ty "File" then get value "name"
    else Ok value
  else Ok value.

(** [toPostgresSchema] mutates its argument and returns it. *)
Definition toPostgresSchema (schema : jsval) : result jsval :=
  if negb (truthy schema) then Ok schema
  else
    fields <- get schema "fields" ;;
    let fields := if truthy fields then fields else JObj [] in
    schema <- set schema "fields" fields ;;
    fields <- set fields "_wperm" array_of_string ;;
    fields <- set fields "_rperm" array_of_string ;;
    className <- get schema "className" ;;
    fields <- (if str_is className "_User"
               then (f <- set fields "_hashed_password"
                            (JObj [("type", JStr "String")]) ;;
                     set f "_password_history" (JObj [("type", JStr "Array")]))
               else Ok fields) ;;
    Ok (put schema "fields" fields).

(** The placeholder of index [i] without a filter, as some templates of
    this file write it. *)
Definition ref (i : nat) : string := "$" ++ show_nat i.

(** The first chain of alternatives. *)
Definition scalar_branch (rec : jsval -> jsval -> nat -> result bw_out)
    (fieldName : string) (fieldValue schema : jsval) (s : bw)
  : result (bool * bw * jsval * jsval) :=
  let i := index s in
  if includes "." fieldName then
    let name := dotted_name fieldName in
    if is_null fieldValue
    then Ok (false, emit (name ++ " IS NULL") [] 0 s, fieldValue, schema)
    else
      text <- template fieldValue ;;
      Ok (false, emit (name ++ " = '" ++ text ++ "'") [] 0 s,
          fieldValue, schema)
  else
    match fieldValue with
    | JNull =>
        Ok (true, emit ("`" ++ tok i ++ "` IS NULL") [JStr fieldName] 1 s,
            fieldValue, schema)
    | JStr _ =>
        Ok (false,
            emit (tok i ++ " = '" ++ tok (i + 1) ++ "'")
                 [JStr fieldName; fieldValue] 2 s,
            fieldValue, schema)
    | JBool _ | JNum _ =>
        Ok (false,
            emit (tok i ++ " = " ++ tok (i + 1))
                 [JStr fieldName; fieldValue] 2 s,
            fieldValue, schema)
    | _ =>
        if String.eqb fieldName "$or" || String.eqb fieldName "$and" then
          match fieldValue with
          | JArr subs =>
              ' (clauses, clauseValues, i', schema', subs') <-
                sub_clauses rec schema subs i ;;
              let orOrAnd :=
                if String.eqb fieldName "$or" then " OR " else " AND " in
              Ok (false,
                  {| patterns := snoc (patterns s)
                                      ("(" ++ join orOrAnd clauses ++ ")");
                     values := (values s ++ clauseValues)%list;
                     sorts := sorts s;
                     index := i' |},
                  JArr subs', schema')
          | _ => Throw TypeError
          end
        else Ok (false, s, fieldValue, schema)
    end.

Definition ne_branch (fieldName : string) (isArrayField : bool)
    (fieldValue : jsval) (s : bw) : result (bool * bw * jsval) :=
  let i := index s in
  ne <- get fieldValue "$ne" ;;
  if negb (is_undefined ne) then
    if isArrayField then
      fieldValue <- set fieldValue "$ne" (JSON_stringify (JArr [ne])) ;;
      ne <- get fieldValue "$ne" ;;
      Ok (false,
          emit ("JSON_CONTAINS(`" ++ tok i ++ "`, '" ++ tok (i + 1) ++ "') != 1")
               [JStr fieldName; ne] 2 s,
          fieldValue)
    else if is_null ne then
      Ok (true, emit (tok i ++ " IS NOT NULL") [JStr fieldName] 1 s,
          fieldValue)
    else
      Ok (false,
          emit ("(" ++ tok i ++ " <> '" ++ tok (i + 1) ++ "' OR " ++ tok i
                ++ " IS NULL)")
               [JStr fieldName; ne] 2 s,
          fieldValue)
  else Ok (false, s, fieldValue).

(** The [$in] branch of a field declared as an array of strings. *)
Fixpoint in_string_array (i : nat) (elems : list jsval) (listIndex : nat)
    (allowNull : bool) (vals : list jsval) (inPatterns : list string)
  : bool * list jsval * list string :=
  match elems with
  | [] => (allowNull, vals, inPatterns)
  | listElem :: r =>
      if is_null listElem
      then in_string_array i r (S listIndex) true vals inPatterns
      else in_string_array i r (S listIndex) allowNull
             (snoc vals listElem)
             (snoc inPatterns
                (ref (i + 1 + listIndex - (if allowNull then 1 else 0))))
  end.

Definition createConstraint (fieldName : string) (isArrayField : bool)
    (baseArray : list jsval) (notIn : bool) (s : bw) : bw :=
  let i := index s in
  let n := List.length baseArray in
  if Nat.ltb 0 n then
    let not := if notIn then " NOT " else "" in
    if isArrayField then
      let operator := if notIn then " != " else " = " in
      emit ("JSON_CONTAINS(`" ++ tok i ++ "`, '" ++ tok (i + 1) ++ "') "
            ++ operator ++ " 1")
           [JStr fieldName; JSON_stringify (JArr baseArray)] 2 s
    else
      let inPatterns :=
        map (fun listIndex => "'" ++ tok (i + 1 + listIndex) ++ "'")
            (seq 0 n) in
      emit ("`" ++ tok i ++ "` " ++ not ++ " IN (" ++ join "," inPatterns ++ ")")
           (JStr fieldName :: baseArray) (1 + n) s
  else if negb notIn then
    emit (tok i ++ " IS NULL") [JStr fieldName] 1 s
  else s.

Definition in_branch (fieldName : string) (isArrayField : bool)
    (schema fieldValue : jsval) (s : bw) : result bw :=
  let i := index s in
  vin <- get fieldValue "$in" ;;
  vnin <- get fieldValue "$nin" ;;
  let isInOrNin := is_array vin || is_array vnin in
  stringArray <-
    (if is_array vin && isArrayField then
       fields <- get schema "fields" ;;
       field <- get fields fieldName ;;
       contents <- get field "contents" ;;
       if truthy contents
       then ty <- get contents "type" ;; Ok (str_is ty "String")
       else Ok false
     else Ok false) ;;
  if stringArray then
    match vin with
    | JArr elems =>
        let '(allowNull, vals, inPatterns) :=
          in_string_array i elems 0 false [JStr fieldName] [] in
        let tempInPattern :=
          to_string (JSON_stringify (JStr (join "," inPatterns))) in
        Ok {| patterns :=
                snoc (patterns s)
                  (if allowNull
                   then "(" ++ tok i ++ " IS NULL OR " ++ tok i
                        ++ " IS NOT NULL && JSON_ARRAY('" ++ tempInPattern
                        ++ "') <> JSON_ARRAY(''))"
                   else tok i ++ " && '" ++ tempInPattern ++ "'");
              values := (values s ++ vals)%list;
              sorts := sorts s;
              index := i + 1 + List.length inPatterns |}
    | _ => Ok s
    end
  else if isInOrNin then
    let s := if truthy vin
             then createConstraint fieldName isArrayField (flatMap_id vin) false s
             else s in
    let s := if truthy vnin
             then createConstraint fieldName isArrayField (flatMap_id vnin) true s
             else s in
    Ok s
  else Ok s.

Definition exists_branch (fieldName : string) (fieldValue : jsval) (s : bw)
  : result bw :=
  let i := index s in
  ex <- get fieldValue "$exists" ;;
  if negb (is_undefined ex) then
    if truthy ex
    then Ok (emit (tok i ++ " IS NOT NULL") [JStr fieldName] 1 s)
    else Ok (emit (tok i ++ " IS NULL") [JStr fieldName] 1 s)
  else Ok s.

(** The validation of [$text.$search]; returns the language and the
    term. *)
Definition check_text (search : jsval) : result (jsval * jsval) :=
  if negb (typeof_object search) then
    bad_json "bad $text: $search, should be object"
  else
    term <- get search "$term" ;;
    if negb (truthy term) || negb (is_string term) then
      bad_json "bad $text: $term, should be string"
    else
      language <- get search "$language" ;;
      if truthy language && negb (is_string language) then
        bad_json "bad $text: $language, should be string"
      else
        let language := if truthy language then language else JStr "english" in
        cs <- get search "$caseSensitive" ;;
        if truthy cs && negb (match cs with JBool _ => true | _ => false end)
        then bad_json "bad $text: $caseSensitive, should be boolean"
        else if truthy cs then
          bad_json "bad $text: $caseSensitive not supported, please use $regex or create a separate lower case column."
        else
          ds <- get search "$diacriticSensitive" ;;
          if truthy ds && negb (match ds with JBool _ => true | _ => false end)
          then bad_json "bad $text: $diacriticSensitive, should be boolean"
          else if is_false ds then
            bad_json "bad $text: $diacriticSensitive - false not supported, install Postgres Unaccent Extension"
          else Ok (language, term).

Definition text_branch (fieldName : string) (fieldValue : jsval) (s : bw)
  : result bw :=
  let i := index s in
  text <- get fieldValue "$text" ;;
  if truthy text then
    search <- get text "$search" ;;
    ' (language, term) <- check_text search ;;
    Ok (emit ("to_tsvector(" ++ tok i ++ ", " ++ tok (i + 1)
              ++ ") @@ to_tsquery(" ++ tok (i + 2) ++ ", " ++ tok (i + 3)
              ++ ")")
             [language; JStr fieldName; language; term] 4 s)
  else Ok s.

Definition distance_sphere (i : nat) : string :=
  "ST_distance_sphere(" ++ tok i ++ "::geometry, POINT(" ++ ref (i + 1)
  ++ ", " ++ ref (i + 2) ++ ")::geometry)".

Definition nearSphere_branch (fieldName : string) (fieldValue : jsval)
    (s : bw) : result bw :=
  let i := index s in
  point <- get fieldValue "$nearSphere" ;;
  if truthy point then
    distance <- get fieldValue "$maxDistance" ;;
    if negb (renders distance) then Throw TypeError
    else
      let distanceInKM :=
        num_mul (num_mul (to_number distance) (num_of_nat 6371))
                (num_of_nat 1000) in
      longitude <- get point "longitude" ;;
      latitude <- get point "latitude" ;;
      Ok (emit (distance_sphere i ++ " <= " ++ tok (i + 3))
               [JStr fieldName; longitude; latitude; JNum distanceInKM] 4
               (push_sort (distance_sphere i ++ " ASC") s))
  else Ok s.

Definition within_branch (fieldName : string) (fieldValue : jsval) (s : bw)
  : result bw :=
  let i := index s in
  within <- get fieldValue "$within" ;;
  if truthy within then
    box <- get within "$box" ;;
    if truthy box then
      box0 <- get box "0" ;;
      left <- get box0 "longitude" ;;
      bottom <- get box0 "latitude" ;;
      box1 <- get box "1" ;;
      right <- get box1 "longitude" ;;
      top <- get box1 "latitude" ;;
      l <- template left ;;
      b <- template bottom ;;
      r <- template right ;;
      t <- template top ;;
      Ok (emit (tok i ++ "::point <@ " ++ ref (i + 1) ++ "::box")
               [JStr fieldName;
                JStr ("((" ++ l ++ ", " ++ b ++ "), (" ++ r ++ ", " ++ t
                      ++ "))")] 2 s)
    else Ok s
  else Ok s.

(** The text of one polygon vertex. *)
Definition polygon_point (point : jsval) : result string :=
  if negb (typeof_object point) then bad_json "bad $geoWithin value"
  else
    ty <- get point "__type" ;;
    if negb (str_is ty "GeoPoint") then bad_json "bad $geoWithin value"
    else
      lat <- get point "latitude" ;;
      lon <- get point "longitude" ;;
      if geopoint_valid lat lon
      then lon <- template lon ;; lat <- template lat ;;
           Ok ("(" ++ lon ++ ", " ++ lat ++ ")")
      else Throw TypeError.

(** This branch does not close the polygon: it writes nothing into the
    value. *)
Definition geoWithin_branch (fieldName : string) (fieldValue : jsval)
    (s : bw) : result bw :=
  let i := index s in
  geoWithin <- get fieldValue "$geoWithin" ;;
  if truthy geoWithin then
    polygon <- get geoWithin "$polygon" ;;
    if truthy polygon then
      match polygon with
      | JArr pts =>
          if Nat.ltb (List.length pts) 3 then
            bad_json "bad $geoWithin value; $polygon should contain at least 3 GeoPoints"
          else
            points <- mapM polygon_point pts ;;
            Ok (emit (tok i ++ "::point <@ " ++ ref (i + 1) ++ "::polygon")
                     [JStr fieldName; JStr ("(" ++ join ", " points ++ ")")]
                     2 s)
      | _ =>
          bad_json "bad $geoWithin value; $polygon should contain at least 3 GeoPoints"
      end
    else Ok s
  else Ok s.

Definition date_branch (fieldName : string) (fieldValue : jsval) (s : bw)
  : result bw :=
  let i := index s in
  ty <- get fieldValue "__type" ;;
  if str_is ty "Date" then
    v <- toPostgresValue fieldValue ;;
    Ok (emit ("`" ++ tok i ++ "` = '" ++ tok (i + 1) ++ "'")
             [JStr fieldName; v] 2 s)
  else Ok s.

Definition geopoint_branch (fieldName : string) (fieldValue : jsval) (s : bw)
  : result bw :=
  let i := index s in
  ty <- get fieldValue "__type" ;;
  if str_is ty "GeoPoint" then
    longitude <- get fieldValue "longitude" ;;
    latitude <- get fieldValue "latitude" ;;
    Ok (emit (tok i ++ " ~= POINT(" ++ ref (i + 1) ++ ", " ++ ref (i + 2)
              ++ ")")
             [JStr fieldName; longitude; latitude] 3 s)
  else Ok s.

(** [Object.keys(ParseToPosgresComparator).forEach(...)]. *)
Fixpoint comparators (cmps : list (string * string)) (fieldName : string)
    (fieldValue : jsval) (s : bw) : result bw :=
  match cmps with
  | [] => Ok s
  | (cmp, pgComparator) :: r =>
      let i := index s in
      operand <- get fieldValue cmp ;;
      s <- (if truthy operand then
              v <- toPostgresValue operand ;;
              Ok (emit ("`" ++ tok i ++ "` " ++ pgComparator ++ " '"
                        ++ tok (i + 1) ++ "'")
                       [JStr fieldName; v] 2 s)
            else Ok s) ;;
      comparators r fieldName fieldValue s
  end.

(** The error of the guard that closes the iteration; the message holds
    the JSON text of the value. *)
Definition unsupported_query (fieldValue : jsval) : js_error :=
  ParseError OPERATION_FORBIDDEN
    ("Postgres doesn't support this query type yet "
     ++ to_string (JSON_stringify fieldValue)).

(** One iteration of [for (const fieldName in query)]. *)
Definition body (rec : jsval -> jsval -> nat -> result bw_out)
    (fieldName : string) (fieldValue schema : jsval) (s : bw)
  : result (bw * jsval * jsval) :=
  isArrayField <- is_array_field schema fieldName ;;
  let initialPatternsLength := List.length (patterns s) in
  fields <- get schema "fields" ;;
  declared <- get fields fieldName ;;
  skip <- (if negb (truthy declared) && truthy fieldValue
           then ex <- get fieldValue "$exists" ;; Ok (is_false ex)
           else Ok false) ;;
  if skip then Ok (s, fieldValue, schema)
  else
    ' (continue, s, fieldValue, schema) <-
      scalar_branch rec fieldName fieldValue schema s ;;
    if continue then Ok (s, fieldValue, schema)
    else
      ' (continue, s, fieldValue) <-
        ne_branch fieldName isArrayField fieldValue s ;;
      if continue then Ok (s, fieldValue, schema)
      else
        s <- eq_branch fieldName fieldValue s ;;
        s <- in_branch fieldName isArrayField schema fieldValue s ;;
        s <- all_branch fieldName isArrayField fieldValue s ;;
        s <- exists_branch fieldName fieldValue s ;;
        s <- text_branch fieldName fieldValue s ;;
        s <- nearSphere_branch fieldName fieldValue s ;;
        s <- within_branch fieldName fieldValue s ;;
        s <- geoWithin_branch fieldName fieldValue s ;;
        s <- regex_branch fieldName fieldValue s ;;
        s <- pointer_branch fieldName isArrayField fieldValue s ;;
        s <- date_branch fieldName fieldValue s ;;
        s <- geopoint_branch fieldName fieldValue s ;;
        s <- comparators ParseToPosgresComparator fieldName fieldValue s ;;
        if Nat.eqb initialPatternsLength (List.length (patterns s))
        then Throw (unsupported_query fieldValue)
        else Ok (s, fieldValue, schema).

Fixpoint loop (rec : jsval -> jsval -> nat -> result bw_out)
    (fields : list (string * jsval)) (schema : jsval) (s : bw)
  : result (bw * list (string * jsval) * jsval) :=
  match fields with
  | [] => Ok (s, [], schema)
  | (fieldName, fieldValue) :: r =>
      ' (s, fieldValue', schema) <- body rec fieldName fieldValue schema s ;;
      ' (s, r', schema) <- loop rec r schema s ;;
      Ok (s, (fieldName, fieldValue') :: r', schema)
  end.

Fixpoint bwc (fuel : nat) (schema query : jsval) (index : nat)
  : result bw_out :=
  match fuel with
  | 0 => OutOfFuel
  | S fuel' =>
      schema <- toPostgresSchema schema ;;
      ' (s, fields, schema) <-
        loop (bwc fuel') (entries query) schema
             {| patterns := []; values := []; sorts := []; index := index |} ;;
      values <- mapM transformValue (values s) ;;
      Ok {| pattern := join " AND " (patterns s);
            out_values := values;
            out_sorts := sorts s;
            schema_after := schema;
            query_after := rebuild query fields |}
  end.

(** [buildWhereClause({ schema, query, index })] of the adapter file. *)
Definition buildWhereClause (schema query : jsval) (index : nat)
  : result bw_out :=
  bwc (S (depth query)) schema query index.

End AdapterCompiler.
End Adapter.

(** ** Properties of the regex literalizer *)

Lemma str_rev_onto_app s t acc :
  str_rev_onto (s ++ t) acc = str_rev_onto t (str_rev_onto s acc).
Proof.
  revert acc. induction s as [|c r IH]; intros acc; simpl; [reflexivity|].
  apply IH.
Qed.

Lemma str_length_app s t :
  String.length (s ++ t) = String.length s + String.length t.
Proof. induction s as [|c r IH]; simpl; [reflexivity|]. now rewrite IH. Qed.

Lemma str_take_app s t : str_take (String.length s) (s ++ t) = s.
Proof. induction s as [|c r IH]; simpl; [now destruct t|]. now rewrite IH. Qed.

Lemma starts_with_caret_app s t :
  starts_with "^" s = false -> starts_with "^" t = false ->
  starts_with "^" (s ++ t) = false.
Proof. destruct s as [|c r]; simpl; trivial. Qed.

(** The unfolding equation of [literalizeRegexPart], as the source reads. *)
Lemma literalizeRegexPart_eq s :
  literalizeRegexPart s
  = match search matcher1_here s with
    | Some (i, remaining) =>
        literalizeRegexPart (str_take i s) ++ createLiteralRegex remaining
    | None =>
        match search matcher2_here s with
        | Some (i, remaining) =>
            literalizeRegexPart (str_take i s) ++ createLiteralRegex remaining
        | None => strip_markers s
        end
    end.
Proof.
  funelim (literalizeRegexPart s);
    repeat match goal with
           | e : search _ ?x = _ |- context [search _ ?x] => rewrite e
           end; reflexivity.
Qed.

(** A literal span that covers the whole pattern is escaped character by
    character. *)
Lemma literalize_quoted lit :
  no_line_terminator lit = true ->
  starts_with "\E" (lit ++ "\E") = false ->
  literalizeRegexPart ("\Q" ++ lit ++ "\E") = createLiteralRegex lit.
Proof.
  intros Hnl Hne.
  rewrite literalizeRegexPart_eq.
  assert (Hm : matcher1_here ("\Q" ++ lit ++ "\E") = Some lit).
  { unfold matcher1_here.
    change (str_drop 2 ("\Q" ++ lit ++ "\E")) with (lit ++ "\E").
    change (starts_with "\Q" ("\Q" ++ lit ++ "\E")) with true.
    rewrite Hne.
    assert (He : ends_with "\E" (lit ++ "\E") = true).
    { unfold ends_with, str_rev. rewrite str_rev_onto_app. reflexivity. }
    rewrite He.
    assert (Hl : String.length (lit ++ "\E") - 2 = String.length lit).
    { rewrite str_length_app. simpl. lia. }
    rewrite Hl, str_take_app, Hnl. reflexivity. }
  assert (Hs : search matcher1_here ("\Q" ++ lit ++ "\E") = Some (0, lit)).
  { change ("\Q" ++ lit ++ "\E") with (String backslash (String "Q" (lit ++ "\E"))) in *.
    simpl search. rewrite Hm. reflexivity. }
  rewrite Hs. reflexivity.
Qed.

(** C7 (as amended): [\Qa.b\E] becomes the pattern with the dot escaped
    and [^\Qfoo\E] the anchored literal; a leading [^] always stays in
    front of the literalized rest; a trailing [$] stays behind the
    literalized rest when the pattern does not begin with [^]; a pattern
    with neither anchor is literalized as it is, with no anchor added; and
    a literal span covering the whole pattern is escaped character by
    character. *)
Theorem processRegexPattern_anchors :
  processRegexPattern "\Qa.b\E" = "a\.b"
  /\ processRegexPattern "^\Qfoo\E" = "^foo"
  /\ (forall s, processRegexPattern ("^" ++ s) = "^" ++ literalizeRegexPart s)
  /\ (forall s, starts_with "^" s = false ->
                processRegexPattern (s ++ "$") = literalizeRegexPart s ++ "$")
  /\ (forall s, starts_with "^" s = false -> ends_with "$" s = false ->
                processRegexPattern s = literalizeRegexPart s)
  /\ (forall lit, no_line_terminator lit = true ->
                  starts_with "\E" (lit ++ "\E") = false ->
                  processRegexPattern ("\Q" ++ lit ++ "\E")
                  = createLiteralRegex lit).
Proof.
  split; [reflexivity|]. split; [reflexivity|].
  split; [intros s; reflexivity|].
  split; [|split].
  - intros s Hs. unfold processRegexPattern.
    rewrite (starts_with_caret_app s "$" Hs eq_refl).
    assert (Hne : String.eqb (s ++ "$") "" = false) by (now destruct s).
    assert (He : ends_with "$" (s ++ "$") = true).
    { unfold ends_with, str_rev. rewrite str_rev_onto_app. reflexivity. }
    rewrite Hne, He. simpl.
    assert (Hl : String.length (s ++ "$") - 1 = String.length s).
    { rewrite str_length_app. simpl. lia. }
    rewrite Hl, str_take_app. reflexivity.
  - intros s Hs He. unfold processRegexPattern. rewrite Hs, He.
    rewrite !andb_false_r. reflexivity.
  - intros lit Hnl Hne. unfold processRegexPattern.
    change (starts_with "^" ("\Q" ++ lit ++ "\E")) with false.
    assert (He : ends_with "$" ("\Q" ++ lit ++ "\E") = false).
    { unfold ends_with, str_rev.
      change ("\Q" ++ lit ++ "\E") with (("\Q" ++ lit) ++ "\E").
      rewrite str_rev_onto_app. reflexivity. }
    rewrite He, !andb_false_r. apply literalize_quoted; assumption.
Qed.

Lemma processRegexPattern_anchors_witness :
  processRegexPattern ("\Qfoo\E" ++ "$") = "foo$"
  /\ processRegexPattern "abc" = "abc"
  /\ processRegexPattern ("\Q" ++ "a+b" ++ "\E") = "a\+b".
Proof.
  destruct processRegexPattern_anchors as (_ & _ & _ & Hd & Hn & Hq).
  split; [exact (Hd "\Qfoo\E" eq_refl)|].
  split; [exact (Hn "abc" eq_refl eq_refl)|].
  exact (Hq "a+b" eq_refl eq_refl).
Defined.

(** C7 (as stated) fails: when the pattern begins with [^], a trailing
    [$] is not set aside; it is literalized with the rest. *)
Lemma trailing_anchor_literalized :
  processRegexPattern ("^\Qfoo\E" ++ "$") = "^foo\\E\$"
  /\ processRegexPattern ("^\Qfoo\E" ++ "$")
     <> "^" ++ literalizeRegexPart "\Qfoo\E" ++ "$".
Proof. split; [reflexivity|discriminate]. Qed.

(** Each recursive call of [literalizeRegexPart] is on a strictly shorter
    string. *)
Lemma literalize_prefix_shorter s i remaining :
  search matcher1_here s = Some (i, remaining)
  \/ search matcher2_here s = Some (i, remaining) ->
  String.length (str_take i s) < String.length s.
Proof.
  intros [E|E]; apply search_index_lt in E;
    try (rewrite str_take_length; lia);
    first [exact matcher1_here_nonempty | exact matcher2_here_nonempty].
Qed.

(** ** Properties of the token scanner *)

Arguments tok : simpl never.

Definition starts_non_digit (s : string) : bool :=
  match s with
  | EmptyString => true
  | String c _ => negb (is_digit c)
  end.

Lemma scan_app st a b :
  starts_non_digit b = true ->
  scan st (a ++ b) = (scan st a ++ scan Idle b)%list.
Proof.
  intros Hb. revert st.
  induction a as [|c r IH]; intros st.
  - destruct b as [|c r]; simpl.
    + now rewrite app_nil_r.
    + simpl in Hb. apply negb_true_iff in Hb. now rewrite Hb.
  - simpl. destruct (is_digit c).
    + destruct st; apply IH.
    + rewrite <- app_assoc. f_equal. destruct (Ascii.eqb c "$"); apply IH.
Qed.

Lemma scan_digits_of_uint d acc rest :
  scan (Digits acc) (NilEmpty.string_of_uint d ++ rest)
  = scan (Digits (Nat.of_uint_acc d acc)) rest.
Proof.
  revert acc. induction d; intros acc; simpl NilEmpty.string_of_uint;
    [reflexivity|..];
    cbn [String.append scan];
    match goal with
    | |- context [is_digit ?c] => change (is_digit c) with true
    end;
    match goal with
    | |- context [digit_value ?c] =>
        let v := eval compute in (digit_value c) in
        change (digit_value c) with v
    end;
    cbv iota; rewrite IHd; simpl Nat.of_uint_acc; rewrite Nat.tail_mul_spec;
    do 3 f_equal; lia.
Qed.

Lemma to_uint_not_nil n : Nat.to_uint n <> Decimal.Nil.
Proof.
  intros E. assert (Hn : n = 0).
  { rewrite <- (Unsigned.of_to n), E. reflexivity. }
  subst n. discriminate E.
Qed.

Lemma scan_show_nat n rest :
  scan Dollar (show_nat n ++ rest) = scan (Digits n) rest.
Proof.
  unfold show_nat.
  rewrite <- (Unsigned.of_to n) at 2.
  destruct (Nat.to_uint n) eqn:E;
    [exfalso; exact (to_uint_not_nil n E)|..];
    simpl NilEmpty.string_of_uint;
    cbn [String.append scan];
    match goal with
    | |- context [is_digit ?c] => change (is_digit c) with true
    end;
    cbv iota; rewrite scan_digits_of_uint; reflexivity.
Qed.

Lemma str_app_assoc (a b c : string) : (a ++ b) ++ c = a ++ b ++ c.
Proof. induction a as [|x r IH]; simpl; [reflexivity|]. now rewrite IH. Qed.

Lemma str_app_nil_r (a : string) : a ++ "" = a.
Proof. induction a as [|x r IH]; simpl; [reflexivity|]. now rewrite IH. Qed.

(** A token written by the templates is read back as its index. *)
Lemma tokens_tok i rest :
  scan Idle (tok i ++ rest) = i :: scan Idle rest.
Proof.
  unfold tok.
  change (("$" ++ show_nat i ++ ":name") ++ rest)
    with (String "$" ((show_nat i ++ ":name") ++ rest)).
  cbn [scan]. change (is_digit "$") with false.
  change (Ascii.eqb "$" "$") with true. cbv iota. simpl flush. simpl app.
  rewrite str_app_assoc, scan_show_nat. reflexivity.
Qed.

Lemma tokens_tok_end i : scan Idle (tok i) = [i].
Proof.
  rewrite <- (str_app_nil_r (tok i)). apply tokens_tok.
Qed.

Fixpoint no_dollar (s : string) : bool :=
  match s with
  | EmptyString => true
  | String c r => negb (Ascii.eqb c "$") && no_dollar r
  end.

(** Text without a dollar sign holds no token. *)
Lemma scan_lit (l x : string) :
  no_dollar l = true -> scan Idle (l ++ x) = scan Idle x.
Proof.
  induction l as [|c r IH]; simpl; [reflexivity|].
  intros Hc. apply andb_true_iff in Hc. destruct Hc as [Hc Hr].
  apply negb_true_iff in Hc. rewrite Hc.
  destruct (is_digit c); simpl; auto.
Qed.

Lemma scan_lit_end (l : string) : no_dollar l = true -> scan Idle l = [].
Proof.
  intros Hl. rewrite <- (str_app_nil_r l). rewrite scan_lit by exact Hl.
  reflexivity.
Qed.

Ltac toks :=
  unfold tokens;
  repeat first
    [ rewrite tokens_tok
    | rewrite tokens_tok_end
    | rewrite scan_lit by reflexivity
    | rewrite scan_lit_end by reflexivity
    | rewrite str_app_assoc ].

Example tokens_ne_pattern i :
  tokens ("(`" ++ tok i ++ "` <> '" ++ tok (i + 1) ++ "' OR `" ++ tok i
          ++ "` IS NULL)") = [i; i + 1; i].
Proof. toks. reflexivity. Qed.

(** *** Indices in the order of their first occurrence *)

Lemma filter_all (f : nat -> bool) (l : list nat) :
  (forall y, In y l -> f y = true) -> filter f l = l.
Proof.
  induction l as [|x r IH]; simpl; intros Hf; [reflexivity|].
  rewrite (Hf x) by tauto. f_equal. apply IH. intros y Hy. apply Hf. tauto.
Qed.

Lemma filter_comm (f g : nat -> bool) (l : list nat) :
  filter f (filter g l) = filter g (filter f l).
Proof.
  induction l as [|x r IH]; simpl; [reflexivity|].
  destruct (g x) eqn:Eg, (f x) eqn:Ef; simpl; rewrite ?Eg, ?Ef, IH; reflexivity.
Qed.

Lemma walk_le s k t n : walk s k t n -> k <= n.
Proof.
  revert k. induction t as [|x r IH]; simpl; intros k Hw; [lia|].
  destruct Hw as [[_ Hw]|[_ Hw]]; apply IH in Hw; lia.
Qed.

Lemma walk_app s k t1 m t2 n :
  walk s k t1 m -> walk s m t2 n -> walk s k (t1 ++ t2) n.
Proof.
  revert k. induction t1 as [|x r IH]; simpl; intros k H1 H2.
  - subst. exact H2.
  - destruct H1 as [[Hx H1]|[Hx H1]]; [left|right]; split; auto.
Qed.

(** A walk from the running index of a recursive call is a walk of the
    caller. *)
Lemma walk_shift s k j t n :
  walk (s + k) j t n -> walk s (k + j) t (k + n).
Proof.
  revert j. induction t as [|x r IH]; simpl; intros j Hw; [lia|].
  destruct Hw as [[Hx Hw]|[Hx Hw]]; [left|right]; split; try lia.
  - exact (IH _ Hw).
  - specialize (IH _ Hw). now rewrite Nat.add_succ_r in IH.
Qed.

Lemma walk_filter s k t n :
  walk s k t n ->
  filter (fun y => negb (Nat.ltb y (s + k))) (dedup t) = seq (s + k) (n - k).
Proof.
  revert k. induction t as [|x r IH]; simpl; intros k Hw.
  - subst. now rewrite Nat.sub_diag.
  - destruct Hw as [[Hx Hw]|[Hx Hw]].
    + assert (Hlt : Nat.ltb x (s + k) = true) by (apply Nat.ltb_lt; lia).
      rewrite Hlt. simpl. rewrite filter_comm, (IH _ Hw).
      apply filter_all. intros y Hy. apply in_seq in Hy.
      apply negb_true_iff, Nat.eqb_neq. lia.
    + assert (Hlt : Nat.ltb x (s + k) = false) by (apply Nat.ltb_ge; lia).
      rewrite Hlt. simpl.
      pose proof (walk_le _ _ _ _ Hw) as Hle.
      replace (n - k) with (S (n - S k)) by lia. simpl. subst x. f_equal.
      rewrite <- Nat.add_succ_r, <- (IH _ Hw).
      rewrite filter_comm.
      assert (Hall : forall l,
                 filter (fun y => negb (Nat.ltb y (s + k)))
                        (filter (fun y => negb (Nat.eqb y (s + k))) l)
                 = filter (fun y => negb (Nat.ltb y (s + S k))) l).
      { intros l. induction l as [|y l IHl]; simpl; [reflexivity|].
        destruct (Nat.eqb y (s + k)) eqn:E1; simpl.
        - apply Nat.eqb_eq in E1.
          assert (E2 : Nat.ltb y (s + S k) = true) by (apply Nat.ltb_lt; lia).
          now rewrite E2.
        - apply Nat.eqb_neq in E1.
          destruct (Nat.ltb y (s + k)) eqn:E3.
          + apply Nat.ltb_lt in E3.
            assert (E2 : Nat.ltb y (s + S k) = true) by (apply Nat.ltb_lt; lia).
            now rewrite E2.
          + apply Nat.ltb_ge in E3.
            assert (E2 : Nat.ltb y (s + S k) = false) by (apply Nat.ltb_ge; lia).
            rewrite E2. simpl. now rewrite IHl. }
      rewrite <- Hall, filter_comm. reflexivity.
Qed.

(** A walk from nothing seen lists each index once in ascending order
    when repetitions are dropped. *)
Lemma walk_dedup s t n : walk s 0 t n -> dedup t = seq s n.
Proof.
  intros Hw. pose proof (walk_filter _ _ _ _ Hw) as Hf.
  rewrite Nat.add_0_r, Nat.sub_0_r in Hf. rewrite <- Hf.
  symmetry. apply filter_all. intros y Hy.
  apply negb_true_iff, Nat.ltb_ge.
  clear Hf. revert Hy. generalize 0 as k. intros k.
  assert (Hge : forall l k, walk s k l n -> forall y, In y l -> s <= y).
  { clear. induction l as [|x r IH]; simpl; intros k Hw y Hy; [contradiction|].
    destruct Hw as [[Hx Hw]|[Hx Hw]], Hy as [<-|Hy]; try lia;
      exact (IH _ Hw _ Hy). }
  intros Hy.
  assert (Hin : forall l, In y (dedup l) -> In y l).
  { clear. induction l as [|x r IH]; simpl; [tauto|].
    intros [->|Hy]; [tauto|]. apply filter_In in Hy. right. tauto. }
  exact (Hge _ _ Hw _ (Hin _ Hy)).
Qed.

(** ** Properties *)

Section Properties.
Context `{JsNumber} `{!ParseSDK}.

(** *** Association lists *)

Lemma assoc_del_same k (kvs : list (string * jsval)) :
  assoc k (assoc_del k kvs) = None.
Proof.
  unfold assoc_del. induction kvs as [|[k' v] r IH]; simpl; [reflexivity|].
  destruct (String.eqb k k') eqn:E; simpl; [exact IH|].
  rewrite E. exact IH.
Qed.

Lemma assoc_del_other k k' (kvs : list (string * jsval)) :
  String.eqb k' k = false ->
  assoc k' (assoc_del k kvs) = assoc k' kvs.
Proof.
  intros Hk. unfold assoc_del.
  induction kvs as [|[k0 v] r IH]; simpl; [reflexivity|].
  destruct (String.eqb k k0) eqn:E; simpl.
  - apply String.eqb_eq in E. subst k0. rewrite Hk. exact IH.
  - destruct (String.eqb k' k0); [reflexivity|exact IH].
Qed.

Lemma assoc_set_same k v (kvs : list (string * jsval)) :
  assoc k (assoc_set k v kvs) = Some v.
Proof.
  induction kvs as [|[k' v'] r IH]; simpl.
  - rewrite String.eqb_refl. reflexivity.
  - destruct (String.eqb k k') eqn:E; simpl; rewrite E; [reflexivity|exact IH].
Qed.

Lemma assoc_set_other k k' v (kvs : list (string * jsval)) :
  String.eqb k' k = false ->
  assoc k' (assoc_set k v kvs) = assoc k' kvs.
Proof.
  intros Hk. induction kvs as [|[k0 v0] r IH]; simpl.
  - rewrite Hk. reflexivity.
  - destruct (String.eqb k k0) eqn:E; simpl.
    + apply String.eqb_eq in E. subst k0. rewrite Hk. reflexivity.
    + destruct (String.eqb k' k0); [reflexivity|exact IH].
Qed.

Lemma assoc_not_in k (kvs : list (string * jsval)) :
  ~ In k (map fst kvs) -> assoc k kvs = None.
Proof.
  induction kvs as [|[k' v] r IH]; simpl; [reflexivity|].
  intros Hn. destruct (String.eqb k k') eqn:E.
  - apply String.eqb_eq in E. subst. tauto.
  - apply IH. tauto.
Qed.

(** Spreading a map without repeated keys over a base: the spread map
    wins key by key. *)
Lemma spread_assoc a (m base : list (string * jsval)) :
  NoDup (map fst m) ->
  assoc a (spread base (JObj m))
  = match assoc a m with Some v => Some v | None => assoc a base end.
Proof.
  unfold spread. simpl. revert base.
  induction m as [|[k v] r IH]; intros base Hnd; simpl; [reflexivity|].
  inversion Hnd as [|? ? Hk Hr]; subst.
  rewrite IH by exact Hr.
  destruct (String.eqb a k) eqn:E.
  - apply String.eqb_eq in E. subst a.
    rewrite (assoc_not_in _ _ Hk). apply assoc_set_same.
  - destruct (assoc a r); [reflexivity|].
    apply assoc_set_other. exact E.
Qed.

(** *** Inversion of the error monad *)

Lemma bind_ok {A B} (m : result A) (k : A -> result B) (b : B) :
  bind m k = Ok b -> exists a, m = Ok a /\ k a = Ok b.
Proof. destruct m; simpl; intros E; try discriminate. eauto. Qed.

Lemma Ok_inj {A} (a b : A) : Ok a = Ok b -> a = b.
Proof. intros E. now injection E. Qed.

Lemma pair_inj {A B} (a a' : A) (b b' : B) :
  (a, b) = (a', b') -> a = a' /\ b = b'.
Proof. intros E. now injection E. Qed.

Ltac inv_ok :=
  repeat match goal with
         | H : false = true |- _ => discriminate H
         | H : true = false |- _ => discriminate H
         | H : Ok _ = Ok _ |- _ => apply Ok_inj in H
         | H : (_, _) = (_, _) |- _ =>
             apply pair_inj in H; destruct H as [? ?]
         | H : _ = ?y |- _ => is_var y; subst y
         | H : ?x = _ |- _ => is_var x; subst x
         | H : Throw _ = Ok _ |- _ => discriminate H
         | H : OutOfFuel = Ok _ |- _ => discriminate H
         | H : Unmodelled = Ok _ |- _ => discriminate H
         | H : bind _ _ = Ok _ |- _ =>
             let a := fresh "a" in
             let E := fresh "E" in
             apply bind_ok in H; destruct H as (a & E & H); cbv beta in H
         | H : (if ?b then _ else _) = Ok _ |- _ => destruct b eqn:?
         | H : match ?x with _ => _ end = Ok _ |- _ => destruct x eqn:?
         end.

Lemma mapM_length {A B} (f : A -> result B) (l : list A) (l' : list B) :
  mapM f l = Ok l' -> List.length l' = List.length l.
Proof.
  revert l'. induction l as [|x r IH]; simpl; intros l' E; inv_ok;
    [reflexivity|]. simpl. f_equal. apply IH. assumption.
Qed.

(** *** The bookkeeping invariant, branch by branch *)

Ltac walk_solve :=
  repeat (cbn [walk];
          first [ lia | left; split; [lia|] | right; split; [lia|] ]).

Lemma all_tokens_snoc (s : bw) (p : string) vs n :
  all_tokens (emit p vs n s) = (all_tokens s ++ tokens p)%list.
Proof.
  unfold all_tokens, emit, snoc. simpl.
  rewrite map_app, concat_app. simpl. now rewrite app_nil_r.
Qed.

Lemma Inv_emit s0 (s : bw) (p : string) (vs : list jsval) n :
  Inv s0 s ->
  List.length vs = n ->
  walk s0 (List.length (values s)) (tokens p) (List.length (values s) + n) ->
  Inv s0 (emit p vs n s).
Proof.
  intros [Hw Hi] Hn Hp. split.
  - rewrite all_tokens_snoc. simpl values. rewrite length_app, Hn.
    exact (walk_app _ _ _ _ _ _ Hw Hp).
  - simpl. rewrite length_app. lia.
Qed.

Lemma Inv_push_sort s0 (s : bw) p : Inv s0 s -> Inv s0 (push_sort p s).
Proof. intros [Hw Hi]. split; assumption. Qed.

(** Closes the goal left by [Inv_emit] for a template with a fixed number
    of tokens. *)
Ltac emit_ok :=
  match goal with
  | HI : Inv _ ?s |- Inv _ (emit _ _ _ ?s) =>
      let Hw := fresh "Hw" in
      let Hi := fresh "Hi" in
      apply Inv_emit; [exact HI | reflexivity |];
      destruct HI as [Hw Hi]; cbn [push_sort values index] in *;
      toks; rewrite ?Hi; solve [walk_solve]
  end.

Lemma eq_branch_inv s0 f fv s s' :
  eq_branch f fv s = Ok s' -> Inv s0 s -> Inv s0 s'.
Proof. unfold eq_branch. intros E HI. inv_ok; trivial; emit_ok. Qed.

Lemma ne_branch_inv s0 f b fv s c s' fv' :
  ne_branch f b fv s = Ok (c, s', fv') -> Inv s0 s -> Inv s0 s'.
Proof. unfold ne_branch. intros E HI. inv_ok; trivial; emit_ok. Qed.

Lemma all_branch_inv s0 f b fv s s' :
  all_branch f b fv s = Ok s' -> Inv s0 s -> Inv s0 s'.
Proof. unfold all_branch. intros E HI. inv_ok; trivial; emit_ok. Qed.

Lemma exists_branch_inv s0 f fv s s' :
  exists_branch f fv s = Ok s' -> Inv s0 s -> Inv s0 s'.
Proof. unfold exists_branch. intros E HI. inv_ok; trivial; emit_ok. Qed.

Lemma text_branch_inv s0 f fv s s' :
  text_branch f fv s = Ok s' -> Inv s0 s -> Inv s0 s'.
Proof. unfold text_branch. intros E HI. inv_ok; trivial; emit_ok. Qed.

Lemma nearSphere_branch_inv s0 f fv s s' :
  nearSphere_branch f fv s = Ok s' -> Inv s0 s -> Inv s0 s'.
Proof.
  unfold nearSphere_branch. intros E HI. inv_ok; trivial;
    apply (Inv_push_sort _ _ (distance_sphere (index s) ++ " ASC")) in HI;
    unfold distance_sphere; emit_ok.
Qed.

Lemma within_branch_inv s0 f fv s s' :
  within_branch f fv s = Ok s' -> Inv s0 s -> Inv s0 s'.
Proof.
  unfold within_branch. intros E HI. inv_ok; trivial;
    unfold mbr_covers; emit_ok.
Qed.

Lemma geoWithin_branch_inv s0 f fv s s' fv' :
  geoWithin_branch f fv s = Ok (s', fv') -> Inv s0 s -> Inv s0 s'.
Proof.
  unfold geoWithin_branch, bad_json. intros E HI. inv_ok; trivial;
    unfold mbr_covers; emit_ok.
Qed.

Lemma regex_branch_inv s0 f fv s s' :
  regex_branch f fv s = Ok s' -> Inv s0 s -> Inv s0 s'.
Proof. unfold regex_branch. intros E HI. inv_ok; trivial; emit_ok. Qed.

Lemma pointer_branch_inv s0 f b fv s s' :
  pointer_branch f b fv s = Ok s' -> Inv s0 s -> Inv s0 s'.
Proof. unfold pointer_branch. intros E HI. inv_ok; trivial; emit_ok. Qed.

Lemma date_branch_inv s0 f fv s s' :
  date_branch f fv s = Ok s' -> Inv s0 s -> Inv s0 s'.
Proof. unfold date_branch. intros E HI. inv_ok; trivial; emit_ok. Qed.

Lemma geopoint_branch_inv s0 f fv s s' :
  geopoint_branch f fv s = Ok s' -> Inv s0 s -> Inv s0 s'.
Proof. unfold geopoint_branch. intros E HI. inv_ok; trivial; emit_ok. Qed.

Lemma comparators_inv s0 cmps f fv s s' :
  Forall (fun c => no_dollar (snd c) = true) cmps ->
  comparators cmps f fv s = Ok s' -> Inv s0 s -> Inv s0 s'.
Proof.
  intros Hc. revert s. induction Hc as [|[cmp op] r Hop Hr IH];
    intros s E HI; cbn [comparators] in E; inv_ok; eauto.
  apply (IH _ E). apply Inv_emit; [exact HI | reflexivity |].
  destruct HI as [Hw Hi]. unfold tokens.
  rewrite scan_lit by reflexivity. rewrite tokens_tok.
  rewrite scan_lit by reflexivity. rewrite scan_lit by exact Hop.
  rewrite scan_lit by reflexivity. rewrite tokens_tok.
  rewrite scan_lit_end by reflexivity. rewrite Hi. walk_solve.
Qed.

(** The tokens of a joined list are the tokens of its elements. *)
Lemma tokens_join_map {A} (c : ascii) (sep : string) (g : A -> string)
    (h : A -> list nat) (l : list A) :
  is_digit c = false -> no_dollar (String c sep) = true ->
  (forall x, tokens (g x) = h x) ->
  tokens (join (String c sep) (map g l)) = concat (map h l).
Proof.
  intros Hc Hs Hg. induction l as [|x r IH]; [reflexivity|].
  destruct r as [|y r'].
  - simpl. rewrite Hg. now rewrite app_nil_r.
  - change (join (String c sep) (map g (x :: y :: r')))
      with (g x ++ String c sep ++ join (String c sep) (map g (y :: r'))).
    unfold tokens in *. rewrite scan_app by (simpl; now rewrite Hc).
    rewrite scan_lit by exact Hs. rewrite IH, Hg. reflexivity.
Qed.

Lemma tokens_join (c : ascii) (sep : string) (l : list string) :
  is_digit c = false -> no_dollar (String c sep) = true ->
  tokens (join (String c sep) l) = concat (map tokens l).
Proof.
  intros Hc Hs.
  rewrite <- (map_id l) at 1.
  apply tokens_join_map; auto.
Qed.

(** The tokens of a list of containment tests on the column [i]. *)
Definition pair_tokens (i a n : nat) : list nat :=
  concat (map (fun li => [i; i + 1 + li]) (seq a n)).

Lemma walk_pair_tokens s0 k n a :
  walk s0 (k + 1 + a) (pair_tokens (s0 + k) a n) (k + 1 + a + n).
Proof.
  revert a. induction n as [|n IH]; intros a; unfold pair_tokens; simpl.
  - lia.
  - left. split; [lia|]. right. split; [lia|].
    specialize (IH (S a)). unfold pair_tokens in IH.
    replace (S (k + 1 + a)) with (k + 1 + S a) by lia.
    replace (k + 1 + a + S n) with (k + 1 + S a + n) by lia.
    exact IH.
Qed.

Lemma pair_tokens_snoc i n :
  pair_tokens i 0 (S n) = (pair_tokens i 0 n ++ [i; i + 1 + n])%list.
Proof.
  unfold pair_tokens. rewrite seq_S, map_app, concat_app. simpl.
  reflexivity.
Qed.

Lemma in_string_array_tokens i elems li (an : bool) vals pats an' vals' pats' :
  li = List.length pats + (if an then 1 else 0) ->
  count_nulls elems + (if an then 1 else 0) <= 1 ->
  concat (map tokens pats) = pair_tokens i 0 (List.length pats) ->
  in_string_array i elems li an vals pats = (an', vals', pats') ->
  concat (map tokens pats') = pair_tokens i 0 (List.length pats')
  /\ List.length vals' + List.length pats
     = List.length vals + List.length pats'.
Proof.
  revert li an vals pats.
  induction elems as [|e r IH]; intros li an vals pats Hli Hn Hp E;
    cbn [in_string_array] in E.
  - apply pair_inj in E. destruct E as [E <-]. apply pair_inj in E.
    destruct E as [_ <-]. split; [exact Hp|lia].
  - unfold count_nulls in Hn. cbn [filter] in Hn.
    destruct (is_null e) eqn:En.
    + simpl in Hn. destruct an; [lia|].
      eapply IH; cycle 3.
      * exact E.
      * simpl in *; lia.
      * unfold count_nulls; simpl; lia.
      * exact Hp.
    + apply IH in E.
      * unfold snoc in E. rewrite !length_app in E. simpl in E.
        destruct E as [E1 E2]. split; [exact E1|lia].
      * unfold snoc. rewrite length_app. simpl. lia.
      * exact Hn.
      * unfold snoc. rewrite map_app, concat_app, length_app, Hp.
        cbn [List.length map concat].
        replace (List.length pats + 1) with (S (List.length pats)) by lia.
        rewrite pair_tokens_snoc. f_equal.
        rewrite app_nil_r. toks.
        replace (i + 1 + li - (if an then 1 else 0))
          with (i + 1 + List.length pats) by (destruct an; lia).
        reflexivity.
Qed.

Lemma createConstraint_inv s0 f b baseArray notIn s :
  Inv s0 s -> Inv s0 (createConstraint f b baseArray notIn s).
Proof.
  intros HI. unfold createConstraint.
  destruct (Nat.ltb 0 (List.length baseArray)) eqn:En.
  - apply Nat.ltb_lt in En.
    destruct b.
    + apply Inv_emit; [exact HI | simpl; now rewrite length_map |].
      destruct HI as [Hw Hi].
      rewrite (tokens_join_map " " "|| " _
                 (fun li => [index s; index s + 1 + li])).
      * destruct (List.length baseArray) as [|n]; [lia|].
        change (concat (map (fun li => [index s; index s + 1 + li])
                            (seq 0 (S n))))
          with ([index s; index s + 1 + 0] ++ pair_tokens (index s) 1 n)%list.
        rewrite Hi.
        apply (walk_app _ _ _ (List.length (values s) + 1 + 1)).
        -- walk_solve.
        -- pose proof (walk_pair_tokens s0 (List.length (values s)) n 1) as Hp.
           replace (List.length (values s) + (1 + S n))
             with (List.length (values s) + 1 + 1 + n) by lia.
           exact Hp.
      * reflexivity.
      * reflexivity.
      * intros li. destruct notIn; toks; reflexivity.
    + apply Inv_emit; [exact HI | reflexivity |].
      destruct HI as [Hw Hi].
      assert (Ht : tokens ("`" ++ tok (index s) ++ "` "
                           ++ (if notIn then " NOT " else "") ++ " IN ("
                           ++ join "," (map (fun listIndex =>
                                               "'" ++ tok (index s + 1 + listIndex)
                                               ++ "'")
                                            (seq 0 (List.length baseArray)))
                           ++ ")")
                   = index s :: map (fun li => index s + 1 + li)
                                    (seq 0 (List.length baseArray))).
      { unfold tokens. rewrite scan_lit by reflexivity. rewrite tokens_tok.
        rewrite scan_lit by reflexivity.
        rewrite scan_lit by (destruct notIn; reflexivity).
        rewrite scan_lit by reflexivity.
        rewrite scan_app by reflexivity.
        rewrite (scan_lit_end ")") by reflexivity. rewrite app_nil_r.
        f_equal.
        change (scan Idle ?x) with (tokens x).
        rewrite (tokens_join_map "," "" _ (fun li => [index s + 1 + li]));
          [| reflexivity | reflexivity | intros li; toks; reflexivity].
        generalize (seq 0 (List.length baseArray)). intros l.
        induction l as [|x r IHl]; simpl; [reflexivity|]. now rewrite IHl. }
      rewrite Ht, Hi. cbn [walk]. right. split; [lia|].
      generalize (List.length baseArray). intros n.
      assert (Hrun : forall n a,
                 walk s0 (List.length (values s) + 1 + a)
                      (map (fun li => s0 + List.length (values s) + 1 + li)
                           (seq a n))
                      (List.length (values s) + 1 + a + n)).
      { clear. induction n as [|n IH]; intros a; simpl; [lia|].
        right. split; [lia|]. specialize (IH (S a)).
        replace (S (List.length (values s) + 1 + a))
          with (List.length (values s) + 1 + S a) by lia.
        replace (List.length (values s) + 1 + a + S n)
          with (List.length (values s) + 1 + S a + n) by lia.
        exact IH. }
      specialize (Hrun n 0).
      replace (S (List.length (values s)))
        with (List.length (values s) + 1 + 0) by lia.
      replace (List.length (values s) + (1 + n))
        with (List.length (values s) + 1 + 0 + n) by lia.
      exact Hrun.
  - destruct notIn; cbn [negb]; [exact HI|]. emit_ok.
Qed.

Lemma Inv_push s0 (s : bw) (p : string) (vs : list jsval) idx :
  Inv s0 s ->
  idx = index s + List.length vs ->
  walk s0 (List.length (values s)) (tokens p)
       (List.length (values s) + List.length vs) ->
  Inv s0 {| patterns := snoc (patterns s) p;
            values := (values s ++ vs)%list;
            sorts := sorts s;
            index := idx |}.
Proof.
  intros HI -> Hp.
  exact (Inv_emit s0 s p vs (List.length vs) HI eq_refl Hp).
Qed.

(** What the [$in] branch needs of the value of a field. *)
Definition in_ok (fv : jsval) : Prop :=
  forall vin, get fv "$in" = Ok vin -> at_most_one_null vin = true.

Lemma in_string_array_inv s0 f elems (s : bw) :
  Inv s0 s -> count_nulls elems <= 1 ->
  match in_string_array (index s) elems 0 false [JStr f] [] with
  | (allowNull, vals, inPatterns) =>
      Inv s0 {| patterns :=
                  snoc (patterns s)
                    (if allowNull
                     then "(`" ++ tok (index s) ++ "` IS NULL OR "
                          ++ join " OR " inPatterns ++ ")"
                     else "`" ++ tok (index s) ++ "` && "
                          ++ join " OR " inPatterns);
                values := (values s ++ vals)%list;
                sorts := sorts s;
                index := index s + 1 + List.length inPatterns |}
  end.
Proof.
  intros HI Hn.
  destruct (in_string_array (index s) elems 0 false [JStr f] [])
    as [[allowNull vals] pats] eqn:E.
  apply in_string_array_tokens in E;
    [ | reflexivity | change (count_nulls elems + 0 <= 1); lia | reflexivity ].
  destruct E as [Et El]. simpl in El.
  apply Inv_push; [exact HI | lia |].
  destruct HI as [Hw Hi].
  assert (Ht : tokens (if allowNull
                       then "(`" ++ tok (index s) ++ "` IS NULL OR "
                            ++ join " OR " pats ++ ")"
                       else "`" ++ tok (index s) ++ "` && "
                            ++ join " OR " pats)
               = index s :: pair_tokens (index s) 0 (List.length pats)).
  { rewrite <- Et, <- (tokens_join " " "OR ") by reflexivity.
    unfold tokens. destruct allowNull.
    - rewrite scan_lit by reflexivity. rewrite tokens_tok.
      rewrite scan_lit by reflexivity. rewrite scan_app by reflexivity.
      rewrite (scan_lit_end ")") by reflexivity. now rewrite app_nil_r.
    - rewrite scan_lit by reflexivity. rewrite tokens_tok.
      rewrite scan_lit by reflexivity. reflexivity. }
  rewrite Ht, Hi. cbn [walk]. right. split; [lia|].
  pose proof (walk_pair_tokens s0 (List.length (values s))
                (List.length pats) 0) as Hp.
  replace (S (List.length (values s)))
    with (List.length (values s) + 1 + 0) by lia.
  replace (List.length (values s) + List.length vals)
    with (List.length (values s) + 1 + 0 + List.length pats) by lia.
  exact Hp.
Qed.

Lemma in_branch_inv s0 f b schema fv s s' :
  in_ok fv ->
  in_branch f b schema fv s = Ok s' -> Inv s0 s -> Inv s0 s'.
Proof.
  unfold in_branch. intros Hin E HI. inv_ok; trivial.
  all: try match goal with
           | Hg : get _ "$in" = Ok (JArr ?elems),
             Hp : in_string_array _ ?elems _ _ _ _ = _ |- _ =>
               specialize (Hin _ Hg); unfold at_most_one_null in Hin;
               apply Nat.leb_le in Hin;
               pose proof (in_string_array_inv s0 f elems s HI Hin) as X;
               rewrite Hp in X; exact X
           end.
  all: repeat match goal with
              | |- context [truthy ?v] => destruct (truthy v)
              end;
    repeat apply createConstraint_inv; exact HI.
Qed.

Lemma sub_clauses_walk rec schema subs i clauses clauseValues i' schema' subs' :
  (forall sch q j out,
      In q subs -> rec sch q j = Ok out ->
      walk j 0 (tokens (pattern out)) (List.length (out_values out))) ->
  sub_clauses rec schema subs i
  = Ok (clauses, clauseValues, i', schema', subs') ->
  walk i 0 (concat (map tokens clauses)) (List.length clauseValues)
  /\ i' = i + List.length clauseValues.
Proof.
  revert schema i clauses clauseValues i' schema' subs'.
  induction subs as [|q r IH];
    intros schema i clauses clauseValues i' schema' subs' Hrec E;
    cbn [sub_clauses] in E.
  - inv_ok. simpl. split; [reflexivity|lia].
  - apply bind_ok in E. destruct E as (c & Ec & E). cbv beta zeta in E.
    apply bind_ok in E. destruct E as ([[[[cls cvs] j] sch] r'] & Er & E).
    apply Ok_inj in E.
    apply IH in Er; [|intros; eapply Hrec; eauto; now right].
    destruct Er as [Hw Hj].
    apply Hrec in Ec; [|now left].
    destruct (Nat.ltb 0 (String.length (pattern c)));
      repeat (apply pair_inj in E; destruct E as [E ?]); subst.
    + split; [|rewrite length_app; lia].
      simpl. rewrite length_app.
      apply (walk_app _ _ _ _ _ _ Ec).
      pose proof (walk_shift i (List.length (out_values c)) 0 _ _ Hw) as Hs.
      now rewrite Nat.add_0_r in Hs.
    + split; [exact Hw|reflexivity].
Qed.

Lemma show_nat_no_dot n : includes "." (show_nat n) = false.
Proof.
  unfold includes, show_nat.
  assert (Hd : forall d, index_of "." (NilEmpty.string_of_uint d) = None).
  { induction d; simpl; try rewrite IHd; reflexivity. }
  now rewrite Hd.
Qed.

Lemma indexed_from_keys {A} (l : list A) i k v :
  In (k, v) (indexed_from i l) -> (exists n, k = show_nat n) /\ In v l.
Proof.
  revert i. induction l as [|x r IH]; simpl; intros i; [tauto|].
  intros [E|Hin].
  - apply pair_inj in E. destruct E as [<- <-]. eauto.
  - apply IH in Hin. destruct Hin as [Hk Hv]. eauto.
Qed.

Lemma entries_regular q k v :
  regular q = true -> In (k, v) (entries q) ->
  includes "." k = false /\ regular v = true.
Proof.
  destruct q; simpl; try tauto.
  - intros _ Hin. apply indexed_from_keys in Hin.
    destruct Hin as [[n ->] Hv]. split; [apply show_nat_no_dot|].
    apply in_map_iff in Hv. destruct Hv as (c & <- & _). reflexivity.
  - intros Hr Hin. apply indexed_from_keys in Hin.
    destruct Hin as [[n ->] Hv]. split; [apply show_nat_no_dot|].
    rewrite forallb_forall in Hr. auto.
  - intros Hr Hin. apply andb_true_iff in Hr. destruct Hr as [Hr _].
    rewrite forallb_forall in Hr. specialize (Hr _ Hin). simpl in Hr.
    apply andb_true_iff in Hr. destruct Hr as [Hk Hv].
    apply negb_true_iff in Hk. tauto.
Qed.

Lemma regular_in_ok fv : regular fv = true -> in_ok fv.
Proof.
  intros Hr vin. destruct fv; simpl; try discriminate; intros E;
    apply Ok_inj in E; subst; try reflexivity.
  simpl in Hr. apply andb_true_iff in Hr. destruct Hr as [_ Hr].
  exact Hr.
Qed.

(** What the invariant asks of the recursive calls. *)
Definition rec_walks (rec : jsval -> jsval -> nat -> result bw_out) : Prop :=
  forall sch q j out,
    regular q = true -> rec sch q j = Ok out ->
    walk j 0 (tokens (pattern out)) (List.length (out_values out)).

Lemma scalar_branch_inv s0 rec f fv schema s c s' fv' schema' :
  rec_walks rec ->
  includes "." f = false -> regular fv = true ->
  scalar_branch rec f fv schema s = Ok (c, s', fv', schema') ->
  Inv s0 s -> Inv s0 s' /\ in_ok fv'.
Proof.
  intros Hrec Hdot Hr E HI. unfold scalar_branch in E. rewrite Hdot in E.
  pose proof (regular_in_ok _ Hr) as Hin.
  destruct fv; inv_ok; try (split; [first [exact HI | emit_ok]|exact Hin]).
  match goal with
  | E : sub_clauses _ _ _ _ = Ok _ |- _ =>
      apply sub_clauses_walk in E;
      [ destruct E as [Hw Hi]
      | intros sch q jj o Hq Hrq; apply (Hrec sch q jj o); [|exact Hrq];
        simpl in Hr; rewrite forallb_forall in Hr; auto ]
  end.
  split; [|intros vin Hg; simpl in Hg; apply Ok_inj in Hg; now subst].
  apply Inv_push; [exact HI | destruct HI; lia |].
  destruct HI as [_ Hidx]. rewrite Hidx in Hw.
  match goal with
  | |- walk _ _ (tokens ("(" ++ join ?sep ?cl ++ ")")) _ =>
      replace (tokens ("(" ++ join sep cl ++ ")"))
        with (concat (map tokens cl))
  end.
  - pose proof (walk_shift s0 (List.length (values s)) 0 _ _ Hw) as Hs.
    now rewrite Nat.add_0_r in Hs.
  - unfold tokens at 2. rewrite scan_lit by reflexivity.
    rewrite scan_app by reflexivity.
    rewrite (scan_lit_end ")") by reflexivity. rewrite app_nil_r.
    change (scan Idle ?x) with (tokens x).
    destruct (String.eqb f "$or"); symmetry;
      [apply (tokens_join " " "OR ") | apply (tokens_join " " "AND ")];
      reflexivity.
Qed.

Lemma ne_branch_in_ok f b fv s c s' fv' :
  in_ok fv -> ne_branch f b fv s = Ok (c, s', fv') -> in_ok fv'.
Proof.
  intros Hin E. unfold ne_branch in E.
  destruct fv; simpl in E; inv_ok; trivial.
  intros vin Hg. apply Hin. simpl in *.
  rewrite assoc_set_other in Hg by reflexivity. exact Hg.
Qed.

Lemma body_inv s0 rec f fv schema s s' fv' schema' :
  rec_walks rec ->
  includes "." f = false -> regular fv = true ->
  body rec f fv schema s = Ok (s', fv', schema') ->
  Inv s0 s -> Inv s0 s'.
Proof.
  intros Hrec Hdot Hr E HI. unfold body in E.
  repeat match goal with
         | H : bind _ _ = Ok _ |- _ =>
             let a := fresh "a" in
             let E := fresh "E" in
             apply bind_ok in H; destruct H as (a & E & H); cbv beta in H
         | H : (if ?b then _ else _) = Ok _ |- _ => destruct b eqn:?
         | H : match ?x with (_, _) => _ end = Ok _ |- _ => destruct x
         | H : Ok _ = Ok _ |- _ => apply Ok_inj in H
         | H : (_, _) = (_, _) |- _ =>
             apply pair_inj in H; destruct H as [? ?]
         | H : Throw _ = Ok _ |- _ => discriminate H
         end; subst; trivial.
  all: match goal with
       | E : scalar_branch _ _ _ _ _ = Ok _ |- _ =>
           destruct (scalar_branch_inv s0 _ _ _ _ _ _ _ _ _ Hrec Hdot Hr E HI)
             as [HI1 Hin1]
       end; trivial.
  all: match goal with
       | E : ne_branch _ _ _ _ = Ok _ |- _ =>
           pose proof (ne_branch_inv s0 _ _ _ _ _ _ _ E HI1) as HI2;
           pose proof (ne_branch_in_ok _ _ _ _ _ _ _ Hin1 E) as Hin2
       end; trivial.
  all: repeat match goal with
              | E : eq_branch _ _ _ = Ok _ |- _ =>
                  apply (eq_branch_inv s0) in E; [|assumption]
              | E : in_branch _ _ _ _ _ = Ok _ |- _ =>
                  apply (in_branch_inv s0) in E; [|assumption|assumption]
              | E : all_branch _ _ _ _ = Ok _ |- _ =>
                  apply (all_branch_inv s0) in E; [|assumption]
              | E : exists_branch _ _ _ = Ok _ |- _ =>
                  apply (exists_branch_inv s0) in E; [|assumption]
              | E : text_branch _ _ _ = Ok _ |- _ =>
                  apply (text_branch_inv s0) in E; [|assumption]
              | E : nearSphere_branch _ _ _ = Ok _ |- _ =>
                  apply (nearSphere_branch_inv s0) in E; [|assumption]
              | E : within_branch _ _ _ = Ok _ |- _ =>
                  apply (within_branch_inv s0) in E; [|assumption]
              | E : geoWithin_branch _ _ _ = Ok _ |- _ =>
                  apply (geoWithin_branch_inv s0) in E; [|assumption]
              | E : regex_branch _ _ _ = Ok _ |- _ =>
                  apply (regex_branch_inv s0) in E; [|assumption]
              | E : pointer_branch _ _ _ _ = Ok _ |- _ =>
                  apply (pointer_branch_inv s0) in E; [|assumption]
              | E : date_branch _ _ _ = Ok _ |- _ =>
                  apply (date_branch_inv s0) in E; [|assumption]
              | E : geopoint_branch _ _ _ = Ok _ |- _ =>
                  apply (geopoint_branch_inv s0) in E; [|assumption]
              | E : comparators _ _ _ _ = Ok _ |- _ =>
                  apply (comparators_inv s0) in E;
                  [| repeat constructor | assumption]
              end; assumption.
Qed.

Lemma loop_inv s0 rec fields schema s s' fields' schema' :
  rec_walks rec ->
  (forall k v, In (k, v) fields ->
               includes "." k = false /\ regular v = true) ->
  loop rec fields schema s = Ok (s', fields', schema') ->
  Inv s0 s -> Inv s0 s'.
Proof.
  intros Hrec. revert schema s s' fields' schema'.
  induction fields as [|[k v] r IH];
    intros schema s s' fields' schema' Hf E HI; cbn [loop] in E.
  - inv_ok. exact HI.
  - apply bind_ok in E. destruct E as ([[s1 v1] sch1] & Eb & E).
    apply bind_ok in E. destruct E as ([[s2 r2] sch2] & El & E).
    apply Ok_inj in E. repeat (apply pair_inj in E; destruct E as [E ?]).
    subst.
    destruct (Hf k v (or_introl eq_refl)) as [Hk Hv].
    apply (body_inv s0 _ _ _ _ _ _ _ _ Hrec Hk Hv Eb) in HI.
    apply (IH _ _ _ _ _ (fun k v Hin => Hf k v (or_intror Hin)) El HI).
Qed.

Lemma bwc_walks fuel : rec_walks (bwc fuel).
Proof.
  induction fuel as [|fuel IH]; intros sch q j out Hr E; cbn [bwc] in E;
    [discriminate|].
  apply bind_ok in E. destruct E as (sch1 & _ & E).
  apply bind_ok in E. destruct E as ([[s fields] sch2] & El & E).
  apply bind_ok in E. destruct E as (vals & Em & E).
  apply Ok_inj in E. subst out. simpl.
  apply (loop_inv j) in El.
  - destruct El as [Hw _]. apply mapM_length in Em. rewrite Em.
    rewrite (tokens_join " " "AND ") by reflexivity. exact Hw.
  - exact IH.
  - intros k v. apply entries_regular. exact Hr.
  - split; simpl; [reflexivity|lia].
Qed.

(** *** Termination: the recursion budget is never exhausted *)

Definition no_oof {A} (r : result A) : Prop := r <> OutOfFuel.

Create HintDb oof.

Lemma no_oof_bind {A B} (m : result A) (k : A -> result B) :
  no_oof m -> (forall a, no_oof (k a)) -> no_oof (bind m k).
Proof. destruct m; simpl; auto; unfold no_oof; intros; congruence. Qed.

Lemma no_oof_Ok {A} (a : A) : no_oof (Ok a).
Proof. discriminate. Qed.

Lemma no_oof_Throw {A} (e : js_error) : no_oof (@Throw A e).
Proof. discriminate. Qed.

Lemma no_oof_Unmodelled {A} : no_oof (@Unmodelled A).
Proof. discriminate. Qed.

Ltac oof :=
  repeat first
    [ apply no_oof_Ok
    | apply no_oof_Throw
    | apply no_oof_Unmodelled
    | assumption
    | solve [auto with oof]
    | match goal with
      | |- no_oof (bind _ _) => apply no_oof_bind; [|intros]
      | |- no_oof (if ?b then _ else _) => destruct b
      | |- no_oof (match ?x with _ => _ end) => destruct x
      | |- no_oof (let (_, _) := ?x in _) => destruct x
      end ].

Lemma get_no_oof o k : no_oof (get o k).
Proof. unfold get. oof. Qed.

Lemma set_no_oof o k v : no_oof (set o k v).
Proof. unfold set. oof. Qed.

Lemma delete_no_oof o k : no_oof (delete o k).
Proof. unfold delete. oof. Qed.

Lemma template_no_oof v : no_oof (template v).
Proof. unfold template. oof. Qed.

Hint Resolve get_no_oof set_no_oof delete_no_oof template_no_oof : oof.

Lemma mapM_no_oof {A B} (f : A -> result B) l :
  (forall x, no_oof (f x)) -> no_oof (mapM f l).
Proof. intros Hf. induction l as [|x r IH]; simpl; oof. Qed.

Lemma formatDateToMySQL_no_oof v : no_oof (formatDateToMySQL v).
Proof. unfold formatDateToMySQL. oof. Qed.

Hint Resolve formatDateToMySQL_no_oof : oof.

Lemma toMySQLValue_no_oof v : no_oof (toMySQLValue v).
Proof. unfold toMySQLValue. oof. Qed.

Lemma transformValue_no_oof v : no_oof (transformValue v).
Proof. unfold transformValue. oof. Qed.

Lemma toMySQLSchema_no_oof v : no_oof (toMySQLSchema v).
Proof. unfold toMySQLSchema. oof. Qed.

Lemma is_array_field_no_oof sch f : no_oof (is_array_field sch f).
Proof. unfold is_array_field. oof. Qed.

Lemma check_text_no_oof v : no_oof (check_text v).
Proof. unfold check_text, bad_json. oof. Qed.

Lemma has_x_no_oof v : no_oof (has_x v).
Proof. unfold has_x. oof. Qed.

Lemma polygon_point_no_oof v : no_oof (polygon_point v).
Proof. unfold polygon_point, bad_json. oof. Qed.

Hint Resolve toMySQLValue_no_oof transformValue_no_oof toMySQLSchema_no_oof
  is_array_field_no_oof check_text_no_oof has_x_no_oof polygon_point_no_oof
  : oof.

Lemma ne_branch_no_oof f b fv s : no_oof (ne_branch f b fv s).
Proof. unfold ne_branch. oof. Qed.

Lemma eq_branch_no_oof f fv s : no_oof (eq_branch f fv s).
Proof. unfold eq_branch. oof. Qed.

Lemma in_branch_no_oof f b sch fv s : no_oof (in_branch f b sch fv s).
Proof. unfold in_branch. oof. Qed.

Lemma all_branch_no_oof f b fv s : no_oof (all_branch f b fv s).
Proof. unfold all_branch. oof. Qed.

Lemma exists_branch_no_oof f fv s : no_oof (exists_branch f fv s).
Proof. unfold exists_branch. oof. Qed.

Lemma text_branch_no_oof f fv s : no_oof (text_branch f fv s).
Proof. unfold text_branch. oof. Qed.

Lemma nearSphere_branch_no_oof f fv s : no_oof (nearSphere_branch f fv s).
Proof. unfold nearSphere_branch. oof. Qed.

Lemma within_branch_no_oof f fv s : no_oof (within_branch f fv s).
Proof. unfold within_branch. oof. Qed.

Lemma geoWithin_branch_no_oof f fv s : no_oof (geoWithin_branch f fv s).
Proof.
  unfold geoWithin_branch, bad_json. oof.
  apply mapM_no_oof. auto with oof.
Qed.

Lemma regex_branch_no_oof f fv s : no_oof (regex_branch f fv s).
Proof. unfold regex_branch. oof. Qed.

Lemma pointer_branch_no_oof f b fv s : no_oof (pointer_branch f b fv s).
Proof. unfold pointer_branch. oof. Qed.

Lemma date_branch_no_oof f fv s : no_oof (date_branch f fv s).
Proof. unfold date_branch. oof. Qed.

Lemma geopoint_branch_no_oof f fv s : no_oof (geopoint_branch f fv s).
Proof. unfold geopoint_branch. oof. Qed.

Lemma comparators_no_oof cmps f fv s : no_oof (comparators cmps f fv s).
Proof.
  revert s. induction cmps as [|[cmp op] r IH]; intros s; cbn [comparators];
    oof.
Qed.

Hint Resolve ne_branch_no_oof eq_branch_no_oof in_branch_no_oof
  all_branch_no_oof exists_branch_no_oof text_branch_no_oof
  nearSphere_branch_no_oof within_branch_no_oof geoWithin_branch_no_oof
  regex_branch_no_oof pointer_branch_no_oof date_branch_no_oof
  geopoint_branch_no_oof comparators_no_oof : oof.

(** The recursive calls made for the value of a field never exhaust
    the budget. *)
Definition rec_covers (rec : jsval -> jsval -> nat -> result bw_out)
    (fv : jsval) : Prop :=
  forall subs, fv = JArr subs ->
  forall sch q i, In q subs -> no_oof (rec sch q i).

Lemma sub_clauses_no_oof rec sch subs i :
  (forall sch q i, In q subs -> no_oof (rec sch q i)) ->
  no_oof (sub_clauses rec sch subs i).
Proof.
  revert sch i. induction subs as [|q r IH]; intros sch i Hrec;
    cbn [sub_clauses]; oof.
  - apply Hrec. now left.
  - apply IH. intros. apply Hrec. now right.
Qed.

Lemma scalar_branch_no_oof rec f fv sch s :
  rec_covers rec fv -> no_oof (scalar_branch rec f fv sch s).
Proof.
  intros Hrec. unfold scalar_branch.
  destruct (includes "." f); [oof|].
  destruct fv; oof.
  apply sub_clauses_no_oof. exact (Hrec _ eq_refl).
Qed.

Lemma body_no_oof rec f fv sch s :
  rec_covers rec fv -> no_oof (body rec f fv sch s).
Proof.
  intros Hrec. unfold body. oof.
  all: apply scalar_branch_no_oof; exact Hrec.
Qed.

Lemma loop_no_oof rec fields sch s :
  (forall k v, In (k, v) fields -> rec_covers rec v) ->
  no_oof (loop rec fields sch s).
Proof.
  revert sch s. induction fields as [|[k v] r IH]; intros sch s Hrec;
    cbn [loop]; oof.
  - apply body_no_oof. apply (Hrec k). now left.
  - apply IH. intros k' v' Hin. apply (Hrec k'). now right.
Qed.

Lemma le_list_max x l : In x l -> x <= list_max l.
Proof.
  intros Hin.
  assert (Hf : Forall (fun k => k <= list_max l) l)
    by (apply list_max_le; lia).
  rewrite Forall_forall in Hf. auto.
Qed.

Lemma depth_in_array x l : In x l -> depth x < depth (JArr l).
Proof.
  intros Hin. simpl. apply Nat.lt_succ_r. apply le_list_max.
  apply in_map. exact Hin.
Qed.

Lemma depth_entries q k v :
  In (k, v) (entries q) -> is_array v = true -> depth v < depth q.
Proof.
  destruct q; simpl; try tauto.
  - intros Hin Hv. apply indexed_from_keys in Hin. destruct Hin as [_ Hin].
    apply in_map_iff in Hin. destruct Hin as (c & <- & _). discriminate.
  - intros Hin _. apply indexed_from_keys in Hin. destruct Hin as [_ Hin].
    apply Nat.lt_succ_r. apply le_list_max. apply in_map. exact Hin.
  - intros Hin _. apply Nat.lt_succ_r. apply le_list_max.
    apply in_map_iff. exists (k, v). auto.
Qed.

(** A budget above the nesting depth of the query is never exhausted. *)
Lemma bwc_no_oof fuel sch q i : depth q < fuel -> no_oof (bwc fuel sch q i).
Proof.
  revert sch q i. induction fuel as [|fuel IH]; intros sch q i Hd; [lia|].
  cbn [bwc]. oof.
  - apply loop_no_oof. intros k v Hin subs -> sch' q' i' Hq.
    apply IH.
    pose proof (depth_entries _ _ _ Hin eq_refl).
    pose proof (depth_in_array _ _ Hq). lia.
  - apply mapM_no_oof. auto with oof.
Qed.

Lemma no_oof_bind_inv {A B} (m : result A) (k : A -> result B) :
  no_oof (bind m k) -> no_oof m.
Proof. destruct m; simpl; unfold no_oof; congruence. Qed.

(** Two functions for the recursive calls that agree wherever the first
    returns within its budget. *)
Definition extends (rec rec' : jsval -> jsval -> nat -> result bw_out)
  : Prop :=
  forall sch q i, no_oof (rec sch q i) -> rec' sch q i = rec sch q i.

Lemma sub_clauses_ext rec rec' sch subs i :
  extends rec rec' ->
  no_oof (sub_clauses rec sch subs i) ->
  sub_clauses rec' sch subs i = sub_clauses rec sch subs i.
Proof.
  intros Hext. revert sch i.
  induction subs as [|q r IH]; intros sch i Hno; cbn [sub_clauses] in *;
    [reflexivity|].
  rewrite (Hext sch q i) by (eapply no_oof_bind_inv; exact Hno).
  destruct (rec sch q i) as [c| | |]; cbn [bind] in *; try reflexivity.
  rewrite IH by (eapply no_oof_bind_inv; exact Hno). reflexivity.
Qed.

Lemma scalar_branch_ext rec rec' f fv sch s :
  extends rec rec' ->
  no_oof (scalar_branch rec f fv sch s) ->
  scalar_branch rec' f fv sch s = scalar_branch rec f fv sch s.
Proof.
  intros Hext. unfold scalar_branch.
  destruct (includes "." f); [reflexivity|].
  destruct fv; try reflexivity.
  destruct (String.eqb f "$or" || String.eqb f "$and"); [|reflexivity].
  intros Hno.
  rewrite (sub_clauses_ext rec rec') by
    (trivial; eapply no_oof_bind_inv; exact Hno).
  reflexivity.
Qed.

Lemma body_ext rec rec' f fv sch s :
  extends rec rec' ->
  no_oof (body rec f fv sch s) ->
  body rec' f fv sch s = body rec f fv sch s.
Proof.
  intros Hext. unfold body.
  destruct (is_array_field sch f) as [b| | |]; cbn [bind]; trivial.
  destruct (get sch "fields") as [fields| | |]; cbn [bind]; trivial.
  destruct (get fields f) as [d| | |]; cbn [bind]; trivial.
  match goal with
  | |- no_oof (bind ?m _) -> _ => destruct m as [skip| | |]
  end; cbn [bind]; trivial.
  destruct skip; trivial.
  intros Hno.
  rewrite (scalar_branch_ext rec rec') by
    (trivial; eapply no_oof_bind_inv; exact Hno).
  reflexivity.
Qed.

Lemma loop_ext rec rec' fields sch s :
  extends rec rec' ->
  no_oof (loop rec fields sch s) ->
  loop rec' fields sch s = loop rec fields sch s.
Proof.
  intros Hext. revert sch s.
  induction fields as [|[k v] r IH]; intros sch s Hno; cbn [loop] in *;
    [reflexivity|].
  rewrite (body_ext rec rec') by (trivial; eapply no_oof_bind_inv; exact Hno).
  destruct (body rec k v sch s) as [[[s1 v1] sch1]| | |]; cbn [bind] in *;
    try reflexivity.
  rewrite IH by (eapply no_oof_bind_inv; exact Hno). reflexivity.
Qed.

Lemma bwc_S fuel sch q i :
  bwc (S fuel) sch q i
  = (schema <- toMySQLSchema sch ;;
     ' (s, fields, schema) <-
       loop (bwc fuel) (entries q) schema
            {| patterns := []; values := []; sorts := []; index := i |} ;;
     values <- mapM transformValue (values s) ;;
     Ok {| pattern := join " AND " (patterns s);
           out_values := values;
           out_sorts := sorts s;
           schema_after := schema;
           query_after := rebuild q fields |}).
Proof. reflexivity. Qed.

Lemma bwc_more_fuel fuel : extends (bwc fuel) (bwc (S fuel)).
Proof.
  induction fuel as [|fuel IH]; intros sch q i Hno.
  - exfalso. apply Hno. reflexivity.
  - rewrite (bwc_S fuel) in Hno. rewrite (bwc_S (S fuel)), (bwc_S fuel).
    destruct (toMySQLSchema sch) as [sch1| | |]; cbn [bind] in *;
      try reflexivity.
    pose proof (loop_ext (bwc fuel) (bwc (S fuel)) (entries q) sch1
                  {| patterns := []; values := []; sorts := []; index := i |}
                  IH (no_oof_bind_inv _ _ Hno)) as Hl.
    rewrite Hl. reflexivity.
Qed.

(** Any budget above the nesting depth of the query gives the result of
    [buildWhereClause]. *)
Lemma bwc_fuel_independent fuel sch q i :
  depth q < fuel -> bwc fuel sch q i = buildWhereClause sch q i.
Proof.
  unfold buildWhereClause. intros Hd.
  replace fuel with ((fuel - S (depth q)) + S (depth q)) by lia.
  induction (fuel - S (depth q)) as [|n IH]; [reflexivity|].
  cbn [Nat.add]. rewrite <- IH.
  apply bwc_more_fuel. apply bwc_no_oof. lia.
Qed.

(** C9: with a recursion budget above the nesting depth of the query
    document, [buildWhereClause] always returns (a fragment or an error)
    without exhausting the budget, and every such budget gives the same
    result; the regex literalizer is defined by recursion on the length of
    the pattern, each recursive call being on a strictly shorter prefix,
    and satisfies the equation of the source. *)
Theorem compilers_terminate :
  (forall schema query index fuel,
      depth query < fuel ->
      bwc fuel schema query index <> OutOfFuel
      /\ bwc fuel schema query index = buildWhereClause schema query index)
  /\ (forall schema query index,
         buildWhereClause schema query index <> OutOfFuel)
  /\ (forall s i remaining,
         search matcher1_here s = Some (i, remaining)
         \/ search matcher2_here s = Some (i, remaining) ->
         String.length (str_take i s) < String.length s)
  /\ (forall s,
         literalizeRegexPart s
         = match search matcher1_here s with
           | Some (i, remaining) =>
               literalizeRegexPart (str_take i s)
               ++ createLiteralRegex remaining
           | None =>
               match search matcher2_here s with
               | Some (i, remaining) =>
                   literalizeRegexPart (str_take i s)
                   ++ createLiteralRegex remaining
               | None => strip_markers s
               end
           end).
Proof.
  split; [|split; [|split]].
  - intros schema query index fuel Hd. split.
    + apply bwc_no_oof. exact Hd.
    + apply bwc_fuel_independent. exact Hd.
  - intros schema query index. apply bwc_no_oof. lia.
  - exact literalize_prefix_shorter.
  - exact literalizeRegexPart_eq.
Qed.

(** *** The schema seen by the loop *)

Lemma assoc_set_idem k v (kvs : list (string * jsval)) :
  assoc k kvs = Some v -> assoc_set k v kvs = kvs.
Proof.
  induction kvs as [|[k' v'] r IH]; simpl; [discriminate|].
  destruct (String.eqb k k') eqn:E.
  - intros [= ->]. reflexivity.
  - intros Hr. now rewrite IH.
Qed.

Lemma assoc_set_twice k v v' (kvs : list (string * jsval)) :
  assoc_set k v' (assoc_set k v kvs) = assoc_set k v' kvs.
Proof.
  induction kvs as [|[k' w] r IH]; simpl.
  - now rewrite String.eqb_refl.
  - destruct (String.eqb k k') eqn:E; simpl; rewrite E; [reflexivity|].
    now rewrite IH.
Qed.

Lemma get_object kvs k : get (JObj kvs) k = Ok (lookup k kvs).
Proof. reflexivity. Qed.

Lemma toMySQLSchema_object kvs fs :
  assoc "fields" kvs = Some (JObj fs) ->
  toMySQLSchema (JObj kvs)
  = Ok (JObj (assoc_set "fields"
                (JObj (with_implicit_fields (lookup "className" kvs) fs))
                kvs)).
Proof.
  intros Hf. unfold toMySQLSchema, with_implicit_fields, lookup.
  cbn [truthy negb get]. rewrite Hf.
  cbn [bind truthy set get]. rewrite assoc_set_other by reflexivity.
  destruct (str_is match assoc "className" kvs with
                   | Some v => v
                   | None => JUndef
                   end "_User");
    cbn [bind set put]; rewrite assoc_set_twice; reflexivity.
Qed.

Lemma with_implicit_fields_idem cn fs :
  with_implicit_fields cn (with_implicit_fields cn fs)
  = with_implicit_fields cn fs.
Proof.
  unfold with_implicit_fields.
  destruct (str_is cn "_User");
    repeat match goal with
           | |- context [assoc_set ?k ?v ?l] =>
               rewrite (assoc_set_idem k v l) by
                 (repeat first [ apply assoc_set_same
                               | rewrite assoc_set_other by reflexivity ])
           end;
    reflexivity.
Qed.

(** [toMySQLSchema] leaves the schema it returned as it is. *)
Lemma toMySQLSchema_idem kvs fs sch :
  assoc "fields" kvs = Some (JObj fs) ->
  toMySQLSchema (JObj kvs) = Ok sch ->
  toMySQLSchema sch = Ok sch /\ has_fields sch.
Proof.
  intros Hf E. rewrite (toMySQLSchema_object _ _ Hf) in E.
  apply Ok_inj in E. subst sch. split.
  - rewrite (toMySQLSchema_object _ (with_implicit_fields (lookup "className" kvs) fs))
      by apply assoc_set_same.
    unfold lookup at 1. rewrite assoc_set_other by reflexivity.
    fold (lookup "className" kvs).
    rewrite with_implicit_fields_idem, assoc_set_twice. reflexivity.
  - eexists _, _. split; [reflexivity|]. apply assoc_set_same.
Qed.

Lemma present_get fv k : present fv = true -> get fv k = Ok (prop fv k).
Proof.
  unfold prop. destruct fv; try discriminate; intros _; simpl; try reflexivity;
    destruct (String.eqb k "length"); try reflexivity;
    destruct (all_digits k); reflexivity.
Qed.

Lemma truthy_present v : truthy v = true -> present v = true.
Proof. destruct v; simpl; trivial. Qed.

Lemma is_array_field_has_fields sch f :
  has_fields sch -> exists b, is_array_field sch f = Ok b.
Proof.
  intros (kvs & fs & -> & Hf). unfold is_array_field.
  rewrite get_object. unfold lookup at 1. rewrite Hf. cbn [bind truthy negb].
  rewrite get_object. cbn [bind].
  destruct (truthy (lookup f fs)) eqn:Et; cbn [negb]; [|eauto].
  rewrite (present_get _ "type" (truthy_present _ Et)). cbn [bind]. eauto.
Qed.

(** *** Branches that pass over a value *)

Lemma ne_branch_passes f b fv s :
  present fv = true -> is_undefined (prop fv "$ne") = true ->
  ne_branch f b fv s = Ok (false, s, fv).
Proof.
  intros Hp Hq. unfold ne_branch. rewrite (present_get _ _ Hp). cbn [bind].
  now rewrite Hq.
Qed.

Lemma eq_branch_passes f fv s :
  present fv = true -> truthy (prop fv "$eq") = false ->
  eq_branch f fv s = Ok s.
Proof.
  intros Hp Hq. unfold eq_branch. rewrite (present_get _ _ Hp). cbn [bind].
  now rewrite Hq.
Qed.

Lemma in_branch_passes f b sch fv s :
  present fv = true -> in_passes fv = true ->
  in_branch f b sch fv s = Ok s.
Proof.
  intros Hp Hq. unfold in_passes in Hq.
  apply andb_true_iff in Hq. destruct Hq as [Hin Hnin].
  apply negb_true_iff in Hin.
  unfold in_branch. rewrite !(present_get _ _ Hp). cbn [bind].
  rewrite Hin. cbn [andb orb bind].
  apply orb_true_iff in Hnin. destruct Hnin as [Hnin|Hnin].
  - apply negb_true_iff in Hnin. now rewrite Hnin.
  - apply andb_true_iff in Hnin. destruct Hnin as [Ht Hl].
    apply negb_true_iff in Ht. apply Nat.eqb_eq in Hl. rewrite Ht.
    destruct (is_array (prop fv "$nin")); [|reflexivity].
    destruct (truthy (prop fv "$nin")); [|reflexivity].
    unfold createConstraint. rewrite Hl. reflexivity.
Qed.

Lemma all_branch_passes f b fv s :
  present fv = true -> is_array (prop fv "$all") = false ->
  all_branch f b fv s = Ok s.
Proof.
  intros Hp Hq. unfold all_branch. rewrite (present_get _ _ Hp). cbn [bind].
  now rewrite Hq.
Qed.

Lemma exists_branch_passes f fv s :
  present fv = true -> is_undefined (prop fv "$exists") = true ->
  exists_branch f fv s = Ok s.
Proof.
  intros Hp Hq. unfold exists_branch. rewrite (present_get _ _ Hp).
  cbn [bind]. now rewrite Hq.
Qed.

Lemma text_branch_passes f fv s :
  present fv = true -> truthy (prop fv "$text") = false ->
  text_branch f fv s = Ok s.
Proof.
  intros Hp Hq. unfold text_branch. rewrite (present_get _ _ Hp).
  cbn [bind]. now rewrite Hq.
Qed.

Lemma nearSphere_branch_passes f fv s :
  present fv = true -> truthy (prop fv "$nearSphere") = false ->
  nearSphere_branch f fv s = Ok s.
Proof.
  intros Hp Hq. unfold nearSphere_branch. rewrite (present_get _ _ Hp).
  cbn [bind]. now rewrite Hq.
Qed.

Lemma within_branch_passes f fv s :
  present fv = true -> truthy (prop fv "$within") = false ->
  within_branch f fv s = Ok s.
Proof.
  intros Hp Hq. unfold within_branch. rewrite (present_get _ _ Hp).
  cbn [bind]. now rewrite Hq.
Qed.

Lemma geoWithin_branch_passes f fv s :
  present fv = true -> truthy (prop fv "$geoWithin") = false ->
  geoWithin_branch f fv s = Ok (s, fv).
Proof.
  intros Hp Hq. unfold geoWithin_branch. rewrite (present_get _ _ Hp).
  cbn [bind]. now rewrite Hq.
Qed.

Lemma regex_branch_passes f fv s :
  present fv = true -> truthy (prop fv "$regex") = false ->
  regex_branch f fv s = Ok s.
Proof.
  intros Hp Hq. unfold regex_branch. rewrite (present_get _ _ Hp).
  cbn [bind]. now rewrite Hq.
Qed.

Lemma pointer_branch_passes f b fv s :
  present fv = true -> str_is (prop fv "__type") "Pointer" = false ->
  pointer_branch f b fv s = Ok s.
Proof.
  intros Hp Hq. unfold pointer_branch. rewrite (present_get _ _ Hp).
  cbn [bind]. now rewrite Hq.
Qed.

Lemma date_branch_passes f fv s :
  present fv = true -> str_is (prop fv "__type") "Date" = false ->
  date_branch f fv s = Ok s.
Proof.
  intros Hp Hq. unfold date_branch. rewrite (present_get _ _ Hp).
  cbn [bind]. now rewrite Hq.
Qed.

Lemma geopoint_branch_passes f fv s :
  present fv = true -> str_is (prop fv "__type") "GeoPoint" = false ->
  geopoint_branch f fv s = Ok s.
Proof.
  intros Hp Hq. unfold geopoint_branch. rewrite (present_get _ _ Hp).
  cbn [bind]. now rewrite Hq.
Qed.

Lemma comparators_pass cmps f fv s :
  present fv = true ->
  forallb (fun c => negb (truthy (prop fv (fst c)))) cmps = true ->
  comparators cmps f fv s = Ok s.
Proof.
  intros Hp. induction cmps as [|[cmp op] r IH]; cbn [comparators forallb];
    [reflexivity|].
  intros Hq. apply andb_true_iff in Hq. destruct Hq as [Hc Hr].
  apply negb_true_iff in Hc. simpl in Hc.
  rewrite (present_get _ _ Hp). cbn [bind]. rewrite Hc. cbn [bind]. auto.
Qed.

(** The loop body on a value that only the first chain of alternatives
    and the [$in] / [$nin] branch can compile. *)
Lemma body_others_pass rec f fv sch s b s1 fv1 sch1 :
  has_fields sch ->
  is_array_field sch f = Ok b ->
  (truthy fv = true -> is_false (prop fv "$exists") = false) ->
  scalar_branch rec f fv sch s = Ok (false, s1, fv1, sch1) ->
  present fv1 = true ->
  others_pass fv1 = true ->
  body rec f fv sch s
  = (s2 <- in_branch f b sch1 fv1 s1 ;;
     if Nat.eqb (List.length (patterns s)) (List.length (patterns s2))
     then Throw (unsupported_query fv1)
     else Ok (s2, fv1, sch1)).
Proof.
  intros (kvs & fs & -> & Hf) Hb Hex Hs Hp Hq. unfold body. rewrite Hb.
  cbn [bind]. rewrite get_object. unfold lookup at 1. rewrite Hf.
  cbn [bind]. rewrite get_object. cbn [bind].
  assert (Hskip : (if negb (truthy (lookup f fs)) && truthy fv
                   then ex <- get fv "$exists" ;; Ok (is_false ex)
                   else Ok false) = Ok false).
  { destruct (negb (truthy (lookup f fs)) && truthy fv) eqn:Es;
      [|reflexivity].
    apply andb_true_iff in Es. destruct Es as [_ Et].
    rewrite (present_get _ _ (truthy_present _ Et)). cbn [bind].
    now rewrite (Hex Et). }
  rewrite Hskip. cbn [bind]. rewrite Hs. cbn [bind].
  unfold others_pass in Hq.
  repeat match type of Hq with
         | _ && _ = true =>
             let Hl := fresh "Hq" in
             apply andb_true_iff in Hq; destruct Hq as [Hq Hl]
         end.
  repeat match goal with
         | Hx : negb _ = true |- _ => apply negb_true_iff in Hx
         end.
  rewrite ne_branch_passes by assumption. cbn [bind].
  rewrite eq_branch_passes by assumption. cbn [bind].
  destruct (in_branch f b sch1 fv1 s1) as [s2| | |]; cbn [bind];
    try reflexivity.
  rewrite all_branch_passes by assumption. cbn [bind].
  rewrite exists_branch_passes by assumption. cbn [bind].
  rewrite text_branch_passes by assumption. cbn [bind].
  rewrite nearSphere_branch_passes by assumption. cbn [bind].
  rewrite within_branch_passes by assumption. cbn [bind].
  rewrite geoWithin_branch_passes by assumption. cbn [bind].
  rewrite regex_branch_passes by assumption. cbn [bind].
  rewrite pointer_branch_passes by assumption. cbn [bind].
  rewrite date_branch_passes by assumption. cbn [bind].
  rewrite geopoint_branch_passes by assumption. cbn [bind].
  rewrite comparators_pass by assumption. cbn [bind].
  reflexivity.
Qed.

(** *** What a call leaves in its arguments *)

Lemma sub_clauses_frame rec sch1 subs i cl cv i' sch' subs' :
  rec_frame rec sch1 ->
  sub_clauses rec sch1 subs i = Ok (cl, cv, i', sch', subs') ->
  sch' = sch1 /\ (forallb frozen subs = true -> subs' = subs).
Proof.
  intros Hrec. revert i cl cv i' sch' subs'.
  induction subs as [|q r IH]; intros i cl cv i' sch' subs' E;
    cbn [sub_clauses] in E.
  - inv_ok. split; reflexivity.
  - apply bind_ok in E. destruct E as (c & Ec & E). cbv beta zeta in E.
    apply bind_ok in E. destruct E as ([[[[cls cvs] j] sch] r'] & Er & E).
    apply Ok_inj in E.
    destruct (Hrec _ _ _ Ec) as [Hs Hq]. rewrite Hs in Er.
    apply IH in Er. destruct Er as [-> Hr].
    repeat (apply pair_inj in E; destruct E as [E ?]). subst.
    split; [reflexivity|]. cbn [forallb]. intros Hf.
    apply andb_true_iff in Hf. destruct Hf as [Hfq Hfr].
    now rewrite Hq, Hr.
Qed.

Lemma scalar_branch_frame rec f fv sch1 s c s' fv' sch' :
  rec_frame rec sch1 ->
  scalar_branch rec f fv sch1 s = Ok (c, s', fv', sch') ->
  sch' = sch1 /\ (frozen fv = true -> fv' = fv).
Proof.
  intros Hrec E. unfold scalar_branch in E.
  destruct (includes "." f); [inv_ok; split; trivial|].
  destruct fv; inv_ok; try (split; trivial).
  all: match goal with
       | E : sub_clauses _ _ _ _ = Ok _ |- _ =>
           apply (sub_clauses_frame _ _ _ _ _ _ _ _ _ Hrec) in E;
           destruct E as [Hs Hq]
       end; trivial.
  simpl. intros Hf. now rewrite Hq.
Qed.

Lemma frozen_prop fv k :
  frozen fv = true ->
  String.eqb k "$ne" || String.eqb k "$geoWithin" = true ->
  forall v, get fv k = Ok v -> v = JUndef.
Proof.
  intros Hf Hk v. apply orb_true_iff in Hk.
  assert (Hnd : all_digits k = false /\ String.eqb k "length" = false).
  { destruct Hk as [Hk|Hk]; apply String.eqb_eq in Hk; subst k; split;
      reflexivity. }
  destruct Hnd as [Hd Hl].
  destruct fv; simpl; try discriminate; rewrite ?Hl, ?Hd;
    try (intros E; apply Ok_inj in E; now subst).
  intros E. apply Ok_inj in E. subst v.
  simpl in Hf. rewrite forallb_forall in Hf.
  destruct (assoc k kvs) as [x|] eqn:Ea; [|reflexivity].
  exfalso.
  assert (Hin : In (k, x) kvs).
  { clear Hf. induction kvs as [|[k' x'] r IH]; simpl in *; [discriminate|].
    destruct (String.eqb k k') eqn:Ek.
    - apply String.eqb_eq in Ek. subst. left. congruence.
    - right. auto. }
  specialize (Hf _ Hin). simpl in Hf.
  apply andb_true_iff in Hf. destruct Hf as [Hf _].
  apply andb_true_iff in Hf. destruct Hf as [H1 H2].
  apply negb_true_iff in H1. apply negb_true_iff in H2.
  destruct Hk as [Hk|Hk]; apply String.eqb_eq in Hk; subst k;
    rewrite String.eqb_refl in *; discriminate.
Qed.

Lemma ne_branch_frame f b fv s c s' fv' :
  frozen fv = true -> ne_branch f b fv s = Ok (c, s', fv') -> fv' = fv.
Proof.
  intros Hf E. unfold ne_branch in E.
  apply bind_ok in E. destruct E as (ne & Eg & E).
  apply (frozen_prop fv "$ne" Hf eq_refl) in Eg. subst ne.
  cbn [is_undefined negb] in E. inv_ok. reflexivity.
Qed.

Lemma geoWithin_branch_frame f fv s s' fv' :
  frozen fv = true -> geoWithin_branch f fv s = Ok (s', fv') -> fv' = fv.
Proof.
  intros Hf E. unfold geoWithin_branch in E.
  apply bind_ok in E. destruct E as (g & Eg & E).
  apply (frozen_prop fv "$geoWithin" Hf eq_refl) in Eg. subst g.
  cbn [truthy] in E. inv_ok. reflexivity.
Qed.

Lemma body_frame rec f fv sch1 s s' fv' sch' :
  rec_frame rec sch1 ->
  body rec f fv sch1 s = Ok (s', fv', sch') ->
  sch' = sch1 /\ (frozen fv = true -> fv' = fv).
Proof.
  intros Hrec E. unfold body in E.
  repeat match goal with
         | H : bind _ _ = Ok _ |- _ =>
             let a := fresh "a" in
             let E := fresh "E" in
             apply bind_ok in H; destruct H as (a & E & H); cbv beta in H
         | H : (if ?b then _ else _) = Ok _ |- _ => destruct b eqn:?
         | H : match ?x with (_, _) => _ end = Ok _ |- _ => destruct x
         | H : Ok _ = Ok _ |- _ => apply Ok_inj in H
         | H : (_, _) = (_, _) |- _ =>
             apply pair_inj in H; destruct H as [? ?]
         | H : Throw _ = Ok _ |- _ => discriminate H
         end; subst; try (split; trivial).
  all: match goal with
       | E : scalar_branch _ _ _ _ _ = Ok _ |- _ =>
           destruct (scalar_branch_frame _ _ _ _ _ _ _ _ _ Hrec E) as [Hs Hq]
       end; trivial.
  all: intros Hf; specialize (Hq Hf); subst.
  all: repeat match goal with
              | E : ne_branch _ _ _ _ = Ok _ |- _ =>
                  apply (ne_branch_frame _ _ _ _ _ _ _ Hf) in E; subst
              | E : geoWithin_branch _ _ _ = Ok _ |- _ =>
                  apply (geoWithin_branch_frame _ _ _ _ _ Hf) in E; subst
              end; reflexivity.
Qed.

Lemma loop_frame rec fields sch1 s s' fields' sch' :
  rec_frame rec sch1 ->
  loop rec fields sch1 s = Ok (s', fields', sch') ->
  sch' = sch1 /\ (frozen_fields fields -> fields' = fields).
Proof.
  intros Hrec. revert s s' fields' sch'.
  induction fields as [|[k v] r IH]; intros s s' fields' sch' E;
    cbn [loop] in E.
  - inv_ok. split; reflexivity.
  - apply bind_ok in E. destruct E as ([[s1 v1] sch2] & Eb & E).
    apply bind_ok in E. destruct E as ([[s2 r2] sch3] & El & E).
    apply Ok_inj in E. repeat (apply pair_inj in E; destruct E as [E ?]).
    subst.
    destruct (body_frame _ _ _ _ _ _ _ _ Hrec Eb) as [-> Hv].
    destruct (IH _ _ _ _ El) as [-> Hr].
    split; [reflexivity|]. intros Hf.
    rewrite Hv by (apply (Hf k); now left).
    rewrite Hr by (intros k' v' Hin; apply (Hf k'); now right).
    reflexivity.
Qed.

Lemma indexed_from_values {A} (l : list A) i :
  map snd (indexed_from i l) = l.
Proof.
  revert i. induction l as [|x r IH]; intros i; simpl; [reflexivity|].
  now rewrite IH.
Qed.

Lemma rebuild_entries q : rebuild q (entries q) = q.
Proof.
  destruct q; simpl; try reflexivity. now rewrite indexed_from_values.
Qed.

Lemma frozen_entries q : frozen q = true -> frozen_fields (entries q).
Proof.
  intros Hf k v Hin. destruct q; simpl in *; try contradiction.
  - apply indexed_from_keys in Hin. destruct Hin as [_ Hin].
    apply in_map_iff in Hin. destruct Hin as (c & <- & _). reflexivity.
  - apply indexed_from_keys in Hin. destruct Hin as [_ Hin].
    rewrite forallb_forall in Hf. auto.
  - rewrite forallb_forall in Hf. specialize (Hf _ Hin). simpl in Hf.
    apply andb_true_iff in Hf. tauto.
Qed.

Lemma bwc_frame fuel kvs fs q i out :
  assoc "fields" kvs = Some (JObj fs) ->
  bwc fuel (JObj kvs) q i = Ok out ->
  toMySQLSchema (JObj kvs) = Ok (schema_after out)
  /\ (frozen q = true -> query_after out = q).
Proof.
  revert kvs fs q i out.
  induction fuel as [|fuel IH]; intros kvs fs q i out Hf E;
    [discriminate|].
  rewrite bwc_S in E.
  apply bind_ok in E. destruct E as (sch1 & Es & E).
  apply bind_ok in E. destruct E as ([[s fields] sch2] & El & E).
  apply bind_ok in E. destruct E as (vals & Em & E).
  apply Ok_inj in E. subst out. cbn [schema_after query_after].
  destruct (toMySQLSchema_idem _ _ _ Hf Es) as [Hidem (kvs1 & fs1 & -> & Hf1)].
  assert (Hrec : rec_frame (bwc fuel) (JObj kvs1)).
  { intros q' i' out' E'.
    destruct (IH _ _ _ _ _ Hf1 E') as [Hs Hq]. split; [|exact Hq].
    rewrite Hidem in Hs. apply Ok_inj in Hs. now symmetry. }
  destruct (loop_frame _ _ _ _ _ _ _ Hrec El) as [-> Hq].
  split; [exact Es|].
  intros Hfz. rewrite Hq by (apply frozen_entries; exact Hfz).
  apply rebuild_entries.
Qed.

Lemma bwc_rec_frame fuel kvs fs sch1 :
  assoc "fields" kvs = Some (JObj fs) ->
  toMySQLSchema (JObj kvs) = Ok sch1 ->
  rec_frame (bwc fuel) sch1.
Proof.
  intros Hf Es.
  destruct (toMySQLSchema_idem _ _ _ Hf Es) as [Hidem (kvs1 & fs1 & -> & Hf1)].
  intros q' i' out' E'.
  destruct (bwc_frame _ _ _ _ _ _ Hf1 E') as [Hs Hq]. split; [|exact Hq].
  rewrite Hidem in Hs. apply Ok_inj in Hs. now symmetry.
Qed.

(** *** Values of no supported shape *)

Ltac split_andb :=
  repeat match goal with
         | H : _ && _ = true |- _ =>
             apply andb_true_iff in H; destruct H
         end.

Lemma body_unsupported rec f fv sch s :
  has_fields sch ->
  includes "." f = false ->
  String.eqb f "$or" || String.eqb f "$and" = false ->
  no_operator_applies fv = true ->
  body rec f fv sch s = Throw (unsupported_query fv).
Proof.
  intros Hs Hd Hor Hn. unfold no_operator_applies in Hn.
  apply andb_true_iff in Hn. destruct Hn as [Hn Hin].
  apply andb_true_iff in Hn. destruct Hn as [Hn Hot].
  apply andb_true_iff in Hn. destruct Hn as [Hty Hp].
  destruct (is_array_field_has_fields sch f Hs) as [b Hb].
  rewrite (body_others_pass rec f fv sch s b s fv sch Hs Hb); trivial.
  - rewrite in_branch_passes by assumption. cbn [bind].
    now rewrite Nat.eqb_refl.
  - intros _. unfold others_pass in Hot. split_andb.
    destruct (prop fv "$exists"); try discriminate; reflexivity.
  - unfold scalar_branch. rewrite Hd.
    destruct fv; try discriminate; rewrite Hor; reflexivity.
Qed.

Lemma loop_unsupported rec sch fields f fv :
  rec_frame rec sch -> has_fields sch ->
  In (f, fv) fields ->
  includes "." f = false ->
  String.eqb f "$or" || String.eqb f "$and" = false ->
  no_operator_applies fv = true ->
  forall s r, loop rec fields sch s <> Ok r.
Proof.
  intros Hrec Hs Hin Hd Hor Hn.
  induction fields as [|[k v] l IH]; [contradiction|].
  intros s r. cbn [loop].
  destruct (body rec k v sch s) as [[[s1 v1] sch1]| | |] eqn:Eb;
    cbn [bind]; try discriminate.
  destruct (body_frame _ _ _ _ _ _ _ _ Hrec Eb) as [-> _].
  destruct Hin as [Hin|Hin].
  - apply pair_inj in Hin. destruct Hin as [-> ->].
    rewrite body_unsupported in Eb by assumption. discriminate.
  - destruct (loop rec l sch s1) as [[[s2 l2] sch2]| | |] eqn:El;
      cbn [bind]; try discriminate.
    exfalso. exact (IH Hin _ _ El).
Qed.

Lemma buildWhereClause_unsupported kvs fs f fv i :
  assoc "fields" kvs = Some (JObj fs) ->
  includes "." f = false ->
  String.eqb f "$or" || String.eqb f "$and" = false ->
  no_operator_applies fv = true ->
  buildWhereClause (JObj kvs) (JObj [(f, fv)]) i
  = Throw (unsupported_query fv)
  /\ forall q out, In (f, fv) (entries q) ->
       buildWhereClause (JObj kvs) q i <> Ok out.
Proof.
  intros Hf Hd Hor Hn.
  pose proof (toMySQLSchema_object _ _ Hf) as Es.
  destruct (toMySQLSchema_idem _ _ _ Hf Es) as [_ Hs].
  split.
  - unfold buildWhereClause. rewrite bwc_S, Es. cbn [bind entries loop].
    rewrite body_unsupported by assumption. reflexivity.
  - intros q out Hin. unfold buildWhereClause. rewrite bwc_S, Es.
    cbn [bind].
    match goal with
    | |- context [loop ?rec ?l ?sch ?s] =>
        destruct (loop rec l sch s) as [[[s1 l1] sch1]| | |] eqn:El
    end; cbn [bind]; try discriminate.
    exfalso. revert El. eapply loop_unsupported; eauto.
    eapply bwc_rec_frame; eauto.
Qed.

Lemma falsy_comparisons_lookup kvs k :
  falsy_comparisons kvs = true ->
  truthy (prop (JObj kvs) k) = false
  /\ (existsb (String.eqb k) comparison_operators = false ->
      prop (JObj kvs) k = JUndef).
Proof.
  unfold prop. cbn [get]. intros Hf.
  induction kvs as [|[k' v] r IH]; cbn [assoc]; [split; reflexivity|].
  cbn [falsy_comparisons forallb fst snd] in Hf.
  apply andb_true_iff in Hf. destruct Hf as [Hk Hr].
  apply andb_true_iff in Hk. destruct Hk as [Hop Hv].
  apply negb_true_iff in Hv.
  destruct (String.eqb k k') eqn:Ek; [|exact (IH Hr)].
  apply String.eqb_eq in Ek. subst k'. split; [exact Hv|].
  intros Hno. rewrite Hno in Hop. discriminate.
Qed.

Lemma falsy_comparisons_render kvs :
  falsy_comparisons kvs = true -> renders (JObj kvs) = true.
Proof.
  intros Hf. cbn [renders].
  induction kvs as [|[k v] r IH]; cbn [assoc]; [reflexivity|].
  cbn [falsy_comparisons forallb fst snd] in Hf.
  apply andb_true_iff in Hf. destruct Hf as [Hk Hr].
  apply andb_true_iff in Hk. destruct Hk as [Hop _].
  destruct (String.eqb "toString" k) eqn:Ek; [|exact (IH Hr)].
  apply String.eqb_eq in Ek. subst k. discriminate Hop.
Qed.

Lemma falsy_comparisons_no_operator kvs :
  falsy_comparisons kvs = true -> no_operator_applies (JObj kvs) = true.
Proof.
  intros Hf.
  pose proof (fun k => proj1 (falsy_comparisons_lookup kvs k Hf)) as HT.
  pose proof (fun k => proj2 (falsy_comparisons_lookup kvs k Hf)) as HU.
  unfold no_operator_applies, others_pass, in_passes.
  cbn [forallb ParseToMySQLComparator fst typeof_object present is_null
       is_undefined].
  repeat match goal with
         | |- context [prop (JObj kvs) ?k] =>
             first [ rewrite (HU k) by reflexivity | rewrite (HT k) ]
         end.
  reflexivity.
Qed.

(** *** Dotted field names *)

Lemma snoc_length {A} (l : list A) x :
  List.length (snoc l x) = S (List.length l).
Proof. unfold snoc. rewrite length_app. simpl. lia. Qed.

Lemma scalar_passes fv :
  is_scalar fv = true ->
  present fv = true /\ others_pass fv = true /\ in_passes fv = true.
Proof. destruct fv; try discriminate; intros _; repeat split. Qed.

Lemma body_dotted_scalar rec f fv sch s :
  has_fields sch ->
  includes "." f = true ->
  is_scalar fv = true ->
  body rec f fv sch s
  = Ok (emit (dotted_name f ++ " = '" ++ to_string fv ++ "'") [] 0 s, fv, sch).
Proof.
  intros Hs Hd Hsc.
  destruct (scalar_passes fv Hsc) as (Hp & Hot & Hin).
  destruct (is_array_field_has_fields sch f Hs) as [b Hb].
  rewrite (body_others_pass rec f fv sch s b
             (emit (dotted_name f ++ " = '" ++ to_string fv ++ "'") [] 0 s)
             fv sch Hs Hb); trivial.
  - rewrite in_branch_passes by assumption. cbn [bind].
    unfold emit at 1. cbn [patterns]. rewrite snoc_length.
    rewrite (proj2 (Nat.eqb_neq _ _)) by lia. reflexivity.
  - intros _. destruct fv; try discriminate; reflexivity.
  - unfold scalar_branch. rewrite Hd.
    destruct fv; try discriminate; reflexivity.
Qed.

(** *** The update compiler *)

Lemma split_on_no_dot s : includes "." s = false -> split_on "." s = [s].
Proof.
  unfold includes. induction s as [|a r IH]; [reflexivity|].
  cbn [index_of starts_with split_on]. rewrite Ascii.eqb_sym.
  destruct (Ascii.eqb a "."); [discriminate|].
  destruct (index_of "." r); [discriminate|]. intros _.
  now rewrite IH.
Qed.



Lemma filterM_none {A} (p : A -> result bool) l r :
  (forall x b, In x l -> p x = Ok b -> b = false) ->
  filterM p l = Ok r -> r = [].
Proof.
  revert r. induction l as [|a l IH]; intros r Hp E; cbn [filterM] in E.
  - apply Ok_inj in E. now subst.
  - apply bind_ok in E. destruct E as (b & Eb & E).
    apply bind_ok in E. destruct E as (r' & Er & E).
    apply Ok_inj in E.
    rewrite (Hp a b (or_introl eq_refl) Eb) in E.
    apply IH in Er; [congruence|].
    intros x c Hin. apply Hp. now right.
Qed.

Lemma nested_under_no_dot f k : includes "." k = false -> nested_under f k = false.
Proof. intros Hd. unfold nested_under. now rewrite split_on_no_dot. Qed.

Lemma object_branch_frame orig f fv s s' fv' :
  (forall kv, In kv orig -> includes "." (fst kv) = false) ->
  object_branch orig f fv s = Ok (s', fv') -> fv' = fv.
Proof.
  intros Hpl E. unfold object_branch in E. cbv zeta in E.
  assert (Hnone : forall (g : jsval -> bool) r,
             filterM (fun kv => op <- get (snd kv) "__op" ;;
                                Ok (g op && nested_under f (fst kv)))
                     orig = Ok r -> r = []).
  { intros g r. apply filterM_none. intros kv b Hin Eb.
    apply bind_ok in Eb. destruct Eb as (op & _ & Eb). apply Ok_inj in Eb.
    subst b. rewrite nested_under_no_dot by auto. apply andb_false_r. }
  apply bind_ok in E. destruct E as (keysToSet & _ & E).
  apply bind_ok in E. destruct E as (kr & Ekr & E).
  apply (Hnone (fun op => negb (truthy op))) in Ekr. subst kr.
  cbn [map mapM bind foldM] in E.
  apply bind_ok in E. destruct E as (ki & Eki & E).
  apply (Hnone (fun op => str_is op "Increment")) in Eki. subst ki.
  cbn [map mapM bind foldM] in E.
  apply bind_ok in E. destruct E as (kd & _ & E).
  apply Ok_inj in E. apply pair_inj in E. destruct E as [_ E]. now symmetry.
Qed.

Lemma inl_inj {A B} (a b : A) : @inl A B a = inl b -> a = b.
Proof. intros E. now injection E. Qed.

Lemma update_field_frame schema orig f fv s s' fv' :
  (forall kv, In kv orig -> includes "." (fst kv) = false) ->
  update_field schema orig f fv s = Ok (inl (s', fv')) -> fv' = fv.
Proof.
  intros Hpl E. unfold update_field in E. cbv zeta in E.
  repeat match goal with
         | H : bind _ _ = Ok _ |- _ =>
             let a := fresh "a" in
             let E := fresh "E" in
             apply bind_ok in H; destruct H as (a & E & H); cbv beta in H
         | H : Throw _ = Ok _ |- _ => discriminate H
         | H : Ok (inr _) = Ok (inl _) |- _ => discriminate H
         | H : Ok _ = Ok _ |- _ => apply Ok_inj in H
         | H : inl _ = inl _ |- _ => apply inl_inj in H
         | H : (_, _) = (_, _) |- _ =>
             apply pair_inj in H; destruct H as [? ?]
         | H : match ?x with _ => _ end = Ok _ |- _ => destruct x eqn:?
         end; subst; try reflexivity.
  all: match goal with
       | H : object_branch _ _ _ _ = Ok _ |- _ =>
           apply (object_branch_frame _ _ _ _ _ _ Hpl) in H
       end; congruence.
Qed.

Lemma update_loop_frame schema orig fields s o :
  (forall kv, In kv orig -> includes "." (fst kv) = false) ->
  update_loop schema orig fields s = Ok o ->
  match o with
  | inl (_, fields') => fields' = fields
  | inr (_, fields') => fields' = fields
  end.
Proof.
  intros Hpl. revert s o.
  induction fields as [|[k v] r IH]; intros s o E; cbn [update_loop] in E.
  - apply Ok_inj in E. now subst.
  - apply bind_ok in E. destruct E as (o1 & E1 & E).
    destruct o1 as [[s1 v1]|e].
    + apply update_field_frame in E1; [|assumption]. subst v1.
      apply bind_ok in E. destruct E as (o2 & E2 & E).
      apply IH in E2.
      destruct o2 as [[s2 r2]|[e r2]]; apply Ok_inj in E; subst; reflexivity.
    + apply Ok_inj in E. now subst.
Qed.

Lemma foldM_fixed {A B} (f : A -> B -> result A) l a :
  (forall x, In x l -> f a x = Ok a) -> foldM f l a = Ok a.
Proof.
  induction l as [|x r IH]; intros Hf; cbn [foldM]; [reflexivity|].
  rewrite Hf by now left. cbn [bind]. apply IH. intros y Hy. apply Hf.
  now right.
Qed.

Lemma plain_keys_spec update k :
  plain_keys update = true -> In k (map fst (entries update)) ->
  includes "." k = false /\ authDataMatch k = None.
Proof.
  unfold plain_keys. rewrite forallb_forall. intros Hp Hin.
  apply in_map_iff in Hin. destruct Hin as (kv & <- & Hin).
  specialize (Hp _ Hin). apply andb_true_iff in Hp. destruct Hp as [Hd Ha].
  apply negb_true_iff in Hd. split; [exact Hd|].
  destruct (authDataMatch (fst kv)); [discriminate|reflexivity].
Qed.

Lemma transformUpdate_frame schema update out update' :
  plain_keys update = true ->
  transformUpdate schema update = Ok (out, update') ->
  update' = update.
Proof.
  intros Hp E. unfold transformUpdate in E.
  destruct (existsb _ _); [discriminate|].
  apply bind_ok in E. destruct E as (u1 & E1 & E).
  assert (u1 = update) as ->.
  { unfold handleDotFields in E1.
    apply bind_ok in E1. destruct E1 as (keys & Ek & E1).
    assert (keys = map fst (entries update)) as ->
      by (destruct update; try discriminate; apply Ok_inj in Ek; now subst).
    rewrite foldM_fixed in E1; [now apply Ok_inj in E1|].
    intros k Hin. unfold handleDotField.
    now rewrite (proj1 (plain_keys_spec _ _ Hp Hin)). }
  apply bind_ok in E. destruct E as (u2 & E2 & E).
  assert (u2 = update) as ->.
  { rewrite foldM_fixed in E2; [now apply Ok_inj in E2|].
    intros k Hin. unfold foldAuthData.
    now rewrite (proj2 (plain_keys_spec _ _ Hp Hin)). }
  apply bind_ok in E. destruct E as (o & Eo & E).
  apply update_loop_frame in Eo.
  2:{ intros kv Hin.
      apply (plain_keys_spec update (fst kv) Hp), in_map, Hin. }
  destruct o as [[s1 f1]|[e f1]]; apply Ok_inj in E;
    apply pair_inj in E; destruct E as [_ <-]; subst f1;
    apply rebuild_entries.
Qed.

(** *** Empty lists of [$in] and [$nin] *)

Lemma body_empty_in rec f sch s :
  has_fields sch ->
  includes "." f = false ->
  String.eqb f "$or" || String.eqb f "$and" = false ->
  is_array_field sch f = Ok false ->
  body rec f (JObj [("$in", JArr [])]) sch s
  = Ok (emit ("`" ++ tok (index s) ++ "` IS NULL") [JStr f] 1 s,
        JObj [("$in", JArr [])], sch).
Proof.
  intros Hs Hd Hor Hb.
  rewrite (body_others_pass rec f (JObj [("$in", JArr [])]) sch s false s
             (JObj [("$in", JArr [])]) sch Hs Hb); trivial.
  - change (in_branch f false sch (JObj [("$in", JArr [])]) s)
      with (Ok (emit ("`" ++ tok (index s) ++ "` IS NULL") [JStr f] 1 s)).
    cbn [bind]. unfold emit at 1. cbn [patterns]. rewrite snoc_length.
    rewrite (proj2 (Nat.eqb_neq _ _)) by lia. reflexivity.
  - unfold scalar_branch. rewrite Hd, Hor. reflexivity.
Qed.

(** C3: on a field that the schema does not declare as an array, the
    query [{f: {$in: []}}] compiles to the constraint that the column is
    null, with the field name as its only value; the query
    [{f: {$nin: []}}] does not compile: [createConstraint] pushes nothing
    for an empty list of [$nin], so the guard that closes the iteration
    throws the error of an unsupported query. *)
Theorem empty_in_and_empty_nin kvs fs sch1 f index :
  assoc "fields" kvs = Some (JObj fs) ->
  toMySQLSchema (JObj kvs) = Ok sch1 ->
  is_array_field sch1 f = Ok false ->
  includes "." f = false ->
  String.eqb f "$or" || String.eqb f "$and" = false ->
  buildWhereClause (JObj kvs) (JObj [(f, JObj [("$in", JArr [])])]) index
  = Ok {| pattern := "`" ++ tok index ++ "` IS NULL";
          out_values := [JStr f];
          out_sorts := [];
          schema_after := sch1;
          query_after := JObj [(f, JObj [("$in", JArr [])])] |}
  /\ buildWhereClause (JObj kvs) (JObj [(f, JObj [("$nin", JArr [])])]) index
     = Throw (ParseError OPERATION_FORBIDDEN
                ("MySQL does not support this query type yet "
                 ++ to_string (JObj [("$nin", JArr [])]))).
Proof.
  intros Hf Es Hb Hd Hor.
  destruct (toMySQLSchema_idem _ _ _ Hf Es) as [_ Hs].
  split.
  - unfold buildWhereClause. rewrite bwc_S, Es. cbn [bind entries loop].
    rewrite body_empty_in by assumption. reflexivity.
  - exact (proj1 (buildWhereClause_unsupported kvs fs f
                    (JObj [("$nin", JArr [])]) index Hf Hd Hor eq_refl)).
Qed.

(** *** Unsupported shapes, dotted names and the frame of a call *)


(** C5: the branch of a dotted field name does not bind the operand: it
    writes the name and the operand into the text.  For a field whose
    name contains a dot and whose value is a bare string, number or
    boolean, the iteration pushes the single fragment made of the JSON
    path expression of the name, an equals sign and the string rendering
    of the value between single quotes; it pushes no value and leaves the
    index where it was, where every other branch of the loop pushes the
    operand as a value and a placeholder for it.  A query made of this one
    field compiles to that fragment with an empty list of values, so the
    text of a string operand reaches the statement as it is. *)
Theorem dotted_field_inlined kvs fs f fv i :
  assoc "fields" kvs = Some (JObj fs) ->
  includes "." f = true ->
  is_scalar fv = true ->
  (forall rec sch s,
      has_fields sch ->
      exists s',
        body rec f fv sch s = Ok (s', fv, sch)
        /\ patterns s'
           = snoc (patterns s) (dotted_name f ++ " = '" ++ to_string fv ++ "'")
        /\ values s' = values s
        /\ index s' = index s)
  /\ exists out,
      buildWhereClause (JObj kvs) (JObj [(f, fv)]) i = Ok out
      /\ pattern out = dotted_name f ++ " = '" ++ to_string fv ++ "'"
      /\ out_values out = []
      /\ query_after out = JObj [(f, fv)].
Proof.
  intros Hf Hd Hsc. split.
  - intros rec sch s Hs. eexists. split.
    + apply body_dotted_scalar; assumption.
    + unfold emit. cbn [patterns values index].
      rewrite app_nil_r, Nat.add_0_r. repeat split.
  - pose proof (toMySQLSchema_object _ _ Hf) as Es.
    destruct (toMySQLSchema_idem _ _ _ Hf Es) as [_ Hs].
    eexists. split.
    + unfold buildWhereClause. rewrite bwc_S, Es. cbn [bind entries loop].
      rewrite body_dotted_scalar by assumption. reflexivity.
    + repeat split.
Qed.

(** C10: the [$eq] branch and each step of the loop over [$gt], [$lt],
    [$gte] and [$lte] push nothing when the operand is falsy; a field
    whose name has no dot and is neither [$or] nor [$and], and whose value
    is an object made only of such comparisons with falsy operands, makes
    the call throw the error of an unsupported query. *)
Theorem falsy_comparison_unsupported kvs fs f ops index :
  assoc "fields" kvs = Some (JObj fs) ->
  includes "." f = false ->
  String.eqb f "$or" || String.eqb f "$and" = false ->
  (forall fv s,
      present fv = true ->
      (truthy (prop fv "$eq") = false -> eq_branch f fv s = Ok s)
      /\ forall cmp sql,
           truthy (prop fv cmp) = false ->
           comparators [(cmp, sql)] f fv s = Ok s)
  /\ (falsy_comparisons ops = true ->
      buildWhereClause (JObj kvs) (JObj [(f, JObj ops)]) index
      = Throw (ParseError OPERATION_FORBIDDEN
                 ("MySQL does not support this query type yet "
                  ++ to_string (JObj ops)))).
Proof.
  intros Hf Hd Hor. split.
  - intros fv s Hp. split.
    + intros Hq. apply eq_branch_passes; assumption.
    + intros cmp sql Hq. apply comparators_pass; [assumption|].
      cbn [forallb fst]. now rewrite Hq.
  - intros Hfc.
    pose proof (proj1 (buildWhereClause_unsupported kvs fs f _ index Hf Hd Hor
                         (falsy_comparisons_no_operator _ Hfc))) as Ht.
    unfold unsupported_query in Ht.
    now rewrite (falsy_comparisons_render _ Hfc) in Ht.
Qed.

(** *** Schema view *)

(** C6: on a schema object with a field map, [toParseSchema] returns a
    schema whose field map has no [_wperm] and no [_rperm] (and no
    [_hashed_password] when the class is [_User]); its class-level
    permissions are allow-all for each of the six actions when the schema
    has no [classLevelPermissions] key, and otherwise, action by action,
    the supplied map where one is supplied and the empty map where none
    is. *)
Theorem toParseSchema_view (kvs fs : list (string * jsval)) :
  assoc "fields" kvs = Some (JObj fs) ->
  exists className fs' clps,
    toParseSchema (JObj kvs)
    = Ok (JObj [("className", className); ("fields", JObj fs');
                ("classLevelPermissions", JObj clps)])
    /\ assoc "_wperm" fs' = None
    /\ assoc "_rperm" fs' = None
    /\ (assoc "className" kvs = Some (JStr "_User") ->
        assoc "_hashed_password" fs' = None)
    /\ (assoc "classLevelPermissions" kvs = None ->
        forall a, In a clp_actions -> assoc a clps = Some allow_all)
    /\ (forall m,
           assoc "classLevelPermissions" kvs = Some (JObj m) ->
           NoDup (map fst m) ->
           forall a, In a clp_actions ->
             assoc a clps
             = Some (match assoc a m with Some v => v | None => JObj [] end)).
Proof.
  intros Hf.
  set (cn := match assoc "className" kvs with Some v => v | None => JUndef end).
  set (fs1 := if str_is cn "_User" then assoc_del "_hashed_password" fs else fs).
  set (fs2 := assoc_del "_rperm" (assoc_del "_wperm" fs1)).
  set (clp := match assoc "classLevelPermissions" kvs with
              | Some v => v | None => JUndef end).
  exists cn, fs2, (if truthy clp then spread emptyCLPS clp else defaultCLPS).
  split; [|split; [|split; [|split; [|split]]]].
  - unfold toParseSchema. simpl. rewrite Hf. fold cn. fold clp.
    unfold fs2, fs1. destruct (str_is cn "_User"); reflexivity.
  - subst fs2. rewrite assoc_del_other by reflexivity. apply assoc_del_same.
  - subst fs2. apply assoc_del_same.
  - intros Hc. subst fs2 fs1 cn. rewrite Hc. simpl.
    rewrite !assoc_del_other by reflexivity. apply assoc_del_same.
  - intros Hc a Ha. subst clp. rewrite Hc. simpl.
    unfold clp_actions in Ha. simpl in Ha.
    repeat (destruct Ha as [<-|Ha]; [reflexivity|]). contradiction.
  - intros m Hc Hnd a Ha. subst clp. rewrite Hc. simpl.
    rewrite spread_assoc by exact Hnd.
    destruct (assoc a m); [reflexivity|].
    unfold clp_actions in Ha. simpl in Ha.
    repeat (destruct Ha as [<-|Ha]; [reflexivity|]). contradiction.
Qed.

(** *** Backend errors *)

(** C8: a missing table reported by the MySQL driver
    ([ER_NO_SUCH_TABLE]) is swallowed by [find], which resolves to the
    empty list, and surfaces from [deleteObjectsByQuery]; but [count]
    compares the code with the Postgres constant, so the same error
    rejects the promise of [count] instead of resolving to zero. *)
Theorem count_rejects_missing_table (convert : jsval -> jsval) :
  find convert (DbRejected MySQLRelationDoesNotExistError) = Resolved []
  /\ deleteObjectsByQuery (DbRejected MySQLRelationDoesNotExistError)
     = Rejected (DriverError MySQLRelationDoesNotExistError)
  /\ count (DbRejected MySQLRelationDoesNotExistError)
     = Rejected (DriverError MySQLRelationDoesNotExistError).
Proof. repeat split. Qed.

(** ** Further properties *)

(** *** The regex helpers *)

Lemma createLiteralRegex_cons c r :
  createLiteralRegex (String c r)
  = (if is_alnum c then String c ""
     else if Ascii.eqb c "'" then "''"
     else String backslash (String c "")) ++ createLiteralRegex r.
Proof.
  unfold createLiteralRegex, chars. cbn [list_ascii_of_string map].
  destruct (map _ (list_ascii_of_string r)) eqn:E; cbn [String.concat].
  - now rewrite str_app_nil_r.
  - reflexivity.
Qed.

Lemma createLiteralRegex_app a b :
  createLiteralRegex (a ++ b) = createLiteralRegex a ++ createLiteralRegex b.
Proof.
  induction a as [|c r IH]; [reflexivity|].
  cbn [append]. rewrite !createLiteralRegex_cons, IH, str_app_assoc.
  reflexivity.
Qed.

(** X1: [createLiteralRegex] escapes a text character by character: the
    result for a concatenation is the concatenation of the results, a
    text of letters and digits is returned as it is, and the result is at
    least as long as the text and at most twice as long. *)
Theorem createLiteralRegex_escapes :
  (forall a b,
      createLiteralRegex (a ++ b)
      = createLiteralRegex a ++ createLiteralRegex b)
  /\ (forall s, forallb is_alnum (chars s) = true -> createLiteralRegex s = s)
  /\ (forall s, String.length s <= String.length (createLiteralRegex s)
                /\ String.length (createLiteralRegex s) <= 2 * String.length s).
Proof.
  split; [exact createLiteralRegex_app|]. split.
  - induction s as [|c r IH]; [reflexivity|].
    unfold chars. cbn [list_ascii_of_string forallb]. intros Hs.
    apply andb_true_iff in Hs. destruct Hs as [Hc Hr].
    rewrite createLiteralRegex_cons, Hc. cbn [append]. f_equal. exact (IH Hr).
  - induction s as [|c r IH]; [simpl; lia|].
    rewrite createLiteralRegex_cons, str_length_app. cbn [String.length].
    destruct (is_alnum c); [simpl; lia|].
    destruct (Ascii.eqb c "'"); simpl; lia.
Qed.

(** X2: [createLiteralRegex] is injective: two texts with the same
    escaped form are the same text. *)
Theorem createLiteralRegex_injective a b :
  createLiteralRegex a = createLiteralRegex b -> a = b.
Proof.
  revert b. induction a as [|c r IH]; intros [|d t].
  - reflexivity.
  - rewrite createLiteralRegex_cons.
    change (createLiteralRegex "") with "".
    destruct (is_alnum d); [discriminate|].
    destruct (Ascii.eqb d "'"); discriminate.
  - rewrite createLiteralRegex_cons.
    change (createLiteralRegex "") with "".
    destruct (is_alnum c); [discriminate|].
    destruct (Ascii.eqb c "'"); discriminate.
  - rewrite !createLiteralRegex_cons.
    destruct (is_alnum c) eqn:Hc, (is_alnum d) eqn:Hd.
    + cbn [append]. intros E. injection E as -> E. f_equal. auto.
    + destruct (Ascii.eqb d "'") eqn:Hq; cbn [append]; intros E;
        injection E as E _; subst c.
      * discriminate Hc.
      * discriminate Hc.
    + destruct (Ascii.eqb c "'") eqn:Hq; cbn [append]; intros E;
        injection E as E _; subst d.
      * discriminate Hd.
      * discriminate Hd.
    + destruct (Ascii.eqb c "'") eqn:Hq, (Ascii.eqb d "'") eqn:Hq'.
      * apply Ascii.eqb_eq in Hq, Hq'. subst. cbn [append].
        intros E. injection E as E. f_equal. auto.
      * cbn [append]. intros E. injection E as E _. discriminate E.
      * cbn [append]. intros E. injection E as E _. discriminate E.
      * cbn [append]. intros E. injection E as E1 E2. subst. f_equal. auto.
Qed.

Lemma plain_text_cons c r :
  plain_text (String c r) = true ->
  Ascii.eqb c backslash = false /\ Ascii.eqb c "'" = false
  /\ plain_text r = true.
Proof.
  unfold plain_text, chars. cbn [list_ascii_of_string forallb]. intros Hp.
  apply andb_true_iff in Hp. destruct Hp as [Hc Hr].
  apply andb_true_iff in Hc. destruct Hc as [Hb Hq].
  apply negb_true_iff in Hb, Hq. auto.
Qed.

Lemma starts_with_backslash m s c r :
  s = String c r -> Ascii.eqb c backslash = false ->
  starts_with (String backslash m) s = false.
Proof.
  intros -> Hc. cbn [starts_with]. rewrite Ascii.eqb_sym, Hc. reflexivity.
Qed.

Lemma plain_text_no_marker m s :
  plain_text s = true -> starts_with (String backslash m) s = false.
Proof.
  destruct s as [|c r]; [reflexivity|]. intros Hp.
  apply plain_text_cons in Hp. destruct Hp as (Hb & _ & _).
  eapply starts_with_backslash; eauto.
Qed.

Lemma plain_text_search_none here s :
  (forall t, plain_text t = true -> here t = None) ->
  plain_text s = true -> search here s = None.
Proof.
  intros Hh. induction s as [|c r IH]; intros Hp; cbn [search].
  - now rewrite Hh.
  - rewrite (Hh _ Hp). apply plain_text_cons in Hp.
    destruct Hp as (_ & _ & Hr). now rewrite IH.
Qed.

Lemma plain_text_drop_marker m s :
  plain_text s = true -> drop_marker (String backslash m) s = s.
Proof.
  induction s as [|c r IH]; [reflexivity|]. intros Hp.
  apply plain_text_cons in Hp. destruct Hp as (_ & _ & Hr).
  cbn [drop_marker]. rewrite (plain_text_no_marker m r Hr), andb_false_r.
  now rewrite IH.
Qed.

Lemma plain_text_double_quote_after s :
  plain_text s = true -> double_quote_after s = s.
Proof.
  induction s as [|c r IH]; [reflexivity|]. intros Hp.
  apply plain_text_cons in Hp. destruct Hp as (_ & _ & Hr).
  cbn [double_quote_after].
  assert (Hq : starts_with "'" r = false).
  { destruct r as [|d t]; [reflexivity|].
    apply plain_text_cons in Hr. destruct Hr as (_ & Hq & _).
    cbn [starts_with]. now rewrite Ascii.eqb_sym, Hq. }
  rewrite Hq, andb_false_r. now rewrite IH.
Qed.

Lemma plain_text_index_of m s :
  plain_text s = true -> index_of (String backslash m) s = None.
Proof.
  induction s as [|c r IH]; [reflexivity|]. intros Hp.
  cbn [index_of]. rewrite (plain_text_no_marker m _ Hp).
  apply plain_text_cons in Hp. destruct Hp as (_ & _ & Hr).
  now rewrite IH.
Qed.

Lemma plain_text_strip_markers s : plain_text s = true -> strip_markers s = s.
Proof.
  intros Hp. unfold strip_markers.
  change "\E" with (String backslash "E").
  change "\Q" with (String backslash "Q").
  change "\w" with (String backslash "w").
  rewrite (plain_text_drop_marker "E" s Hp), (plain_text_drop_marker "Q" s Hp).
  unfold drop_leading.
  rewrite (plain_text_no_marker "E" s Hp), (plain_text_no_marker "Q" s Hp).
  rewrite plain_text_double_quote_after by assumption.
  unfold replace_first.
  assert (Hd : double_leading_quote s = s).
  { destruct s as [|a [|b r]]; try reflexivity.
    apply plain_text_cons in Hp. destruct Hp as (_ & Hq & _).
    cbn [double_leading_quote]. now rewrite Hq. }
  rewrite Hd, plain_text_index_of by assumption. reflexivity.
Qed.

Lemma plain_text_literalize s : plain_text s = true -> literalizeRegexPart s = s.
Proof.
  intros Hp. rewrite literalizeRegexPart_eq.
  rewrite !plain_text_search_none; trivial.
  - now apply plain_text_strip_markers.
  - intros t Ht. unfold matcher2_here.
    change "\Q" with (String backslash "Q").
    now rewrite plain_text_no_marker.
  - intros t Ht. unfold matcher1_here.
    change "\Q" with (String backslash "Q").
    now rewrite plain_text_no_marker.
Qed.

Lemma str_rev_onto_spec s acc : str_rev_onto s acc = str_rev s ++ acc.
Proof.
  unfold str_rev. revert acc.
  induction s as [|c r IH]; intros acc; cbn [str_rev_onto]; [reflexivity|].
  rewrite IH, (IH (String c "")), str_app_assoc. reflexivity.
Qed.

Lemma str_rev_app s t : str_rev (s ++ t) = str_rev t ++ str_rev s.
Proof.
  unfold str_rev at 1. rewrite str_rev_onto_app, str_rev_onto_spec.
  reflexivity.
Qed.

Lemma str_rev_involutive s : str_rev (str_rev s) = s.
Proof.
  induction s as [|c r IH]; [reflexivity|].
  change (String c r) with (String c "" ++ r) at 1.
  rewrite str_rev_app, str_rev_app, IH. reflexivity.
Qed.

Lemma ends_with_char c s :
  ends_with (String c "") s = true ->
  s = str_take (String.length s - 1) s ++ String c "".
Proof.
  unfold ends_with. change (str_rev (String c "")) with (String c "").
  intros He. destruct (str_rev s) as [|d t] eqn:Er; [discriminate|].
  cbn [starts_with] in He.
  destruct (Ascii.eqb c d) eqn:Ec; [|discriminate].
  apply Ascii.eqb_eq in Ec. subst d.
  assert (Hs : s = str_rev t ++ String c "").
  { rewrite <- (str_rev_involutive s), Er.
    change (String c t) with (String c "" ++ t). now rewrite str_rev_app. }
  assert (Hl : String.length s - 1 = String.length (str_rev t)).
  { rewrite Hs, str_length_app. simpl. lia. }
  rewrite Hl. rewrite Hs at 2. rewrite str_take_app. exact Hs.
Qed.

Lemma plain_text_app a b :
  plain_text (a ++ b) = plain_text a && plain_text b.
Proof.
  induction a as [|c r IH]; [reflexivity|].
  unfold plain_text, chars in *. cbn [append list_ascii_of_string forallb].
  rewrite IH. now rewrite andb_assoc.
Qed.

(** X3: a pattern without backslash and without single quote goes
    through [processRegexPattern] unchanged: outside the spans marked by
    the quoting markers the characters of a regular expression are not
    escaped. *)
Theorem processRegexPattern_plain s :
  plain_text s = true ->
  literalizeRegexPart s = s /\ processRegexPattern s = s.
Proof.
  intros Hp. split; [now apply plain_text_literalize|].
  unfold processRegexPattern.
  destruct (String.eqb s "") eqn:Ee.
  - cbn [negb andb]. now apply plain_text_literalize.
  - cbn [negb andb]. destruct (starts_with "^" s) eqn:Hs.
    + destruct s as [|c r]; [discriminate|]. cbn [starts_with] in Hs.
      destruct (Ascii.eqb "^" c) eqn:Ec; [|discriminate].
      apply Ascii.eqb_eq in Ec. subst c. cbn [str_drop].
      apply plain_text_cons in Hp. destruct Hp as (_ & _ & Hr).
      now rewrite plain_text_literalize.
    + destruct (ends_with "$" s) eqn:He.
      * pose proof (ends_with_char _ _ He) as Hs'.
        assert (Hpre : plain_text (str_take (String.length s - 1) s) = true).
        { rewrite Hs' in Hp. rewrite plain_text_app in Hp.
          apply andb_true_iff in Hp. tauto. }
        rewrite plain_text_literalize by assumption. now symmetry.
      * now apply plain_text_literalize.
Qed.

Lemma dense_text_cons c r :
  dense_text (String c r) = true ->
  is_space c = false /\ Ascii.eqb c "#" = false /\ dense_text r = true.
Proof.
  unfold dense_text, chars. cbn [list_ascii_of_string forallb]. intros Hp.
  apply andb_true_iff in Hp. destruct Hp as [Hc Hr].
  apply andb_true_iff in Hc. destruct Hc as [Hb Hq].
  apply negb_true_iff in Hb, Hq. auto.
Qed.

Lemma dense_text_app a b :
  dense_text (a ++ b) = dense_text a && dense_text b.
Proof.
  induction a as [|c r IH]; [reflexivity|].
  unfold dense_text, chars in *. cbn [append list_ascii_of_string forallb].
  rewrite IH. now rewrite andb_assoc.
Qed.

Lemma dense_text_rev s : dense_text (str_rev s) = dense_text s.
Proof.
  induction s as [|c r IH]; [reflexivity|].
  change (String c r) with (String c "" ++ r).
  rewrite str_rev_app, !dense_text_app, IH. apply andb_comm.
Qed.

Lemma dense_text_no_hash s t :
  dense_text s = true -> starts_with "#" t = false ->
  starts_with "#" (s ++ t) = false.
Proof.
  destruct s as [|c r]; [trivial|]. intros Hd _.
  apply dense_text_cons in Hd. destruct Hd as (_ & Hh & _).
  cbn [append starts_with]. now rewrite Ascii.eqb_sym, Hh.
Qed.

Lemma dense_strip_comments s :
  dense_text s = true ->
  strip_comments false (s ++ String "010" "") = s ++ String "010" "".
Proof.
  induction s as [|c r IH]; [reflexivity|]. intros Hd.
  apply dense_text_cons in Hd. destruct Hd as (_ & _ & Hr).
  cbn [append strip_comments].
  rewrite (dense_text_no_hash r (String "010" "") Hr eq_refl), andb_false_r.
  cbn [andb].
  now rewrite IH.
Qed.

Lemma dense_strip_comment_lines s bol :
  dense_text s = true ->
  strip_comment_lines bol false (s ++ String "010" "") = s ++ String "010" "".
Proof.
  revert bol. induction s as [|c r IH]; intros bol Hd.
  - cbn [append strip_comment_lines]. rewrite andb_false_r. reflexivity.
  - apply dense_text_cons in Hd. destruct Hd as (_ & Hh & Hr).
    cbn [append strip_comment_lines]. rewrite Hh, andb_false_r. cbn [andb].
    now rewrite IH.
Qed.

Lemma strip_spaces_step c d r :
  is_space d = false ->
  strip_spaces false (String c (String d r))
  = String c (strip_spaces false (String d r)).
Proof.
  intros Hd. cbn [strip_spaces andb]. rewrite Hd, andb_false_r. reflexivity.
Qed.

Lemma dense_strip_spaces s :
  dense_text s = true ->
  exists t, strip_spaces false (s ++ String "010" "") = s ++ t
            /\ (t = "" \/ t = String "010" "").
Proof.
  induction s as [|c r IH]; intros Hd.
  - exists (String "010" ""). split; [reflexivity|now right].
  - apply dense_text_cons in Hd. destruct Hd as (Hs & _ & Hr).
    destruct r as [|d r'].
    + cbn [append strip_spaces].
      change (is_space "010") with true. cbn [andb].
      destruct (Ascii.eqb c backslash); cbn [negb andb].
      * exists (String "010" ""). split; [reflexivity|now right].
      * exists "". split; [reflexivity|now left].
    + destruct (IH Hr) as (t & Et & Ht).
      pose proof (dense_text_cons _ _ Hr) as (Hsd & _ & _).
      cbn [append]. cbn [append] in Et.
      rewrite (strip_spaces_step c d _ Hsd), Et.
      exists t. split; [reflexivity|exact Ht].
Qed.

Lemma dense_trim_start s t : dense_text s = true -> s <> "" -> trim_start (s ++ t) = s ++ t.
Proof.
  destruct s as [|c r]; [congruence|]. intros Hd _.
  apply dense_text_cons in Hd. destruct Hd as (Hs & _ & _).
  cbn [append trim_start]. now rewrite Hs.
Qed.

Lemma dense_trim_start_id s : dense_text s = true -> trim_start s = s.
Proof.
  destruct s as [|c r]; [reflexivity|]. intros Hd.
  apply dense_text_cons in Hd. destruct Hd as (Hs & _ & _).
  cbn [trim_start]. now rewrite Hs.
Qed.

Lemma dense_trim s t :
  dense_text s = true -> t = "" \/ t = String "010" "" ->
  trim (trim_start (s ++ t)) = s.
Proof.
  intros Hd Ht.
  assert (Hts : exists u, trim_start (s ++ t) = s ++ u
                          /\ (u = "" \/ u = String "010" "")).
  { destruct s as [|c r].
    - exists "". destruct Ht as [-> | ->]; split; auto.
    - exists t. split; [|exact Ht]. apply dense_trim_start; congruence. }
  destruct Hts as (u & -> & Hu). unfold trim.
  assert (Hts : exists v, trim_start (s ++ u) = s ++ v
                          /\ (v = "" \/ v = String "010" "")).
  { destruct s as [|c r].
    - exists "". destruct Hu as [-> | ->]; split; auto.
    - exists u. split; [|exact Hu]. apply dense_trim_start; congruence. }
  destruct Hts as (v & -> & Hv).
  rewrite str_rev_app.
  assert (Hr : trim_start (str_rev v ++ str_rev s) = str_rev s).
  { destruct Hv as [-> | ->].
    - cbn [str_rev str_rev_onto append]. apply dense_trim_start_id.
      now rewrite dense_text_rev.
    - change (str_rev (String "010" "")) with (String "010" "").
      cbn [append trim_start]. change (is_space "010") with true.
      cbv iota. apply dense_trim_start_id. now rewrite dense_text_rev. }
  rewrite Hr. apply str_rev_involutive.
Qed.

(** X4: [removeWhiteSpace] returns a pattern without whitespace and
    without [#] as it is. *)
Theorem removeWhiteSpace_dense s :
  dense_text s = true -> removeWhiteSpace s = s.
Proof.
  intros Hd. unfold removeWhiteSpace.
  assert (He : ends_with (String "010" "") s = false).
  { destruct (ends_with (String "010" "") s) eqn:He; [|reflexivity].
    apply ends_with_char in He. rewrite He, dense_text_app in Hd.
    apply andb_true_iff in Hd. destruct Hd as [_ Hd]. discriminate Hd. }
  rewrite He, dense_strip_comments, dense_strip_comment_lines by assumption.
  destruct (dense_strip_spaces s Hd) as (t & -> & Ht).
  now apply dense_trim.
Qed.

(** *** Edge cases of the predicate compiler *)

(** X5: a query without enumerable properties (the empty object, the
    empty array, [null], [undefined], a number or a boolean) compiles, on
    a schema with a field map, to the empty pattern with no values and no
    sort expressions, and is left as it was. *)
Theorem buildWhereClause_empty kvs fs query i :
  assoc "fields" kvs = Some (JObj fs) ->
  entries query = [] ->
  exists out,
    buildWhereClause (JObj kvs) query i = Ok out
    /\ pattern out = "" /\ out_values out = [] /\ out_sorts out = []
    /\ query_after out = query.
Proof.
  intros Hf He. eexists. split.
  - unfold buildWhereClause. rewrite bwc_S, (toMySQLSchema_object _ _ Hf).
    cbn [bind]. rewrite He. cbn [loop bind mapM values]. reflexivity.
  - cbn [pattern out_values out_sorts query_after patterns sorts join].
    repeat split. rewrite <- He. apply rebuild_entries.
Qed.

Lemma get_fields_object kvs fs :
  assoc "fields" kvs = Some (JObj fs) -> get (JObj kvs) "fields" = Ok (JObj fs).
Proof. intros Hf. cbn [get]. now rewrite Hf. Qed.

(** The loop body on a field the schema does not declare, whose value
    asks that the field does not exist. *)
Lemma body_exists_false rec f fv kvs fs s :
  assoc "fields" kvs = Some (JObj fs) ->
  truthy (lookup f fs) = false ->
  truthy fv = true ->
  prop fv "$exists" = JBool false ->
  body rec f fv (JObj kvs) s = Ok (s, fv, JObj kvs).
Proof.
  intros Hf Hu Ht He. unfold body.
  destruct (is_array_field_has_fields (JObj kvs) f) as [b Hb];
    [eexists _, _; eauto|].
  rewrite Hb, (get_fields_object _ _ Hf). cbn [bind].
  rewrite get_object. cbn [bind]. rewrite Hu. cbn [negb andb]. rewrite Ht.
  rewrite (present_get _ _ (truthy_present _ Ht)), He. reflexivity.
Qed.

(** X6: a field whose name is not the name of a member inherited from
    [Object.prototype], that the schema does not declare, not even as an
    implicit field, and whose value has [$exists: false], is passed over:
    whatever else the value holds, the iteration pushes no fragment and no
    value, and a query made of this one field compiles to the empty
    pattern.  (Under an inherited name such as [constructor] the read
    [schema.fields[fieldName]] returns the inherited member, so the field
    counts as declared.) *)
Theorem exists_false_on_undeclared_field kvs fs f fv i :
  assoc "fields" kvs = Some (JObj fs) ->
  inherited_name f = false ->
  truthy (lookup f (with_implicit_fields (lookup "className" kvs) fs)) = false ->
  truthy fv = true ->
  prop fv "$exists" = JBool false ->
  exists out,
    buildWhereClause (JObj kvs) (JObj [(f, fv)]) i = Ok out
    /\ pattern out = "" /\ out_values out = []
    /\ query_after out = JObj [(f, fv)].
Proof.
  intros Hf _ Hu Ht He. eexists. split.
  - unfold buildWhereClause. rewrite bwc_S, (toMySQLSchema_object _ _ Hf).
    cbn [bind entries loop].
    rewrite (body_exists_false _ f fv _ _ _ (assoc_set_same _ _ _) Hu Ht He).
    cbn [bind loop mapM values]. reflexivity.
  - repeat split.
Qed.

(** *** Values handed to [transformValue] *)






(** *** Composition of sub-queries *)

Lemma bwc_on_stored_schema fuel kvs fs sch1 q i :
  assoc "fields" kvs = Some (JObj fs) ->
  toMySQLSchema (JObj kvs) = Ok sch1 ->
  bwc fuel sch1 q i = bwc fuel (JObj kvs) q i.
Proof.
  intros Hf Es. destruct (toMySQLSchema_idem _ _ _ Hf Es) as [Hi _].
  destruct fuel as [|fuel]; [reflexivity|].
  now rewrite !bwc_S, Hi, Es.
Qed.

Lemma ltb_length_nonempty p : p <> "" -> Nat.ltb 0 (String.length p) = true.
Proof. destruct p; [congruence|reflexivity]. Qed.

(** X8: [$or] and [$and] compose the fragments of their sub-queries:
    when the first sub-query compiles at the running index and the second
    one at the index advanced by the number of values of the first, both
    to non-empty patterns, the query compiles to the two patterns joined
    by the connective between parentheses, with the values of the first
    followed by those of the second, passed once more through
    [transformValue]; the sort expressions of the sub-queries are
    dropped. *)
Theorem or_and_compose kvs fs op q1 q2 i o1 o2 vs :
  assoc "fields" kvs = Some (JObj fs) ->
  op = "$or" \/ op = "$and" ->
  buildWhereClause (JObj kvs) q1 i = Ok o1 ->
  pattern o1 <> "" ->
  buildWhereClause (JObj kvs) q2 (i + List.length (out_values o1)) = Ok o2 ->
  pattern o2 <> "" ->
  mapM transformValue (out_values o1 ++ out_values o2)%list = Ok vs ->
  exists out,
    buildWhereClause (JObj kvs) (JObj [(op, JArr [q1; q2])]) i = Ok out
    /\ pattern out
       = "(" ++ pattern o1 ++ (if String.eqb op "$or" then " OR " else " AND ")
         ++ pattern o2 ++ ")"
    /\ out_values out = vs
    /\ out_sorts out = [].
Proof.
  intros Hf Hop E1 Hp1 E2 Hp2 Ev.
  pose proof (toMySQLSchema_object _ _ Hf) as Es.
  destruct (toMySQLSchema_idem _ _ _ Hf Es) as [_ Hs].
  set (sch1 := JObj (assoc_set "fields"
                       (JObj (with_implicit_fields (lookup "className" kvs) fs))
                       kvs)) in *.
  set (fuel := depth (JObj [(op, JArr [q1; q2])])).
  assert (Hd1 : depth q1 < fuel) by (unfold fuel; simpl; lia).
  assert (Hd2 : depth q2 < fuel) by (unfold fuel; simpl; lia).
  assert (R1 : bwc fuel sch1 q1 i = Ok o1).
  { rewrite (bwc_on_stored_schema _ _ _ _ _ _ Hf Es).
    now rewrite bwc_fuel_independent. }
  assert (S1 : schema_after o1 = sch1).
  { destruct (bwc_frame _ _ _ _ _ _ Hf E1) as [Hs1 _].
    rewrite Es in Hs1. apply Ok_inj in Hs1. now symmetry. }
  assert (R2 : bwc fuel sch1 q2 (i + List.length (out_values o1)) = Ok o2).
  { rewrite (bwc_on_stored_schema _ _ _ _ _ _ Hf Es).
    now rewrite bwc_fuel_independent. }
  assert (S2 : schema_after o2 = sch1).
  { destruct (bwc_frame _ _ _ _ _ _ Hf E2) as [Hs2 _].
    rewrite Es in Hs2. apply Ok_inj in Hs2. now symmetry. }
  assert (Hsub : sub_clauses (bwc fuel) sch1 [q1; q2] i
                 = Ok ([pattern o1; pattern o2],
                       (out_values o1 ++ out_values o2 ++ [])%list,
                       i + List.length (out_values o1)
                       + List.length (out_values o2),
                       sch1, [query_after o1; query_after o2])).
  { cbn [sub_clauses]. rewrite R1. cbn [bind].
    rewrite (ltb_length_nonempty _ Hp1), S1, R2. cbn [bind].
    rewrite (ltb_length_nonempty _ Hp2), S2. reflexivity. }
  destruct (is_array_field_has_fields sch1 op Hs) as [b Hb].
  assert (Hdot : includes "." op = false)
    by (destruct Hop as [-> | ->]; reflexivity).
  assert (Hor : String.eqb op "$or" || String.eqb op "$and" = true)
    by (destruct Hop as [-> | ->]; reflexivity).
  set (sep := if String.eqb op "$or" then " OR " else " AND ").
  set (s1 := {| patterns := ["(" ++ join sep [pattern o1; pattern o2] ++ ")"];
                values := (out_values o1 ++ out_values o2 ++ [])%list;
                sorts := [];
                index := i + List.length (out_values o1)
                         + List.length (out_values o2) |}).
  eexists. split.
  - unfold buildWhereClause. fold fuel. rewrite bwc_S, Es.
    cbn [bind entries loop].
    rewrite (body_others_pass _ op (JArr [q1; q2]) sch1 _ b s1
               (JArr [query_after o1; query_after o2]) sch1 Hs Hb).
    + rewrite in_branch_passes by reflexivity. cbn [bind].
      unfold s1. cbn [patterns List.length Nat.eqb bind loop values].
      rewrite app_nil_r, Ev. cbn [bind]. reflexivity.
    + intros _. reflexivity.
    + unfold scalar_branch. rewrite Hdot, Hor. cbn [index patterns values sorts].
      rewrite Hsub. reflexivity.
    + reflexivity.
    + reflexivity.
  - cbn [pattern out_values out_sorts patterns sorts join].
    repeat split. unfold sep. now rewrite !str_app_assoc.
Qed.


(** *** The stored schema and its view *)

Lemma assoc_set_absent k v (l : list (string * jsval)) :
  assoc k l = None -> assoc_set k v l = (l ++ [(k, v)])%list.
Proof.
  induction l as [|[k' v'] r IH]; cbn [assoc assoc_set app]; [reflexivity|].
  destruct (String.eqb k k'); [discriminate|]. intros Hn. now rewrite IH.
Qed.

Lemma assoc_del_absent k (l : list (string * jsval)) :
  assoc k l = None -> assoc_del k l = l.
Proof.
  unfold assoc_del.
  induction l as [|[k' v'] r IH]; cbn [assoc filter fst]; [reflexivity|].
  destruct (String.eqb k k'); [discriminate|]. intros Hn. cbn [negb].
  now rewrite IH.
Qed.

Lemma assoc_del_app k (a b : list (string * jsval)) :
  assoc_del k (a ++ b)%list = (assoc_del k a ++ assoc_del k b)%list.
Proof. unfold assoc_del. apply filter_app. Qed.

Lemma assoc_del_tail k (a b : list (string * jsval)) :
  assoc k a = None ->
  assoc_del k (a ++ b)%list = (a ++ assoc_del k b)%list.
Proof. intros Hn. now rewrite assoc_del_app, assoc_del_absent. Qed.

Lemma assoc_app_none k (a b : list (string * jsval)) :
  assoc k a = None -> assoc k (a ++ b)%list = assoc k b.
Proof.
  induction a as [|[k' v'] r IH]; cbn [assoc app]; [reflexivity|].
  destruct (String.eqb k k'); [discriminate|]. exact IH.
Qed.

(** X9: [toParseSchema] undoes [toMySQLSchema] on the field map, except
    for one field: on a schema whose field map declares none of the
    implicit fields, the view of the stored schema has the class name and
    the field map of the original, but for the class [_User] the field
    [_password_history] added by [toMySQLSchema] is still there. *)
Theorem schema_round_trip kvs fs :
  assoc "fields" kvs = Some (JObj fs) ->
  assoc "_wperm" fs = None ->
  assoc "_rperm" fs = None ->
  assoc "_hashed_password" fs = None ->
  assoc "_password_history" fs = None ->
  exists sch1 view,
    toMySQLSchema (JObj kvs) = Ok sch1
    /\ toParseSchema sch1 = Ok view
    /\ prop view "className" = lookup "className" kvs
    /\ prop view "fields"
       = JObj (if str_is (lookup "className" kvs) "_User"
               then (fs ++ [("_password_history",
                             JObj [("type", JStr "Array")])])%list
               else fs).
Proof.
  intros Hf Hw Hr Hh Hp.
  assert (Hcn : forall x, lookup "className" (assoc_set "fields" x kvs)
                          = lookup "className" kvs).
  { intros x. unfold lookup. now rewrite assoc_set_other. }
  assert (Hfs : forall x, lookup "fields" (assoc_set "fields" x kvs) = x).
  { intros x. unfold lookup. now rewrite assoc_set_same. }
  assert (Hfw : assoc_set "_rperm" array_of_string
                  (assoc_set "_wperm" array_of_string fs)
                = (fs ++ [("_wperm", array_of_string);
                          ("_rperm", array_of_string)])%list).
  { rewrite (assoc_set_absent "_wperm" _ fs Hw).
    rewrite assoc_set_absent by (now rewrite assoc_app_none).
    now rewrite <- app_assoc. }
  pose proof (toMySQLSchema_object _ _ Hf) as Es.
  unfold with_implicit_fields in Es. rewrite Hfw in Es.
  destruct (str_is (lookup "className" kvs) "_User") eqn:Eu.
  - rewrite (assoc_set_absent "_hashed_password") in Es
      by (now rewrite assoc_app_none).
    rewrite (assoc_set_absent "_password_history") in Es
      by (rewrite <- app_assoc; now rewrite assoc_app_none).
    rewrite <- !app_assoc in Es. cbn [app] in Es.
    eexists. eexists. split; [exact Es|].
    unfold toParseSchema. rewrite !get_object, Hcn, !Hfs. cbn [bind].
    rewrite Eu. cbn [delete bind truthy].
    rewrite (assoc_del_tail _ _ _ Hh), (assoc_del_tail _ _ _ Hw),
      (assoc_del_tail _ _ _ Hr).
    split; [reflexivity|]. split; reflexivity.
  - eexists. eexists. split; [exact Es|].
    unfold toParseSchema. rewrite !get_object, Hcn, !Hfs. cbn [bind].
    rewrite Eu. cbn [delete bind truthy].
    rewrite (assoc_del_tail _ _ _ Hw), (assoc_del_tail _ _ _ Hr).
    split; [reflexivity|]. split; [reflexivity|].
    unfold prop. cbn. now rewrite app_nil_r.
Qed.


(** *** Dotted keys of an update *)

Lemma split_on_components c s x :
  In x (split_on c s) -> forallb (fun a => negb (Ascii.eqb a c)) (chars x) = true.
Proof.
  revert x. induction s as [|a r IH]; intros x; cbn [split_on].
  - intros [<-|[]]. reflexivity.
  - destruct (Ascii.eqb a c) eqn:Ea.
    + intros [<-|Hin]; [reflexivity|auto].
    + destruct (split_on c r) as [|h t] eqn:Es.
      * intros [<-|[]]. unfold chars. cbn. now rewrite Ea.
      * intros [<-|Hin].
        -- unfold chars. cbn [list_ascii_of_string forallb]. rewrite Ea.
           cbn [negb andb]. apply IH. now left.
        -- apply IH. now right.
Qed.

Lemma no_char_includes c x :
  forallb (fun a => negb (Ascii.eqb a c)) (chars x) = true ->
  includes (String c "") x = false.
Proof.
  unfold includes. induction x as [|a r IH]; [reflexivity|].
  unfold chars. cbn [list_ascii_of_string forallb]. intros Hx.
  apply andb_true_iff in Hx. destruct Hx as [Ha Hr].
  apply negb_true_iff in Ha. cbn [index_of starts_with].
  rewrite Ascii.eqb_sym, Ha. specialize (IH Hr).
  destruct (index_of (String c "") r); [discriminate|reflexivity].
Qed.

Lemma split_on_no_dot_component s x :
  In x (split_on "." s) -> includes "." x = false.
Proof. intros Hin. apply no_char_includes. eapply split_on_components; eauto. Qed.

Lemma in_assoc_set k v k' v' (l : list (string * jsval)) :
  In (k', v') (assoc_set k v l) -> k' = k \/ In (k', v') l.
Proof.
  induction l as [|[k0 v0] r IH]; cbn [assoc_set].
  - intros [E|[]]. apply pair_inj in E. left. now destruct E.
  - destruct (String.eqb k k0) eqn:Ek.
    + apply String.eqb_eq in Ek. subst k0.
      intros [E|Hin]; [apply pair_inj in E; left; now destruct E|].
      right. now right.
    + intros [E|Hin]; [right; now left|].
      destruct (IH Hin); [now left|right; now right].
Qed.

Lemma in_assoc_del k k' v' (l : list (string * jsval)) :
  In (k', v') (assoc_del k l) -> k' <> k /\ In (k', v') l.
Proof.
  unfold assoc_del. rewrite filter_In. cbn [fst]. intros [Hin Hk].
  split; [|exact Hin]. intros ->. now rewrite String.eqb_refl in Hk.
Qed.

Lemma handleDotField_pending o k pending o' :
  dots_pending o (k :: pending) ->
  handleDotField o k = Ok o' ->
  dots_pending o' pending.
Proof.
  intros (kvs & -> & Hk) E. unfold handleDotField in E.
  destruct (includes "." k) eqn:Hd.
  - destruct (split_on "." k) as [|first components] eqn:Es.
    + apply Ok_inj in E. subst o'. exists kvs. split; [reflexivity|].
      intros k' v' Hin. destruct (Hk _ _ Hin) as [Hn|[<-|Hp]]; auto.
      exfalso. clear -Es. destruct k; cbn in Es; [discriminate|].
      destruct (Ascii.eqb a "."); [discriminate|].
      destruct (split_on "." k); discriminate.
    + assert (Hfirst : includes "." first = false).
      { apply (split_on_no_dot_component k). rewrite Es. now left. }
      cbn [get set bind] in E.
      apply bind_ok in E. destruct E as (value & _ & E).
      apply bind_ok in E. destruct E as (top & _ & E).
      cbn [put delete] in E. apply Ok_inj in E. subst o'.
      eexists. split; [reflexivity|].
      intros k' v' Hin. apply in_assoc_del in Hin. destruct Hin as [Hne Hin].
      apply in_assoc_set in Hin. destruct Hin as [->|Hin]; [now left|].
      apply in_assoc_set in Hin. destruct Hin as [->|Hin]; [now left|].
      destruct (Hk _ _ Hin) as [Hn|[<-|Hp]]; auto. congruence.
  - apply Ok_inj in E. subst o'. exists kvs. split; [reflexivity|].
    intros k' v' Hin. destruct (Hk _ _ Hin) as [Hn|[<-|Hp]]; auto.
Qed.

Lemma foldM_handleDotField_pending keys o o' :
  dots_pending o keys ->
  foldM handleDotField keys o = Ok o' ->
  dots_pending o' [].
Proof.
  revert o. induction keys as [|k r IH]; intros o Hp E; cbn [foldM] in E.
  - apply Ok_inj in E. now subst.
  - apply bind_ok in E. destruct E as (o1 & E1 & E).
    eapply IH; [|exact E]. eapply handleDotField_pending; eauto.
Qed.

(** X10: when [handleDotFields] returns, no key of the object contains
    a dot: every dotted key has been deleted, and the keys written in
    their place are first components, which have none. *)
Theorem handleDotFields_no_dotted_key kvs o :
  handleDotFields (JObj kvs) = Ok o ->
  exists kvs', o = JObj kvs'
               /\ forall k v, In (k, v) kvs' -> includes "." k = false.
Proof.
  intros E. unfold handleDotFields in E. cbn [object_keys entries bind] in E.
  apply foldM_handleDotField_pending in E.
  - destruct E as (kvs' & -> & Hk). exists kvs'. split; [reflexivity|].
    intros k v Hin. destruct (Hk _ _ Hin) as [Hn|[]]. exact Hn.
  - exists kvs. split; [reflexivity|]. intros k v Hin. right.
    apply in_map_iff. exists (k, v). auto.
Qed.


Lemma includes_dot_app a r : includes "." (a ++ String "." r) = true.
Proof.
  unfold includes. induction a as [|c t IH]; cbn [append index_of starts_with].
  - reflexivity.
  - destruct (Ascii.eqb "." c); [reflexivity|].
    destruct (index_of "." (t ++ String "." r)); [reflexivity|discriminate].
Qed.

Lemma split_on_dot_app a r :
  includes "." a = false ->
  split_on "." (a ++ String "." r) = a :: split_on "." r.
Proof.
  unfold includes. induction a as [|c t IH]; cbn [append split_on].
  - reflexivity.
  - cbn [index_of starts_with]. rewrite Ascii.eqb_sym.
    destruct (Ascii.eqb c "."); [discriminate|].
    destruct (index_of "." t) eqn:Ei; [discriminate|]. intros _.
    now rewrite IH.
Qed.

Lemma eqb_app_dot a r : String.eqb a (a ++ String "." r) = false.
Proof.
  destruct (String.eqb a (a ++ String "." r)) eqn:E; [|reflexivity].
  apply String.eqb_eq in E. apply (f_equal String.length) in E.
  rewrite str_length_app in E. cbn [String.length] in E. lia.
Qed.

(** X11: [handleDotFields] turns an update made of one key with two
    components into the nested object: the first component holds an object
    whose only property is the second component, with the value of the key,
    or with [undefined] when the value is a [Delete] operation.  The first
    component is not the name of a member inherited from
    [Object.prototype] (the read [object[first]] would return that member)
    and the second is not [__proto__] (the assignment would replace the
    prototype of the nested object). *)
Theorem handleDotFields_nests a b v :
  includes "." a = false ->
  includes "." b = false ->
  b <> "" ->
  inherited_name a = false ->
  b <> "__proto__" ->
  handleDotFields (JObj [(a ++ "." ++ b, v)])
  = Ok (JObj [(a, JObj [(b, if truthy v && str_is (prop v "__op") "Delete"
                            then JUndef else v)])]).
Proof.
  intros Ha Hb Hne _ _.
  assert (Hk : String.eqb a (a ++ "." ++ b) = false) by apply eqb_app_dot.
  assert (Hk' : String.eqb (a ++ "." ++ b) a = false)
    by (now rewrite String.eqb_sym).
  assert (Hbe : String.eqb b "" = false).
  { destruct (String.eqb b "") eqn:E; [|reflexivity].
    apply String.eqb_eq in E. congruence. }
  unfold handleDotFields. cbn [object_keys entries map fst bind foldM].
  unfold handleDotField.
  change (a ++ "." ++ b) with (a ++ String "." b) in *.
  rewrite includes_dot_app, (split_on_dot_app _ _ Ha), (split_on_no_dot _ Hb).
  cbn [get assoc]. rewrite Hk. cbn [bind truthy set assoc_set].
  rewrite Hk. cbn [get assoc bind]. rewrite String.eqb_refl.
  assert (Hv : (if truthy v
                then op <- get v "__op" ;;
                     Ok (if str_is op "Delete" then JUndef else v)
                else Ok v)
               = Ok (if truthy v && str_is (prop v "__op") "Delete"
                     then JUndef else v)).
  { destruct (truthy v) eqn:Ht; [|reflexivity].
    rewrite (present_get _ _ (truthy_present _ Ht)). reflexivity. }
  rewrite Hv. cbn [bind set_path]. rewrite Hbe.
  cbn [get assoc bind truthy set assoc_set]. rewrite String.eqb_refl.
  cbn [put assoc_set]. rewrite Hk. cbn [assoc_set]. rewrite String.eqb_refl.
  cbn [delete]. unfold assoc_del. cbn [filter fst].
  rewrite String.eqb_refl, Hk'. reflexivity.
Qed.

(** *** The running index of the update compiler *)

Lemma authData_keys_index f providers last s :
  tu_index (snd (authData_keys f providers last s))
  + List.length (tu_values s)
  = tu_index s + List.length (tu_values (snd (authData_keys f providers last s))).
Proof.
  revert last s. induction providers as [|[k v] r IH]; intros last s;
    cbn [authData_keys snd]; [lia|].
  match goal with
  | |- context [authData_keys f r ?l ?s1] =>
      pose proof (IH l s1) as Hi; set (X := authData_keys f r l s1) in *
  end.
  unfold tu_emit in Hi. cbn [tu_index tu_values] in Hi.
  rewrite length_app in Hi. cbn [List.length] in Hi. lia.
Qed.

Lemma per_object_index text f objects s :
  tu_index (per_object text f objects s) + List.length (tu_values s)
  = tu_index s + List.length (tu_values (per_object text f objects s)).
Proof.
  revert s. induction objects as [|o r IH]; intros s; cbn [per_object]; [lia|].
  match goal with
  | |- context [per_object text f r ?s1] =>
      pose proof (IH s1) as Hi; set (X := per_object text f r s1) in *
  end.
  unfold tu_emit in Hi. cbn [tu_index tu_values] in Hi.
  rewrite length_app in Hi. cbn [List.length] in Hi. lia.
Qed.

Lemma object_branch_index orig f fv s s' fv' :
  object_branch orig f fv s = Ok (s', fv') ->
  tu_index s' + List.length (tu_values s)
  = tu_index s + List.length (tu_values s').
Proof.
  intros E. unfold object_branch in E. cbv zeta in E.
  repeat (apply bind_ok in E; destruct E as (? & _ & E)).
  apply Ok_inj in E. apply pair_inj in E. destruct E as [<- _].
  unfold tu_emit. cbn [tu_index tu_values].
  rewrite length_app. cbn [List.length].
  rewrite length_app, !length_map. cbn [List.length]. lia.
Qed.

Lemma update_field_index schema orig f fv s s' fv' :
  update_field schema orig f fv s = Ok (inl (s', fv')) ->
  tu_index s' + List.length (tu_values s)
  = tu_index s + List.length (tu_values s').
Proof.
  intros E. unfold update_field in E. cbv zeta in E.
  repeat match goal with
         | H : bind _ _ = Ok _ |- _ =>
             let a := fresh "a" in
             let E := fresh "E" in
             apply bind_ok in H; destruct H as (a & E & H); cbv beta in H
         | H : Throw _ = Ok _ |- _ => discriminate H
         | H : Ok (inr _) = Ok (inl _) |- _ => discriminate H
         | H : Ok _ = Ok _ |- _ => apply Ok_inj in H
         | H : inl _ = inl _ |- _ => apply inl_inj in H
         | H : (_, _) = (_, _) |- _ =>
             apply pair_inj in H; destruct H as [? ?]
         | H : match ?x with _ => _ end = Ok _ |- _ => destruct x eqn:?
         end; subst;
    try (unfold tu_emit; cbn [tu_index tu_values];
         rewrite ?length_app; cbn [List.length]; lia).
  all: try match goal with
           | H : authData_keys ?f ?p ?l ?s = (_, ?s2) |- _ =>
               pose proof (authData_keys_index f p l s) as Hi;
               rewrite H in Hi; cbn [snd] in Hi;
               unfold tu_emit in *; cbn [tu_index tu_values] in *;
               rewrite ?length_app in *; cbn [List.length] in *; lia
           end.
  all: try apply per_object_index.
  all: match goal with
       | H : object_branch _ _ _ _ = Ok _ |- _ =>
           apply object_branch_index in H; exact H
       end.
Qed.

Lemma update_loop_index schema orig fields s s' fields' :
  update_loop schema orig fields s = Ok (inl (s', fields')) ->
  tu_index s' + List.length (tu_values s)
  = tu_index s + List.length (tu_values s').
Proof.
  revert s s' fields'.
  induction fields as [|[k v] r IH]; intros s s' fields' E;
    cbn [update_loop] in E.
  - apply Ok_inj in E. apply inl_inj in E. apply pair_inj in E.
    destruct E as [<- _]. lia.
  - apply bind_ok in E. destruct E as (o1 & E1 & E).
    destruct o1 as [[s1 v1]|e]; [|discriminate].
    apply bind_ok in E. destruct E as (o2 & E2 & E).
    destruct o2 as [[s2 r2]|[e r2]]; [|discriminate].
    apply Ok_inj in E. apply inl_inj in E. apply pair_inj in E.
    destruct E as [<- _].
    apply update_field_index in E1. apply IH in E2. lia.
Qed.

(** X12: when [transformUpdate] returns a compiled update, the index it
    returns is two more than the number of values: the caller numbers the
    placeholders of the next fragment from there. *)
Theorem transformUpdate_index schema update pattern index values update' :
  transformUpdate schema update = Ok (Compiled pattern index values, update') ->
  index = 2 + List.length values.
Proof.
  intros E. unfold transformUpdate in E.
  destruct (existsb _ _); [discriminate|].
  apply bind_ok in E. destruct E as (u1 & _ & E).
  apply bind_ok in E. destruct E as (u2 & _ & E).
  apply bind_ok in E. destruct E as (o & Eo & E).
  destruct o as [[s1 f1]|[e f1]]; apply Ok_inj in E;
    apply pair_inj in E; destruct E as [E _]; [|discriminate].
  injection E as _ <- <-.
  apply update_loop_index in Eo. cbn [tu_index tu_values List.length] in Eo.
  lia.
Qed.


(** *** Auth-data keys of an update *)

Lemma word_char_not_dot c : is_word_char c = true -> Ascii.eqb c "." = false.
Proof.
  intros Hw. destruct (Ascii.eqb c ".") eqn:E; [|reflexivity].
  apply Ascii.eqb_eq in E. subst c. discriminate Hw.
Qed.

Lemma word_chars_no_dot p :
  forallb is_word_char (chars p) = true ->
  forallb (fun a => negb (Ascii.eqb a ".")) (chars p) = true.
Proof.
  unfold chars. induction (list_ascii_of_string p) as [|c r IH];
    cbn [forallb]; [reflexivity|].
  intros Hp. apply andb_true_iff in Hp. destruct Hp as [Hc Hr].
  now rewrite (word_char_not_dot _ Hc), IH.
Qed.

Lemma authDataMatch_provider p :
  p <> "" -> forallb is_word_char (chars p) = true ->
  authDataMatch ("_auth_data_" ++ p) = Some p
  /\ includes "." ("_auth_data_" ++ p) = false.
Proof.
  intros Hne Hw. split.
  - unfold authDataMatch.
    change (str_drop 11 ("_auth_data_" ++ p)) with p.
    change (starts_with "_auth_data_" ("_auth_data_" ++ p)) with true.
    rewrite Hw. destruct p; [congruence|reflexivity].
  - apply no_char_includes. unfold chars.
    cbn [append list_ascii_of_string forallb]. cbn.
    now apply word_chars_no_dot.
Qed.

(** X14: an update made of one auth-data key [_auth_data_<provider>],
    for a provider other than [__op] and [__proto__], compiles as the
    update that holds the value under [authData] at the provider, and that
    is the update the call leaves behind.  (The assignment
    [update['authData'][provider] = value] under the name [__proto__]
    replaces the prototype of the new object and creates no property.) *)
Theorem auth_data_key_folded schema p v :
  p <> "" ->
  forallb is_word_char (chars p) = true ->
  p <> "__op" ->
  p <> "__proto__" ->
  transformUpdate schema (JObj [("_auth_data_" ++ p, v)])
  = transformUpdate schema (JObj [("authData", JObj [(p, v)])])
  /\ exists r,
      transformUpdate schema (JObj [("_auth_data_" ++ p, v)])
      = Ok (r, JObj [("authData", JObj [(p, v)])]).
Proof.
  intros Hne Hw Hop _.
  destruct (authDataMatch_provider p Hne Hw) as [Hm Hd].
  assert (Hwr : writes_op ("_auth_data_" ++ p) = false).
  { unfold writes_op. rewrite (split_on_no_dot _ Hd). cbn [tl existsb orb].
    destruct (String.eqb ("_auth_data_" ++ p) "_auth_data___op") eqn:E;
      [|reflexivity].
    apply String.eqb_eq in E. exfalso. apply Hop.
    cbn [append] in E. now repeat injection E as E. }
  assert (Hk : String.eqb "authData" ("_auth_data_" ++ p) = false)
    by reflexivity.
  assert (E1 : transformUpdate schema (JObj [("_auth_data_" ++ p, v)])
               = (o <- update_loop schema [("_auth_data_" ++ p, v)]
                         [("authData", JObj [(p, v)])]
                         {| updatePatterns := []; tu_values := []; tu_index := 2 |} ;;
                  match o with
                  | inl (s, fields) =>
                      Ok (Compiled (join "," (updatePatterns s)) (tu_index s)
                                   (tu_values s), JObj fields)
                  | inr (e, fields) => Ok (RejectedPromise e, JObj fields)
                  end)).
  { unfold transformUpdate. cbn [entries existsb fst]. rewrite Hwr.
    cbn [orb]. unfold handleDotFields.
    cbn [object_keys entries map fst bind foldM]. unfold handleDotField.
    rewrite Hd. cbn [bind foldM entries map fst]. unfold foldAuthData.
    rewrite Hm. cbn [get assoc]. rewrite String.eqb_refl.
    cbn [bind delete]. unfold assoc_del. cbn [filter fst].
    rewrite String.eqb_refl. cbn [negb get assoc bind truthy set assoc_set].
    cbn [put assoc_set]. rewrite String.eqb_refl. cbn [entries rebuild].
    reflexivity. }
  assert (E2 : transformUpdate schema (JObj [("authData", JObj [(p, v)])])
               = (o <- update_loop schema [("authData", JObj [(p, v)])]
                         [("authData", JObj [(p, v)])]
                         {| updatePatterns := []; tu_values := []; tu_index := 2 |} ;;
                  match o with
                  | inl (s, fields) =>
                      Ok (Compiled (join "," (updatePatterns s)) (tu_index s)
                                   (tu_values s), JObj fields)
                  | inr (e, fields) => Ok (RejectedPromise e, JObj fields)
                  end)).
  { reflexivity. }
  assert (El : forall orig,
             update_loop schema orig [("authData", JObj [(p, v)])]
               {| updatePatterns := []; tu_values := []; tu_index := 2 |}
             = Ok (inl (tu_emit
                          [tok 2 ++ " = "
                           ++ fst (authData_keys "authData" [(p, v)] (tok 2)
                                     (tu_emit [] [JStr "`authData`"] 1
                                        {| updatePatterns := [];
                                           tu_values := []; tu_index := 2 |}))]
                          [] 0
                          (snd (authData_keys "authData" [(p, v)] (tok 2)
                                  (tu_emit [] [JStr "`authData`"] 1
                                     {| updatePatterns := [];
                                        tu_values := []; tu_index := 2 |}))),
                        [("authData", JObj [(p, v)])]))).
  { intros orig. reflexivity. }
  split.
  - rewrite E1, E2, !El. reflexivity.
  - rewrite E1, El. cbn [bind]. eexists. reflexivity.
Qed.

(** *** Dotted field names of a query *)

Lemma split_on_join cs :
  cs <> [] ->
  (forall c, In c cs -> includes "." c = false) ->
  split_on "." (join "." cs) = cs.
Proof.
  induction cs as [|a r IH]; [congruence|]. intros _ Hc.
  destruct r as [|b r'].
  - cbn [join]. apply split_on_no_dot. apply Hc. now left.
  - change (join "." (a :: b :: r')) with (a ++ String "." (join "." (b :: r'))).
    rewrite split_on_dot_app by (apply Hc; now left).
    rewrite IH; [reflexivity|congruence|]. intros c Hin. apply Hc. now right.
Qed.

Lemma dotted_tail_go cs i name :
  2 <= i ->
  (fix go (i : nat) (cs : list string) (name : string) : string :=
     match cs with
     | [] => name
     | cmpt :: r =>
         go (S i) r
            (match i with
             | 0 => "`" ++ cmpt ++ "`->>"
             | 1 => name ++ "'$." ++ cmpt
             | _ => name ++ "." ++ cmpt
             end)
     end) i cs name
  = name ++ String.concat "" (map (fun c => "." ++ c) cs).
Proof.
  revert i name. induction cs as [|c r IH]; intros i name Hi.
  - cbn. now rewrite str_app_nil_r.
  - destruct i as [|[|i]]; try lia.
    rewrite IH by lia. cbn [map].
    rewrite str_app_assoc. f_equal.
    destruct r; cbn [map String.concat]; [now rewrite str_app_nil_r|].
    reflexivity.
Qed.

Lemma concat_dots b rest :
  b ++ String.concat "" (map (fun c => "." ++ c) rest) = join "." (b :: rest).
Proof.
  revert b. induction rest as [|c r IH]; intros b.
  - cbn. apply str_app_nil_r.
  - change (join "." (b :: c :: r)) with (b ++ "." ++ join "." (c :: r)).
    rewrite <- IH. f_equal.
    destruct r; cbn [map String.concat]; [now rewrite !str_app_nil_r|].
    now rewrite !str_app_assoc.
Qed.

(** X15: the expression written for a dotted field name is the first
    component between backquotes, the arrow operator, and the JSON path
    made of the other components between single quotes; the components are
    written into the text as they are. *)
Theorem dotted_name_path a b rest :
  (forall c, In c (a :: b :: rest) -> includes "." c = false) ->
  dotted_name (join "." (a :: b :: rest))
  = "`" ++ a ++ "`->>'$." ++ join "." (b :: rest) ++ "'".
Proof.
  intros Hc. unfold dotted_name.
  rewrite split_on_join by (congruence || assumption).
  cbv zeta. cbv beta iota. fold (@app string).
  rewrite dotted_tail_go by lia.
  rewrite !str_app_assoc. cbn [append]. f_equal.
  rewrite <- concat_dots, str_app_assoc. reflexivity.
Qed.

(** X16: a query field with a dotted name and the value [null] makes
    the call throw a [TypeError]: the fragment of the null test is pushed,
    but the iteration goes on and reads a property of [null]. *)
Theorem dotted_null_throws kvs fs f i :
  assoc "fields" kvs = Some (JObj fs) ->
  includes "." f = true ->
  buildWhereClause (JObj kvs) (JObj [(f, JNull)]) i = Throw TypeError.
Proof.
  intros Hf Hd.
  pose proof (toMySQLSchema_object _ _ Hf) as Es.
  destruct (toMySQLSchema_idem _ _ _ Hf Es) as [_ Hs].
  unfold buildWhereClause. rewrite bwc_S, Es. cbn [bind entries loop].
  unfold body.
  destruct (is_array_field_has_fields _ f Hs) as [b ->].
  cbn [bind]. rewrite get_object. unfold lookup at 1.
  rewrite assoc_set_same. cbn [bind get]. cbn [truthy andb].
  rewrite andb_false_r. cbn [bind]. unfold scalar_branch. rewrite Hd.
  reflexivity.
Qed.

(** *** Composition of the fields of a query *)

Lemma index_after s0 s : index (after_state s0 s) = index s.
Proof. reflexivity. Qed.

Lemma emit_after p vs n s0 s :
  emit p vs n (after_state s0 s) = after_state s0 (emit p vs n s).
Proof.
  unfold emit, after_state, snoc. cbn [patterns values sorts index].
  now rewrite !app_assoc.
Qed.

Lemma push_sort_after p s0 s :
  push_sort p (after_state s0 s) = after_state s0 (push_sort p s).
Proof.
  unfold push_sort, after_state, snoc. cbn [patterns values sorts index].
  now rewrite !app_assoc.
Qed.

Lemma createConstraint_after f b l n s0 s :
  createConstraint f b l n (after_state s0 s)
  = after_state s0 (createConstraint f b l n s).
Proof.
  unfold createConstraint. rewrite index_after.
  destruct (Nat.ltb 0 (List.length l)); [destruct b|destruct (negb n)];
    cbv zeta; rewrite ?emit_after; reflexivity.
Qed.

Ltac after_step :=
  first
    [ reflexivity
    | rewrite emit_after
    | rewrite push_sort_after
    | rewrite createConstraint_after
    | match goal with
      | |- context [bind ?m _] =>
          lazymatch m with
          | context [after_state] => fail
          | _ => destruct m; cbn [bind rmap]
          end
      | |- context [if ?b then _ else _] =>
          lazymatch b with
          | context [after_state] => fail
          | _ => destruct b; cbn [bind rmap]
          end
      end ].

Ltac after_solve := rewrite ?index_after; cbv zeta; repeat after_step.

Lemma ne_branch_after f b fv s0 s :
  ne_branch f b fv (after_state s0 s)
  = rmap (fun r => match r with (c, s', fv') => (c, after_state s0 s', fv') end)
         (ne_branch f b fv s).
Proof. unfold ne_branch. after_solve. Qed.

Lemma eq_branch_after f fv s0 s :
  eq_branch f fv (after_state s0 s) = rmap (after_state s0) (eq_branch f fv s).
Proof. unfold eq_branch. after_solve. Qed.

Lemma all_branch_after f b fv s0 s :
  all_branch f b fv (after_state s0 s)
  = rmap (after_state s0) (all_branch f b fv s).
Proof. unfold all_branch. after_solve. Qed.

Lemma exists_branch_after f fv s0 s :
  exists_branch f fv (after_state s0 s)
  = rmap (after_state s0) (exists_branch f fv s).
Proof. unfold exists_branch. after_solve. Qed.

Lemma text_branch_after f fv s0 s :
  text_branch f fv (after_state s0 s)
  = rmap (after_state s0) (text_branch f fv s).
Proof. unfold text_branch. after_solve. Qed.

Lemma nearSphere_branch_after f fv s0 s :
  nearSphere_branch f fv (after_state s0 s)
  = rmap (after_state s0) (nearSphere_branch f fv s).
Proof. unfold nearSphere_branch. after_solve. Qed.

Lemma within_branch_after f fv s0 s :
  within_branch f fv (after_state s0 s)
  = rmap (after_state s0) (within_branch f fv s).
Proof. unfold within_branch. after_solve. Qed.

Lemma regex_branch_after f fv s0 s :
  regex_branch f fv (after_state s0 s)
  = rmap (after_state s0) (regex_branch f fv s).
Proof.
  unfold regex_branch. after_solve.
  all: match goal with |- context [match ?x with _ => _ end] => destruct x end;
    cbn [rmap]; rewrite ?emit_after; reflexivity.
Qed.

Lemma pointer_branch_after f b fv s0 s :
  pointer_branch f b fv (after_state s0 s)
  = rmap (after_state s0) (pointer_branch f b fv s).
Proof. unfold pointer_branch. after_solve. Qed.

Lemma date_branch_after f fv s0 s :
  date_branch f fv (after_state s0 s)
  = rmap (after_state s0) (date_branch f fv s).
Proof. unfold date_branch. after_solve. Qed.

Lemma geopoint_branch_after f fv s0 s :
  geopoint_branch f fv (after_state s0 s)
  = rmap (after_state s0) (geopoint_branch f fv s).
Proof. unfold geopoint_branch. after_solve. Qed.

Lemma comparators_after cmps f fv s0 s :
  comparators cmps f fv (after_state s0 s)
  = rmap (after_state s0) (comparators cmps f fv s).
Proof.
  revert s. induction cmps as [|[cmp op] r IH]; intros s; cbn [comparators];
    [reflexivity|].
  rewrite index_after.
  destruct (get fv cmp) as [operand| | |]; cbn [bind rmap]; trivial.
  destruct (truthy operand); cbn [bind]; [|apply IH].
  destruct (toMySQLValue operand); cbn [bind rmap]; trivial.
  rewrite emit_after. apply IH.
Qed.



Lemma geoWithin_branch_after f fv s0 s :
  geoWithin_branch f fv (after_state s0 s)
  = rmap (fun r => match r with (s', fv') => (after_state s0 s', fv') end)
         (geoWithin_branch f fv s).
Proof.
  unfold geoWithin_branch. rewrite index_after.
  destruct (get fv "$geoWithin") as [g| | |]; cbn [bind rmap]; trivial.
  destruct (truthy g); [|reflexivity].
  destruct (get g "$polygon") as [p| | |]; cbn [bind rmap]; trivial.
  destruct (truthy p); [|reflexivity].
  destruct p; try reflexivity.
  destruct (Nat.ltb _ 3); [reflexivity|]. cbv zeta.
  repeat match goal with
         | |- context [bind ?m _] =>
             lazymatch m with
             | context [after_state] => fail
             | _ => destruct m; cbn [bind rmap]; trivial
             end
         end.
  all: rewrite emit_after; reflexivity.
Qed.

Lemma in_branch_after f b sch fv s0 s :
  in_branch f b sch fv (after_state s0 s)
  = rmap (after_state s0) (in_branch f b sch fv s).
Proof.
  unfold in_branch. rewrite index_after.
  destruct (get fv "$in") as [vin| | |]; cbn [bind rmap]; trivial.
  destruct (get fv "$nin") as [vnin| | |]; cbn [bind rmap]; trivial.
  match goal with
  | |- context [bind ?m _] => destruct m as [sa| | |]; cbn [bind rmap]; trivial
  end.
  destruct sa.
  - destruct vin; try reflexivity.
    destruct (in_string_array _ _ _ _ _ _) as [[an vals] pats].
    cbn [rmap]. unfold after_state, snoc. cbn [patterns values sorts index].
    now rewrite !app_assoc.
  - cbv zeta. destruct (is_array vin || is_array vnin); [|reflexivity].
    destruct (truthy vin), (truthy vnin); cbn [rmap];
      rewrite ?createConstraint_after; reflexivity.
Qed.

Lemma scalar_branch_after rec f fv sch s0 s :
  scalar_branch rec f fv sch (after_state s0 s)
  = rmap (fun r => match r with
                   | (c, s', fv', sch') => (c, after_state s0 s', fv', sch')
                   end)
         (scalar_branch rec f fv sch s).
Proof.
  unfold scalar_branch. rewrite index_after. cbv zeta.
  destruct (includes "." f).
  - destruct (is_null fv); cbn [rmap]; [now rewrite emit_after|].
    destruct (template fv); cbn [bind rmap]; trivial. now rewrite emit_after.
  - destruct fv; cbn [rmap]; rewrite ?emit_after; try reflexivity;
      destruct (String.eqb f "$or" || String.eqb f "$and"); try reflexivity.
    destruct (sub_clauses _ _ _ _) as [[[[[cl cv] i'] sch'] subs']| | |];
      cbn [bind rmap]; trivial.
    unfold after_state, snoc. cbn [patterns values sorts index].
    now rewrite !app_assoc.
Qed.

Lemma eqb_length_after {A} (p0 p p' : list A) :
  Nat.eqb (List.length (p0 ++ p)) (List.length (p0 ++ p'))
  = Nat.eqb (List.length p) (List.length p').
Proof.
  rewrite !length_app.
  destruct (Nat.eqb (List.length p) (List.length p')) eqn:E.
  - apply Nat.eqb_eq in E. apply Nat.eqb_eq. lia.
  - apply Nat.eqb_neq in E. apply Nat.eqb_neq. lia.
Qed.

Lemma body_after rec f fv sch s0 s :
  body rec f fv sch (after_state s0 s)
  = rmap (after_body s0) (body rec f fv sch s).
Proof.
  unfold body.
  destruct (is_array_field sch f) as [b| | |]; cbn [bind rmap]; trivial.
  destruct (get sch "fields") as [fields| | |]; cbn [bind rmap]; trivial.
  destruct (get fields f) as [d| | |]; cbn [bind rmap]; trivial.
  match goal with
  | |- context [bind ?m _] => destruct m as [skip| | |]; cbn [bind rmap]; trivial
  end.
  destruct skip; [reflexivity|].
  rewrite scalar_branch_after.
  destruct (scalar_branch rec f fv sch s) as [[[[c s1] fv1] sch1]| | |];
    cbn [bind rmap]; trivial.
  destruct c; [reflexivity|].
  rewrite ne_branch_after.
  destruct (ne_branch f b fv1 s1) as [[[c2 s2] fv2]| | |];
    cbn [bind rmap]; trivial.
  destruct c2; [reflexivity|].
  rewrite eq_branch_after.
  destruct (eq_branch f fv2 s2) as [s3| | |]; cbn [bind rmap]; trivial.
  rewrite in_branch_after.
  destruct (in_branch f b sch1 fv2 s3) as [s4| | |]; cbn [bind rmap]; trivial.
  rewrite all_branch_after.
  destruct (all_branch f b fv2 s4) as [s5| | |]; cbn [bind rmap]; trivial.
  rewrite exists_branch_after.
  destruct (exists_branch f fv2 s5) as [s6| | |]; cbn [bind rmap]; trivial.
  rewrite text_branch_after.
  destruct (text_branch f fv2 s6) as [s7| | |]; cbn [bind rmap]; trivial.
  rewrite nearSphere_branch_after.
  destruct (nearSphere_branch f fv2 s7) as [s8| | |]; cbn [bind rmap]; trivial.
  rewrite within_branch_after.
  destruct (within_branch f fv2 s8) as [s9| | |]; cbn [bind rmap]; trivial.
  rewrite geoWithin_branch_after.
  destruct (geoWithin_branch f fv2 s9) as [[s10 fv3]| | |];
    cbn [bind rmap]; trivial.
  rewrite regex_branch_after.
  destruct (regex_branch f fv3 s10) as [s11| | |]; cbn [bind rmap]; trivial.
  rewrite pointer_branch_after.
  destruct (pointer_branch f b fv3 s11) as [s12| | |]; cbn [bind rmap]; trivial.
  rewrite date_branch_after.
  destruct (date_branch f fv3 s12) as [s13| | |]; cbn [bind rmap]; trivial.
  rewrite geopoint_branch_after.
  destruct (geopoint_branch f fv3 s13) as [s14| | |]; cbn [bind rmap]; trivial.
  rewrite comparators_after.
  destruct (comparators ParseToMySQLComparator f fv3 s14) as [s15| | |];
    cbn [bind rmap]; trivial.
  unfold after_state at 1 2. cbn [patterns]. rewrite eqb_length_after.
  destruct (Nat.eqb _ _); reflexivity.
Qed.

Lemma loop_after rec fields sch s0 s :
  loop rec fields sch (after_state s0 s)
  = rmap (after_loop s0) (loop rec fields sch s).
Proof.
  revert sch s. induction fields as [|[k v] r IH]; intros sch s; cbn [loop];
    [reflexivity|].
  rewrite body_after.
  destruct (body rec k v sch s) as [[[s1 v1] sch1]| | |];
    cbn [bind rmap after_body]; trivial.
  rewrite IH.
  destruct (loop rec r sch1 s1) as [[[s2 r2] sch2]| | |];
    cbn [bind rmap after_loop]; reflexivity.
Qed.

Lemma loop_app rec l1 l2 sch s :
  loop rec (l1 ++ l2)%list sch s
  = (r1 <- loop rec l1 sch s ;;
     match r1 with
     | (s1, l1', sch1) =>
         r2 <- loop rec l2 sch1 s1 ;;
         match r2 with
         | (s2, l2', sch2) => Ok (s2, (l1' ++ l2')%list, sch2)
         end
     end).
Proof.
  revert sch s. induction l1 as [|[k v] r IH]; intros sch s;
    cbn [app loop bind].
  - destruct (loop rec l2 sch s) as [[[s2 l2'] sch2]| | |]; reflexivity.
  - destruct (body rec k v sch s) as [[[s1 v1] sch1]| | |]; cbn [bind];
      trivial.
    rewrite IH.
    destruct (loop rec r sch1 s1) as [[[s2 r2] sch2]| | |]; cbn [bind];
      trivial.
    destruct (loop rec l2 sch2 s2) as [[[s3 l3] sch3]| | |]; reflexivity.
Qed.



Lemma join_app sep (a b : list string) :
  a <> [] -> b <> [] ->
  join sep (a ++ b)%list = join sep a ++ sep ++ join sep b.
Proof.
  induction a as [|x r IH]; [congruence|]. intros _ Hb.
  destruct r as [|y r'].
  - cbn [app]. destruct b; [congruence|reflexivity].
  - change (join sep ((x :: y :: r') ++ b)%list)
      with (x ++ sep ++ join sep ((y :: r') ++ b)%list).
    rewrite IH by congruence.
    change (join sep (x :: y :: r')) with (x ++ sep ++ join sep (y :: r')).
    now rewrite !str_app_assoc.
Qed.

Lemma mapM_app {A B} (g : A -> result B) l1 l2 r1 r2 :
  mapM g l1 = Ok r1 -> mapM g l2 = Ok r2 ->
  mapM g (l1 ++ l2)%list = Ok (r1 ++ r2)%list.
Proof.
  revert r1. induction l1 as [|x l IH]; intros r1 E1 E2; cbn [mapM app] in *.
  - apply Ok_inj in E1. now subst.
  - apply bind_ok in E1. destruct E1 as (y & -> & E1).
    apply bind_ok in E1. destruct E1 as (ys & Ey & E1).
    apply Ok_inj in E1. subst r1. cbn [bind].
    rewrite (IH _ Ey E2). reflexivity.
Qed.

Lemma depth_object_app l1 l2 :
  depth (JObj l1) <= depth (JObj (l1 ++ l2)%list)
  /\ depth (JObj l2) <= depth (JObj (l1 ++ l2)%list).
Proof. cbn [depth]. rewrite map_app, list_max_app. lia. Qed.

(** X17: the fields of a query are conjoined.  When the fields [l1],
    none of them with a dotted name or an irregular list, compile at the
    start index and the fields [l2] compile at the index advanced by the
    number of values of [l1], both to non-empty patterns, the query made
    of [l1] followed by [l2] compiles to the two patterns joined by
    [AND], with the values and the sort expressions of the first followed
    by those of the second. *)
Theorem fields_compose kvs fs l1 l2 i o1 o2 :
  assoc "fields" kvs = Some (JObj fs) ->
  regular (JObj l1) = true ->
  buildWhereClause (JObj kvs) (JObj l1) i = Ok o1 ->
  buildWhereClause (JObj kvs) (JObj l2) (i + List.length (out_values o1))
  = Ok o2 ->
  pattern o1 <> "" ->
  pattern o2 <> "" ->
  buildWhereClause (JObj kvs) (JObj (l1 ++ l2)%list) i
  = Ok {| pattern := pattern o1 ++ " AND " ++ pattern o2;
          out_values := (out_values o1 ++ out_values o2)%list;
          out_sorts := (out_sorts o1 ++ out_sorts o2)%list;
          schema_after := schema_after o1;
          query_after := JObj (entries (query_after o1)
                               ++ entries (query_after o2))%list |}.
Proof.
  intros Hf Hreg E1 E2 Hp1 Hp2.
  pose proof (toMySQLSchema_object _ _ Hf) as Es.
  set (sch1 := JObj (assoc_set "fields"
                       (JObj (with_implicit_fields (lookup "className" kvs) fs))
                       kvs)) in *.
  destruct (depth_object_app l1 l2) as [Hd1 Hd2].
  set (F := depth (JObj (l1 ++ l2)%list)) in *.
  pose proof (bwc_rec_frame F _ _ _ Hf Es) as Hrec.
  rewrite <- (bwc_fuel_independent (S F)) in E1, E2 by lia.
  unfold buildWhereClause. fold F.
  rewrite bwc_S, Es in E1, E2 |- *. cbn [bind entries] in *.
  apply bind_ok in E1. destruct E1 as ([[s1 l1'] sa] & L1 & E1).
  apply bind_ok in E1. destruct E1 as (v1 & M1 & E1).
  apply Ok_inj in E1. subst o1.
  cbn [pattern out_values out_sorts schema_after query_after rebuild entries]
    in *.
  apply bind_ok in E2. destruct E2 as ([[s2 l2'] sb] & L2 & E2).
  apply bind_ok in E2. destruct E2 as (v2 & M2 & E2).
  apply Ok_inj in E2. subst o2.
  cbn [pattern out_values out_sorts schema_after query_after rebuild entries]
    in *.
  destruct (loop_frame _ _ _ _ _ _ _ Hrec L1) as [-> _].
  destruct (loop_frame _ _ _ _ _ _ _ Hrec L2) as [-> _].
  assert (Hi : index s1 = i + List.length v1).
  { rewrite (mapM_length _ _ _ M1).
    apply (loop_inv i) in L1.
    - destruct L1 as [_ Hi]. exact Hi.
    - apply bwc_walks.
    - intros k v. apply (entries_regular (JObj l1)). exact Hreg.
    - split; simpl; [reflexivity|lia]. }
  assert (Hs1 : s1 = after_state s1
                       {| patterns := []; values := []; sorts := [];
                          index := i + List.length v1 |}).
  { destruct s1 as [p v so ix]. unfold after_state.
    cbn [patterns values sorts index] in *. rewrite !app_nil_r.
    now subst ix. }
  pose proof (loop_after (bwc F) l2 sch1 s1
                {| patterns := []; values := []; sorts := [];
                   index := i + List.length v1 |}) as La.
  rewrite <- Hs1, L2 in La. cbn [rmap after_loop] in La.
  rewrite loop_app, L1. cbn [bind]. rewrite La. cbn [bind].
  cbn [after_state values patterns sorts].
  rewrite (mapM_app _ _ _ _ _ M1 M2). cbn [bind].
  rewrite join_app; [reflexivity| |].
  - intros Hn. apply Hp1. now rewrite Hn.
  - intros Hn. apply Hp2. now rewrite Hn.
Qed.



(** *** Join tables *)

Lemma foldM_app {A B} (g : A -> B -> result A) l1 l2 a :
  foldM g (l1 ++ l2)%list a = (a1 <- foldM g l1 a ;; foldM g l2 a1).
Proof.
  revert a. induction l1 as [|x r IH]; intros a; cbn [app foldM bind];
    [reflexivity|].
  destruct (g a x); cbn [bind]; trivial.
Qed.

Lemma foldM_ext_in {A B} (g g' : A -> B -> result A) l a :
  (forall x b, In x l -> g b x = g' b x) -> foldM g l a = foldM g' l a.
Proof.
  revert a. induction l as [|x r IH]; intros a Hg; cbn [foldM]; [reflexivity|].
  rewrite (Hg x a) by now left.
  destruct (g' a x); cbn [bind]; trivial.
  apply IH. intros y b Hy. apply Hg. now right.
Qed.

Lemma assoc_app_in k (a b : list (string * jsval)) :
  In k (map fst a) -> assoc k (a ++ b)%list = assoc k a.
Proof.
  induction a as [|[k' v'] r IH]; cbn [map fst In assoc app]; [tauto|].
  destruct (String.eqb k k') eqn:E; [reflexivity|].
  intros [->|Hin]; [now rewrite String.eqb_refl in E|auto].
Qed.

(** X18: the implicit fields add no join table: on a schema whose field
    map declares none of them, [joinTablesForSchema] gives the same list
    for the schema as stored by [toMySQLSchema] as for the schema
    itself. *)
Theorem joinTablesForSchema_stored kvs fs sch1 :
  assoc "fields" kvs = Some (JObj fs) ->
  assoc "_wperm" fs = None ->
  assoc "_rperm" fs = None ->
  assoc "_hashed_password" fs = None ->
  assoc "_password_history" fs = None ->
  toMySQLSchema (JObj kvs) = Ok sch1 ->
  joinTablesForSchema sch1 = joinTablesForSchema (JObj kvs).
Proof.
  intros Hf Hw Hr Hh Hp Es.
  rewrite (toMySQLSchema_object _ _ Hf) in Es. apply Ok_inj in Es. subst sch1.
  assert (Hfw : assoc_set "_rperm" array_of_string
                  (assoc_set "_wperm" array_of_string fs)
                = (fs ++ [("_wperm", array_of_string);
                          ("_rperm", array_of_string)])%list).
  { rewrite (assoc_set_absent "_wperm" _ fs Hw).
    rewrite assoc_set_absent by (now rewrite assoc_app_none).
    now rewrite <- app_assoc. }
  assert (Htail : exists tail,
             with_implicit_fields (lookup "className" kvs) fs
             = (fs ++ tail)%list
             /\ (forall k, In k (map fst tail) -> assoc k fs = None)
             /\ forall sch acc,
                 foldM (join_table sch (JObj (fs ++ tail)%list))
                       (map fst tail) acc = Ok acc).
  { unfold with_implicit_fields. rewrite Hfw.
    destruct (str_is (lookup "className" kvs) "_User").
    - rewrite (assoc_set_absent "_hashed_password")
        by (now rewrite assoc_app_none).
      rewrite (assoc_set_absent "_password_history")
        by (rewrite <- app_assoc; now rewrite assoc_app_none).
      rewrite <- !app_assoc. cbn [app]. eexists. split; [reflexivity|].
      split.
      + cbn [map fst In]. intros k [<-|[<-|[<-|[<-|[]]]]]; assumption.
      + intros sch acc. cbn [map fst foldM]. unfold join_table.
        cbn [get]. rewrite !assoc_app_none by assumption. reflexivity.
    - eexists. split; [reflexivity|]. split.
      + cbn [map fst In]. intros k [<-|[<-|[]]]; assumption.
      + intros sch acc. cbn [map fst foldM]. unfold join_table.
        cbn [get]. rewrite !assoc_app_none by assumption. reflexivity. }
  destruct Htail as (tail & -> & Hnone & Htl).
  unfold joinTablesForSchema. cbn [truthy].
  assert (Hl1 : forall x, lookup "fields" (assoc_set "fields" x kvs) = x)
    by (intros x; unfold lookup; now rewrite assoc_set_same).
  assert (Hl2 : lookup "fields" kvs = JObj fs)
    by (unfold lookup; now rewrite Hf).
  rewrite !get_object, Hl1, Hl2. cbn [bind object_keys entries].
  rewrite map_app, foldM_app.
  rewrite (foldM_ext_in _ (join_table (JObj kvs) (JObj fs))).
  - destruct (foldM _ (map fst fs) []); cbn [bind]; trivial.
  - intros k acc Hin. unfold join_table. cbn [get].
    rewrite (assoc_app_in _ _ _ Hin), assoc_set_other by reflexivity.
    reflexivity.
Qed.

(** *** The promise of [deleteObjectsByQuery] *)

(** X19: [deleteObjectsByQuery] never resolves to a count of zero: it
    resolves to the number of affected rows only when that number is not
    zero, rejects with the object-not-found error when it is, and passes
    on every error of the driver. *)
Theorem deleteObjectsByQuery_outcomes :
  (forall db n,
      deleteObjectsByQuery db = Resolved n ->
      strict_eq n (JNum (num_of_nat 0)) = false
      /\ exists result, db = DbResolved result
                        /\ get result "affectedRows" = Ok n)
  /\ (forall result n,
         get result "affectedRows" = Ok n ->
         strict_eq n (JNum (num_of_nat 0)) = true ->
         deleteObjectsByQuery (DbResolved result)
         = Rejected (Raised (ParseError OBJECT_NOT_FOUND "Object not found.")))
  /\ (forall code,
         deleteObjectsByQuery (DbRejected code) = Rejected (DriverError code)).
Proof.
  split; [|split].
  - intros [result|code] n E; cbn [deleteObjectsByQuery] in E; [|discriminate].
    destruct (get result "affectedRows") as [a| | |] eqn:Eg;
      cbn [bind settle] in E; try discriminate.
    destruct (strict_eq a (JNum (num_of_nat 0))) eqn:Ez;
      cbn [settle] in E; [discriminate|].
    injection E as <-. split; [exact Ez|]. eauto.
  - intros result n Eg Ez. cbn [deleteObjectsByQuery]. rewrite Eg.
    cbn [bind]. now rewrite Ez.
  - reflexivity.
Qed.



(** *** Full-text search *)

(** X20: a [$text] constraint compiles only with a search object whose
    [$term] is a non-empty string, whose [$language] is falsy or a string,
    whose [$caseSensitive] is falsy and whose [$diacriticSensitive] is not
    [false]; the term is then the value pushed after the field name. *)
Theorem text_branch_accepts f fv s s' :
  present fv = true ->
  truthy (prop fv "$text") = true ->
  text_branch f fv s = Ok s' ->
  exists search t,
    get (prop fv "$text") "$search" = Ok search
    /\ typeof_object search = true
    /\ prop search "$term" = JStr t /\ t <> ""
    /\ (truthy (prop search "$language") = true ->
        is_string (prop search "$language") = true)
    /\ truthy (prop search "$caseSensitive") = false
    /\ is_false (prop search "$diacriticSensitive") = false
    /\ s' = emit ("MATCH (`" ++ tok (index s) ++ "`) AGAINST ('"
                  ++ tok (index s + 1) ++ "')")
                 [JStr f; JStr t] 2 s.
Proof.
  intros Hp Ht E. unfold text_branch in E.
  rewrite (present_get _ _ Hp) in E. cbn [bind] in E. rewrite Ht in E.
  apply bind_ok in E. destruct E as (search & Es & E).
  apply bind_ok in E. destruct E as (term & Ec & E).
  apply Ok_inj in E. subst s'.
  unfold check_text, bad_json in Ec.
  destruct (typeof_object search) eqn:Hty; cbn [negb] in Ec; [|discriminate].
  assert (Hps : present search = true)
    by (destruct search; try discriminate; try reflexivity;
        cbn [get bind] in Ec; discriminate).
  rewrite !(present_get _ _ Hps) in Ec. cbn [bind] in Ec.
  destruct (negb (truthy (prop search "$term"))
            || negb (is_string (prop search "$term"))) eqn:E1;
    [discriminate|].
  destruct (truthy (prop search "$language")
            && negb (is_string (prop search "$language"))) eqn:E2;
    [discriminate|].
  destruct (truthy (prop search "$caseSensitive") && _) eqn:E3;
    [discriminate|].
  destruct (truthy (prop search "$caseSensitive")) eqn:E4; [discriminate|].
  destruct (truthy (prop search "$diacriticSensitive") && _) eqn:E5;
    [discriminate|].
  destruct (is_false (prop search "$diacriticSensitive")) eqn:E6;
    [discriminate|].
  apply Ok_inj in Ec. subst term.
  apply orb_false_iff in E1. destruct E1 as [Htt Hst].
  apply negb_false_iff in Htt, Hst.
  destruct (prop search "$term") as [| | | |t| |] eqn:Et; try discriminate.
  exists search, t. split; [exact Es|]. split; [exact Hty|].
  split; [exact Et|]. split; [intros ->; discriminate Htt|].
  split.
  - intros Hl. rewrite Hl in E2. cbn [andb] in E2.
    now apply negb_false_iff in E2.
  - split; [exact E4|]. split; [exact E6|reflexivity].
Qed.

(** *** Key validation *)

Section JsvalInduction.
Variable P : jsval -> Prop.
Hypothesis HUndef : P JUndef.
Hypothesis HNull : P JNull.
Hypothesis HBool : forall b, P (JBool b).
Hypothesis HNum : forall n, P (JNum n).
Hypothesis HStr : forall s, P (JStr s).
Hypothesis HArr : forall l, Forall P l -> P (JArr l).
Hypothesis HObj : forall kvs, Forall (fun kv => P (snd kv)) kvs -> P (JObj kvs).

Fixpoint jsval_nested_ind (v : jsval) : P v :=
  match v with
  | JUndef => HUndef
  | JNull => HNull
  | JBool b => HBool b
  | JNum n => HNum n
  | JStr s => HStr s
  | JArr l =>
      HArr l ((fix go (l : list jsval) : Forall P l :=
                 match l with
                 | [] => Forall_nil _
                 | x :: r => Forall_cons x (jsval_nested_ind x) (go r)
                 end) l)
  | JObj kvs =>
      HObj kvs ((fix go (l : list (string * jsval))
                   : Forall (fun kv => P (snd kv)) l :=
                   match l with
                   | [] => Forall_nil _
                   | (k, x) :: r =>
                       Forall_cons (k, x) (jsval_nested_ind x) (go r)
                   end) kvs)
  end.
End JsvalInduction.

Lemma show_nat_no_dollar n : includes "$" (show_nat n) = false.
Proof.
  unfold includes, show_nat.
  assert (Hd : forall d, index_of "$" (NilEmpty.string_of_uint d) = None).
  { induction d; simpl; try rewrite IHd; reflexivity. }
  now rewrite Hd.
Qed.

Lemma validate_key_cases key v :
  validated v ->
  (validate_key validateKeys key v = Ok tt
   /\ key_ok key = true
   /\ (forall k, nested_key v k -> key_ok k = true))
  \/ (validate_key validateKeys key v = Throw invalid_nested_key
      /\ (key_ok key = false
          \/ exists k, nested_key v k /\ key_ok k = false)).
Proof.
  intros Hv. unfold validate_key, key_ok.
  assert (Hrec : (if typeof_object v then validateKeys v else Ok tt) = Ok tt
                 /\ (forall k, nested_key v k -> key_ok k = true)
                 \/ (if typeof_object v then validateKeys v else Ok tt)
                    = Throw invalid_nested_key
                    /\ exists k, nested_key v k /\ key_ok k = false).
  { destruct v; cbn [typeof_object]; try (left; split; [reflexivity|]);
      try (intros k Hk; inversion Hk); exact Hv. }
  destruct Hrec as [[-> Hok]|[-> Hbad]]; cbn [bind].
  - destruct (includes "$" key || includes "." key); cbn [negb].
    + right. split; [reflexivity|now left].
    + left. auto.
  - right. split; [reflexivity|now right].
Qed.

Lemma validate_properties_cases kvs :
  Forall (fun kv => validated (snd kv)) kvs ->
  (validate_properties validateKeys kvs = Ok tt
   /\ forall k, nested_key (JObj kvs) k -> key_ok k = true)
  \/ (validate_properties validateKeys kvs = Throw invalid_nested_key
      /\ exists k, nested_key (JObj kvs) k /\ key_ok k = false).
Proof.
  induction 1 as [|[key v] r Hv _ IH]; cbn [validate_properties].
  - left. split; [reflexivity|]. intros k Hk. inversion Hk; contradiction.
  - cbn [snd] in Hv.
    destruct (validate_key_cases key v Hv) as [(-> & Hkey & Hok)|(-> & Hbad)];
      cbn [bind].
    + destruct IH as [[-> Hr]|[-> (k & Hk & Hb)]].
      * left. split; [reflexivity|]. intros k Hk.
        inversion Hk as [kvs0 k0 v0 Hin|kvs0 k0 v0 k1 Hin Hn|]; subst.
        -- destruct Hin as [E|Hin].
           ++ apply pair_inj in E. destruct E as [<- _]. exact Hkey.
           ++ apply Hr. econstructor; eauto.
        -- destruct Hin as [E|Hin].
           ++ apply pair_inj in E. destruct E as [_ <-]. auto.
           ++ apply Hr. eapply nested_key_below; eauto.
      * right. split; [reflexivity|]. exists k. split; [|exact Hb].
        inversion Hk as [kvs0 k0 v0 Hin|kvs0 k0 v0 k1 Hin Hn|]; subst.
        -- eapply nested_key_here. right. eauto.
        -- eapply nested_key_below; [right; eauto|eauto].
    + right. split; [reflexivity|].
      destruct Hbad as [Hb|(k & Hk & Hb)].
      * exists key. split; [|exact Hb]. eapply nested_key_here. now left.
      * exists k. split; [|exact Hb].
        eapply nested_key_below; [now left|eauto].
Qed.

Lemma validate_elements_cases l i :
  Forall validated l ->
  (validate_elements validateKeys i l = Ok tt
   /\ forall k, nested_key (JArr l) k -> key_ok k = true)
  \/ (validate_elements validateKeys i l = Throw invalid_nested_key
      /\ exists k, nested_key (JArr l) k /\ key_ok k = false).
Proof.
  intros Hl. revert i.
  induction Hl as [|v r Hv _ IH]; intros i; cbn [validate_elements].
  - left. split; [reflexivity|]. intros k Hk. inversion Hk; contradiction.
  - assert (Hi : key_ok (show_nat i) = true).
    { unfold key_ok. now rewrite show_nat_no_dollar, show_nat_no_dot. }
    destruct (validate_key_cases (show_nat i) v Hv)
      as [(-> & _ & Hok)|(-> & Hbad)]; cbn [bind].
    + destruct (IH (S i)) as [[-> Hr]|[-> (k & Hk & Hb)]].
      * left. split; [reflexivity|]. intros k Hk.
        inversion Hk as [| |l0 v0 k0 Hin Hn]; subst.
        destruct Hin as [<-|Hin]; [auto|].
        apply Hr. econstructor; eauto.
      * right. split; [reflexivity|]. exists k. split; [|exact Hb].
        inversion Hk as [| |l0 v0 k0 Hin Hn]; subst.
        eapply nested_key_element; [right; eauto|eauto].
    + right. split; [reflexivity|].
      destruct Hbad as [Hb|(k & Hk & Hb)]; [congruence|].
      exists k. split; [|exact Hb].
      eapply nested_key_element; [now left|eauto].
Qed.

(** X13: [validateKeys] returns exactly when no key of an object found
    in the value, at any depth below objects and arrays, contains [$] or
    a dot; otherwise it throws the invalid-nested-key error. *)
Theorem validateKeys_decides v :
  (validateKeys v = Ok tt
   /\ forall k, nested_key v k -> key_ok k = true)
  \/ (validateKeys v = Throw invalid_nested_key
      /\ exists k, nested_key v k /\ key_ok k = false).
Proof.
  change (validated v). induction v using jsval_nested_ind;
    try (left; split; [reflexivity|]; intros k Hk; inversion Hk).
  - apply (validate_elements_cases l 0). assumption.
  - apply validate_properties_cases. assumption.
Qed.

(** *** What a call leaves in its arguments, returning or throwing *)

Lemma sub_clauses_agree rec rl sch subs i cl cv i' sch' subs' :
  sub_clauses rec sch subs i = Ok (cl, cv, i', sch', subs') ->
  sub_clauses_leaves rec rl sch subs i = (sch', subs').
Proof.
  revert sch i cl cv i' sch' subs'.
  induction subs as [|q r IH]; intros sch i cl cv i' sch' subs' E;
    cbn [sub_clauses sub_clauses_leaves] in *.
  - inv_ok. reflexivity.
  - apply bind_ok in E. destruct E as (c & Ec & E). cbv beta zeta in E.
    apply bind_ok in E. destruct E as ([[[[cls cvs] j] sch2] r'] & Er & E).
    apply Ok_inj in E. rewrite Ec. cbn [or_leave]. cbv zeta.
    rewrite (IH _ _ _ _ _ _ _ Er).
    repeat (apply pair_inj in E; destruct E as [E ?]). subst. reflexivity.
Qed.

Lemma loop_agree rec rl fields sch s s' fields' sch' :
  loop rec fields sch s = Ok (s', fields', sch') ->
  loop_leaves rec rl fields sch s = (fields', sch').
Proof.
  revert sch s s' fields' sch'.
  induction fields as [|[k v] r IH]; intros sch s s' fields' sch' E;
    cbn [loop loop_leaves] in *.
  - inv_ok. reflexivity.
  - apply bind_ok in E. destruct E as ([[s1 v1] sch1] & Eb & E).
    apply bind_ok in E. destruct E as ([[s2 r2] sch2] & El & E).
    apply Ok_inj in E. rewrite Eb. cbn [or_leave].
    rewrite (IH _ _ _ _ _ El).
    repeat (apply pair_inj in E; destruct E as [E ?]). subst. reflexivity.
Qed.

Lemma bwc_agree fuel sch q i out :
  bwc fuel sch q i = Ok out ->
  bwc_leaves fuel sch q i = (schema_after out, query_after out).
Proof.
  destruct fuel as [|fuel]; intros E; [discriminate|].
  rewrite bwc_S in E. cbn [bwc_leaves].
  apply bind_ok in E. destruct E as (sch1 & Es & E).
  apply bind_ok in E. destruct E as ([[s fields] sch2] & El & E).
  apply bind_ok in E. destruct E as (vals & Em & E).
  apply Ok_inj in E. subst out. cbn [schema_after query_after].
  rewrite Es. cbn [or_leave]. now rewrite (loop_agree _ _ _ _ _ _ _ _ El).
Qed.

(** The recursive calls, made on the schema [sch1], leave it as it is,
    and leave a stable query as it is. *)
Definition rec_stays (rec : jsval -> jsval -> nat -> result bw_out)
    (rl : jsval -> jsval -> nat -> jsval * jsval) (sch1 : jsval) : Prop :=
  forall q i,
    (forall out, rec sch1 q i = Ok out ->
                 schema_after out = sch1
                 /\ (stable sch1 q = true -> query_after out = q))
    /\ fst (rl sch1 q i) = sch1
    /\ (stable sch1 q = true -> snd (rl sch1 q i) = q).

(** The sub-queries of a field are stable. *)
Definition sub_stable (sch : jsval) (f : string) (fv : jsval) : bool :=
  if String.eqb f "$or" || String.eqb f "$and"
  then match fv with JArr subs => forallb (stable sch) subs | _ => true end
  else true.

Lemma sub_clauses_leaves_stays rec rl sch1 subs i :
  rec_stays rec rl sch1 ->
  fst (sub_clauses_leaves rec rl sch1 subs i) = sch1
  /\ (forallb (stable sch1) subs = true ->
      snd (sub_clauses_leaves rec rl sch1 subs i) = subs).
Proof.
  intros Hrec. revert i.
  induction subs as [|q r IH]; intros i; cbn [sub_clauses_leaves forallb].
  - split; reflexivity.
  - destruct (Hrec q i) as (Hok & Hl1 & Hl2).
    destruct (rec sch1 q i) as [c| | |] eqn:Ec; cbn [or_leave].
    2-4: destruct (rl sch1 q i) as [a b]; cbn [fst snd] in *;
      (split; [exact Hl1|]); intros Hs; apply andb_true_iff in Hs;
      destruct Hs as [Hq _]; now rewrite (Hl2 Hq).
    destruct (Hok c eq_refl) as [Hs Hq]. cbv zeta. rewrite Hs.
    match goal with
    | |- context [sub_clauses_leaves rec rl sch1 r ?j] =>
        destruct (IH j) as [I1 I2];
        destruct (sub_clauses_leaves rec rl sch1 r j) as [a b]
    end.
    cbn [fst snd] in *. split; [exact I1|].
    intros Hst. apply andb_true_iff in Hst. destruct Hst as [H1 H2].
    now rewrite (Hq H1), (I2 H2).
Qed.

Lemma sub_clauses_stays rec rl sch1 subs i cl cv i' sch' subs' :
  rec_stays rec rl sch1 ->
  sub_clauses rec sch1 subs i = Ok (cl, cv, i', sch', subs') ->
  sch' = sch1 /\ (forallb (stable sch1) subs = true -> subs' = subs).
Proof.
  intros Hrec E.
  pose proof (sub_clauses_leaves_stays rec rl sch1 subs i Hrec) as [H1 H2].
  rewrite (sub_clauses_agree _ rl _ _ _ _ _ _ _ _ E) in H1, H2.
  exact (conj H1 H2).
Qed.

Lemma scalar_branch_leaves_stays rec rl f fv sch1 s :
  rec_stays rec rl sch1 ->
  snd (scalar_branch_leaves rec rl f fv sch1 s) = sch1
  /\ (sub_stable sch1 f fv = true ->
      fst (scalar_branch_leaves rec rl f fv sch1 s) = fv).
Proof.
  intros Hrec. unfold scalar_branch_leaves, sub_stable.
  destruct (includes "." f); [split; reflexivity|].
  destruct fv; try (split; reflexivity).
  destruct (String.eqb f "$or" || String.eqb f "$and");
    [|split; reflexivity].
  destruct (sub_clauses_leaves_stays rec rl sch1 l (index s) Hrec) as [H1 H2].
  destruct (sub_clauses_leaves rec rl sch1 l (index s)) as [a b].
  cbn [fst snd] in *. split; [exact H1|]. intros Hs. now rewrite (H2 Hs).
Qed.

Lemma scalar_branch_stays rec rl f fv sch1 s c s' fv' sch' :
  rec_stays rec rl sch1 ->
  scalar_branch rec f fv sch1 s = Ok (c, s', fv', sch') ->
  sch' = sch1 /\ (sub_stable sch1 f fv = true -> fv' = fv).
Proof.
  intros Hrec E. unfold scalar_branch in E. unfold sub_stable.
  destruct (includes "." f); [inv_ok; split; trivial|].
  destruct fv; inv_ok; try (split; trivial).
  all: match goal with
       | E : sub_clauses _ _ _ _ = Ok _ |- _ =>
           apply (sub_clauses_stays _ rl _ _ _ _ _ _ _ _ Hrec) in E;
           destruct E as [Hs Hq]
       end; trivial.
  intros Hf. now rewrite Hq.
Qed.

Lemma get_prop fv k v : get fv k = Ok v -> prop fv k = v.
Proof. unfold prop. now intros ->. Qed.

Lemma ne_branch_stays sch1 f b fv s c s' fv' :
  is_array_field sch1 f = Ok b ->
  ne_written sch1 f fv = false ->
  ne_branch f b fv s = Ok (c, s', fv') -> fv' = fv.
Proof.
  intros Hb Hn E. unfold ne_written in Hn. rewrite Hb in Hn.
  unfold ne_branch in E.
  apply bind_ok in E. destruct E as (ne & Eg & E).
  rewrite (get_prop _ _ _ Eg) in Hn.
  destruct (is_undefined ne); cbn [negb] in *; [inv_ok; reflexivity|].
  destruct b; [discriminate|]. inv_ok; reflexivity.
Qed.

Lemma geoWithin_branch_eq f fv s :
  geoWithin_branch f fv s
  = (geoWithin <- get fv "$geoWithin" ;;
     if truthy geoWithin then
       polygon <- get geoWithin "$polygon" ;;
       if truthy polygon then
         match polygon with
         | JArr pts =>
             if Nat.ltb (List.length pts) 3 then
               bad_json "bad $geoWithin value; $polygon should contain at least 3 GeoPoints"
             else
               open <- polygon_open pts ;;
               let pts := if open then snoc pts (nth 0 pts JUndef) else pts in
               points <- mapM polygon_point pts ;;
               Ok (emit (mbr_covers (index s))
                        [JStr ("(" ++ join ", " points ++ ")"); JStr f] 2 s,
                   put fv "$geoWithin" (put geoWithin "$polygon" (JArr pts)))
         | _ =>
             bad_json "bad $geoWithin value; $polygon should contain at least 3 GeoPoints"
         end
       else Ok (s, fv)
     else Ok (s, fv)).
Proof.
  unfold geoWithin_branch, polygon_open.
  destruct (get fv "$geoWithin") as [g| | |]; cbn [bind]; trivial.
  destruct (truthy g); trivial.
  destruct (get g "$polygon") as [p| | |]; cbn [bind]; trivial.
  destruct (truthy p); trivial. destruct p; trivial.
  destruct (Nat.ltb (List.length l) 3); trivial. cbv zeta.
  destruct (get (nth 0 l JUndef) "latitude"); cbn [bind]; trivial.
  destruct (get (nth (List.length l - 1) l JUndef) "latitude"); cbn [bind];
    trivial.
Qed.

(** Writing back what was read changes nothing. *)
Lemma get_named_object o k v :
  get o k = Ok v -> all_digits k = false -> String.eqb k "length" = false ->
  v <> JUndef -> exists kvs, o = JObj kvs /\ assoc k kvs = Some v.
Proof.
  intros E Hd Hl Hv.
  destruct o; cbn [get] in E; rewrite ?Hl, ?Hd in E; try discriminate;
    apply Ok_inj in E; try (now subst).
  exists kvs. split; [reflexivity|].
  destruct (assoc k kvs); [now subst|now subst].
Qed.

(** Writing back what was read changes nothing. *)
Lemma put_read fv g p pts :
  get fv "$geoWithin" = Ok g -> truthy g = true ->
  get g "$polygon" = Ok (JArr pts) -> p = JArr pts ->
  put fv "$geoWithin" (put g "$polygon" p) = fv.
Proof.
  intros Eg Tg Ep ->.
  destruct (get_named_object _ _ _ Ep eq_refl eq_refl) as (gk & -> & Ek);
    [discriminate|].
  destruct (get_named_object _ _ _ Eg eq_refl eq_refl) as (fk & -> & Ef);
    [discriminate|].
  cbn [put]. now rewrite (assoc_set_idem _ _ _ Ek), (assoc_set_idem _ _ _ Ef).
Qed.

Lemma polygon_written_open fv g pts :
  polygon_written fv = false ->
  get fv "$geoWithin" = Ok g -> get g "$polygon" = Ok (JArr pts) ->
  Nat.ltb (List.length pts) 3 = false ->
  forall open, polygon_open pts = Ok open -> open = false.
Proof.
  intros Hp Eg Ep Hl open Eo. unfold polygon_written in Hp.
  rewrite (get_prop _ _ _ Eg), (get_prop _ _ _ Ep), Eo in Hp.
  apply Nat.ltb_ge in Hl. apply Nat.leb_le in Hl. now rewrite Hl in Hp.
Qed.

Lemma geoWithin_branch_leaves_stays fv :
  polygon_written fv = false -> geoWithin_branch_leaves fv = fv.
Proof.
  intros Hp. unfold geoWithin_branch_leaves.
  destruct (get fv "$geoWithin") as [g| | |] eqn:Eg; cbn [or_leave]; trivial.
  destruct (truthy g) eqn:Tg; trivial.
  destruct (get g "$polygon") as [p| | |] eqn:Ep; cbn [or_leave]; trivial.
  destruct p; trivial.
  destruct (Nat.ltb (List.length l) 3) eqn:El; trivial.
  destruct (polygon_open l) as [open| | |] eqn:Eo; cbn [or_leave]; trivial.
  rewrite (polygon_written_open _ _ _ Hp Eg Ep El _ Eo). cbv zeta.
  now apply (put_read fv g _ l).
Qed.

Lemma geoWithin_branch_agree f fv s s' fv' :
  geoWithin_branch f fv s = Ok (s', fv') -> geoWithin_branch_leaves fv = fv'.
Proof.
  rewrite geoWithin_branch_eq. unfold geoWithin_branch_leaves, bad_json.
  intros E.
  apply bind_ok in E. destruct E as (g & Eg & E). rewrite Eg. cbn [or_leave].
  destruct (truthy g); [|inv_ok; reflexivity].
  apply bind_ok in E. destruct E as (p & Ep & E). rewrite Ep. cbn [or_leave].
  destruct (truthy p) eqn:Tp.
  - destruct p; try discriminate.
    destruct (Nat.ltb (List.length l) 3); [discriminate|].
    apply bind_ok in E. destruct E as (open & Eo & E). rewrite Eo.
    cbn [or_leave]. cbv zeta in *.
    apply bind_ok in E. destruct E as (points & _ & E).
    apply Ok_inj in E. apply pair_inj in E. now destruct E.
  - destruct p; try discriminate; inv_ok; reflexivity.
Qed.

Lemma geoWithin_branch_stays f fv s s' fv' :
  polygon_written fv = false ->
  geoWithin_branch f fv s = Ok (s', fv') -> fv' = fv.
Proof.
  intros Hp E. apply geoWithin_branch_agree in E. subst fv'.
  now apply geoWithin_branch_leaves_stays.
Qed.

Ltac body_inv E :=
  unfold body in E;
  repeat match goal with
         | H : bind _ _ = Ok _ |- _ =>
             let a := fresh "a" in
             let E := fresh "E" in
             apply bind_ok in H; destruct H as (a & E & H); cbv beta in H
         | H : (if ?b then _ else _) = Ok _ |- _ => destruct b eqn:?
         | H : match ?x with (_, _) => _ end = Ok _ |- _ => destruct x
         | H : Ok _ = Ok _ |- _ => apply Ok_inj in H
         | H : (_, _) = (_, _) |- _ =>
             apply pair_inj in H; destruct H as [? ?]
         | H : Throw _ = Ok _ |- _ => discriminate H
         end; subst.

Lemma body_stays rec rl f fv sch1 s s' fv' sch' :
  rec_stays rec rl sch1 ->
  body rec f fv sch1 s = Ok (s', fv', sch') ->
  sch' = sch1
  /\ (ne_written sch1 f fv = false -> polygon_written fv = false ->
      sub_stable sch1 f fv = true -> fv' = fv).
Proof.
  intros Hrec E. body_inv E; try (split; trivial).
  all: match goal with
       | E : scalar_branch _ _ _ _ _ = Ok _ |- _ =>
           destruct (scalar_branch_stays _ rl _ _ _ _ _ _ _ _ Hrec E)
             as [Hs Hq]
       end; trivial.
  all: intros Hn Hp Hsub; specialize (Hq Hsub); subst.
  all: repeat match goal with
              | Hb : is_array_field _ _ = Ok _,
                E : ne_branch _ _ _ _ = Ok _ |- _ =>
                  apply (ne_branch_stays _ _ _ _ _ _ _ _ Hb Hn) in E; subst
              | E : geoWithin_branch _ _ _ = Ok _ |- _ =>
                  apply (geoWithin_branch_stays _ _ _ _ _ Hp) in E; subst
              end; reflexivity.
Qed.

Lemma body_agree rec rl f fv sch s s' fv' sch' :
  body rec f fv sch s = Ok (s', fv', sch') ->
  body_leaves rec rl f fv sch s = (fv', sch').
Proof.
  intros E. unfold body in E. unfold body_leaves.
  apply bind_ok in E. destruct E as (b & Eb & E). rewrite Eb. cbn [or_leave].
  apply bind_ok in E. destruct E as (fields & Ef & E). rewrite Ef.
  apply bind_ok in E. destruct E as (declared & Ed & E). cbn [bind].
  rewrite Ed. cbn [bind].
  apply bind_ok in E. destruct E as (skip & Es & E). rewrite Es.
  cbn [or_leave].
  destruct skip; [inv_ok; reflexivity|].
  apply bind_ok in E. destruct E as ([[[c s1] fv1] sch1] & Esc & E).
  rewrite Esc. cbn [or_leave].
  destruct c; [inv_ok; reflexivity|].
  apply bind_ok in E. destruct E as ([[c2 s2] fv2] & Ene & E).
  rewrite Ene. cbn [or_leave].
  destruct c2; [inv_ok; reflexivity|].
  apply bind_ok in E. destruct E as (s3 & E3 & E). rewrite E3. cbn [bind].
  apply bind_ok in E. destruct E as (s4 & E4 & E). rewrite E4. cbn [bind].
  apply bind_ok in E. destruct E as (s5 & E5 & E). rewrite E5. cbn [bind].
  apply bind_ok in E. destruct E as (s6 & E6 & E). rewrite E6. cbn [bind].
  apply bind_ok in E. destruct E as (s7 & E7 & E). rewrite E7. cbn [bind].
  apply bind_ok in E. destruct E as (s8 & E8 & E). rewrite E8. cbn [bind].
  apply bind_ok in E. destruct E as (s9 & E9 & E). rewrite E9.
  cbn [or_leave].
  apply bind_ok in E. destruct E as ([s10 fv3] & Eg & E).
  rewrite (geoWithin_branch_agree _ _ _ _ _ Eg).
  inv_ok; reflexivity.
Qed.

Lemma body_leaves_stays rec rl f fv sch1 s :
  rec_stays rec rl sch1 ->
  snd (body_leaves rec rl f fv sch1 s) = sch1
  /\ (ne_written sch1 f fv = false -> polygon_written fv = false ->
      sub_stable sch1 f fv = true ->
      fst (body_leaves rec rl f fv sch1 s) = fv).
Proof.
  intros Hrec. unfold body_leaves.
  destruct (is_array_field sch1 f) as [b| | |] eqn:Eb; cbn [or_leave];
    try (split; reflexivity).
  match goal with
  | |- context [or_leave ?m _ _] => destruct m as [skip| | |]
  end; cbn [or_leave]; try (split; reflexivity).
  destruct skip; [split; reflexivity|].
  destruct (scalar_branch rec f fv sch1 s) as [[[[c s1] fv1] sch2]| | |] eqn:Es;
    cbn [or_leave];
    try (destruct (scalar_branch_leaves_stays rec rl f fv sch1 s Hrec)
           as [S1 S2]; split; [exact S1|intros _ _ Hsub; exact (S2 Hsub)]).
  destruct (scalar_branch_stays _ rl _ _ _ _ _ _ _ _ Hrec Es) as [-> Hq].
  destruct c; [split; [reflexivity|intros _ _ Hsub; now apply Hq]|].
  destruct (ne_branch f b fv1 s1) as [[[c2 s2] fv2]| | |] eqn:En;
    cbn [or_leave];
    try (split; [reflexivity|intros _ _ Hsub; now apply Hq]).
  assert (Hfv2 : ne_written sch1 f fv = false -> sub_stable sch1 f fv = true ->
                 fv2 = fv).
  { intros Hn Hsub. specialize (Hq Hsub). subst fv1.
    exact (ne_branch_stays _ _ _ _ _ _ _ _ Eb Hn En). }
  destruct c2; [split; [reflexivity|intros Hn _ Hsub; now apply Hfv2]|].
  match goal with
  | |- context [or_leave ?m _ _] => destruct m as [s9| | |]
  end; cbn [or_leave];
    try (split; [reflexivity|intros Hn _ Hsub; now apply Hfv2]).
  split; [reflexivity|]. intros Hn Hp Hsub. cbn [fst].
  rewrite (Hfv2 Hn Hsub). now apply geoWithin_branch_leaves_stays.
Qed.

Definition fields_stable (sch : jsval) (fields : list (string * jsval))
  : Prop :=
  forall k v, In (k, v) fields ->
              ne_written sch k v = false /\ polygon_written v = false
              /\ sub_stable sch k v = true.

Lemma loop_stays rec rl fields sch1 s s' fields' sch' :
  rec_stays rec rl sch1 ->
  loop rec fields sch1 s = Ok (s', fields', sch') ->
  sch' = sch1 /\ (fields_stable sch1 fields -> fields' = fields).
Proof.
  intros Hrec. revert s s' fields' sch'.
  induction fields as [|[k v] r IH]; intros s s' fields' sch' E;
    cbn [loop] in E.
  - inv_ok. split; reflexivity.
  - apply bind_ok in E. destruct E as ([[s1 v1] sch2] & Eb & E).
    apply bind_ok in E. destruct E as ([[s2 r2] sch3] & El & E).
    apply Ok_inj in E. repeat (apply pair_inj in E; destruct E as [E ?]).
    subst.
    destruct (body_stays _ rl _ _ _ _ _ _ _ Hrec Eb) as [-> Hv].
    destruct (IH _ _ _ _ El) as [-> Hr].
    split; [reflexivity|]. intros Hf.
    destruct (Hf k v (or_introl eq_refl)) as (H1 & H2 & H3).
    rewrite (Hv H1 H2 H3).
    rewrite Hr by (intros k' v' Hin; apply (Hf k'); now right).
    reflexivity.
Qed.

Lemma loop_leaves_stays rec rl fields sch1 s :
  rec_stays rec rl sch1 ->
  snd (loop_leaves rec rl fields sch1 s) = sch1
  /\ (fields_stable sch1 fields ->
      fst (loop_leaves rec rl fields sch1 s) = fields).
Proof.
  intros Hrec. revert s.
  induction fields as [|[k v] r IH]; intros s; cbn [loop_leaves].
  - split; reflexivity.
  - destruct (body_leaves_stays rec rl k v sch1 s Hrec) as [B1 B2].
    destruct (body rec k v sch1 s) as [[[s1 v1] sch2]| | |] eqn:Eb;
      cbn [or_leave].
    2-4: destruct (body_leaves rec rl k v sch1 s) as [a b];
      cbn [fst snd] in *; (split; [exact B1|]); intros Hf;
      destruct (Hf k v (or_introl eq_refl)) as (H1 & H2 & H3);
      now rewrite (B2 H1 H2 H3).
    destruct (body_stays _ rl _ _ _ _ _ _ _ Hrec Eb) as [-> Hv].
    destruct (IH s1) as [I1 I2].
    destruct (loop_leaves rec rl r sch1 s1) as [a b]. cbn [fst snd] in *.
    split; [exact I1|]. intros Hf.
    destruct (Hf k v (or_introl eq_refl)) as (H1 & H2 & H3).
    rewrite (Hv H1 H2 H3).
    rewrite I2 by (intros k' v' Hin; apply (Hf k'); now right).
    reflexivity.
Qed.

Lemma show_nat_not_connective n :
  String.eqb (show_nat n) "$or" || String.eqb (show_nat n) "$and" = false.
Proof.
  pose proof (show_nat_no_dollar n) as Hd.
  destruct (String.eqb (show_nat n) "$or") eqn:E1.
  { apply String.eqb_eq in E1. rewrite E1 in Hd. discriminate. }
  destruct (String.eqb (show_nat n) "$and") eqn:E2; [|reflexivity].
  apply String.eqb_eq in E2. rewrite E2 in Hd. discriminate.
Qed.

Lemma entries_stable sch q : stable sch q = true -> fields_stable sch (entries q).
Proof.
  intros Hs k v Hin. destruct q; cbn [entries] in Hin; try contradiction.
  - pose proof (indexed_from_keys _ _ _ _ Hin) as [[n ->] Hv].
    apply in_map_iff in Hv. destruct Hv as (c & <- & _).
    unfold ne_written, polygon_written, sub_stable.
    rewrite show_nat_not_connective.
    destruct (is_array_field sch (show_nat n)) as [[|]| | |]; repeat split.
  - cbn [stable] in Hs. rewrite forallb_forall in Hs.
    specialize (Hs _ Hin). cbn [fst snd] in Hs.
    apply andb_true_iff in Hs. destruct Hs as [H1 H2].
    apply negb_true_iff in H1. apply negb_true_iff in H2.
    pose proof (indexed_from_keys _ _ _ _ Hin) as [[n ->] _].
    unfold sub_stable. rewrite show_nat_not_connective. auto.
  - cbn [stable] in Hs. rewrite forallb_forall in Hs.
    specialize (Hs _ Hin). cbn beta iota in Hs.
    apply andb_true_iff in Hs. destruct Hs as [Hs H3].
    apply andb_true_iff in Hs. destruct Hs as [H1 H2].
    apply negb_true_iff in H1. apply negb_true_iff in H2.
    unfold sub_stable. auto.
Qed.

Lemma bwc_stays fuel sch1 :
  toMySQLSchema sch1 = Ok sch1 -> rec_stays (bwc fuel) (bwc_leaves fuel) sch1.
Proof.
  intros Hidem. induction fuel as [|fuel IH]; intros q i.
  - split; [discriminate|]. split; [reflexivity|]. reflexivity.
  - split; [|cbn [bwc_leaves]; rewrite Hidem; cbn [or_leave]].
    + intros out E. rewrite bwc_S in E.
      apply bind_ok in E. destruct E as (sch2 & Es & E).
      rewrite Hidem in Es. apply Ok_inj in Es. subst sch2.
      apply bind_ok in E. destruct E as ([[s fields] sch2] & El & E).
      apply bind_ok in E. destruct E as (vals & Em & E).
      apply Ok_inj in E. subst out. cbn [schema_after query_after].
      destruct (loop_stays _ _ _ _ _ _ _ _ IH El) as [-> Hq].
      split; [reflexivity|]. intros Hs.
      rewrite (Hq (entries_stable _ _ Hs)). apply rebuild_entries.
    + match goal with
      | |- context [loop_leaves ?r ?rl ?l ?sc ?s] =>
          destruct (loop_leaves_stays r rl l sc s IH) as [L1 L2];
          destruct (loop_leaves r rl l sc s) as [a b]
      end.
      cbn [fst snd] in *. split; [exact L1|]. intros Hs.
      rewrite (L2 (entries_stable _ _ Hs)). apply rebuild_entries.
Qed.

Lemma show_nat_digits n : all_digits (show_nat n) = true.
Proof.
  unfold all_digits, show_nat, chars.
  induction (Nat.to_uint n); cbn [NilEmpty.string_of_uint list_ascii_of_string forallb];
    try rewrite IHu; reflexivity.
Qed.

Lemma find_index_named k i n : all_digits k = false -> find_index k i n = None.
Proof.
  intros Hk. revert i. induction n as [|n IH]; intros i; cbn [find_index];
    [reflexivity|].
  destruct (String.eqb k (show_nat i)) eqn:E; [|apply IH].
  apply String.eqb_eq in E. subst k. now rewrite show_nat_digits in Hk.
Qed.

Lemma toMySQLSchema_cases schema sch1 :
  toMySQLSchema schema = Ok sch1 ->
  (truthy schema = false /\ sch1 = schema)
  \/ exists kvs fs,
       toMySQLSchema (JObj kvs) = Ok sch1
       /\ assoc "fields" kvs = Some (JObj fs).
Proof.
  unfold toMySQLSchema.
  destruct (truthy schema) eqn:Ht; cbn [negb];
    [|intros E; apply Ok_inj in E; left; now split].
  intros E. right.
  apply bind_ok in E. destruct E as (fields0 & Eg & E).
  apply bind_ok in E. destruct E as (schema1 & Es & E).
  apply bind_ok in E. destruct E as (fields1 & Ew & E).
  destruct schema; try discriminate.
  { cbn [set] in Es. now rewrite find_index_named in Es. }
  cbn [get] in Eg. apply Ok_inj in Eg.
  destruct (truthy fields0) eqn:Tf.
  - assert (Hfs : exists fs, fields0 = JObj fs).
    { destruct fields0; try discriminate; [|eauto].
      cbn [set] in Ew. now rewrite find_index_named in Ew. }
    destruct Hfs as [fs Hfs].
    exists kvs, fs. split.
    + unfold toMySQLSchema. cbn [truthy negb get]. rewrite Eg. cbn [bind].
      rewrite Tf, Es. cbn [bind]. rewrite Ew. cbn [bind]. exact E.
    + rewrite Hfs in Eg.
      destruct (assoc "fields" kvs); [now subst|discriminate].
  - exists (assoc_set "fields" (JObj []) kvs), []. split.
    + cbn [set] in Es. apply Ok_inj in Es. subst schema1.
      unfold toMySQLSchema. cbn [truthy negb get]. rewrite assoc_set_same.
      cbn [set] in Ew. apply Ok_inj in Ew. subst fields1.
      cbn [bind truthy set]. rewrite assoc_set_twice.
      cbn [set bind] in E. exact E.
    + apply assoc_set_same.
Qed.

Lemma toMySQLSchema_twice schema sch1 :
  toMySQLSchema schema = Ok sch1 -> toMySQLSchema sch1 = Ok sch1.
Proof.
  intros E. destruct (toMySQLSchema_cases _ _ E) as [[Ht ->]|(kvs & fs & E' & Hf)].
  - unfold toMySQLSchema. now rewrite Ht.
  - exact (proj1 (toMySQLSchema_idem _ _ _ Hf E')).
Qed.

Lemma bwc_leaves_stays fuel schema q i :
  fst (bwc_leaves (S fuel) schema q i) = stored schema
  /\ (stable (stored schema) q = true ->
      snd (bwc_leaves (S fuel) schema q i) = q).
Proof.
  unfold stored. cbn [bwc_leaves].
  destruct (toMySQLSchema schema) as [sch1| | |] eqn:Es; cbn [or_leave];
    try (split; reflexivity).
  pose proof (bwc_stays fuel sch1 (toMySQLSchema_twice _ _ Es)) as Hrec.
  match goal with
  | |- context [loop_leaves ?r ?rl ?l ?sc ?s] =>
      destruct (loop_leaves_stays r rl l sc s Hrec) as [L1 L2];
      destruct (loop_leaves r rl l sc s) as [a b]
  end.
  cbn [fst snd] in *. split; [exact L1|]. intros Hs.
  rewrite (L2 (entries_stable _ _ Hs)). apply rebuild_entries.
Qed.

Lemma loop_leaves_single rec rl f fv sch s :
  loop_leaves rec rl [(f, fv)] sch s
  = match body_leaves rec rl f fv sch s with
    | (fv', sch') => ([(f, fv')], sch')
    end.
Proof.
  cbn [loop_leaves].
  destruct (body rec f fv sch s) as [[[s1 v1] sch1]| | |] eqn:Eb;
    cbn [or_leave]; trivial.
  now rewrite (body_agree _ rl _ _ _ _ _ _ _ Eb).
Qed.

Lemma is_array_field_declared sch f :
  is_array_field sch f = Ok true ->
  exists fields field,
    get sch "fields" = Ok fields /\ get fields f = Ok field
    /\ truthy field = true.
Proof.
  unfold is_array_field. intros E.
  apply bind_ok in E. destruct E as (fields & Ef & E).
  destruct (truthy fields); cbn [negb] in E; [|discriminate].
  apply bind_ok in E. destruct E as (field & Eg & E).
  destruct (truthy field) eqn:Tf; cbn [negb] in E; [|discriminate].
  eauto.
Qed.

(** The loop body past the [$ne] branch, on a value that the branches up
    to [$within] pass over. *)
Lemma prefix_passes f b sch fv s :
  present fv = true ->
  truthy (prop fv "$eq") = false ->
  in_passes fv = true ->
  is_array (prop fv "$all") = false ->
  is_undefined (prop fv "$exists") = true ->
  truthy (prop fv "$text") = false ->
  truthy (prop fv "$nearSphere") = false ->
  truthy (prop fv "$within") = false ->
  (s <- eq_branch f fv s ;;
   s <- in_branch f b sch fv s ;;
   s <- all_branch f b fv s ;;
   s <- exists_branch f fv s ;;
   s <- text_branch f fv s ;;
   s <- nearSphere_branch f fv s ;;
   within_branch f fv s) = Ok s.
Proof.
  intros Hp H1 H2 H3 H4 H5 H6 H7.
  rewrite eq_branch_passes by assumption. cbn [bind].
  rewrite in_branch_passes by assumption. cbn [bind].
  rewrite all_branch_passes by assumption. cbn [bind].
  rewrite exists_branch_passes by assumption. cbn [bind].
  rewrite text_branch_passes by assumption. cbn [bind].
  rewrite nearSphere_branch_passes by assumption. cbn [bind].
  now rewrite within_branch_passes by assumption.
Qed.

Lemma stored_object kvs fs :
  assoc "fields" kvs = Some (JObj fs) ->
  stored (JObj kvs)
  = JObj (assoc_set "fields"
            (JObj (with_implicit_fields (lookup "className" kvs) fs)) kvs).
Proof.
  intros Hf. unfold stored. now rewrite (toMySQLSchema_object _ _ Hf).
Qed.

(** The write of the [$ne] branch. *)
Lemma ne_operand_written kvs fs f v i :
  assoc "fields" kvs = Some (JObj fs) ->
  is_array_field (stored (JObj kvs)) f = Ok true ->
  includes "." f = false ->
  String.eqb f "$or" || String.eqb f "$and" = false ->
  is_undefined v = false ->
  snd (buildWhereClause_leaves (JObj kvs) (JObj [(f, JObj [("$ne", v)])]) i)
  = JObj [(f, JObj [("$ne", JSON_stringify (JArr [v]))])].
Proof.
  intros Hf Hb Hd Hor Hv.
  unfold buildWhereClause_leaves. cbn [bwc_leaves].
  unfold stored in Hb. rewrite (toMySQLSchema_object _ _ Hf) in *.
  cbn [or_leave entries] in *. rewrite loop_leaves_single.
  destruct (is_array_field_declared _ _ Hb) as (fields & field & Eg & Ed & Tf).
  unfold body_leaves. rewrite Hb. cbn [or_leave]. rewrite Eg. cbn [bind].
  rewrite Ed. cbn [bind]. rewrite Tf. cbn [negb andb or_leave].
  unfold scalar_branch. rewrite Hd, Hor. cbn [or_leave].
  unfold ne_branch. cbn [get assoc]. rewrite String.eqb_refl. cbn [bind].
  rewrite Hv. cbn [negb set assoc_set]. rewrite String.eqb_refl.
  cbn [bind get assoc]. rewrite String.eqb_refl. cbn [bind or_leave].
  rewrite prefix_passes by reflexivity. cbn [or_leave].
  rewrite geoWithin_branch_leaves_stays by reflexivity. reflexivity.
Qed.

(** The write of the [$geoWithin] branch. *)
Lemma open_polygon_written kvs fs f pts i :
  assoc "fields" kvs = Some (JObj fs) ->
  includes "." f = false ->
  String.eqb f "$or" || String.eqb f "$and" = false ->
  Nat.leb 3 (List.length pts) = true ->
  polygon_open pts = Ok true ->
  snd (buildWhereClause_leaves (JObj kvs)
         (JObj [(f, JObj [("$geoWithin", JObj [("$polygon", JArr pts)])])]) i)
  = JObj [(f, JObj [("$geoWithin",
                     JObj [("$polygon",
                            JArr (snoc pts (nth 0 pts JUndef)))])])].
Proof.
  intros Hf Hd Hor Hl Ho.
  set (fv := JObj [("$geoWithin", JObj [("$polygon", JArr pts)])]).
  unfold buildWhereClause_leaves. cbn [bwc_leaves].
  pose proof (toMySQLSchema_object _ _ Hf) as Es.
  destruct (toMySQLSchema_idem _ _ _ Hf Es) as [_ (kvs1 & fs1 & E1 & Hf1)].
  rewrite Es, E1. cbn [or_leave entries]. rewrite loop_leaves_single.
  destruct (is_array_field_has_fields (JObj kvs1) f) as [b Hb];
    [eexists _, _; eauto|].
  unfold body_leaves. rewrite Hb. cbn [or_leave].
  rewrite (get_fields_object _ _ Hf1). cbn [bind]. rewrite get_object.
  cbn [bind].
  assert (Hskip : (if negb (truthy (lookup f fs1)) && truthy fv
                   then ex <- get fv "$exists" ;; Ok (is_false ex)
                   else Ok false) = Ok false)
    by (destruct (negb (truthy (lookup f fs1)) && truthy fv); reflexivity).
  rewrite Hskip. cbn [or_leave].
  unfold scalar_branch. rewrite Hd. unfold fv at 1. rewrite Hor.
  cbn [or_leave].
  rewrite ne_branch_passes by reflexivity. cbn [or_leave].
  rewrite prefix_passes by reflexivity. cbn [or_leave].
  unfold geoWithin_branch_leaves, fv.
  repeat (cbn [get assoc or_leave truthy]; rewrite ?String.eqb_refl).
  apply Nat.leb_le in Hl.
  rewrite (proj2 (Nat.ltb_ge _ _)) by exact Hl.
  rewrite Ho. cbn [or_leave put assoc_set]. rewrite !String.eqb_refl.
  reflexivity.
Qed.

(** *** The update compiler *)

Lemma update_loop_agree schema orig fields s o :
  update_loop schema orig fields s = Ok o ->
  update_loop_leaves schema orig fields s
  = Some (match o with inl (_, f') => f' | inr (_, f') => f' end).
Proof.
  revert s o.
  induction fields as [|[k v] r IH]; intros s o E;
    cbn [update_loop update_loop_leaves] in *.
  - apply Ok_inj in E. now subst.
  - apply bind_ok in E. destruct E as (o1 & E1 & E).
    unfold update_field_leaves. rewrite E1.
    destruct o1 as [[s1 v1]|e].
    + apply bind_ok in E. destruct E as (o2 & E2 & E).
      rewrite (IH _ _ E2).
      destruct o2 as [[s2 r2]|[e r2]]; apply Ok_inj in E; subst; reflexivity.
    + apply Ok_inj in E. now subst.
Qed.

Lemma transformUpdate_agree schema update r update' :
  transformUpdate schema update = Ok (r, update') ->
  transformUpdate_leaves schema update = Some update'.
Proof.
  unfold transformUpdate, transformUpdate_leaves, handleDotFields.
  destruct (existsb _ _); [discriminate|]. intros E.
  apply bind_ok in E. destruct E as (u1 & E1 & E).
  apply bind_ok in E1. destruct E1 as (keys & Ek & E1).
  rewrite Ek, E1.
  apply bind_ok in E. destruct E as (u2 & E2 & E). rewrite E2.
  apply bind_ok in E. destruct E as (o & Eo & E).
  rewrite (update_loop_agree _ _ _ _ _ Eo).
  destruct o as [[s1 f1]|[e f1]]; apply Ok_inj in E;
    apply pair_inj in E; destruct E as [_ <-]; reflexivity.
Qed.

Lemma update_loop_leaves_plain schema orig fields s :
  (forall kv, In kv orig -> includes "." (fst kv) = false) ->
  update_loop_leaves schema orig fields s = Some fields.
Proof.
  intros Hpl. revert s.
  assert (Hn : forall f, existsb (fun kv => nested_under f (fst kv)) orig
                         = false).
  { intros f. induction orig as [|kv l IH]; cbn [existsb]; [reflexivity|].
    rewrite nested_under_no_dot by (apply Hpl; now left).
    apply IH. intros kv' Hin. apply Hpl. now right. }
  induction fields as [|[k v] r IH]; intros s; cbn [update_loop_leaves];
    [reflexivity|].
  unfold update_field_leaves. rewrite Hn.
  destruct (update_field schema orig k v s) as [[[s1 v1]|e]| | |] eqn:E;
    cbn [option_map]; trivial.
  rewrite (update_field_frame _ _ _ _ _ _ _ Hpl E), IH. reflexivity.
Qed.

Lemma plain_keys_write_no_op update :
  plain_keys update = true ->
  existsb (fun kv => writes_op (fst kv)) (entries update) = false.
Proof.
  intros Hp.
  assert (Hk : forall kv, In kv (entries update) -> writes_op (fst kv) = false).
  { intros kv Hin.
    destruct (plain_keys_spec update (fst kv) Hp (in_map fst _ _ Hin))
      as [Hd Ha].
    unfold writes_op. rewrite (split_on_no_dot _ Hd). cbn [tl existsb orb].
    destruct (String.eqb (fst kv) "_auth_data___op") eqn:E; [|reflexivity].
    apply String.eqb_eq in E. rewrite E in Ha. vm_compute in Ha.
    discriminate. }
  induction (entries update) as [|kv l IH]; cbn [existsb]; [reflexivity|].
  rewrite (Hk kv) by now left. apply IH. intros kv' Hin. apply Hk. now right.
Qed.

Lemma transformUpdate_leaves_plain schema update :
  plain_keys update = true -> transformUpdate_leaves schema update = Some update.
Proof.
  intros Hp. unfold transformUpdate_leaves.
  rewrite (plain_keys_write_no_op _ Hp).
  destruct (object_keys update) as [keys| | |] eqn:Ek; trivial.
  assert (keys = map fst (entries update)) as ->
    by (destruct update; try discriminate; apply Ok_inj in Ek; now subst).
  rewrite foldM_fixed.
  2:{ intros k Hin. unfold handleDotField.
      now rewrite (proj1 (plain_keys_spec _ _ Hp Hin)). }
  rewrite foldM_fixed.
  2:{ intros k Hin. unfold foldAuthData.
      now rewrite (proj2 (plain_keys_spec _ _ Hp Hin)). }
  rewrite update_loop_leaves_plain.
  2:{ intros kv Hin.
      apply (plain_keys_spec update (fst kv) Hp), in_map, Hin. }
  cbn [option_map]. now rewrite rebuild_entries.
Qed.

(** C2: a call of [buildWhereClause], whether it returns or throws,
    leaves in the schema what [toMySQLSchema] makes of it: on a schema
    object with a field map, the field map completed with the implicit
    fields, so that a schema which already has them is left as it was.
    (The schema is not an array and its [fields] is not one: the named
    properties that [toMySQLSchema] would give an array are outside the
    model.)  It
    leaves the query as it was when the query is stable: no field, of the
    query or of a sub-query of its [$or] and [$and] lists, holds a [$ne]
    on a field that the stored schema declares as an array, or a
    [$geoWithin] polygon of at least three points whose first and last
    points differ.  These are the two writes of the loop: the operand of
    such a [$ne] is replaced by the JSON text of the list that holds it,
    and such a polygon gets its first point pushed at its end, before the
    points are validated.  A call of [transformUpdate], whether it returns
    (a result or a rejected promise) or throws, leaves as it was an update
    whose keys contain no dot and are not auth-data keys.  When a call
    returns, what it leaves is what the model of the call hands back. *)
Theorem compilers_frame (schema query : jsval) (index : nat) (update : jsval) :
  (is_array schema = false ->
   is_array (prop schema "fields") = false ->
   fst (buildWhereClause_leaves schema query index) = stored schema
   /\ (stable (stored schema) query = true ->
       snd (buildWhereClause_leaves schema query index) = query))
  /\ (forall out,
         buildWhereClause schema query index = Ok out ->
         buildWhereClause_leaves schema query index
         = (schema_after out, query_after out))
  /\ (forall kvs fs,
         schema = JObj kvs -> assoc "fields" kvs = Some (JObj fs) ->
         stored schema
         = JObj (assoc_set "fields"
                   (JObj (with_implicit_fields (lookup "className" kvs) fs))
                   kvs)
         /\ (with_implicit_fields (lookup "className" kvs) fs = fs ->
             stored schema = schema)
         /\ (forall f v,
                is_array_field (stored schema) f = Ok true ->
                includes "." f = false ->
                String.eqb f "$or" || String.eqb f "$and" = false ->
                is_undefined v = false ->
                snd (buildWhereClause_leaves schema
                       (JObj [(f, JObj [("$ne", v)])]) index)
                = JObj [(f, JObj [("$ne", JSON_stringify (JArr [v]))])])
         /\ (forall f pts,
                includes "." f = false ->
                String.eqb f "$or" || String.eqb f "$and" = false ->
                Nat.leb 3 (List.length pts) = true ->
                polygon_open pts = Ok true ->
                snd (buildWhereClause_leaves schema
                       (JObj [(f, JObj [("$geoWithin",
                                         JObj [("$polygon", JArr pts)])])])
                       index)
                = JObj [(f, JObj [("$geoWithin",
                                   JObj [("$polygon",
                                          JArr (snoc pts (nth 0 pts JUndef)))])])]))
  /\ (plain_keys update = true ->
      transformUpdate_leaves schema update = Some update)
  /\ (forall r update',
         transformUpdate schema update = Ok (r, update') ->
         transformUpdate_leaves schema update = Some update').
Proof.
  split.
  { intros _ _. exact (bwc_leaves_stays (depth query) schema query index). }
  split; [intros out E; exact (bwc_agree _ _ _ _ _ E)|].
  split.
  - intros kvs fs -> Hf. split; [exact (stored_object _ _ Hf)|].
    split.
    + intros Hi. rewrite (stored_object _ _ Hf), Hi. f_equal.
      apply assoc_set_idem. exact Hf.
    + split.
      * intros f v. exact (ne_operand_written kvs fs f v index Hf).
      * intros f pts. exact (open_polygon_written kvs fs f pts index Hf).
  - split.
    + exact (transformUpdate_leaves_plain schema update).
    + intros r update'. exact (transformUpdate_agree schema update r update').
Qed.

(** *** The bookkeeping invariant of the two compilers *)

(** The recursive calls, made on the schema [sch1], hand it back. *)
Definition rec_keeps (rec : jsval -> jsval -> nat -> result bw_out)
    (sch1 : jsval) : Prop :=
  forall q i out, rec sch1 q i = Ok out -> schema_after out = sch1.

(** What the invariant asks of the recursive calls made on [sch1]. *)
Definition rec_steps (rec : jsval -> jsval -> nat -> result bw_out)
    (sch1 : jsval) : Prop :=
  forall q j out,
    indexable sch1 q = true -> rec sch1 q j = Ok out ->
    walk j 0 (tokens (pattern out)) (List.length (out_values out)).

(** The sub-queries of a field are numbered in step. *)
Definition sub_indexable (sch : jsval) (f : string) (fv : jsval) : bool :=
  if String.eqb f "$or" || String.eqb f "$and"
  then match fv with JArr subs => forallb (indexable sch) subs | _ => true end
  else true.

(** What the [$in] branch needs of the value of a field. *)
Definition in_fine (sch : jsval) (f : string) (fv : jsval) : Prop :=
  forall elems,
    get fv "$in" = Ok (JArr elems) -> string_array_field sch f = true ->
    after_nulls 0 elems = false.

Lemma in_indexed_fine sch f fv : in_indexed sch f fv = true -> in_fine sch f fv.
Proof.
  unfold in_indexed, in_fine. intros Hi elems Eg Hs.
  rewrite Hs, (get_prop _ _ _ Eg) in Hi. cbn [andb] in Hi.
  now apply negb_true_iff in Hi.
Qed.

Lemma sub_clauses_steps rec sch1 subs i clauses clauseValues i' schema' subs' :
  rec_keeps rec sch1 ->
  (forall q j out,
      In q subs -> rec sch1 q j = Ok out ->
      walk j 0 (tokens (pattern out)) (List.length (out_values out))) ->
  sub_clauses rec sch1 subs i
  = Ok (clauses, clauseValues, i', schema', subs') ->
  walk i 0 (concat (map tokens clauses)) (List.length clauseValues)
  /\ i' = i + List.length clauseValues /\ schema' = sch1.
Proof.
  intros Hk. revert i clauses clauseValues i' schema' subs'.
  induction subs as [|q r IH];
    intros i clauses clauseValues i' schema' subs' Hrec E;
    cbn [sub_clauses] in E.
  - inv_ok. simpl. repeat split; lia.
  - apply bind_ok in E. destruct E as (c & Ec & E). cbv beta zeta in E.
    apply bind_ok in E. destruct E as ([[[[cls cvs] j] sch] r'] & Er & E).
    apply Ok_inj in E. rewrite (Hk _ _ _ Ec) in Er.
    apply IH in Er; [|intros; eapply Hrec; eauto; now right].
    destruct Er as (Hw & Hj & Hs).
    apply Hrec in Ec; [|now left].
    destruct (Nat.ltb 0 (String.length (pattern c)));
      repeat (apply pair_inj in E; destruct E as [E ?]); subst.
    + split; [|split; [rewrite length_app; lia|reflexivity]].
      simpl. rewrite length_app.
      apply (walk_app _ _ _ _ _ _ Ec).
      pose proof (walk_shift i (List.length (out_values c)) 0 _ _ Hw) as Hs.
      now rewrite Nat.add_0_r in Hs.
    + split; [exact Hw|split; reflexivity].
Qed.

Lemma get_array_in l : get (JArr l) "$in" = Ok JUndef.
Proof. reflexivity. Qed.

(** The walk of the fragment of [$or] / [$and]. *)
Lemma Inv_connective s0 (s : bw) f clauses clauseValues :
  Inv s0 s ->
  walk (index s) 0 (concat (map tokens clauses)) (List.length clauseValues) ->
  Inv s0 {| patterns :=
              snoc (patterns s)
                ("(" ++ join (if String.eqb f "$or" then " OR " else " AND ")
                          clauses ++ ")");
            values := (values s ++ clauseValues)%list;
            sorts := sorts s;
            index := index s + List.length clauseValues |}.
Proof.
  intros HI Hw. apply Inv_push; [exact HI | reflexivity |].
  destruct HI as [_ Hidx]. rewrite Hidx in Hw.
  match goal with
  | |- walk _ _ (tokens ("(" ++ join ?sep ?cl ++ ")")) _ =>
      replace (tokens ("(" ++ join sep cl ++ ")"))
        with (concat (map tokens cl))
  end.
  - pose proof (walk_shift s0 (List.length (values s)) 0 _ _ Hw) as Hs.
    now rewrite Nat.add_0_r in Hs.
  - unfold tokens at 2. rewrite scan_lit by reflexivity.
    rewrite scan_app by reflexivity.
    rewrite (scan_lit_end ")") by reflexivity. rewrite app_nil_r.
    change (scan Idle ?x) with (tokens x).
    destruct (String.eqb f "$or"); symmetry;
      [apply (tokens_join " " "OR ") | apply (tokens_join " " "AND ")];
      reflexivity.
Qed.

Lemma tokens_around l name r :
  no_dollar l = true -> starts_non_digit r = true -> no_dollar r = true ->
  tokens (l ++ name ++ r) = tokens name.
Proof.
  intros Hl Hs Hr. unfold tokens. rewrite scan_lit by exact Hl.
  rewrite scan_app by exact Hs. rewrite (scan_lit_end r) by exact Hr.
  apply app_nil_r.
Qed.

Lemma scalar_branch_steps s0 rec f fv sch1 s c s' fv' schema' :
  rec_keeps rec sch1 -> rec_steps rec sch1 ->
  inlined_quiet f fv = true -> sub_indexable sch1 f fv = true ->
  in_fine sch1 f fv ->
  scalar_branch rec f fv sch1 s = Ok (c, s', fv', schema') ->
  Inv s0 s -> Inv s0 s' /\ schema' = sch1 /\ in_fine sch1 f fv'.
Proof.
  intros Hk Hrec Hq Hsub Hin E HI. unfold scalar_branch in E.
  destruct (includes "." f) eqn:Hdot.
  { unfold inlined_quiet, inlined_text in Hq. rewrite Hdot in Hq.
    cbn [negb orb] in Hq.
    assert (Hemit : forall p, tokens p = [] -> Inv s0 (emit p [] 0 s)).
    { intros p Hp. apply Inv_emit; [exact HI | reflexivity |].
      rewrite Hp. simpl. lia. }
    destruct (is_null fv).
    - inv_ok. split; [|split; [reflexivity|exact Hin]].
      apply Hemit. rewrite (tokens_around "`" _ "` IS NULL") by reflexivity.
      destruct (tokens _); [reflexivity|discriminate].
    - apply bind_ok in E. destruct E as (text & Et & E). unfold template in Et.
      destruct (renders fv); [|discriminate]. apply Ok_inj in Et. subst text.
      inv_ok. split; [|split; [reflexivity|exact Hin]].
      apply Hemit. destruct (tokens _); [reflexivity|discriminate]. }
  clear Hq. unfold sub_indexable in Hsub.
  destruct fv; inv_ok;
    try (split; [first [exact HI | emit_ok]|split; [reflexivity|exact Hin]]).
  match goal with
  | E : sub_clauses _ _ _ _ = Ok _ |- _ =>
      apply sub_clauses_steps in E;
      [ destruct E as (Hw & Hi & Hs)
      | exact Hk
      | intros q jj o Hq Hrq; apply (Hrec q jj o); [|exact Hrq];
        rewrite forallb_forall in Hsub; auto ]
  end.
  subst. split; [|split; [reflexivity|]].
  - now apply Inv_connective.
  - intros elems Hg. rewrite get_array_in in Hg. discriminate.
Qed.

Lemma ne_branch_in_fine sch f b fv s c s' fv' :
  in_fine sch f fv -> ne_branch f b fv s = Ok (c, s', fv') -> in_fine sch f fv'.
Proof.
  intros Hin E. unfold ne_branch in E.
  destruct fv; simpl in E; inv_ok; trivial.
  intros vin Hg. apply Hin. simpl in *.
  rewrite assoc_set_other in Hg by reflexivity. exact Hg.
Qed.

Lemma in_string_array_walks i elems li n vals pats an' vals' pats' :
  li = List.length pats + n ->
  after_nulls n elems = false ->
  concat (map tokens pats) = pair_tokens i 0 (List.length pats) ->
  in_string_array i elems li (Nat.ltb 0 n) vals pats = (an', vals', pats') ->
  concat (map tokens pats') = pair_tokens i 0 (List.length pats')
  /\ List.length vals' + List.length pats
     = List.length vals + List.length pats'.
Proof.
  revert li n vals pats.
  induction elems as [|e r IH]; intros li n vals pats Hli Hn Hp E;
    cbn [in_string_array] in E.
  - apply pair_inj in E. destruct E as [E <-]. apply pair_inj in E.
    destruct E as [_ <-]. split; [exact Hp|lia].
  - cbn [after_nulls] in Hn. destruct (is_null e) eqn:En.
    + apply (IH (S li) (S n)) in E; [exact E|lia|exact Hn|exact Hp].
    + apply orb_false_iff in Hn. destruct Hn as [Hn2 Hn].
      apply Nat.leb_gt in Hn2.
      apply (IH (S li) n) in E.
      * unfold snoc in E. rewrite !length_app in E. simpl in E.
        destruct E as [E1 E2]. split; [exact E1|lia].
      * unfold snoc. rewrite length_app. simpl. lia.
      * exact Hn.
      * unfold snoc. rewrite map_app, concat_app, length_app, Hp.
        cbn [List.length map concat].
        replace (List.length pats + 1) with (S (List.length pats)) by lia.
        rewrite pair_tokens_snoc. f_equal.
        rewrite app_nil_r. toks.
        replace (i + 1 + li - (if Nat.ltb 0 n then 1 else 0))
          with (i + 1 + List.length pats)
          by (destruct n as [|[|n]]; cbn [Nat.ltb Nat.leb]; lia).
        reflexivity.
Qed.

Lemma in_string_array_steps s0 f elems (s : bw) :
  Inv s0 s -> after_nulls 0 elems = false ->
  match in_string_array (index s) elems 0 false [JStr f] [] with
  | (allowNull, vals, inPatterns) =>
      Inv s0 {| patterns :=
                  snoc (patterns s)
                    (if allowNull
                     then "(`" ++ tok (index s) ++ "` IS NULL OR "
                          ++ join " OR " inPatterns ++ ")"
                     else "`" ++ tok (index s) ++ "` && "
                          ++ join " OR " inPatterns);
                values := (values s ++ vals)%list;
                sorts := sorts s;
                index := index s + 1 + List.length inPatterns |}
  end.
Proof.
  intros HI Hn.
  destruct (in_string_array (index s) elems 0 false [JStr f] [])
    as [[allowNull vals] pats] eqn:E.
  apply (in_string_array_walks _ _ 0 0) in E;
    [ | reflexivity | exact Hn | reflexivity ].
  destruct E as [Et El]. simpl in El.
  apply Inv_push; [exact HI | lia |].
  destruct HI as [Hw Hi].
  assert (Ht : tokens (if allowNull
                       then "(`" ++ tok (index s) ++ "` IS NULL OR "
                            ++ join " OR " pats ++ ")"
                       else "`" ++ tok (index s) ++ "` && "
                            ++ join " OR " pats)
               = index s :: pair_tokens (index s) 0 (List.length pats)).
  { rewrite <- Et, <- (tokens_join " " "OR ") by reflexivity.
    unfold tokens. destruct allowNull.
    - rewrite scan_lit by reflexivity. rewrite tokens_tok.
      rewrite scan_lit by reflexivity. rewrite scan_app by reflexivity.
      rewrite (scan_lit_end ")") by reflexivity. now rewrite app_nil_r.
    - rewrite scan_lit by reflexivity. rewrite tokens_tok.
      rewrite scan_lit by reflexivity. reflexivity. }
  rewrite Ht, Hi. cbn [walk]. right. split; [lia|].
  pose proof (walk_pair_tokens s0 (List.length (values s))
                (List.length pats) 0) as Hp.
  replace (S (List.length (values s)))
    with (List.length (values s) + 1 + 0) by lia.
  replace (List.length (values s) + List.length vals)
    with (List.length (values s) + 1 + 0 + List.length pats) by lia.
  exact Hp.
Qed.

(** The first alternative of the [$in] branch is taken on a field
    declared as an array of strings. *)
Lemma string_array_taken sch f fields field contents ty :
  is_array_field sch f = Ok true ->
  get sch "fields" = Ok fields -> get fields f = Ok field ->
  get field "contents" = Ok contents -> truthy contents = true ->
  get contents "type" = Ok ty -> str_is ty "String" = true ->
  string_array_field sch f = true.
Proof.
  intros Hb E1 E2 E3 Ht E4 Hs. unfold string_array_field. rewrite Hb.
  rewrite (get_prop _ _ _ E1), (get_prop _ _ _ E2), (get_prop _ _ _ E3).
  cbv zeta. now rewrite Ht, (get_prop _ _ _ E4), Hs.
Qed.

Lemma in_branch_steps s0 f b sch fv s s' :
  is_array_field sch f = Ok b -> in_fine sch f fv ->
  in_branch f b sch fv s = Ok s' -> Inv s0 s -> Inv s0 s'.
Proof.
  unfold in_branch. intros Hb Hin E HI.
  apply bind_ok in E. destruct E as (vin & Evin & E).
  apply bind_ok in E. destruct E as (vnin & Evnin & E). cbv zeta in E.
  apply bind_ok in E. destruct E as (sa & Esa & E).
  destruct sa.
  - destruct vin; try (inv_ok; exact HI).
    destruct (is_array (JArr l) && b) eqn:Eab; [|discriminate].
    apply andb_true_iff in Eab. destruct Eab as [_ ->].
    apply bind_ok in Esa. destruct Esa as (fields & E1 & Esa).
    apply bind_ok in Esa. destruct Esa as (field & E2 & Esa).
    apply bind_ok in Esa. destruct Esa as (contents & E3 & Esa).
    destruct (truthy contents) eqn:Tc; [|discriminate].
    apply bind_ok in Esa. destruct Esa as (ty & E4 & Esa).
    apply Ok_inj in Esa.
    pose proof (string_array_taken _ _ _ _ _ _ Hb E1 E2 E3 Tc E4 Esa) as Hs.
    pose proof (in_string_array_steps s0 f l s HI (Hin l Evin Hs)) as X.
    destruct (in_string_array (index s) l 0 false [JStr f] [])
      as [[an vals] pats].
    apply Ok_inj in E. subst s'. exact X.
  - destruct (is_array vin || is_array vnin); [|inv_ok; exact HI].
    apply Ok_inj in E. subst s'.
    destruct (truthy vin), (truthy vnin);
      repeat apply createConstraint_inv; exact HI.
Qed.

Lemma body_steps s0 rec f fv sch1 s s' fv' schema' :
  rec_keeps rec sch1 -> rec_steps rec sch1 ->
  inlined_quiet f fv = true -> sub_indexable sch1 f fv = true ->
  in_fine sch1 f fv ->
  body rec f fv sch1 s = Ok (s', fv', schema') ->
  Inv s0 s -> Inv s0 s' /\ schema' = sch1.
Proof.
  intros Hk Hrec Hdot Hsub Hin E HI. unfold body in E.
  apply bind_ok in E. destruct E as (b & Hb & E).
  repeat match goal with
         | H : bind _ _ = Ok _ |- _ =>
             let a := fresh "a" in
             let E := fresh "E" in
             apply bind_ok in H; destruct H as (a & E & H); cbv beta in H
         | H : (if ?b then _ else _) = Ok _ |- _ => destruct b eqn:?
         | H : match ?x with (_, _) => _ end = Ok _ |- _ => destruct x
         | H : Ok _ = Ok _ |- _ => apply Ok_inj in H
         | H : (_, _) = (_, _) |- _ =>
             apply pair_inj in H; destruct H as [? ?]
         | H : Throw _ = Ok _ |- _ => discriminate H
         end; subst; try (split; trivial).
  all: match goal with
       | E : scalar_branch _ _ _ _ _ = Ok _ |- _ =>
           destruct (scalar_branch_steps s0 _ _ _ _ _ _ _ _ _
                       Hk Hrec Hdot Hsub Hin E HI) as (HI1 & Hs1 & Hin1)
       end; trivial; subst.
  all: try match goal with
           | E : ne_branch _ _ _ _ = Ok _ |- _ =>
               pose proof (ne_branch_inv s0 _ _ _ _ _ _ _ E HI1) as HI2;
               pose proof (ne_branch_in_fine _ _ _ _ _ _ _ _ Hin1 E) as Hin2
           end; trivial.
  all: repeat match goal with
              | E : eq_branch _ _ _ = Ok _ |- _ =>
                  apply (eq_branch_inv s0) in E; [|assumption]
              | E : in_branch _ _ _ _ _ = Ok _ |- _ =>
                  apply (in_branch_steps s0 _ _ _ _ _ _ Hb Hin2) in E;
                  [|assumption]
              | E : all_branch _ _ _ _ = Ok _ |- _ =>
                  apply (all_branch_inv s0) in E; [|assumption]
              | E : exists_branch _ _ _ = Ok _ |- _ =>
                  apply (exists_branch_inv s0) in E; [|assumption]
              | E : text_branch _ _ _ = Ok _ |- _ =>
                  apply (text_branch_inv s0) in E; [|assumption]
              | E : nearSphere_branch _ _ _ = Ok _ |- _ =>
                  apply (nearSphere_branch_inv s0) in E; [|assumption]
              | E : within_branch _ _ _ = Ok _ |- _ =>
                  apply (within_branch_inv s0) in E; [|assumption]
              | E : geoWithin_branch _ _ _ = Ok _ |- _ =>
                  apply (geoWithin_branch_inv s0) in E; [|assumption]
              | E : regex_branch _ _ _ = Ok _ |- _ =>
                  apply (regex_branch_inv s0) in E; [|assumption]
              | E : pointer_branch _ _ _ _ = Ok _ |- _ =>
                  apply (pointer_branch_inv s0) in E; [|assumption]
              | E : date_branch _ _ _ = Ok _ |- _ =>
                  apply (date_branch_inv s0) in E; [|assumption]
              | E : geopoint_branch _ _ _ = Ok _ |- _ =>
                  apply (geopoint_branch_inv s0) in E; [|assumption]
              | E : comparators _ _ _ _ = Ok _ |- _ =>
                  apply (comparators_inv s0) in E;
                  [| repeat constructor | assumption]
              end; assumption.
Qed.

Definition fields_indexable (sch : jsval) (fields : list (string * jsval))
  : Prop :=
  forall k v, In (k, v) fields ->
              inlined_quiet k v = true /\ sub_indexable sch k v = true
              /\ in_fine sch k v.

Lemma loop_steps s0 rec fields sch1 s s' fields' schema' :
  rec_keeps rec sch1 -> rec_steps rec sch1 ->
  fields_indexable sch1 fields ->
  loop rec fields sch1 s = Ok (s', fields', schema') ->
  Inv s0 s -> Inv s0 s'.
Proof.
  intros Hk Hrec. revert s s' fields' schema'.
  induction fields as [|[k v] r IH];
    intros s s' fields' schema' Hf E HI; cbn [loop] in E.
  - inv_ok. exact HI.
  - apply bind_ok in E. destruct E as ([[s1 v1] sch2] & Eb & E).
    apply bind_ok in E. destruct E as ([[s2 r2] sch3] & El & E).
    destruct (Hf k v (or_introl eq_refl)) as (Hd & Hsub & Hin).
    destruct (body_steps s0 _ _ _ _ _ _ _ _ Hk Hrec Hd Hsub Hin Eb HI)
      as [HI1 ->].
    apply Ok_inj in E. repeat (apply pair_inj in E; destruct E as [E ?]).
    subst.
    exact (IH _ _ _ _ (fun k v Hin => Hf k v (or_intror Hin)) El HI1).
Qed.

Lemma entries_indexable sch q :
  indexable sch q = true -> fields_indexable sch (entries q).
Proof.
  intros Hs k v Hin. destruct q; cbn [entries] in Hin; try contradiction.
  - pose proof (indexed_from_keys _ _ _ _ Hin) as [[n ->] Hv].
    apply in_map_iff in Hv. destruct Hv as (c & <- & _).
    split; [unfold inlined_quiet; now rewrite show_nat_no_dot|].
    unfold sub_indexable.
    rewrite show_nat_not_connective. split; [reflexivity|].
    intros elems Hg. discriminate Hg.
  - cbn [indexable] in Hs. rewrite forallb_forall in Hs.
    specialize (Hs _ Hin). cbn [fst snd] in Hs.
    pose proof (indexed_from_keys _ _ _ _ Hin) as [[n ->] _].
    split; [unfold inlined_quiet; now rewrite show_nat_no_dot|].
    unfold sub_indexable.
    rewrite show_nat_not_connective. split; [reflexivity|].
    now apply in_indexed_fine.
  - cbn [indexable] in Hs. rewrite forallb_forall in Hs.
    specialize (Hs _ Hin). cbn beta iota in Hs.
    apply andb_true_iff in Hs. destruct Hs as [Hs H3].
    apply andb_true_iff in Hs. destruct Hs as [H1 H2].
    split; [exact H1|].
    split; [exact H3|]. now apply in_indexed_fine.
Qed.

Lemma bwc_keeps fuel sch1 :
  toMySQLSchema sch1 = Ok sch1 -> rec_keeps (bwc fuel) sch1.
Proof.
  intros Hidem q i out E.
  exact (proj1 (proj1 (bwc_stays fuel sch1 Hidem q i) out E)).
Qed.

Lemma bwc_steps fuel sch1 :
  toMySQLSchema sch1 = Ok sch1 -> rec_steps (bwc fuel) sch1.
Proof.
  intros Hidem.
  induction fuel as [|fuel IH]; intros q j out Hr E; cbn [bwc] in E;
    [discriminate|].
  apply bind_ok in E. destruct E as (sch2 & Es & E).
  rewrite Hidem in Es. apply Ok_inj in Es. subst sch2.
  apply bind_ok in E. destruct E as ([[s fields] sch2] & El & E).
  apply bind_ok in E. destruct E as (vals & Em & E).
  apply Ok_inj in E. subst out. simpl.
  apply (loop_steps j) in El.
  - destruct El as [Hw _]. apply mapM_length in Em. rewrite Em.
    rewrite (tokens_join " " "AND ") by reflexivity. exact Hw.
  - apply bwc_keeps. exact Hidem.
  - exact IH.
  - apply entries_indexable. exact Hr.
  - split; simpl; [reflexivity|lia].
Qed.

Lemma buildWhereClause_steps schema query index out :
  indexable (stored schema) query = true ->
  buildWhereClause schema query index = Ok out ->
  walk index 0 (tokens (pattern out)) (List.length (out_values out)).
Proof.
  intros Hr E. unfold buildWhereClause in E. rewrite bwc_S in E.
  apply bind_ok in E. destruct E as (sch1 & Es & E).
  unfold stored in Hr. rewrite Es in Hr. cbn [or_leave] in Hr.
  pose proof (toMySQLSchema_twice _ _ Es) as Hidem.
  apply bind_ok in E. destruct E as ([[s fields] sch2] & El & E).
  apply bind_ok in E. destruct E as (vals & Em & E).
  apply Ok_inj in E. subst out. simpl.
  apply (loop_steps index) in El.
  - destruct El as [Hw _]. apply mapM_length in Em. rewrite Em.
    rewrite (tokens_join " " "AND ") by reflexivity. exact Hw.
  - apply bwc_keeps. exact Hidem.
  - apply bwc_steps. exact Hidem.
  - apply entries_indexable. exact Hr.
  - split; simpl; [reflexivity|lia].
Qed.

(** *** The compiler of the adapter file *)

Lemma scan_digits_end n rest :
  starts_non_digit rest = true -> scan (Digits n) rest = n :: scan Idle rest.
Proof.
  destruct rest as [|c r]; [reflexivity|].
  cbn [starts_non_digit scan flush]. intros Hc.
  apply negb_true_iff in Hc. rewrite Hc. reflexivity.
Qed.

(** A placeholder without filter is read back as its index. *)
Lemma tokens_ref i rest :
  starts_non_digit rest = true ->
  scan Idle (Adapter.ref i ++ rest) = i :: scan Idle rest.
Proof.
  intros Hr. unfold Adapter.ref.
  change (("$" ++ show_nat i) ++ rest) with (String "$" (show_nat i ++ rest)).
  cbn [scan]. change (is_digit "$") with false.
  change (Ascii.eqb "$" "$") with true. cbv iota. simpl flush. simpl app.
  rewrite scan_show_nat. now apply scan_digits_end.
Qed.

Lemma tokens_ref_end i : scan Idle (Adapter.ref i) = [i].
Proof.
  rewrite <- (str_app_nil_r (Adapter.ref i)). now apply tokens_ref.
Qed.

Ltac atoks :=
  unfold tokens;
  repeat first
    [ rewrite tokens_tok
    | rewrite tokens_tok_end
    | rewrite tokens_ref by reflexivity
    | rewrite tokens_ref_end
    | rewrite scan_lit by reflexivity
    | rewrite scan_lit_end by reflexivity
    | rewrite str_app_assoc ].

Ltac aemit_ok :=
  match goal with
  | HI : Inv _ ?s |- Inv _ (emit _ _ _ ?s) =>
      let Hw := fresh "Hw" in
      let Hi := fresh "Hi" in
      apply Inv_emit; [exact HI | reflexivity |];
      destruct HI as [Hw Hi]; cbn [push_sort values index] in *;
      atoks; rewrite ?Hi; solve [walk_solve]
  end.

Lemma adapter_ne_branch_inv s0 f b fv s c s' fv' :
  Adapter.ne_branch f b fv s = Ok (c, s', fv') -> Inv s0 s -> Inv s0 s'.
Proof. unfold Adapter.ne_branch. intros E HI. inv_ok; trivial; aemit_ok. Qed.

Lemma adapter_exists_branch_inv s0 f fv s s' :
  Adapter.exists_branch f fv s = Ok s' -> Inv s0 s -> Inv s0 s'.
Proof.
  unfold Adapter.exists_branch. intros E HI. inv_ok; trivial; aemit_ok.
Qed.

Lemma adapter_text_branch_inv s0 f fv s s' :
  Adapter.text_branch f fv s = Ok s' -> Inv s0 s -> Inv s0 s'.
Proof.
  unfold Adapter.text_branch. intros E HI. inv_ok; trivial; aemit_ok.
Qed.

Lemma adapter_nearSphere_branch_inv s0 f fv s s' :
  Adapter.nearSphere_branch f fv s = Ok s' -> Inv s0 s -> Inv s0 s'.
Proof.
  unfold Adapter.nearSphere_branch. intros E HI. inv_ok; trivial;
    apply (Inv_push_sort _ _ (Adapter.distance_sphere (index s) ++ " ASC"))
      in HI;
    unfold Adapter.distance_sphere; aemit_ok.
Qed.

Lemma adapter_within_branch_inv s0 f fv s s' :
  Adapter.within_branch f fv s = Ok s' -> Inv s0 s -> Inv s0 s'.
Proof.
  unfold Adapter.within_branch. intros E HI. inv_ok; trivial; aemit_ok.
Qed.

Lemma adapter_geoWithin_branch_inv s0 f fv s s' :
  Adapter.geoWithin_branch f fv s = Ok s' -> Inv s0 s -> Inv s0 s'.
Proof.
  unfold Adapter.geoWithin_branch, bad_json. intros E HI.
  inv_ok; trivial; aemit_ok.
Qed.

Lemma adapter_date_branch_inv s0 f fv s s' :
  Adapter.date_branch f fv s = Ok s' -> Inv s0 s -> Inv s0 s'.
Proof.
  unfold Adapter.date_branch. intros E HI.
  apply bind_ok in E. destruct E as (ty & _ & E).
  destruct (str_is ty "Date"); [|inv_ok; exact HI].
  apply bind_ok in E. destruct E as (v & _ & E). apply Ok_inj in E.
  subst s'. aemit_ok.
Qed.

Lemma adapter_geopoint_branch_inv s0 f fv s s' :
  Adapter.geopoint_branch f fv s = Ok s' -> Inv s0 s -> Inv s0 s'.
Proof.
  unfold Adapter.geopoint_branch. intros E HI. inv_ok; trivial; aemit_ok.
Qed.

Lemma adapter_comparators_inv s0 cmps f fv s s' :
  Forall (fun c => no_dollar (snd c) = true) cmps ->
  Adapter.comparators cmps f fv s = Ok s' -> Inv s0 s -> Inv s0 s'.
Proof.
  intros Hc. revert s. induction Hc as [|[cmp op] r Hop Hr IH];
    intros s E HI; cbn [Adapter.comparators] in E.
  - inv_ok. exact HI.
  - apply bind_ok in E. destruct E as (operand & _ & E).
    apply bind_ok in E. destruct E as (s1 & E1 & E).
    apply (IH _ E).
    destruct (truthy operand); [|inv_ok; exact HI].
    apply bind_ok in E1. destruct E1 as (v & _ & E1). apply Ok_inj in E1.
    subst s1.
    apply Inv_emit; [exact HI | reflexivity |].
    destruct HI as [Hw Hi]. unfold tokens.
    rewrite scan_lit by reflexivity. rewrite tokens_tok.
    rewrite scan_lit by reflexivity. rewrite scan_lit by exact Hop.
    rewrite scan_lit by reflexivity. rewrite tokens_tok.
    rewrite scan_lit_end by reflexivity. rewrite Hi. walk_solve.
Qed.

(** The run of indices of a list of [n] elements pushed after the
    column. *)
Lemma walk_run s0 k n a :
  walk s0 (k + 1 + a) (map (fun li => s0 + k + 1 + li) (seq a n))
       (k + 1 + a + n).
Proof.
  revert a. induction n as [|n IH]; intros a; simpl; [lia|].
  right. split; [lia|]. specialize (IH (S a)).
  replace (S (k + 1 + a)) with (k + 1 + S a) by lia.
  replace (k + 1 + a + S n) with (k + 1 + S a + n) by lia.
  exact IH.
Qed.

Lemma adapter_createConstraint_inv s0 f b baseArray notIn s :
  Inv s0 s -> Inv s0 (Adapter.createConstraint f b baseArray notIn s).
Proof.
  intros HI. unfold Adapter.createConstraint.
  destruct (Nat.ltb 0 (List.length baseArray)) eqn:En.
  - destruct b.
    + destruct notIn; aemit_ok.
    + apply Inv_emit; [exact HI | reflexivity |].
      destruct HI as [Hw Hi].
      assert (Ht : tokens ("`" ++ tok (index s) ++ "` "
                           ++ (if notIn then " NOT " else "") ++ " IN ("
                           ++ join "," (map (fun listIndex =>
                                               "'" ++ tok (index s + 1 + listIndex)
                                               ++ "'")
                                            (seq 0 (List.length baseArray)))
                           ++ ")")
                   = index s :: map (fun li => index s + 1 + li)
                                    (seq 0 (List.length baseArray))).
      { unfold tokens. rewrite scan_lit by reflexivity. rewrite tokens_tok.
        rewrite scan_lit by reflexivity.
        rewrite scan_lit by (destruct notIn; reflexivity).
        rewrite scan_lit by reflexivity.
        rewrite scan_app by reflexivity.
        rewrite (scan_lit_end ")") by reflexivity. rewrite app_nil_r.
        f_equal.
        change (scan Idle ?x) with (tokens x).
        rewrite (tokens_join_map "," "" _ (fun li => [index s + 1 + li]));
          [| reflexivity | reflexivity | intros li; toks; reflexivity].
        generalize (seq 0 (List.length baseArray)). intros l.
        induction l as [|x r IHl]; simpl; [reflexivity|]. now rewrite IHl. }
      rewrite Ht, Hi. cbn [walk]. right. split; [lia|].
      pose proof (walk_run s0 (List.length (values s))
                    (List.length baseArray) 0) as Hrun.
      replace (S (List.length (values s)))
        with (List.length (values s) + 1 + 0) by lia.
      replace (List.length (values s) + (1 + List.length baseArray))
        with (List.length (values s) + 1 + 0 + List.length baseArray) by lia.
      exact Hrun.
  - destruct notIn; cbn [negb]; [exact HI|]. aemit_ok.
Qed.

(** [JSON.stringify] of a text of placeholders and commas puts it
    between double quotes as it is. *)
Definition unescaped (t : string) : Prop :=
  String.concat "" (map json_escape (chars t)) = t.

Lemma unescaped_cons c t :
  json_escape c = String c "" -> unescaped t -> unescaped (String c t).
Proof.
  unfold unescaped, chars. cbn [list_ascii_of_string map String.concat].
  intros Hc Ht.
  destruct (map json_escape (list_ascii_of_string t)) eqn:E.
  - rewrite Hc. cbn in Ht. now subst t.
  - rewrite Hc. cbn [append]. now rewrite Ht.
Qed.

Lemma unescaped_app a b :
  Forall (fun c => json_escape c = String c "") (chars a) -> unescaped b ->
  unescaped (a ++ b).
Proof.
  unfold chars. induction a as [|c r IH]; cbn [list_ascii_of_string append];
    intros Ha Hb; [exact Hb|].
  inversion Ha; subst. apply unescaped_cons; auto.
Qed.

Lemma json_escape_digit c : is_digit c = true -> json_escape c = String c "".
Proof.
  destruct c as [[] [] [] [] [] [] [] []]; try discriminate; reflexivity.
Qed.

Lemma ref_chars i :
  Forall (fun c => json_escape c = String c "") (chars (Adapter.ref i)).
Proof.
  unfold Adapter.ref, chars. cbn [append list_ascii_of_string].
  constructor; [reflexivity|].
  pose proof (show_nat_digits i) as Hd. unfold all_digits, chars in Hd.
  rewrite forallb_forall in Hd. apply Forall_forall. intros c Hc.
  apply json_escape_digit. auto.
Qed.

Lemma unescaped_join pats :
  Forall (fun p => exists k, p = Adapter.ref k) pats ->
  unescaped (join "," pats).
Proof.
  induction 1 as [|p r [k ->] Hr IH]; [reflexivity|].
  destruct r as [|q r'].
  - cbn [join]. rewrite <- (str_app_nil_r (Adapter.ref k)).
    apply unescaped_app; [apply ref_chars|reflexivity].
  - change (join "," (Adapter.ref k :: q :: r'))
      with (Adapter.ref k ++ "," ++ join "," (q :: r')).
    apply unescaped_app; [apply ref_chars|].
    apply (unescaped_cons ","); [reflexivity|exact IH].
Qed.

Lemma adapter_in_string_array_walks i elems li n vals pats an' vals' pats' :
  li = List.length pats + n ->
  after_nulls n elems = false ->
  Forall (fun p => exists k, p = Adapter.ref k) pats ->
  concat (map tokens pats)
  = map (fun li => i + 1 + li) (seq 0 (List.length pats)) ->
  Adapter.in_string_array i elems li (Nat.ltb 0 n) vals pats
  = (an', vals', pats') ->
  Forall (fun p => exists k, p = Adapter.ref k) pats'
  /\ concat (map tokens pats')
     = map (fun li => i + 1 + li) (seq 0 (List.length pats'))
  /\ List.length vals' + List.length pats
     = List.length vals + List.length pats'.
Proof.
  revert li n vals pats.
  induction elems as [|e r IH]; intros li n vals pats Hli Hn Hf Hp E;
    cbn [Adapter.in_string_array] in E.
  - apply pair_inj in E. destruct E as [E <-]. apply pair_inj in E.
    destruct E as [_ <-]. split; [exact Hf|]. split; [exact Hp|lia].
  - cbn [after_nulls] in Hn. destruct (is_null e) eqn:En.
    + apply (IH (S li) (S n)) in E; [exact E|lia|exact Hn|exact Hf|exact Hp].
    + apply orb_false_iff in Hn. destruct Hn as [Hn2 Hn].
      apply Nat.leb_gt in Hn2.
      apply (IH (S li) n) in E.
      * unfold snoc in E. rewrite !length_app in E. simpl in E.
        destruct E as (E0 & E1 & E2). split; [exact E0|].
        split; [exact E1|lia].
      * unfold snoc. rewrite length_app. simpl. lia.
      * exact Hn.
      * unfold snoc. apply Forall_app. split; [exact Hf|].
        constructor; [eauto|constructor].
      * unfold snoc. rewrite map_app, concat_app, length_app, Hp.
        cbn [List.length map concat].
        replace (List.length pats + 1) with (S (List.length pats)) by lia.
        rewrite seq_S, map_app. f_equal.
        rewrite app_nil_r. unfold tokens. rewrite tokens_ref_end.
        cbn [map Nat.add].
        replace (i + 1 + li - (if Nat.ltb 0 n then 1 else 0))
          with (i + 1 + List.length pats)
          by (destruct n as [|[|n]]; cbn [Nat.ltb Nat.leb]; lia).
        reflexivity.
Qed.

Lemma tokens_quoted_refs pats rest :
  Forall (fun p => exists k, p = Adapter.ref k) pats ->
  starts_non_digit rest = true ->
  scan Idle (to_string (JSON_stringify (JStr (join "," pats))) ++ rest)
  = (concat (map tokens pats) ++ scan Idle rest)%list.
Proof.
  intros Hf Hr. cbn [JSON_stringify json to_string]. unfold json_quote.
  pose proof (unescaped_join pats Hf) as Hu. unfold unescaped in Hu.
  rewrite Hu. rewrite !str_app_assoc.
  rewrite scan_lit by reflexivity.
  rewrite scan_app by reflexivity.
  rewrite scan_lit by reflexivity.
  f_equal. change (scan Idle ?x) with (tokens x).
  apply (tokens_join "," ""); reflexivity.
Qed.

Lemma adapter_in_string_array_steps s0 f elems (s : bw) :
  Inv s0 s -> after_nulls 0 elems = false ->
  match Adapter.in_string_array (index s) elems 0 false [JStr f] [] with
  | (allowNull, vals, inPatterns) =>
      Inv s0 {| patterns :=
                  snoc (patterns s)
                    (let tempInPattern :=
                       to_string (JSON_stringify (JStr (join "," inPatterns)))
                     in
                     if allowNull
                     then "(" ++ tok (index s) ++ " IS NULL OR "
                          ++ tok (index s)
                          ++ " IS NOT NULL && JSON_ARRAY('" ++ tempInPattern
                          ++ "') <> JSON_ARRAY(''))"
                     else tok (index s) ++ " && '" ++ tempInPattern ++ "'");
                values := (values s ++ vals)%list;
                sorts := sorts s;
                index := index s + 1 + List.length inPatterns |}
  end.
Proof.
  intros HI Hn.
  destruct (Adapter.in_string_array (index s) elems 0 false [JStr f] [])
    as [[allowNull vals] pats] eqn:E.
  apply (adapter_in_string_array_walks _ _ 0 0) in E;
    [ | reflexivity | exact Hn | constructor | reflexivity ].
  destruct E as (Ef & Et & El). simpl in El. cbv zeta.
  apply Inv_push; [exact HI | lia |].
  destruct HI as [Hw Hi].
  pose proof (walk_run s0 (List.length (values s)) (List.length pats) 0)
    as Hrun.
  replace (List.length (values s) + List.length vals)
    with (List.length (values s) + 1 + 0 + List.length pats) by lia.
  destruct allowNull; unfold tokens.
  - rewrite scan_lit by reflexivity. rewrite tokens_tok.
    rewrite scan_lit by reflexivity. rewrite tokens_tok.
    rewrite scan_lit by reflexivity.
    rewrite (tokens_quoted_refs _ _ Ef) by reflexivity.
    rewrite scan_lit_end by reflexivity. rewrite app_nil_r, Et, Hi.
    cbn [walk]. right. split; [lia|]. left. split; [lia|].
    replace (S (List.length (values s)))
      with (List.length (values s) + 1 + 0) by lia.
    exact Hrun.
  - rewrite tokens_tok. rewrite scan_lit by reflexivity.
    rewrite (tokens_quoted_refs _ _ Ef) by reflexivity.
    rewrite scan_lit_end by reflexivity. rewrite app_nil_r, Et, Hi.
    cbn [walk]. right. split; [lia|].
    replace (S (List.length (values s)))
      with (List.length (values s) + 1 + 0) by lia.
    exact Hrun.
Qed.

Lemma adapter_in_branch_steps s0 f b sch fv s s' :
  is_array_field sch f = Ok b -> in_fine sch f fv ->
  Adapter.in_branch f b sch fv s = Ok s' -> Inv s0 s -> Inv s0 s'.
Proof.
  unfold Adapter.in_branch. intros Hb Hin E HI.
  apply bind_ok in E. destruct E as (vin & Evin & E).
  apply bind_ok in E. destruct E as (vnin & Evnin & E). cbv zeta in E.
  apply bind_ok in E. destruct E as (sa & Esa & E).
  destruct sa.
  - destruct vin; try (inv_ok; exact HI).
    destruct (is_array (JArr l) && b) eqn:Eab; [|discriminate].
    apply andb_true_iff in Eab. destruct Eab as [_ ->].
    apply bind_ok in Esa. destruct Esa as (fields & E1 & Esa).
    apply bind_ok in Esa. destruct Esa as (field & E2 & Esa).
    apply bind_ok in Esa. destruct Esa as (contents & E3 & Esa).
    destruct (truthy contents) eqn:Tc; [|discriminate].
    apply bind_ok in Esa. destruct Esa as (ty & E4 & Esa).
    apply Ok_inj in Esa.
    pose proof (string_array_taken _ _ _ _ _ _ Hb E1 E2 E3 Tc E4 Esa) as Hs.
    pose proof (adapter_in_string_array_steps s0 f l s HI (Hin l Evin Hs))
      as X.
    destruct (Adapter.in_string_array (index s) l 0 false [JStr f] [])
      as [[an vals] pats].
    apply Ok_inj in E. subst s'. exact X.
  - destruct (is_array vin || is_array vnin); [|inv_ok; exact HI].
    apply Ok_inj in E. subst s'.
    destruct (truthy vin), (truthy vnin);
      repeat apply adapter_createConstraint_inv; exact HI.
Qed.

Lemma adapter_scalar_branch_steps s0 rec f fv sch1 s c s' fv' schema' :
  rec_keeps rec sch1 -> rec_steps rec sch1 ->
  inlined_quiet f fv = true -> sub_indexable sch1 f fv = true ->
  in_fine sch1 f fv ->
  Adapter.scalar_branch rec f fv sch1 s = Ok (c, s', fv', schema') ->
  Inv s0 s -> Inv s0 s' /\ schema' = sch1 /\ in_fine sch1 f fv'.
Proof.
  intros Hk Hrec Hq Hsub Hin E HI. unfold Adapter.scalar_branch in E.
  destruct (includes "." f) eqn:Hdot.
  { unfold inlined_quiet, inlined_text in Hq. rewrite Hdot in Hq.
    cbn [negb orb] in Hq.
    assert (Hemit : forall p, tokens p = [] -> Inv s0 (emit p [] 0 s)).
    { intros p Hp. apply Inv_emit; [exact HI | reflexivity |].
      rewrite Hp. simpl. lia. }
    destruct (is_null fv).
    - inv_ok. split; [|split; [reflexivity|exact Hin]].
      apply Hemit.
      change (dotted_name f ++ " IS NULL")
        with ("" ++ dotted_name f ++ " IS NULL").
      rewrite tokens_around by reflexivity.
      destruct (tokens _); [reflexivity|discriminate].
    - apply bind_ok in E. destruct E as (text & Et & E). unfold template in Et.
      destruct (renders fv); [|discriminate]. apply Ok_inj in Et. subst text.
      inv_ok. split; [|split; [reflexivity|exact Hin]].
      apply Hemit. destruct (tokens _); [reflexivity|discriminate]. }
  clear Hq. unfold sub_indexable in Hsub.
  destruct fv; inv_ok;
    try (split; [first [exact HI | aemit_ok]|split; [reflexivity|exact Hin]]).
  match goal with
  | E : sub_clauses _ _ _ _ = Ok _ |- _ =>
      apply sub_clauses_steps in E;
      [ destruct E as (Hw & Hi & Hs)
      | exact Hk
      | intros q jj o Hq Hrq; apply (Hrec q jj o); [|exact Hrq];
        rewrite forallb_forall in Hsub; auto ]
  end.
  subst. split; [|split; [reflexivity|]].
  - now apply Inv_connective.
  - intros elems Hg. rewrite get_array_in in Hg. discriminate.
Qed.

Lemma adapter_ne_branch_in_fine sch f b fv s c s' fv' :
  in_fine sch f fv -> Adapter.ne_branch f b fv s = Ok (c, s', fv') ->
  in_fine sch f fv'.
Proof.
  intros Hin E. unfold Adapter.ne_branch in E.
  destruct fv; simpl in E; inv_ok; trivial.
  intros vin Hg. apply Hin. simpl in *.
  rewrite assoc_set_other in Hg by reflexivity. exact Hg.
Qed.

Lemma adapter_body_steps s0 rec f fv sch1 s s' fv' schema' :
  rec_keeps rec sch1 -> rec_steps rec sch1 ->
  inlined_quiet f fv = true -> sub_indexable sch1 f fv = true ->
  in_fine sch1 f fv ->
  Adapter.body rec f fv sch1 s = Ok (s', fv', schema') ->
  Inv s0 s -> Inv s0 s' /\ schema' = sch1.
Proof.
  intros Hk Hrec Hdot Hsub Hin E HI. unfold Adapter.body in E.
  apply bind_ok in E. destruct E as (b & Hb & E).
  repeat match goal with
         | H : bind _ _ = Ok _ |- _ =>
             let a := fresh "a" in
             let E := fresh "E" in
             apply bind_ok in H; destruct H as (a & E & H); cbv beta in H
         | H : (if ?b then _ else _) = Ok _ |- _ => destruct b eqn:?
         | H : match ?x with (_, _) => _ end = Ok _ |- _ => destruct x
         | H : Ok _ = Ok _ |- _ => apply Ok_inj in H
         | H : (_, _) = (_, _) |- _ =>
             apply pair_inj in H; destruct H as [? ?]
         | H : Throw _ = Ok _ |- _ => discriminate H
         end; subst; try (split; trivial).
  all: match goal with
       | E : Adapter.scalar_branch _ _ _ _ _ = Ok _ |- _ =>
           destruct (adapter_scalar_branch_steps s0 _ _ _ _ _ _ _ _ _
                       Hk Hrec Hdot Hsub Hin E HI) as (HI1 & Hs1 & Hin1)
       end; trivial; subst.
  all: try match goal with
           | E : Adapter.ne_branch _ _ _ _ = Ok _ |- _ =>
               pose proof (adapter_ne_branch_inv s0 _ _ _ _ _ _ _ E HI1)
                 as HI2;
               pose proof (adapter_ne_branch_in_fine _ _ _ _ _ _ _ _ Hin1 E)
                 as Hin2
           end; trivial.
  all: repeat match goal with
              | E : eq_branch _ _ _ = Ok _ |- _ =>
                  apply (eq_branch_inv s0) in E; [|assumption]
              | E : Adapter.in_branch _ _ _ _ _ = Ok _ |- _ =>
                  apply (adapter_in_branch_steps s0 _ _ _ _ _ _ Hb Hin2) in E;
                  [|assumption]
              | E : all_branch _ _ _ _ = Ok _ |- _ =>
                  apply (all_branch_inv s0) in E; [|assumption]
              | E : Adapter.exists_branch _ _ _ = Ok _ |- _ =>
                  apply (adapter_exists_branch_inv s0) in E; [|assumption]
              | E : Adapter.text_branch _ _ _ = Ok _ |- _ =>
                  apply (adapter_text_branch_inv s0) in E; [|assumption]
              | E : Adapter.nearSphere_branch _ _ _ = Ok _ |- _ =>
                  apply (adapter_nearSphere_branch_inv s0) in E; [|assumption]
              | E : Adapter.within_branch _ _ _ = Ok _ |- _ =>
                  apply (adapter_within_branch_inv s0) in E; [|assumption]
              | E : Adapter.geoWithin_branch _ _ _ = Ok _ |- _ =>
                  apply (adapter_geoWithin_branch_inv s0) in E; [|assumption]
              | E : regex_branch _ _ _ = Ok _ |- _ =>
                  apply (regex_branch_inv s0) in E; [|assumption]
              | E : pointer_branch _ _ _ _ = Ok _ |- _ =>
                  apply (pointer_branch_inv s0) in E; [|assumption]
              | E : Adapter.date_branch _ _ _ = Ok _ |- _ =>
                  apply (adapter_date_branch_inv s0) in E; [|assumption]
              | E : Adapter.geopoint_branch _ _ _ = Ok _ |- _ =>
                  apply (adapter_geopoint_branch_inv s0) in E; [|assumption]
              | E : Adapter.comparators _ _ _ _ = Ok _ |- _ =>
                  apply (adapter_comparators_inv s0) in E;
                  [| repeat constructor | assumption]
              end; assumption.
Qed.

Lemma adapter_loop_steps s0 rec fields sch1 s s' fields' schema' :
  rec_keeps rec sch1 -> rec_steps rec sch1 ->
  fields_indexable sch1 fields ->
  Adapter.loop rec fields sch1 s = Ok (s', fields', schema') ->
  Inv s0 s -> Inv s0 s'.
Proof.
  intros Hk Hrec. revert s s' fields' schema'.
  induction fields as [|[k v] r IH];
    intros s s' fields' schema' Hf E HI; cbn [Adapter.loop] in E.
  - inv_ok. exact HI.
  - apply bind_ok in E. destruct E as ([[s1 v1] sch2] & Eb & E).
    apply bind_ok in E. destruct E as ([[s2 r2] sch3] & El & E).
    destruct (Hf k v (or_introl eq_refl)) as (Hd & Hsub & Hin).
    destruct (adapter_body_steps s0 _ _ _ _ _ _ _ _ Hk Hrec Hd Hsub Hin Eb HI)
      as [HI1 ->].
    apply Ok_inj in E. repeat (apply pair_inj in E; destruct E as [E ?]).
    subst.
    exact (IH _ _ _ _ (fun k v Hin => Hf k v (or_intror Hin)) El HI1).
Qed.

(** **** The schema in the calls of the adapter *)

Lemma sub_clauses_keeps rec sch1 subs i cl cv i' sch' subs' :
  rec_keeps rec sch1 ->
  sub_clauses rec sch1 subs i = Ok (cl, cv, i', sch', subs') -> sch' = sch1.
Proof.
  intros Hk. revert i cl cv i' sch' subs'.
  induction subs as [|q r IH]; intros i cl cv i' sch' subs' E;
    cbn [sub_clauses] in E.
  - inv_ok. reflexivity.
  - apply bind_ok in E. destruct E as (c & Ec & E). cbv beta zeta in E.
    apply bind_ok in E. destruct E as ([[[[cls cvs] j] sch] r'] & Er & E).
    apply Ok_inj in E. rewrite (Hk _ _ _ Ec) in Er.
    apply IH in Er. subst sch.
    repeat (apply pair_inj in E; destruct E as [E ?]). now subst.
Qed.

Lemma adapter_body_keeps rec f fv sch1 s s' fv' sch' :
  rec_keeps rec sch1 ->
  Adapter.body rec f fv sch1 s = Ok (s', fv', sch') -> sch' = sch1.
Proof.
  intros Hk E. unfold Adapter.body in E.
  repeat match goal with
         | H : bind _ _ = Ok _ |- _ =>
             let a := fresh "a" in
             let E := fresh "E" in
             apply bind_ok in H; destruct H as (a & E & H); cbv beta in H
         | H : (if ?b then _ else _) = Ok _ |- _ => destruct b eqn:?
         | H : match ?x with (_, _) => _ end = Ok _ |- _ => destruct x
         | H : Ok _ = Ok _ |- _ => apply Ok_inj in H
         | H : (_, _) = (_, _) |- _ =>
             apply pair_inj in H; destruct H as [? ?]
         | H : Throw _ = Ok _ |- _ => discriminate H
         end; subst; trivial.
  all: match goal with
       | E : Adapter.scalar_branch _ _ _ _ _ = Ok _ |- _ =>
           unfold Adapter.scalar_branch in E;
           destruct (includes "." f); [inv_ok; reflexivity|];
           destruct fv; inv_ok; trivial
       end.
  all: match goal with
       | E : sub_clauses _ _ _ _ = Ok _ |- _ =>
           exact (sub_clauses_keeps _ _ _ _ _ _ _ _ _ Hk E)
       end.
Qed.

Lemma adapter_loop_keeps rec fields sch1 s s' fields' sch' :
  rec_keeps rec sch1 ->
  Adapter.loop rec fields sch1 s = Ok (s', fields', sch') -> sch' = sch1.
Proof.
  intros Hk. revert s s' fields' sch'.
  induction fields as [|[k v] r IH]; intros s s' fields' sch' E;
    cbn [Adapter.loop] in E.
  - inv_ok. reflexivity.
  - apply bind_ok in E. destruct E as ([[s1 v1] sch2] & Eb & E).
    apply bind_ok in E. destruct E as ([[s2 r2] sch3] & El & E).
    apply Ok_inj in E. repeat (apply pair_inj in E; destruct E as [E ?]).
    subst. rewrite (adapter_body_keeps _ _ _ _ _ _ _ _ Hk Eb) in El.
    exact (IH _ _ _ _ El).
Qed.

Lemma toPostgresSchema_eq schema :
  Adapter.toPostgresSchema schema = toMySQLSchema schema.
Proof. reflexivity. Qed.

Lemma adapter_bwc_keeps fuel sch1 :
  toMySQLSchema sch1 = Ok sch1 -> rec_keeps (Adapter.bwc fuel) sch1.
Proof.
  intros Hidem.
  induction fuel as [|fuel IH]; intros q i out E; cbn [Adapter.bwc] in E;
    [discriminate|].
  rewrite toPostgresSchema_eq, Hidem in E. cbn [bind] in E.
  apply bind_ok in E. destruct E as ([[s fields] sch2] & El & E).
  apply bind_ok in E. destruct E as (vals & Em & E).
  apply Ok_inj in E. subst out. cbn [schema_after].
  exact (adapter_loop_keeps _ _ _ _ _ _ _ IH El).
Qed.

Lemma adapter_bwc_steps fuel sch1 :
  toMySQLSchema sch1 = Ok sch1 -> rec_steps (Adapter.bwc fuel) sch1.
Proof.
  intros Hidem.
  induction fuel as [|fuel IH]; intros q j out Hr E; cbn [Adapter.bwc] in E;
    [discriminate|].
  rewrite toPostgresSchema_eq, Hidem in E. cbn [bind] in E.
  apply bind_ok in E. destruct E as ([[s fields] sch2] & El & E).
  apply bind_ok in E. destruct E as (vals & Em & E).
  apply Ok_inj in E. subst out. simpl.
  apply (adapter_loop_steps j) in El.
  - destruct El as [Hw _]. apply mapM_length in Em. rewrite Em.
    rewrite (tokens_join " " "AND ") by reflexivity. exact Hw.
  - apply adapter_bwc_keeps. exact Hidem.
  - exact IH.
  - apply entries_indexable. exact Hr.
  - split; simpl; [reflexivity|lia].
Qed.

Lemma adapter_buildWhereClause_steps schema query index out :
  indexable (stored schema) query = true ->
  Adapter.buildWhereClause schema query index = Ok out ->
  walk index 0 (tokens (pattern out)) (List.length (out_values out)).
Proof.
  intros Hr E. unfold Adapter.buildWhereClause in E.
  cbn [Adapter.bwc] in E. rewrite toPostgresSchema_eq in E.
  apply bind_ok in E. destruct E as (sch1 & Es & E).
  unfold stored in Hr. rewrite Es in Hr. cbn [or_leave] in Hr.
  pose proof (toMySQLSchema_twice _ _ Es) as Hidem.
  apply bind_ok in E. destruct E as ([[s fields] sch2] & El & E).
  apply bind_ok in E. destruct E as (vals & Em & E).
  apply Ok_inj in E. subst out. simpl.
  apply (adapter_loop_steps index) in El.
  - destruct El as [Hw _]. apply mapM_length in Em. rewrite Em.
    rewrite (tokens_join " " "AND ") by reflexivity. exact Hw.
  - apply adapter_bwc_keeps. exact Hidem.
  - apply adapter_bwc_steps. exact Hidem.
  - apply entries_indexable. exact Hr.
  - split; simpl; [reflexivity|lia].
Qed.

(** C1: the placeholders of both compilers are numbered in step.  Take a
    query in which, also in the sub-queries of its [$or] and [$and] lists,
    the text written into the pattern for a dotted field name holds no
    placeholder, and no [$in] list on a field that the stored schema
    declares as an array of strings holds an element other than [null]
    after two [null].  Then the placeholder indices occurring in the
    pattern returned by [buildWhereClause], of the utilities file as of the
    adapter file, listed once each in the order of their first occurrence,
    are exactly [index], [index + 1], ... up to the number of returned
    values: contiguous from the start index, ascending, without gaps, as
    many distinct indices as values.  (An index may occur more than once
    in the text.) *)
Theorem buildWhereClause_placeholders (schema query : jsval) (index : nat) :
  indexable (stored schema) query = true ->
  (forall out,
      buildWhereClause schema query index = Ok out ->
      dedup (tokens (pattern out)) = seq index (List.length (out_values out)))
  /\ (forall out,
         Adapter.buildWhereClause schema query index = Ok out ->
         dedup (tokens (pattern out))
         = seq index (List.length (out_values out))).
Proof.
  intros Hr. split; intros out E; apply walk_dedup.
  - exact (buildWhereClause_steps _ _ _ _ Hr E).
  - exact (adapter_buildWhereClause_steps _ _ _ _ Hr E).
Qed.

End Properties.

(** ** Instances of the theorems on concrete documents *)

Lemma toParseSchema_view_witness :
  exists className fs' clps,
    toParseSchema (JObj ex_user_schema)
    = Ok (JObj [("className", className); ("fields", JObj fs');
                ("classLevelPermissions", JObj clps)])
    /\ assoc "_wperm" fs' = None
    /\ assoc "_hashed_password" fs' = None
    /\ assoc "find" clps = Some (JObj [("role:admin", JBool true)])
    /\ assoc "get" clps = Some (JObj []).
Proof.
  destruct (toParseSchema_view ex_user_schema _ eq_refl)
    as (cn & fs' & clps & E & Hw & _ & Hp & _ & Hm).
  exists cn, fs', clps. split; [exact E|]. split; [exact Hw|].
  split; [apply Hp; reflexivity|].
  assert (Hnd : NoDup (map fst [("find", JObj [("role:admin", JBool true)])]))
    by (repeat constructor; simpl; tauto).
  split.
  - apply (Hm _ eq_refl Hnd "find"). simpl. tauto.
  - apply (Hm _ eq_refl Hnd "get"). simpl. tauto.
Defined.

Lemma buildWhereClause_placeholders_witness :
  match buildWhereClause ex_schema ex_query_or 2 with
  | Ok out =>
      dedup (tokens (pattern out)) = seq 2 (List.length (out_values out))
      /\ List.length (out_values out) = 7
  | _ => False
  end
  /\ match Adapter.buildWhereClause ex_schema ex_query_or 2 with
     | Ok out =>
         dedup (tokens (pattern out)) = seq 2 (List.length (out_values out))
         /\ List.length (out_values out) = 6
     | _ => False
     end
  /\ match buildWhereClause ex_schema ex_query_nulls 2 with
     | Ok out =>
         dedup (tokens (pattern out)) = seq 2 (List.length (out_values out))
         /\ List.length (out_values out) = 4
     | _ => False
     end
  /\ match Adapter.buildWhereClause ex_schema ex_query_dotted 2 with
     | Ok out =>
         dedup (tokens (pattern out)) = seq 2 (List.length (out_values out))
         /\ List.length (out_values out) = 2
     | _ => False
     end.
Proof.
  destruct (buildWhereClause_placeholders ex_schema ex_query_or 2 eq_refl)
    as [Hu Ha].
  destruct (buildWhereClause_placeholders ex_schema ex_query_nulls 2 eq_refl)
    as [Hn _].
  destruct (buildWhereClause_placeholders ex_schema ex_query_dotted 2 eq_refl)
    as [_ Hd].
  split; [|split; [|split]].
  - destruct (buildWhereClause ex_schema ex_query_or 2) as [out| | |] eqn:E;
      try (vm_compute in E; discriminate E).
    split; [exact (Hu out eq_refl)|].
    vm_compute in E. apply Ok_inj in E. subst out. reflexivity.
  - destruct (Adapter.buildWhereClause ex_schema ex_query_or 2)
      as [out| | |] eqn:E; try (vm_compute in E; discriminate E).
    split; [exact (Ha out eq_refl)|].
    vm_compute in E. apply Ok_inj in E. subst out. reflexivity.
  - destruct (buildWhereClause ex_schema ex_query_nulls 2)
      as [out| | |] eqn:E; try (vm_compute in E; discriminate E).
    split; [exact (Hn out eq_refl)|].
    vm_compute in E. apply Ok_inj in E. subst out. reflexivity.
  - destruct (Adapter.buildWhereClause ex_schema ex_query_dotted 2)
      as [out| | |] eqn:E; try (vm_compute in E; discriminate E).
    split; [exact (Hd out eq_refl)|].
    vm_compute in E. apply Ok_inj in E. subst out. reflexivity.
Defined.

(** C1 (as stated) fails: the pattern either compiler writes for [$ne] on
    a field that is not an array names the column index twice, so the text
    has three tokens for two values and an index that occurs more than
    once. *)
Lemma placeholder_index_reused :
  exists out out',
    buildWhereClause ex_schema ex_query_ne 2 = Ok out
    /\ pattern out = "(`$2:name` <> '$3:name' OR `$2:name` IS NULL)"
    /\ tokens (pattern out) = [2; 3; 2]
    /\ List.length (out_values out) = 2
    /\ List.length (tokens (pattern out)) <> List.length (out_values out)
    /\ ~ NoDup (tokens (pattern out))
    /\ Adapter.buildWhereClause ex_schema ex_query_ne 2 = Ok out'
    /\ pattern out' = "($2:name <> '$3:name' OR $2:name IS NULL)"
    /\ tokens (pattern out') = [2; 3; 2]
    /\ List.length (out_values out') = 2.
Proof.
  eexists. eexists. split; [vm_compute; reflexivity|]. simpl.
  repeat split; try reflexivity; try discriminate.
  intros Hnd. inversion Hnd as [|x l Hin _]; subst. apply Hin. simpl. tauto.
Qed.

(** The two conditions of C1 on the query are needed.  On a field
    declared as an array of strings, an element of the [$in] list that
    comes after two [null] is numbered one too high by both compilers: the
    index 3 is skipped.  The text written for a dotted field name may hold
    a placeholder for which no value is returned. *)
Lemma placeholder_index_skipped :
  exists out out',
    buildWhereClause ex_schema ex_query_tag_nulls 2 = Ok out
    /\ dedup (tokens (pattern out)) = [2; 4]
    /\ List.length (out_values out) = 2
    /\ Adapter.buildWhereClause ex_schema ex_query_tag_nulls 2 = Ok out'
    /\ dedup (tokens (pattern out')) = [2; 4]
    /\ List.length (out_values out') = 2.
Proof.
  eexists. eexists. split; [vm_compute; reflexivity|].
  split; [vm_compute; reflexivity|]. split; [reflexivity|].
  split; [vm_compute; reflexivity|].
  split; [vm_compute; reflexivity|reflexivity].
Qed.

Lemma placeholder_in_dotted_text :
  exists out out',
    buildWhereClause ex_schema ex_query_dotted_token 2 = Ok out
    /\ tokens (pattern out) = [9]
    /\ out_values out = []
    /\ Adapter.buildWhereClause ex_schema ex_query_dotted_token 2 = Ok out'
    /\ tokens (pattern out') = [9]
    /\ out_values out' = [].
Proof.
  eexists. eexists. split; [vm_compute; reflexivity|].
  split; [vm_compute; reflexivity|]. split; [reflexivity|].
  split; [vm_compute; reflexivity|].
  split; [vm_compute; reflexivity|reflexivity].
Qed.

Lemma compilers_terminate_witness :
  bwc 7 ex_schema ex_query_or 2 <> OutOfFuel
  /\ bwc 7 ex_schema ex_query_or 2 = buildWhereClause ex_schema ex_query_or 2
  /\ String.length (str_take 1 "a\Qb.c\E") < String.length "a\Qb.c\E".
Proof.
  destruct compilers_terminate as (Hb & _ & Hs & _).
  destruct (Hb ex_schema ex_query_or 2 7) as [Hn He].
  - vm_compute. lia.
  - split; [exact Hn|]. split; [exact He|].
    apply (Hs "a\Qb.c\E" 1 "b.c"). left. reflexivity.
Defined.

Lemma compilers_frame_witness :
  snd (buildWhereClause_leaves ex_schema ex_query_ne 2) = ex_query_ne
  /\ snd (buildWhereClause_leaves ex_schema ex_query_unknown 2)
     = ex_query_unknown
  /\ snd (buildWhereClause_leaves ex_schema
            (JObj [("place", JObj [("$geoWithin",
                                    JObj [("$polygon", JArr ex_polygon)])])])
            2)
     = JObj [("place",
              JObj [("$geoWithin",
                     JObj [("$polygon",
                            JArr (ex_polygon ++ [ex_point 0 0])%list)])])]
  /\ transformUpdate_leaves ex_schema ex_update_plain = Some ex_update_plain.
Proof.
  destruct (compilers_frame ex_schema ex_query_ne 2 ex_update_plain)
    as (Hq & _ & Hs & Hu & _).
  destruct (Hq eq_refl eq_refl) as [_ Hq0]. clear Hq. rename Hq0 into Hq.
  destruct (compilers_frame ex_schema ex_query_unknown 2 ex_update_plain)
    as (Hq' & _).
  destruct (Hq' eq_refl eq_refl) as [_ Hq0]. clear Hq'. rename Hq0 into Hq'.
  destruct (Hs ex_schema_props ex_fields eq_refl eq_refl)
    as (_ & _ & _ & Hp).
  split; [exact (Hq eq_refl)|]. split; [exact (Hq' eq_refl)|].
  split; [|exact (Hu eq_refl)].
  exact (Hp "place" ex_polygon eq_refl eq_refl eq_refl eq_refl).
Defined.

(** C2 (as stated) fails: compiling [$ne] on a field declared as an
    array replaces the operand in the query by the JSON text of the list
    that holds it, the schema comes back with the implicit fields [_wperm]
    and [_rperm] added to its field map, and [transformUpdate] moves an
    auth-data key of the update under [authData]. *)
Lemma compilation_mutates_arguments :
  (exists out,
      buildWhereClause ex_schema ex_query_ne_array 2 = Ok out
      /\ query_after out = JObj [("nums", JObj [("$ne", JStr "[3]")])]
      /\ query_after out <> ex_query_ne_array
      /\ prop (prop ex_schema "fields") "_wperm" = JUndef
      /\ prop (prop (schema_after out) "fields") "_wperm" = array_of_string
      /\ schema_after out <> ex_schema)
  /\ exists r,
      transformUpdate ex_schema ex_update_auth
      = Ok (r, JObj [("authData",
                      JObj [("facebook", JObj [("id", JStr "1")])])]).
Proof.
  split.
  - eexists. split; [vm_compute; reflexivity|]. cbn [query_after schema_after].
    repeat split; try reflexivity; discriminate.
  - eexists. vm_compute. reflexivity.
Qed.

Lemma empty_in_and_empty_nin_witness :
  (exists out,
      buildWhereClause ex_schema ex_query_in 2 = Ok out
      /\ pattern out = "`$2:name` IS NULL"
      /\ out_values out = [JStr "name"])
  /\ buildWhereClause ex_schema ex_query_nin 2
     = Throw (ParseError OPERATION_FORBIDDEN
                "MySQL does not support this query type yet [object Object]").
Proof.
  destruct (toMySQLSchema ex_schema) as [sch1| | |] eqn:Es;
    try (vm_compute in Es; discriminate Es).
  assert (Hb : is_array_field sch1 "name" = Ok false).
  { vm_compute in Es. apply Ok_inj in Es. subst sch1. reflexivity. }
  destruct (empty_in_and_empty_nin ex_schema_props ex_fields sch1 "name" 2
              eq_refl Es Hb eq_refl eq_refl) as [Hin Hnin].
  split; [|exact Hnin].
  eexists. split; [exact Hin|]. split; reflexivity.
Defined.



Lemma dotted_field_inlined_witness :
  exists out,
    buildWhereClause ex_schema (JObj [("a.b", JStr "x")]) 2 = Ok out
    /\ pattern out = "`a`->>'$.b' = 'x'"
    /\ out_values out = [].
Proof.
  destruct (dotted_field_inlined ex_schema_props ex_fields "a.b" (JStr "x") 2
              eq_refl eq_refl eq_refl) as [_ (out & E & Hp & Hv & _)].
  exists out. split; [exact E|]. split; [exact Hp|exact Hv].
Defined.

(** The same on the query [{"a.b": "x", c: "y"}] started at index 2: the
    fragment of the dotted field holds the value itself between quotes and
    no placeholder, no value is pushed for it, and the index is not
    advanced: the next field takes the indices 2 and 3. *)
Lemma dotted_literal_inlined :
  exists out,
    buildWhereClause ex_schema ex_query_dotted 2 = Ok out
    /\ pattern out = "`a`->>'$.b' = 'x' AND `$2:name` = '$3:name'"
    /\ out_values out = [JStr "c"; JStr "y"]
    /\ tokens (pattern out) = [2; 3]
    /\ includes "'x'" (pattern out) = true.
Proof.
  eexists. split; [vm_compute; reflexivity|]. cbn [pattern out_values].
  repeat split; vm_compute; reflexivity.
Qed.

Lemma falsy_comparison_unsupported_witness :
  eq_branch "name" ex_eq_zero
    {| patterns := []; values := []; sorts := []; index := 2 |}
  = Ok {| patterns := []; values := []; sorts := []; index := 2 |}
  /\ buildWhereClause ex_schema ex_query_gt_zero 2
     = Throw (ParseError OPERATION_FORBIDDEN
                "MySQL does not support this query type yet [object Object]").
Proof.
  destruct (falsy_comparison_unsupported ex_schema_props ex_fields "name"
              ex_gt_zero 2 eq_refl eq_refl eq_refl) as [Hb Hq].
  split.
  - apply (Hb ex_eq_zero); reflexivity.
  - exact (Hq eq_refl).
Defined.

(** C10 (as stated) fails on a field whose name contains a dot: the
    dotted-name branch has already pushed a fragment, so the query
    [{"a.b": {$eq: 0}}] compiles, to a comparison of the JSON path with the
    string rendering of the operator object. *)
Lemma falsy_comparison_on_dotted_field :
  exists out,
    buildWhereClause ex_schema ex_query_dotted_eq 2 = Ok out
    /\ pattern out = "`a`->>'$.b' = '[object Object]'"
    /\ out_values out = [].
Proof.
  eexists. split; [vm_compute; reflexivity|]. split; reflexivity.
Qed.

(** ** Instances of the further properties *)

Lemma createLiteralRegex_injective_witness : "a.b" = "a.b".
Proof. exact (createLiteralRegex_injective "a.b" "a.b" eq_refl). Defined.

Lemma processRegexPattern_plain_witness :
  literalizeRegexPart "a.b*c" = "a.b*c" /\ processRegexPattern "a.b*c" = "a.b*c".
Proof. exact (processRegexPattern_plain "a.b*c" eq_refl). Defined.

Lemma removeWhiteSpace_dense_witness : removeWhiteSpace "a.b\" = "a.b\".
Proof. exact (removeWhiteSpace_dense "a.b\" eq_refl). Defined.

Lemma buildWhereClause_empty_witness :
  exists out,
    buildWhereClause ex_schema (JObj []) 2 = Ok out
    /\ pattern out = "" /\ out_values out = [] /\ out_sorts out = []
    /\ query_after out = JObj [].
Proof.
  exact (buildWhereClause_empty ex_schema_props ex_fields (JObj []) 2
           eq_refl eq_refl).
Defined.

Lemma exists_false_on_undeclared_field_witness :
  exists out,
    buildWhereClause ex_schema (JObj [("nosuch", ex_exists_false)]) 2 = Ok out
    /\ pattern out = "" /\ out_values out = []
    /\ query_after out = JObj [("nosuch", ex_exists_false)].
Proof.
  exact (exists_false_on_undeclared_field ex_schema_props ex_fields "nosuch"
           ex_exists_false 2 eq_refl eq_refl eq_refl eq_refl eq_refl).
Defined.


Lemma or_and_compose_witness :
  exists out,
    buildWhereClause ex_schema (JObj [("$or", JArr [ex_by_name; ex_by_tags])]) 2
    = Ok out
    /\ pattern out
       = "(`$2:name` = '$3:name' OR (`$4:name` IS NULL OR JSON_CONTAINS(`$4:name`, JSON_ARRAY('$5:name')) = 1))"
    /\ out_values out = [JStr "name"; JStr "a"; JStr "tags"; JStr "x"].
Proof.
  destruct (buildWhereClause ex_schema ex_by_name 2) as [o1| | |] eqn:E1;
    try (vm_compute in E1; discriminate E1).
  assert (H1 : pattern o1 = "`$2:name` = '$3:name'"
               /\ out_values o1 = [JStr "name"; JStr "a"]).
  { vm_compute in E1. apply Ok_inj in E1. subst o1. split; reflexivity. }
  destruct H1 as [Hp1 Hv1].
  destruct (buildWhereClause ex_schema ex_by_tags
              (2 + List.length (out_values o1))) as [o2| | |] eqn:E2;
    try (rewrite Hv1 in E2; vm_compute in E2; discriminate E2).
  assert (H2 : pattern o2
               = "(`$4:name` IS NULL OR JSON_CONTAINS(`$4:name`, JSON_ARRAY('$5:name')) = 1)"
               /\ out_values o2 = [JStr "tags"; JStr "x"]).
  { rewrite Hv1 in E2. vm_compute in E2. apply Ok_inj in E2. subst o2.
    split; reflexivity. }
  destruct H2 as [Hp2 Hv2].
  destruct (or_and_compose ex_schema_props ex_fields "$or" ex_by_name ex_by_tags
              2 o1 o2 [JStr "name"; JStr "a"; JStr "tags"; JStr "x"]
              eq_refl (or_introl eq_refl) E1)
    as (out & E & Hp & Hv & _).
  - rewrite Hp1. discriminate.
  - exact E2.
  - rewrite Hp2. discriminate.
  - rewrite Hv1, Hv2. reflexivity.
  - exists out. split; [exact E|]. split; [|exact Hv].
    rewrite Hp, Hp1, Hp2. reflexivity.
Defined.

Lemma schema_round_trip_witness :
  exists sch1 view,
    toMySQLSchema (JObj ex_user_plain) = Ok sch1
    /\ toParseSchema sch1 = Ok view
    /\ prop view "fields"
       = JObj [("username", JObj [("type", JStr "String")]);
               ("_password_history", JObj [("type", JStr "Array")])].
Proof.
  destruct (schema_round_trip ex_user_plain
              [("username", JObj [("type", JStr "String")])]
              eq_refl eq_refl eq_refl eq_refl eq_refl)
    as (sch1 & view & E1 & E2 & _ & Hf).
  exists sch1, view. split; [exact E1|]. split; [exact E2|exact Hf].
Defined.

Lemma handleDotFields_no_dotted_key_witness :
  exists kvs',
    handleDotFields (JObj ex_dotted_update) = Ok (JObj kvs')
    /\ forall k v, In (k, v) kvs' -> includes "." k = false.
Proof.
  destruct (handleDotFields (JObj ex_dotted_update)) as [o| | |] eqn:E;
    try (vm_compute in E; discriminate E).
  destruct (handleDotFields_no_dotted_key ex_dotted_update o E)
    as (kvs' & -> & Hk).
  exists kvs'. split; [reflexivity|exact Hk].
Defined.

Lemma handleDotFields_nests_witness :
  handleDotFields (JObj ex_dotted_update)
  = Ok (JObj [("a", JObj [("b", JStr "v")])]).
Proof.
  apply (handleDotFields_nests "a" "b" (JStr "v"));
    [reflexivity|reflexivity|discriminate|reflexivity|discriminate].
Defined.

Lemma transformUpdate_index_witness :
  exists pattern values update',
    transformUpdate ex_schema ex_update_plain
    = Ok (Compiled pattern 4 values, update')
    /\ 4 = 2 + List.length values.
Proof.
  destruct (transformUpdate ex_schema ex_update_plain)
    as [[[p i vs|e] u]| | |] eqn:E; try (vm_compute in E; discriminate E).
  pose proof (transformUpdate_index _ _ _ _ _ _ E) as Hi.
  assert (Hi4 : i = 4).
  { vm_compute in E. apply Ok_inj in E. apply pair_inj in E.
    destruct E as [E _]. now injection E. }
  rewrite Hi4 in Hi. exists p, vs, u. split; [now rewrite Hi4|exact Hi].
Defined.

Lemma auth_data_key_folded_witness :
  transformUpdate ex_schema ex_update_auth
  = transformUpdate ex_schema
      (JObj [("authData", JObj [("facebook", JObj [("id", JStr "1")])])]).
Proof.
  refine (proj1 (auth_data_key_folded ex_schema "facebook"
                   (JObj [("id", JStr "1")]) _ eq_refl _ _)); discriminate.
Defined.

Lemma dotted_name_path_witness : dotted_name "a.b.c" = "`a`->>'$.b.c'".
Proof.
  apply (dotted_name_path "a" "b" ["c"]).
  intros c [<-|[<-|[<-|[]]]]; reflexivity.
Defined.

Lemma dotted_null_throws_witness :
  buildWhereClause ex_schema (JObj [("a.b", JNull)]) 2 = Throw TypeError.
Proof.
  exact (dotted_null_throws ex_schema_props ex_fields "a.b" 2 eq_refl eq_refl).
Defined.

Lemma fields_compose_witness :
  exists out,
    buildWhereClause ex_schema (JObj (ex_name_field ++ ex_nums_field)%list) 2
    = Ok out
    /\ pattern out
       = "`$2:name` = '$3:name' AND JSON_CONTAINS(`$4:name`, '$5:name')  !=  1 || JSON_CONTAINS(`$4:name`, '$6:name')  !=  1".
Proof.
  destruct (buildWhereClause ex_schema (JObj ex_name_field) 2)
    as [o1| | |] eqn:E1; try (vm_compute in E1; discriminate E1).
  assert (H1 : pattern o1 = "`$2:name` = '$3:name'"
               /\ out_values o1 = [JStr "name"; JStr "a"]).
  { vm_compute in E1. apply Ok_inj in E1. subst o1. split; reflexivity. }
  destruct H1 as [Hp1 Hv1].
  destruct (buildWhereClause ex_schema (JObj ex_nums_field)
              (2 + List.length (out_values o1))) as [o2| | |] eqn:E2;
    try (rewrite Hv1 in E2; vm_compute in E2; discriminate E2).
  assert (Hp2 : pattern o2
                = "JSON_CONTAINS(`$4:name`, '$5:name')  !=  1 || JSON_CONTAINS(`$4:name`, '$6:name')  !=  1").
  { rewrite Hv1 in E2. vm_compute in E2. apply Ok_inj in E2. subst o2.
    reflexivity. }
  eexists. split.
  - apply (fields_compose ex_schema_props ex_fields ex_name_field ex_nums_field
             2 o1 o2 eq_refl eq_refl E1 E2).
    + rewrite Hp1. discriminate.
    + rewrite Hp2. discriminate.
  - cbn [pattern]. rewrite Hp1, Hp2. reflexivity.
Defined.

Lemma joinTablesForSchema_stored_witness :
  exists sch1,
    toMySQLSchema (JObj ex_relation_schema) = Ok sch1
    /\ joinTablesForSchema sch1 = Ok ["_Join:friends:Team"].
Proof.
  destruct (toMySQLSchema (JObj ex_relation_schema)) as [sch1| | |] eqn:Es;
    try (vm_compute in Es; discriminate Es).
  exists sch1. split; [reflexivity|].
  rewrite (joinTablesForSchema_stored ex_relation_schema ex_relation_fields
             sch1 eq_refl eq_refl eq_refl eq_refl eq_refl Es).
  reflexivity.
Defined.

Lemma text_branch_accepts_witness :
  exists search t,
    get (prop ex_text "$text") "$search" = Ok search
    /\ prop search "$term" = JStr t /\ t <> "".
Proof.
  destruct (text_branch "title" ex_text ex_state) as [s'| | |] eqn:E;
    try (vm_compute in E; discriminate E).
  destruct (text_branch_accepts "title" ex_text ex_state s' eq_refl eq_refl E)
    as (search & t & Es & _ & Ht & Hne & _).
  exists search, t. auto.
Defined.
